(** * promise.hpp: a shallow embedding of the settlement state machine,
      the chaining protocol and the two combinators.

    The C++ library is a header of templates over a payload type [T].  The
    embedding keeps one store of settlement states (the targets of the
    [std::shared_ptr<state>] handles), one store of [make_all_promise]
    contexts, and a ghost trace that records every call of a user supplied
    callback.  Handles are indices into the store, so copies of a handle alias
    the same state, exactly as copies of a [promise<T>] do.

    Closures that the library stores inside a state ([resolve_h], [reject_h]
    and the lambdas of the combinators) are represented by the data they
    capture; calling one is done by the interpreter below, which follows the
    lambda bodies of the source line by line.  User callbacks are functions
    on payloads that either return or throw; they carry a label so that the
    trace can tell them apart.  The overloads of [then] that flatten a
    promise-returning callback ([then_all], [then_any] included) are not part
    of this development.

    [promise<void>] is the instance of the same code at the payload [VVoid]:
    the specialisation in the source differs from the primary template only
    in having no storage slot. *)

From Stdlib Require Import ZArith String Lia.
From stdpp Require Import base list.

Set Warnings "-register-all".

(** ** Data *)

Inductive val : Type :=
| VVoid
| VInt (z : Z)
| VVec (l : list val).

Inductive exception : Type :=
| logic_error (what : string)
| user_exception (code : Z).

(** [std::exception_ptr]; [None] is [nullptr]. *)
Definition exception_ptr : Type := option exception.

(** [enum class status]. *)
Inductive status : Type := pending | resolved | rejected.

(** A handle [promise<T>]: the address of its shared state. *)
Abbreviation promise := nat (only parsing).

(** The two closures [make_promise] hands to its initiator; each captures a
    copy [p] of the result handle. *)
Inductive resolver_t : Type := Resolver (p : promise).
Inductive rejector_t : Type := Rejector (p : promise).

(** Callables that reach [then] in the [ResolveF] position. *)
Inductive ResolveF : Type :=
| RF_user (label : nat) (body : val -> val + exception)
    (* a callback of the caller: returns a value or throws *)
| RF_identity
    (* fail: [](const T& value) { return value; } and []{} *)
| RF_all (context : nat) (resolver : resolver_t) (result_index : nat)
    (* make_all_promise: [context, resolver, result_index](const auto& v) *)
| RF_any (resolver : resolver_t).
    (* make_any_promise: [resolver](const auto& v) { resolver(v); } *)

(** Callables that reach [then] in the [RejectF] position. *)
Inductive RejectF : Type :=
| JF_user (label : nat) (body : exception_ptr -> option exception)
    (* a callback of the caller: returns ([None]) or throws ([Some c]) *)
| JF_ignore
    (* then(on_resolve): [](std::exception_ptr){} *)
| JF_rejector (rejector : rejector_t).
    (* combinators: [rejector](std::exception_ptr e) { rejector(e); } *)

(** The lambda [reject_h] of [state::attach]: captures [n = next] and [f]. *)
Record reject_h : Type := mk_reject_h {
  rj_n : promise;
  rj_f : RejectF
}.

(** The lambda [resolve_h] of [state::attach]: captures [n], [f] and
    [j = reject_h]. *)
Record resolve_h : Type := mk_resolve_h {
  rs_n : promise;
  rs_f : ResolveF;
  rs_j : reject_h
}.

(** [struct handler]. *)
Record handler : Type := mk_handler {
  resolve_ : resolve_h;
  reject_ : reject_h
}.

(** [class state]: [storage_] is [detail::storage<T>] ([None] when
    [initialized_] is false), [mutex_] is true while the mutex is held. *)
Record state : Type := mk_state {
  storage_ : option val;
  status_ : status;
  exception_ : exception_ptr;
  mutex_ : bool;
  handlers_ : list handler
}.

(** [context_t] of [make_all_promise]. *)
Record context_t : Type := mk_context {
  results : list val;
  counter : nat
}.

(** Ghost trace: one event per call of a user callback, with its argument. *)
Inductive event : Type :=
| EvResolve (label : nat) (v : val)
| EvReject (label : nat) (e : exception_ptr).

Record world : Type := mk_world {
  promises : list state;
  contexts : list context_t;
  trace : list event
}.

Definition empty_world : world := mk_world [] [] [].

(** ** The effect monad: state, C++ exceptions, and the ways a run can fail
    to return. *)

Inductive fault : Type :=
| out_of_fuel      (* the interpreter's recursion bound was reached *)
| deadlock         (* a held std::mutex was locked again *)
| assert_fail      (* an assert of detail::storage failed *)
| terminate_called (* an exception left a noexcept function *)
| bad_handle.      (* an index outside the store; shared_ptr excludes it *)

Inductive res (A : Type) : Type :=
| Ret (a : A) (w : world)
| Throw (e : exception) (w : world)
| Fault (f : fault).
Arguments Ret {A} a w.
Arguments Throw {A} e w.
Arguments Fault {A} f.

Definition M (A : Type) : Type := world -> res A.

Definition ret {A} (a : A) : M A := fun w => Ret a w.
Definition throw {A} (e : exception) : M A := fun w => Throw e w.
Definition fail_with {A} (f : fault) : M A := fun _ => Fault f.

Definition bind {A B} (m : M A) (k : A -> M B) : M B :=
  fun w => match m w with
           | Ret a w' => k a w'
           | Throw e w' => Throw e w'
           | Fault f => Fault f
           end.

(** [try { m } catch (...) { h(std::current_exception()) }]. *)
Definition try_catch {A} (m : M A) (h : exception -> M A) : M A :=
  fun w => match m w with
           | Throw e w' => h e w'
           | r => r
           end.

(** A call inside a [noexcept] function: an escaping exception ends the
    program. *)
Definition noexcept {A} (m : M A) : M A :=
  fun w => match m w with
           | Throw _ _ => Fault terminate_called
           | r => r
           end.

Declare Scope promise_scope.
Delimit Scope promise_scope with P.
Notation "x <- m ;; k" := (bind m (fun x => k))
  (at level 100, m at next level, right associativity) : promise_scope.
Notation "m ;;; k" := (bind m (fun _ => k))
  (at level 100, right associativity) : promise_scope.
Open Scope promise_scope.

(** [for (const auto& h : l) body(h);] *)
Fixpoint for_each {A} (body : A -> M unit) (l : list A) : M unit :=
  match l with
  | [] => ret tt
  | x :: l' => body x ;;; for_each body l'
  end.

(** ** Store access *)

Definition get_state (p : promise) : M state :=
  fun w => match promises w !! p with
           | Some st => Ret st w
           | None => Fault bad_handle
           end.

Definition put_state (p : promise) (st : state) : M unit :=
  fun w => Ret tt (mk_world (<[p := st]> (promises w)) (contexts w) (trace w)).

Definition log (ev : event) : M unit :=
  fun w => Ret tt (mk_world (promises w) (contexts w) (trace w ++ [ev])).

(** [std::make_shared<state>()], as in the constructor [promise()]. *)
Definition fresh_state : state := mk_state None pending None false [].

Definition new_promise : M promise :=
  fun w => Ret (length (promises w))
               (mk_world (promises w ++ [fresh_state]) (contexts w) (trace w)).

(** [std::lock_guard<std::mutex> guard(mutex_)]: construction and
    destruction.  No exception crosses a guard: what runs under one is
    [noexcept] or catches everything it calls, so the release of the mutex
    during unwinding has no counterpart here. *)
Definition lock (p : promise) : M unit :=
  st <- get_state p ;;
  if mutex_ st then fail_with deadlock
  else put_state p (mk_state (storage_ st) (status_ st) (exception_ st) true
                             (handlers_ st)).

Definition unlock (p : promise) : M unit :=
  st <- get_state p ;;
  put_state p (mk_state (storage_ st) (status_ st) (exception_ st) false
                        (handlers_ st)).

(** [storage_.set(value)] and [storage_.value()], with their asserts. *)
Definition storage_set (p : promise) (v : val) : M unit :=
  st <- get_state p ;;
  match storage_ st with
  | Some _ => fail_with assert_fail
  | None => put_state p (mk_state (Some v) (status_ st) (exception_ st)
                                  (mutex_ st) (handlers_ st))
  end.

Definition storage_value (p : promise) : M val :=
  st <- get_state p ;;
  match storage_ st with
  | Some v => ret v
  | None => fail_with assert_fail
  end.

Definition set_status (p : promise) (s : status) : M unit :=
  st <- get_state p ;;
  put_state p (mk_state (storage_ st) s (exception_ st) (mutex_ st)
                        (handlers_ st)).

Definition set_exception (p : promise) (e : exception_ptr) : M unit :=
  st <- get_state p ;;
  put_state p (mk_state (storage_ st) (status_ st) e (mutex_ st)
                        (handlers_ st)).

Definition push_handler (p : promise) (h : handler) : M unit :=
  st <- get_state p ;;
  put_state p (mk_state (storage_ st) (status_ st) (exception_ st) (mutex_ st)
                        (handlers_ st ++ [h])).

Definition clear_handlers (p : promise) : M unit :=
  st <- get_state p ;;
  put_state p (mk_state (storage_ st) (status_ st) (exception_ st) (mutex_ st)
                        []).

(** ** make_all_promise's context *)

Definition get_context (c : nat) : M context_t :=
  fun w => match contexts w !! c with
           | Some x => Ret x w
           | None => Fault bad_handle
           end.

Definition put_context (c : nat) (x : context_t) : M unit :=
  fun w => Ret tt (mk_world (promises w) (<[c := x]> (contexts w)) (trace w)).

(** [std::make_shared<context_t>(count)]: [results(count)] holds [count]
    value-initialised payloads, [dflt] below. *)
Definition make_shared_context (dflt : val) (count : nat) : M nat :=
  fun w => Ret (length (contexts w))
               (mk_world (promises w)
                         (contexts w ++ [mk_context (replicate count dflt) 0])
                         (trace w)).

(** [context_t::apply_result]: [results[index] = value; return ++counter ==
    results.size();].  An index past the end is undefined behaviour in the
    source; here the write is dropped. *)
Definition apply_result (c : nat) (index : nat) (value : val) : M bool :=
  x <- get_context c ;;
  let r := <[index := value]> (results x) in
  let n := S (counter x) in
  put_context c (mk_context r n) ;;;
  ret (Nat.eqb n (length r)).

(** ** Calling the stored closures

    The bodies are parameterised by the two settlement functions they call
    on the captured handles; [resolve] and [reject] below tie the knot. *)

Section Closures.
Variable resolve : promise -> val -> M bool.
Variable reject : promise -> exception_ptr -> M bool.

(** [invoke_hpp::invoke(f, v)] for each callable of [ResolveF].  A
    callable returning [void] yields [VVoid].  In [RF_all] the argument of
    the resolver is [std::move(context->results)]; the moved-from vector is
    not represented, the source never reads it again. *)
Definition invoke_resolveF (f : ResolveF) (v : val) : M val :=
  match f with
  | RF_user l body =>
      log (EvResolve l v) ;;;
      match body v with
      | inl r => ret r
      | inr c => throw c
      end
  | RF_identity => ret v
  | RF_all context (Resolver p) result_index =>
      last <- apply_result context result_index v ;;
      if (last : bool) then
        x <- get_context context ;;
        resolve p (VVec (results x)) ;;;
        ret VVoid
      else ret VVoid
  | RF_any (Resolver p) =>
      resolve p v ;;;
      ret VVoid
  end.

(** [invoke_hpp::invoke(f, e)] for each callable of [RejectF]. *)
Definition invoke_rejectF (f : RejectF) (e : exception_ptr) : M unit :=
  match f with
  | JF_user l body =>
      log (EvReject l e) ;;;
      match body e with
      | None => ret tt
      | Some c => throw c
      end
  | JF_ignore => ret tt
  | JF_rejector (Rejector p) =>
      reject p e ;;;
      ret tt
  end.

(** [reject_h]:
    [try { invoke(f, e); n.reject(e); }
     catch (...) { n.reject(std::current_exception()); }] *)
Definition call_reject_h (h : reject_h) (e : exception_ptr) : M unit :=
  try_catch
    (invoke_rejectF (rj_f h) e ;;;
     reject (rj_n h) e ;;;
     ret tt)
    (fun c => reject (rj_n h) (Some c) ;;; ret tt).

(** [resolve_h]:
    [try { auto r = invoke(f, v); n.resolve(std::move(r)); }
     catch (...) { invoke(std::move(j), std::current_exception()); }] *)
Definition call_resolve_h (h : resolve_h) (v : val) : M unit :=
  try_catch
    (r <- invoke_resolveF (rs_f h) v ;;
     resolve (rs_n h) r ;;;
     ret tt)
    (fun c => call_reject_h (rs_j h) (Some c)).

(** [state::invoke_resolve_handlers_] and [state::invoke_reject_handlers_]
    (both [noexcept]).  The mutex of [p] is held here, so the vector the
    loop walks cannot change under it. *)
Definition invoke_resolve_handlers_ (p : promise) : M unit :=
  noexcept
    (value <- storage_value p ;;
     st <- get_state p ;;
     for_each (fun h => call_resolve_h (resolve_ h) value) (handlers_ st) ;;;
     clear_handlers p).

Definition invoke_reject_handlers_ (p : promise) : M unit :=
  noexcept
    (st <- get_state p ;;
     for_each (fun h => call_reject_h (reject_ h) (exception_ st))
              (handlers_ st) ;;;
     clear_handlers p).

(** [state::resolve]. *)
Definition state_resolve (p : promise) (value : val) : M bool :=
  lock p ;;;
  st <- get_state p ;;
  match status_ st with
  | pending =>
      storage_set p value ;;;
      set_status p resolved ;;;
      invoke_resolve_handlers_ p ;;;
      unlock p ;;;
      ret true
  | _ =>
      unlock p ;;;
      ret false
  end.

(** [state::reject] ([noexcept]). *)
Definition state_reject (p : promise) (e : exception_ptr) : M bool :=
  noexcept
    (lock p ;;;
     st <- get_state p ;;
     match status_ st with
     | pending =>
         set_exception p e ;;;
         set_status p rejected ;;;
         invoke_reject_handlers_ p ;;;
         unlock p ;;;
         ret true
     | _ =>
         unlock p ;;;
         ret false
     end).

(** [state::add_handlers_]. *)
Definition add_handlers_ (p : promise) (rs : resolve_h) (rj : reject_h)
  : M unit :=
  st <- get_state p ;;
  match status_ st with
  | resolved =>
      value <- storage_value p ;;
      call_resolve_h rs value
  | rejected => call_reject_h rj (exception_ st)
  | pending => push_handler p (mk_handler rs rj)
  end.

(** [state::attach]: build the two closures, then add them under the
    lock. *)
Definition state_attach (p next : promise) (f : ResolveF) (g : RejectF)
  : M unit :=
  let reject_h := mk_reject_h next g in
  let resolve_h := mk_resolve_h next f reject_h in
  lock p ;;;
  add_handlers_ p resolve_h reject_h ;;;
  unlock p.
End Closures.

(** [promise<T>::resolve] and [promise<T>::reject]: the recursion through
    stored closures is bounded by [fuel], the depth of nested settlements. *)
Fixpoint reject (fuel : nat) (p : promise) (e : exception_ptr) : M bool :=
  match fuel with
  | 0 => fail_with out_of_fuel
  | S k => state_reject (reject k) p e
  end.

Fixpoint resolve (fuel : nat) (p : promise) (value : val) : M bool :=
  match fuel with
  | 0 => fail_with out_of_fuel
  | S k => state_resolve (resolve k) (reject k) p value
  end.

Definition attach (fuel : nat) : promise -> promise -> ResolveF -> RejectF -> M unit :=
  state_attach (resolve fuel) (reject fuel).

(** [then(on_resolve, on_reject)] for a callback that returns a plain
    value. *)
Definition then_ (fuel : nat) (p : promise) (on_resolve : ResolveF)
    (on_reject : RejectF) : M promise :=
  next <- new_promise ;;
  attach fuel p next on_resolve on_reject ;;;
  ret next.

(** [then(on_resolve)]. *)
Definition then1 (fuel : nat) (p : promise) (on_resolve : ResolveF)
    : M promise :=
  then_ fuel p on_resolve JF_ignore.

(** [fail(on_reject)]. *)
Definition fail (fuel : nat) (p : promise) (on_reject : RejectF) : M promise :=
  then_ fuel p RF_identity on_reject.

(** ** Factories *)

Definition call_resolver (fuel : nat) (r : resolver_t) (v : val) : M bool :=
  match r with Resolver p => resolve fuel p v end.

Definition call_rejector (fuel : nat) (r : rejector_t) (e : exception_ptr)
    : M bool :=
  match r with Rejector p => reject fuel p e end.

(** [make_promise<R>(f)]. *)
Definition make_promise (fuel : nat) (f : resolver_t -> rejector_t -> M unit)
    : M promise :=
  result <- new_promise ;;
  try_catch
    (f (Resolver result) (Rejector result))
    (fun c => reject fuel result (Some c) ;;; ret tt) ;;;
  ret result.

(** [make_resolved_promise(v)] and [make_rejected_promise(e)]. *)
Definition make_resolved_promise (fuel : nat) (v : val) : M promise :=
  result <- new_promise ;;
  resolve fuel result v ;;;
  ret result.

Definition make_rejected_promise (fuel : nat) (e : exception_ptr) : M promise :=
  result <- new_promise ;;
  reject fuel result e ;;;
  ret result.

(** The loop of [make_all_promise]:
    [for (iter = begin; iter != end; ++iter, ++result_index)] with the body
    [iter->then(...).fail(...)]. *)
Fixpoint all_loop (fuel : nat) (context : nat) (resolver : resolver_t)
    (rejector : rejector_t) (result_index : nat) (iter : list promise)
    : M unit :=
  match iter with
  | [] => ret tt
  | p :: iter' =>
      n <- then1 fuel p (RF_all context resolver result_index) ;;
      fail fuel n (JF_rejector rejector) ;;;
      all_loop fuel context resolver rejector (S result_index) iter'
  end.

(** [make_all_promise(begin, end)]; [dflt] is the value-initialised child
    payload that fills [results(count)]. *)
Definition make_all_promise (fuel : nat) (dflt : val) (ps : list promise)
    : M promise :=
  match ps with
  | [] => make_resolved_promise fuel (VVec [])
  | _ =>
      make_promise fuel (fun resolver rejector =>
        context <- make_shared_context dflt (length ps) ;;
        all_loop fuel context resolver rejector 0 ps)
  end.

Definition any_loop (fuel : nat) (resolver : resolver_t)
    (rejector : rejector_t) (ps : list promise) : M unit :=
  for_each (fun p =>
              n <- then1 fuel p (RF_any resolver) ;;
              fail fuel n (JF_rejector rejector) ;;;
              ret tt) ps.

(** [make_any_promise(begin, end)]. *)
Definition make_any_promise (fuel : nat) (ps : list promise) : M promise :=
  match ps with
  | [] =>
      throw (logic_error
        "at least one input promise must be provided for make_any_promise")
  | _ => make_promise fuel (fun resolver rejector =>
                              any_loop fuel resolver rejector ps)
  end.

(** ** Observations *)

Definition status_of (w : world) (p : promise) : option status :=
  status_ <$> promises w !! p.

(** The settled outcome of [p], as a consumer attached now would see it. *)
Inductive outcome : Type :=
| Resolved (v : val)
| Rejected (e : exception_ptr).

Definition outcome_of (w : world) (p : promise) : option outcome :=
  match promises w !! p with
  | Some st =>
      match status_ st with
      | pending => None
      | resolved => Resolved <$> storage_ st
      | rejected => Some (Rejected (exception_ st))
      end
  | None => None
  end.

(** ** Elementary facts about the store *)

Definition set_st (p : promise) (st : state) (w : world) : world :=
  mk_world (<[p := st]> (promises w)) (contexts w) (trace w).

Lemma lookup_set_st_eq p st w :
  p < length (promises w) -> promises (set_st p st w) !! p = Some st.
Proof. intros H. simpl. by apply list_lookup_insert_eq. Qed.

Lemma lookup_set_st_ne p q st w :
  p <> q -> promises (set_st p st w) !! q = promises w !! q.
Proof. intros H. simpl. by apply list_lookup_insert_ne. Qed.

Lemma set_st_set_st p st1 st2 w :
  set_st p st2 (set_st p st1 w) = set_st p st2 w.
Proof. unfold set_st. simpl. by rewrite list_insert_insert_eq. Qed.

Lemma set_st_id p st w : promises w !! p = Some st -> set_st p st w = w.
Proof.
  intros H. unfold set_st. rewrite list_insert_id by done. by destruct w.
Qed.

Lemma length_set_st p st w :
  length (promises (set_st p st w)) = length (promises w).
Proof. simpl. apply length_insert. Qed.

Lemma state_eta st :
  mk_state (storage_ st) (status_ st) (exception_ st) (mutex_ st)
           (handlers_ st) = st.
Proof. by destruct st. Qed.

(** ** What [state::reject] and [state::resolve] compute *)

Section Characterisation.
Variable resolve : promise -> val -> M bool.
Variable reject : promise -> exception_ptr -> M bool.

Lemma state_reject_settled p e w st :
  promises w !! p = Some st -> mutex_ st = false -> status_ st <> pending ->
  state_reject reject p e w = Ret false w.
Proof.
  intros Hp Hm Hs.
  assert (Hlt : p < length (promises w)) by (by eapply lookup_lt_Some).
  unfold state_reject, noexcept, lock, unlock, bind, get_state, put_state,
    fail_with, ret.
  rewrite Hp, Hm. simpl. rewrite list_lookup_insert_eq by done. simpl.
  destruct (status_ st) eqn:E; [done | |];
    simpl; rewrite list_lookup_insert_eq by (by rewrite ?length_insert);
    simpl; rewrite list_insert_insert_eq;
    rewrite <- Hm, <- E, state_eta, list_insert_id by done;
    by destruct w.
Qed.

Lemma state_resolve_settled p v w st :
  promises w !! p = Some st -> mutex_ st = false -> status_ st <> pending ->
  state_resolve resolve reject p v w = Ret false w.
Proof.
  intros Hp Hm Hs.
  assert (Hlt : p < length (promises w)) by (by eapply lookup_lt_Some).
  unfold state_resolve, lock, unlock, bind, get_state, put_state,
    fail_with, ret.
  rewrite Hp, Hm. simpl. rewrite list_lookup_insert_eq by done. simpl.
  destruct (status_ st) eqn:E; [done | |];
    simpl; rewrite list_lookup_insert_eq by (by rewrite ?length_insert);
    simpl; rewrite list_insert_insert_eq;
    rewrite <- Hm, <- E, state_eta, list_insert_id by done;
    by destruct w.
Qed.

(** Settling a pending state: mark it, run the queue, clear and unlock. *)
Definition finish (p : promise) (r : res unit) : res bool :=
  match r with
  | Ret _ w2 =>
      match promises w2 !! p with
      | Some st2 =>
          Ret true (set_st p (mk_state (storage_ st2) (status_ st2)
                                       (exception_ st2) false []) w2)
      | None => Fault bad_handle
      end
  | Throw _ _ => Fault terminate_called
  | Fault f => Fault f
  end.

Lemma state_reject_pending p e w st :
  promises w !! p = Some st -> mutex_ st = false -> status_ st = pending ->
  state_reject reject p e w =
  finish p
    (for_each (fun h => call_reject_h reject (reject_ h) e) (handlers_ st)
       (set_st p (mk_state (storage_ st) rejected e true (handlers_ st)) w)).
Proof.
  intros Hp Hm Hs.
  assert (Hlt : p < length (promises w)) by (by eapply lookup_lt_Some).
  unfold state_reject, invoke_reject_handlers_, noexcept, lock, unlock,
    set_exception, set_status, clear_handlers, bind, get_state, put_state,
    fail_with, ret.
  rewrite Hp, Hm. simpl. rewrite list_lookup_insert_eq by done. simpl.
  rewrite Hs. simpl.
  repeat (rewrite ?list_lookup_insert_eq by (by rewrite ?length_insert);
          simpl; rewrite ?list_insert_insert_eq).
  unfold set_st.
  destruct (for_each _ _ _) as [[] w2|c w2|f]; simpl; try done.
  destruct (promises w2 !! p) as [st2|] eqn:E2; simpl; [|done].
  assert (p < length (promises w2)) by (by eapply lookup_lt_Some).
  repeat (rewrite ?list_lookup_insert_eq by (by rewrite ?length_insert);
          simpl; rewrite ?list_insert_insert_eq).
  done.
Qed.

Lemma state_resolve_pending p v w st :
  promises w !! p = Some st -> mutex_ st = false -> status_ st = pending ->
  storage_ st = None ->
  state_resolve resolve reject p v w =
  finish p
    (for_each (fun h => call_resolve_h resolve reject (resolve_ h) v)
       (handlers_ st)
       (set_st p (mk_state (Some v) resolved (exception_ st) true
                           (handlers_ st)) w)).
Proof.
  intros Hp Hm Hs Hn.
  assert (Hlt : p < length (promises w)) by (by eapply lookup_lt_Some).
  unfold state_resolve, invoke_resolve_handlers_, noexcept, lock, unlock,
    storage_set, storage_value, set_status, clear_handlers, bind, get_state,
    put_state, fail_with, ret.
  rewrite Hp, Hm. simpl. rewrite list_lookup_insert_eq by done. simpl.
  rewrite Hs. simpl.
  repeat (rewrite ?list_lookup_insert_eq by (by rewrite ?length_insert);
          simpl; rewrite ?list_insert_insert_eq).
  rewrite Hn. simpl.
  repeat (rewrite ?list_lookup_insert_eq by (by rewrite ?length_insert);
          simpl; rewrite ?list_insert_insert_eq).
  unfold set_st.
  destruct (for_each _ _ _) as [[] w2|c w2|f]; simpl; try done.
  destruct (promises w2 !! p) as [st2|] eqn:E2; simpl; [|done].
  assert (p < length (promises w2)) by (by eapply lookup_lt_Some).
  repeat (rewrite ?list_lookup_insert_eq by (by rewrite ?length_insert);
          simpl; rewrite ?list_insert_insert_eq).
  done.
Qed.
End Characterisation.

(** ** Monad laws used to evaluate runs *)

Lemma bind_ret {A B} (m : M A) (k : A -> M B) w a w1 :
  m w = Ret a w1 -> bind m k w = k a w1.
Proof. intros H. unfold bind. by rewrite H. Qed.

Lemma bind_throw {A B} (m : M A) (k : A -> M B) w c w1 :
  m w = Throw c w1 -> bind m k w = Throw c w1.
Proof. intros H. unfold bind. by rewrite H. Qed.

Lemma try_catch_ret {A} (m : M A) h w a w1 :
  m w = Ret a w1 -> try_catch m h w = Ret a w1.
Proof. intros H. unfold try_catch. by rewrite H. Qed.

Lemma try_catch_throw {A} (m : M A) h w c w1 :
  m w = Throw c w1 -> try_catch m h w = h c w1.
Proof. intros H. unfold try_catch. by rewrite H. Qed.

Lemma get_context_eq c w x :
  contexts w !! c = Some x -> get_context c w = Ret x w.
Proof. intros H. unfold get_context. by rewrite H. Qed.

Definition applied (c i : nat) (v : val) (x : context_t) (w : world) : world :=
  mk_world (promises w)
           (<[c := mk_context (<[i := v]> (results x)) (S (counter x))]>
              (contexts w))
           (trace w).

Lemma apply_result_eq c i v w x :
  contexts w !! c = Some x ->
  apply_result c i v w =
  Ret (S (counter x) =? length (results x)) (applied c i v x w).
Proof.
  intros H. unfold apply_result, bind, get_context, put_context, ret.
  rewrite H. simpl. by rewrite length_insert.
Qed.

(** ** Which handles, contexts and labels a closure mentions *)

Section Mentions.
Variable P : promise -> Prop.
Variable C L : nat -> Prop.

Definition rf_ok (f : ResolveF) : Prop :=
  match f with
  | RF_user l _ => L l
  | RF_identity => True
  | RF_all c (Resolver r) _ => C c /\ P r
  | RF_any (Resolver r) => P r
  end.

Definition jf_ok (g : RejectF) : Prop :=
  match g with
  | JF_user l _ => L l
  | JF_ignore => True
  | JF_rejector (Rejector r) => P r
  end.

Definition reject_h_ok (h : reject_h) : Prop :=
  P (rj_n h) /\ jf_ok (rj_f h).

Definition resolve_h_ok (h : resolve_h) : Prop :=
  P (rs_n h) /\ rf_ok (rs_f h) /\ reject_h_ok (rs_j h).

Definition handler_ok (h : handler) : Prop :=
  resolve_h_ok (resolve_ h) /\ reject_h_ok (reject_ h).
End Mentions.

Lemma handler_ok_impl (P P' : promise -> Prop) (C C' L L' : nat -> Prop) h :
  (forall t, P t -> P' t) -> (forall c, C c -> C' c) ->
  (forall l, L l -> L' l) ->
  handler_ok P C L h -> handler_ok P' C' L' h.
Proof.
  intros HP HC HL. destruct h as [[n f [n' g']] [n'' g'']].
  unfold handler_ok, resolve_h_ok, reject_h_ok. simpl.
  intros [(? & Hf & ? & Hg') [? Hg'']].
  repeat split; auto.
  - destruct f as [| |c [r] i|[r]]; simpl in *; intuition.
  - destruct g' as [| |[r]]; simpl in *; intuition.
  - destruct g'' as [| |[r]]; simpl in *; intuition.
Qed.

Definition ev_label (ev : event) : nat :=
  match ev with
  | EvResolve l _ => l
  | EvReject l _ => l
  end.

(** A settled state as [resolve]/[reject] leave it. *)
Definition settled_clean (st : state) : Prop :=
  status_ st <> pending /\ handlers_ st = [] /\ mutex_ st = false /\
  (status_ st = resolved -> is_Some (storage_ st)).

Section Settle.
(** [rank] orders the handles so that every queued closure only mentions
    handles of larger rank; [B] bounds the ranks.  [N], [C] and [L] are
    handles, contexts and labels that no queued closure mentions.  The
    states of the handles in [X], a part of [N], are left unconstrained:
    nothing reaches them. *)
Variable rank : promise -> nat.
Variable B : nat.
Variable X N : promise -> Prop.
Variable C L : nat -> Prop.
Hypothesis X_in_N : forall q, X q -> N q.

Definition tok (w : world) (lo : nat) (t : promise) : Prop :=
  lo <= rank t /\ t < length (promises w) /\ ~ N t.
Definition cok (w : world) (c : nat) : Prop :=
  c < length (contexts w) /\ ~ C c.
Definition lok (l : nat) : Prop := ~ L l.

Definition state_inv (lo : nat) (w : world) (q : promise) (st : state)
  : Prop :=
  rank q <= B /\
  (lo <= rank q -> mutex_ st = false) /\
  (status_ st = resolved -> is_Some (storage_ st)) /\
  (status_ st = pending ->
     storage_ st = None /\
     Forall (handler_ok (tok w (S (rank q))) (cok w) lok) (handlers_ st)).

Definition inv (lo : nat) (w : world) : Prop :=
  forall q st, promises w !! q = Some st -> ~ X q -> state_inv lo w q st.

(** What a settlement may change: pending states outside [N] may become
    settled, contexts outside [C] may change, events with labels outside
    [L] may be logged. *)
Definition step_rel (w w' : world) : Prop :=
  length (promises w') = length (promises w) /\
  length (contexts w') = length (contexts w) /\
  (forall q st, promises w !! q = Some st ->
     promises w' !! q = Some st \/
     (status_ st = pending /\ ~ N q /\
      exists st', promises w' !! q = Some st' /\ settled_clean st')) /\
  (forall c, C c -> contexts w' !! c = contexts w !! c) /\
  (exists evs, trace w' = trace w ++ evs /\
               Forall (fun ev => ~ L (ev_label ev)) evs).

Lemma step_rel_refl w : step_rel w w.
Proof.
  repeat split; auto. exists []. by rewrite app_nil_r.
Qed.

Lemma step_rel_trans w1 w2 w3 :
  step_rel w1 w2 -> step_rel w2 w3 -> step_rel w1 w3.
Proof.
  intros (Hl1 & Hc1 & Hs1 & Hx1 & evs1 & Ht1 & Hf1)
         (Hl2 & Hc2 & Hs2 & Hx2 & evs2 & Ht2 & Hf2).
  repeat split.
  - congruence.
  - congruence.
  - intros q st Hq. destruct (Hs1 q st Hq) as [H1|(Hp & HN & st' & H1 & Hc)].
    + destruct (Hs2 q st H1) as [H2|(Hp & HN & st' & H2 & Hc)]; eauto 10.
    + right. repeat split; try done.
      destruct (Hs2 q st' H1) as [H2|(Hp' & _)]; eauto.
      by destruct Hc.
  - intros c Hc. rewrite Hx2, Hx1; auto.
  - exists (evs1 ++ evs2). split.
    + rewrite Ht2, Ht1. by rewrite app_assoc.
    + by apply Forall_app.
Qed.

Lemma handlers_ok_lengths w w' lo hs :
  length (promises w') = length (promises w) ->
  length (contexts w') = length (contexts w) ->
  Forall (handler_ok (tok w lo) (cok w) lok) hs ->
  Forall (handler_ok (tok w' lo) (cok w') lok) hs.
Proof.
  intros Hl Hc H. eapply Forall_impl; [exact H|]. intros h.
  apply handler_ok_impl; unfold tok, cok; try done; rewrite ?Hl, ?Hc; done.
Qed.

Lemma inv_step lo w w' : inv lo w -> step_rel w w' -> inv lo w'.
Proof.
  intros Hi (Hl & Hc & Hs & _) q st' Hq HX.
  assert (Hlt : q < length (promises w))
    by (rewrite <- Hl; by eapply lookup_lt_Some).
  destruct (lookup_lt_is_Some_2 _ _ Hlt) as [st Hst].
  destruct (Hi q st Hst HX) as (Hr & Hm & Hv & Hp).
  destruct (Hs q st Hst) as [H1|(Hpe & HN & st2 & H2 & Hn & Hh & Hmu & Hsv)].
  - assert (st' = st) by congruence. subst st'.
    repeat split; auto.
    + by apply Hp.
    + eapply handlers_ok_lengths; [done..|]. by apply Hp.
  - assert (st' = st2) by congruence. subst st'.
    repeat split; auto; by intros.
Qed.

(** Changes that [step_rel] allows. *)
Lemma step_rel_log w ev :
  ~ L (ev_label ev) ->
  step_rel w (mk_world (promises w) (contexts w) (trace w ++ [ev])).
Proof.
  intros H. repeat split; simpl; auto.
  exists [ev]. split; [done|]. by constructor.
Qed.

Lemma step_rel_context w c x :
  ~ C c ->
  step_rel w (mk_world (promises w) (<[c := x]> (contexts w)) (trace w)).
Proof.
  intros H. repeat split; simpl; auto.
  - apply length_insert.
  - intros c' Hc'. apply list_lookup_insert_ne. congruence.
  - exists []. by rewrite app_nil_r.
Qed.

(** From the run of the queue of [p] to the whole settlement of [p]. *)
Lemma step_rel_settle w p st st1 w2 st2 :
  promises w !! p = Some st -> status_ st = pending -> ~ N p ->
  step_rel (set_st p st1 w) w2 ->
  settled_clean st2 ->
  step_rel w (set_st p st2 w2).
Proof.
  intros Hp Hs HN (Hl & Hc & Hst & Hx & evs & Ht & Hf) Hcl.
  assert (Hlt : p < length (promises w)) by (by eapply lookup_lt_Some).
  rewrite length_set_st in Hl.
  repeat split; simpl.
  - rewrite length_insert. done.
  - done.
  - intros q st' Hq. destruct (decide (q = p)) as [->|Hne].
    + right. assert (st' = st) by congruence. subst.
      repeat split; try done. exists st2. split; [|done].
      apply list_lookup_insert_eq. by rewrite Hl.
    + rewrite list_lookup_insert_ne by done.
      apply Hst. by rewrite lookup_set_st_ne.
  - done.
  - exists evs. done.
Qed.

Lemma inv_locked lo w p st st1 :
  inv lo w -> promises w !! p = Some st -> lo <= rank p ->
  status_ st1 <> pending ->
  (status_ st1 = resolved -> is_Some (storage_ st1)) ->
  inv (S (rank p)) (set_st p st1 w).
Proof.
  intros Hi Hp Hlo Hs1 Hv1 q st' Hq HX.
  assert (Hlt : p < length (promises w)) by (by eapply lookup_lt_Some).
  destruct (decide (q = p)) as [->|Hne].
  - rewrite lookup_set_st_eq in Hq by done.
    assert (st' = st1) by congruence. subst.
    destruct (Hi p st Hp HX) as (Hr & _).
    repeat split; try done; lia.
  - rewrite lookup_set_st_ne in Hq by done.
    destruct (Hi q st' Hq HX) as (Hr & Hm & Hv & Hpe).
    split; [done|]. split; [intros; apply Hm; lia|]. split; [done|].
    intros Hq'. split; [by apply Hpe|].
    eapply handlers_ok_lengths; [| |by apply Hpe]; simpl;
      by rewrite ?length_insert.
Qed.

Lemma tok_step w w' lo t : step_rel w w' -> tok w lo t -> tok w' lo t.
Proof. intros (Hl & _) (? & ? & ?). unfold tok. rewrite Hl. done. Qed.

(** *** [reject] *)

Definition reject_spec (k : nat) : Prop :=
  forall lo p e w,
    inv lo w -> tok w lo p -> B < rank p + k ->
    exists b w',
      reject k p e w = Ret b w' /\ step_rel w w' /\
      forall st, promises w !! p = Some st ->
        match status_ st with
        | pending =>
            b = true /\
            promises w' !! p =
              Some (mk_state (storage_ st) rejected e false [])
        | _ => b = false /\ w' = w
        end.

Section RejectStep.
Variable k : nat.
Hypothesis Hrej : reject_spec k.

Lemma reject_next lo w0 w t e :
  inv lo w0 -> step_rel w0 w -> tok w0 lo t -> B < lo + k ->
  exists b w', reject k t e w = Ret b w' /\ step_rel w0 w'.
Proof.
  intros Hi Hs Ht Hk.
  destruct (Hrej lo t e w) as (b & w' & E & Hs' & _).
  - by eapply inv_step.
  - by eapply tok_step.
  - destruct Ht. lia.
  - exists b, w'. split; [done|]. by eapply step_rel_trans.
Qed.

Lemma call_reject_h_total lo w0 w h e :
  inv lo w0 -> step_rel w0 w -> reject_h_ok (tok w0 lo) lok h ->
  B < lo + k ->
  exists w', call_reject_h (reject k) h e w = Ret tt w' /\ step_rel w0 w'.
Proof.
  intros Hi Hs [Hn Hg] Hk. destruct h as [n g]. simpl in *.
  unfold call_reject_h. simpl.
  destruct g as [l body| |[r]]; simpl in *.
  - assert (Hs1 : step_rel w0 (mk_world (promises w) (contexts w)
                                 (trace w ++ [EvReject l e]))).
    { eapply step_rel_trans; [done|]. by apply step_rel_log. }
    destruct (body e) as [c|] eqn:Eb.
    + destruct (reject_next lo w0 _ n (Some c) Hi Hs1 Hn Hk)
        as (b & w' & E & Hs').
      exists w'. split; [|done].
      unfold try_catch, bind, log, throw, ret. simpl. rewrite ?Eb. simpl.
      by rewrite E.
    + destruct (reject_next lo w0 _ n e Hi Hs1 Hn Hk)
        as (b & w' & E & Hs').
      exists w'. split; [|done].
      unfold try_catch, bind, log, throw, ret. simpl. rewrite ?Eb. simpl.
      by rewrite E.
  - destruct (reject_next lo w0 w n e Hi Hs Hn Hk) as (b & w' & E & Hs').
    exists w'. split; [|done].
    unfold try_catch, bind, ret. simpl. by rewrite E.
  - destruct (reject_next lo w0 w r e Hi Hs Hg Hk) as (b1 & w1 & E1 & Hs1).
    destruct (reject_next lo w0 w1 n e Hi Hs1 Hn Hk) as (b & w' & E & Hs').
    exists w'. split; [|done].
    unfold try_catch, bind, ret. simpl. rewrite E1. simpl. by rewrite E.
Qed.

Lemma reject_queue_total lo w0 (hs : list handler) e : forall w,
  inv lo w0 -> step_rel w0 w ->
  Forall (handler_ok (tok w0 lo) (cok w0) lok) hs -> B < lo + k ->
  exists w',
    for_each (fun h => call_reject_h (reject k) (reject_ h) e) hs w
      = Ret tt w' /\ step_rel w0 w'.
Proof.
  induction hs as [|h hs IH]; intros w Hi Hs Hf Hk.
  - exists w. done.
  - apply Forall_cons in Hf as [[_ Hh] Hf].
    destruct (call_reject_h_total lo w0 w (reject_ h) e Hi Hs Hh Hk)
      as (w1 & E1 & Hs1).
    destruct (IH w1 Hi Hs1 Hf Hk) as (w' & E & Hs').
    exists w'. split; [|done].
    simpl. by rewrite (bind_ret _ _ _ _ _ E1).
Qed.
End RejectStep.

Lemma clean_rejected st e :
  settled_clean (mk_state (storage_ st) rejected e false []).
Proof. repeat split; simpl; congruence. Qed.

Lemma reject_total : forall k, reject_spec k.
Proof.
  induction k as [|k IH]; intros lo p e w Hi (Hlo & Hlt & HN) Hk.
  - destruct (lookup_lt_is_Some_2 _ _ Hlt) as [st Hst].
    destruct (Hi p st Hst) as (Hr & _); [by intros ?%X_in_N|]. lia.
  - destruct (lookup_lt_is_Some_2 _ _ Hlt) as [st Hst].
    destruct (Hi p st Hst) as (Hr & Hm & Hv & Hp); [by intros ?%X_in_N|].
    specialize (Hm Hlo). simpl.
    destruct (status_ st) eqn:Es.
    + destruct (Hp eq_refl) as [Hnone Hhs].
      rewrite (state_reject_pending _ p e w st Hst Hm Es).
      set (st1 := mk_state (storage_ st) rejected e true (handlers_ st)).
      assert (Hi1 : inv (S (rank p)) (set_st p st1 w)).
      { eapply inv_locked; try done; simpl; congruence. }
      destruct (reject_queue_total k IH (S (rank p)) (set_st p st1 w)
                  (handlers_ st) e (set_st p st1 w)) as (w2 & E2 & Hs2);
        [done|apply step_rel_refl| |lia|].
      { eapply handlers_ok_lengths; [| |exact Hhs]; simpl;
          by rewrite ?length_insert. }
      rewrite E2. simpl.
      destruct Hs2 as (Hl2 & Hc2 & Hst2 & Hx2 & Hev2).
      destruct (Hst2 p st1) as [Hp2|(Hbad & _)];
        [by apply lookup_set_st_eq| |done].
      rewrite Hp2. simpl.
      eexists true, _. split; [done|]. split.
      * eapply (step_rel_settle w p st st1 w2); try done;
          apply (clean_rejected st e).
      * intros st' Hst'. rewrite Hst in Hst'. injection Hst' as <-.
        rewrite Es. split; [done|].
        apply lookup_set_st_eq. rewrite Hl2, length_set_st. done.
    + rewrite (state_reject_settled _ p e w st Hst Hm) by congruence.
      exists false, w. split; [done|]. split; [apply step_rel_refl|].
      intros st' Hst'. rewrite Hst in Hst'. injection Hst' as <-.
      by rewrite Es.
    + rewrite (state_reject_settled _ p e w st Hst Hm) by congruence.
      exists false, w. split; [done|]. split; [apply step_rel_refl|].
      intros st' Hst'. rewrite Hst in Hst'. injection Hst' as <-.
      by rewrite Es.
Qed.

(** *** [resolve] *)

Definition resolve_spec (k : nat) : Prop :=
  forall lo p v w,
    inv lo w -> tok w lo p -> B < rank p + k ->
    exists b w',
      resolve k p v w = Ret b w' /\ step_rel w w' /\
      forall st, promises w !! p = Some st ->
        match status_ st with
        | pending =>
            b = true /\
            promises w' !! p =
              Some (mk_state (Some v) resolved (exception_ st) false [])
        | _ => b = false /\ w' = w
        end.

Section ResolveStep.
Variable k : nat.
Hypothesis Hres : resolve_spec k.

Lemma resolve_next lo w0 w t v :
  inv lo w0 -> step_rel w0 w -> tok w0 lo t -> B < lo + k ->
  exists b w', resolve k t v w = Ret b w' /\ step_rel w0 w'.
Proof.
  intros Hi Hs Ht Hk.
  destruct (Hres lo t v w) as (b & w' & E & Hs' & _).
  - by eapply inv_step.
  - by eapply tok_step.
  - destruct Ht. lia.
  - exists b, w'. split; [done|]. by eapply step_rel_trans.
Qed.

Lemma call_resolve_h_total lo w0 w h v :
  inv lo w0 -> step_rel w0 w -> resolve_h_ok (tok w0 lo) (cok w0) lok h ->
  B < lo + k ->
  exists w',
    call_resolve_h (resolve k) (reject k) h v w = Ret tt w' /\
    step_rel w0 w'.
Proof.
  intros Hi Hs (Hn & Hf & Hj) Hk. destruct h as [n f j]. simpl in *.
  unfold call_resolve_h. simpl.
  destruct f as [l body| |c [r] i|[r]]; simpl in *.
  - assert (Hs1 : step_rel w0 (mk_world (promises w) (contexts w)
                                 (trace w ++ [EvResolve l v]))).
    { eapply step_rel_trans; [done|]. by apply step_rel_log. }
    destruct (body v) as [x|c] eqn:Eb.
    + destruct (resolve_next lo w0 _ n x Hi Hs1 Hn Hk)
        as (b & w' & E & Hs').
      exists w'. split; [|done].
      unfold try_catch, bind, log, throw, ret. simpl. rewrite ?Eb. simpl.
      by rewrite E.
    + destruct (call_reject_h_total k (reject_total k) lo w0 _ j (Some c)
                  Hi Hs1 Hj Hk) as (w' & E & Hs').
      exists w'. split; [|done].
      unfold try_catch, bind, log, throw, ret. simpl. rewrite ?Eb. simpl.
      done.
  - destruct (resolve_next lo w0 w n v Hi Hs Hn Hk) as (b & w' & E & Hs').
    exists w'. split; [|done].
    unfold try_catch, bind, ret. simpl. by rewrite E.
  - destruct Hf as [[Hc HC] Hr].
    assert (Hc' : c < length (contexts w)).
    { destruct Hs as (_ & -> & _). done. }
    destruct (lookup_lt_is_Some_2 _ _ Hc') as [x Hx].
    pose proof (apply_result_eq c i v w x Hx) as Ea.
    assert (Hs1 : step_rel w0 (applied c i v x w)).
    { eapply step_rel_trans; [done|]. by apply step_rel_context. }
    assert (Hx1 : get_context c (applied c i v x w) =
                  Ret (mk_context (<[i := v]> (results x)) (S (counter x)))
                      (applied c i v x w)).
    { apply get_context_eq. simpl. by apply list_lookup_insert_eq. }
    destruct (S (counter x) =? length (results x)) eqn:Elast.
    + destruct (resolve_next lo w0 _ r (VVec (<[i := v]> (results x)))
                  Hi Hs1 Hr Hk) as (b1 & w2 & E1 & Hs2).
      destruct (resolve_next lo w0 w2 n VVoid Hi Hs2 Hn Hk)
        as (b & w' & E & Hs').
      exists w'. split; [|done].
      unfold try_catch, bind, ret. rewrite Ea, Hx1. simpl.
      rewrite E1. by rewrite E.
    + destruct (resolve_next lo w0 _ n VVoid Hi Hs1 Hn Hk)
        as (b & w' & E & Hs').
      exists w'. split; [|done].
      unfold try_catch, bind, ret. rewrite Ea. by rewrite E.
  - destruct (resolve_next lo w0 w r v Hi Hs Hf Hk) as (b1 & w1 & E1 & Hs1).
    destruct (resolve_next lo w0 w1 n VVoid Hi Hs1 Hn Hk)
      as (b & w' & E & Hs').
    exists w'. split; [|done].
    unfold try_catch, bind, ret. simpl. rewrite E1. simpl. by rewrite E.
Qed.

Lemma resolve_queue_total lo w0 (hs : list handler) v : forall w,
  inv lo w0 -> step_rel w0 w ->
  Forall (handler_ok (tok w0 lo) (cok w0) lok) hs -> B < lo + k ->
  exists w',
    for_each (fun h => call_resolve_h (resolve k) (reject k) (resolve_ h) v)
      hs w = Ret tt w' /\ step_rel w0 w'.
Proof.
  induction hs as [|h hs IH]; intros w Hi Hs Hf Hk.
  - exists w. done.
  - apply Forall_cons in Hf as [[Hh _] Hf].
    destruct (call_resolve_h_total lo w0 w (resolve_ h) v Hi Hs Hh Hk)
      as (w1 & E1 & Hs1).
    destruct (IH w1 Hi Hs1 Hf Hk) as (w' & E & Hs').
    exists w'. split; [|done].
    simpl. by rewrite (bind_ret _ _ _ _ _ E1).
Qed.
End ResolveStep.

Lemma clean_resolved v e :
  settled_clean (mk_state (Some v) resolved e false []).
Proof. repeat split; simpl; try congruence. by eexists. Qed.

Lemma resolve_total : forall k, resolve_spec k.
Proof.
  induction k as [|k IH]; intros lo p v w Hi (Hlo & Hlt & HN) Hk.
  - destruct (lookup_lt_is_Some_2 _ _ Hlt) as [st Hst].
    destruct (Hi p st Hst) as (Hr & _); [by intros ?%X_in_N|]. lia.
  - destruct (lookup_lt_is_Some_2 _ _ Hlt) as [st Hst].
    destruct (Hi p st Hst) as (Hr & Hm & Hv & Hp); [by intros ?%X_in_N|].
    specialize (Hm Hlo). simpl.
    destruct (status_ st) eqn:Es.
    + destruct (Hp eq_refl) as [Hnone Hhs].
      rewrite (state_resolve_pending _ _ p v w st Hst Hm Es Hnone).
      set (st1 := mk_state (Some v) resolved (exception_ st) true
                           (handlers_ st)).
      assert (Hi1 : inv (S (rank p)) (set_st p st1 w)).
      { eapply inv_locked; try done; simpl; try congruence. }
      destruct (resolve_queue_total k IH (S (rank p)) (set_st p st1 w)
                  (handlers_ st) v (set_st p st1 w)) as (w2 & E2 & Hs2);
        [done|apply step_rel_refl| |lia|].
      { eapply handlers_ok_lengths; [| |exact Hhs]; simpl;
          by rewrite ?length_insert. }
      rewrite E2. simpl.
      destruct Hs2 as (Hl2 & Hc2 & Hst2 & Hx2 & Hev2).
      destruct (Hst2 p st1) as [Hp2|(Hbad & _)];
        [by apply lookup_set_st_eq| |done].
      rewrite Hp2. simpl.
      eexists true, _. split; [done|]. split.
      * eapply (step_rel_settle w p st st1 w2); try done;
          apply (clean_resolved v (exception_ st)).
      * intros st' Hst'. rewrite Hst in Hst'. injection Hst' as <-.
        rewrite Es. split; [done|].
        apply lookup_set_st_eq. rewrite Hl2, length_set_st. done.
    + rewrite (state_resolve_settled _ _ p v w st Hst Hm) by congruence.
      exists false, w. split; [done|]. split; [apply step_rel_refl|].
      intros st' Hst'. rewrite Hst in Hst'. injection Hst' as <-.
      by rewrite Es.
    + rewrite (state_resolve_settled _ _ p v w st Hst Hm) by congruence.
      exists false, w. split; [done|]. split; [apply step_rel_refl|].
      intros st' Hst'. rewrite Hst in Hst'. injection Hst' as <-.
      by rewrite Es.
Qed.
End Settle.

(** ** Settling with either outcome *)

Definition settle (fuel : nat) (p : promise) (o : outcome) : M bool :=
  match o with
  | Resolved v => resolve fuel p v
  | Rejected e => reject fuel p e
  end.

(** The state of a handle that was fresh and has been settled with [o]. *)
Definition outcome_state (o : outcome) : state :=
  match o with
  | Resolved v => mk_state (Some v) resolved None false []
  | Rejected e => mk_state None rejected e false []
  end.

Definition add_trace (evs : list event) (w : world) : world :=
  mk_world (promises w) (contexts w) (trace w ++ evs).

Definition alloc (w : world) : world :=
  mk_world (promises w ++ [fresh_state]) (contexts w) (trace w).

Lemma for_each_app {A} (body : A -> M unit) l1 l2 w :
  for_each body (l1 ++ l2) w =
  (for_each body l1 ;;; for_each body l2) w.
Proof.
  revert w. induction l1 as [|x l1 IH]; intros w; simpl.
  - done.
  - unfold bind. destruct (body x w) as [[] w1|c w1|f]; try done;
      by rewrite IH.
Qed.

Lemma reject_fresh k n e w :
  promises w !! n = Some fresh_state ->
  reject (S k) n e w = Ret true (set_st n (outcome_state (Rejected e)) w).
Proof.
  intros H. simpl.
  rewrite (state_reject_pending _ n e w fresh_state H) by done.
  change (handlers_ fresh_state) with (@nil handler).
  cbn [for_each]. unfold ret, finish.
  rewrite lookup_set_st_eq by (by eapply lookup_lt_Some).
  by rewrite set_st_set_st.
Qed.

Lemma resolve_fresh k n v w :
  promises w !! n = Some fresh_state ->
  resolve (S k) n v w = Ret true (set_st n (outcome_state (Resolved v)) w).
Proof.
  intros H. simpl.
  rewrite (state_resolve_pending _ _ n v w fresh_state H) by done.
  change (handlers_ fresh_state) with (@nil handler).
  cbn [for_each]. unfold ret, finish.
  rewrite lookup_set_st_eq by (by eapply lookup_lt_Some).
  by rewrite set_st_set_st.
Qed.

Lemma settle_fresh k n o w :
  promises w !! n = Some fresh_state ->
  settle (S k) n o w = Ret true (set_st n (outcome_state o) w).
Proof. destruct o; [apply resolve_fresh|apply reject_fresh]. Qed.

(** ** What a continuation of the caller does when it fires

    [on_reject_result] and [on_resolve_result] give the events logged and
    the outcome handed to the downstream handle by [reject_h] and
    [resolve_h] when [f] and [g] are callbacks of the caller. *)

Definition user_rf (f : ResolveF) : Prop :=
  match f with RF_user _ _ | RF_identity => True | _ => False end.
Definition user_jf (g : RejectF) : Prop :=
  match g with JF_user _ _ | JF_ignore => True | _ => False end.

Definition on_reject_result (g : RejectF) (e : exception_ptr)
  : list event * outcome :=
  match g with
  | JF_user l body =>
      ([EvReject l e],
       Rejected (match body e with None => e | Some c => Some c end))
  | _ => ([], Rejected e)
  end.

Definition on_resolve_result (f : ResolveF) (g : RejectF) (v : val)
  : list event * outcome :=
  match f with
  | RF_user l body =>
      match body v with
      | inl r => ([EvResolve l v], Resolved r)
      | inr c =>
          (EvResolve l v :: fst (on_reject_result g (Some c)),
           snd (on_reject_result g (Some c)))
      end
  | _ => ([], Resolved v)
  end.

Definition fired (o : outcome) (f : ResolveF) (g : RejectF)
  : list event * outcome :=
  match o with
  | Resolved v => on_resolve_result f g v
  | Rejected e => on_reject_result g e
  end.

Lemma call_reject_h_user k n g e w :
  user_jf g -> promises w !! n = Some fresh_state ->
  call_reject_h (reject (S k)) (mk_reject_h n g) e w =
  Ret tt (set_st n (outcome_state (snd (on_reject_result g e)))
                 (add_trace (fst (on_reject_result g e)) w)).
Proof.
  intros Hg Hn. unfold call_reject_h. cbn [rj_n rj_f].
  destruct g as [l body| |r]; [| |done]; cbn [invoke_rejectF on_reject_result fst snd].
  - unfold try_catch, bind, log, ret, throw.
    destruct (body e) as [c|] eqn:Eb.
    + rewrite reject_fresh by done. done.
    + rewrite reject_fresh by done. done.
  - unfold try_catch, bind, ret.
    rewrite reject_fresh by done.
    unfold add_trace. rewrite app_nil_r. by destruct w.
Qed.

Lemma call_resolve_h_user k n f g v w :
  user_rf f -> user_jf g -> promises w !! n = Some fresh_state ->
  call_resolve_h (resolve (S k)) (reject (S k))
                 (mk_resolve_h n f (mk_reject_h n g)) v w =
  Ret tt (set_st n (outcome_state (snd (on_resolve_result f g v)))
                 (add_trace (fst (on_resolve_result f g v)) w)).
Proof.
  intros Hf Hg Hn. unfold call_resolve_h. cbn [rs_n rs_f rs_j].
  destruct f as [l body| |? ? ?|?]; [| |done..];
    cbn [invoke_resolveF on_resolve_result].
  - unfold try_catch, bind at 1 2 3, log, ret, throw.
    destruct (body v) as [r|c] eqn:Eb.
    + rewrite resolve_fresh by done. done.
    + cbn [fst snd].
      rewrite (call_reject_h_user k n g (Some c)) by done.
      unfold add_trace, set_st. simpl. by rewrite <- app_assoc.
  - unfold try_catch, bind, ret.
    rewrite resolve_fresh by done.
    unfold add_trace. simpl. rewrite app_nil_r. by destruct w.
Qed.

Lemma unlock_eq p w st :
  promises w !! p = Some st ->
  unlock p w =
  Ret tt (set_st p (mk_state (storage_ st) (status_ st) (exception_ st) false
                             (handlers_ st)) w).
Proof. intros H. unfold unlock, bind, get_state, put_state. by rewrite H. Qed.

Definition locked (st : state) : state :=
  mk_state (storage_ st) (status_ st) (exception_ st) true (handlers_ st).

Section Attach.
Variable resolve : promise -> val -> M bool.
Variable reject : promise -> exception_ptr -> M bool.

Lemma state_attach_pending p n f g w st :
  promises w !! p = Some st -> mutex_ st = false -> status_ st = pending ->
  state_attach resolve reject p n f g w =
  Ret tt (set_st p (mk_state (storage_ st) pending (exception_ st) false
                      (handlers_ st ++
                         [mk_handler (mk_resolve_h n f (mk_reject_h n g))
                                     (mk_reject_h n g)])) w).
Proof.
  intros Hp Hm Hs.
  assert (Hlt : p < length (promises w)) by (by eapply lookup_lt_Some).
  unfold state_attach, add_handlers_, push_handler, lock, unlock, bind,
    get_state, put_state, fail_with, ret.
  rewrite Hp, Hm. simpl.
  repeat (rewrite ?list_lookup_insert_eq by (by rewrite ?length_insert);
          simpl; rewrite ?list_insert_insert_eq).
  rewrite Hs. simpl.
  repeat (rewrite ?list_lookup_insert_eq by (by rewrite ?length_insert);
          simpl; rewrite ?list_insert_insert_eq).
  done.
Qed.

Lemma state_attach_resolved p n f g w st v :
  promises w !! p = Some st -> mutex_ st = false -> status_ st = resolved ->
  storage_ st = Some v ->
  state_attach resolve reject p n f g w =
  (call_resolve_h resolve reject (mk_resolve_h n f (mk_reject_h n g)) v ;;;
   unlock p) (set_st p (locked st) w).
Proof.
  intros Hp Hm Hs Hv.
  assert (Hlt : p < length (promises w)) by (by eapply lookup_lt_Some).
  unfold state_attach, add_handlers_, storage_value, lock, bind at 1 2 3 4,
    get_state, put_state, fail_with, ret.
  rewrite Hp, Hm. simpl.
  repeat (rewrite ?list_lookup_insert_eq by (by rewrite ?length_insert);
          simpl; rewrite ?list_insert_insert_eq).
  rewrite Hs. simpl. unfold bind. simpl.
  rewrite list_lookup_insert_eq by done. simpl. rewrite Hv.
  unfold set_st, locked. by rewrite ?Hs, ?Hv.
Qed.

Lemma state_attach_rejected p n f g w st :
  promises w !! p = Some st -> mutex_ st = false -> status_ st = rejected ->
  state_attach resolve reject p n f g w =
  (call_reject_h reject (mk_reject_h n g) (exception_ st) ;;;
   unlock p) (set_st p (locked st) w).
Proof.
  intros Hp Hm Hs.
  assert (Hlt : p < length (promises w)) by (by eapply lookup_lt_Some).
  unfold state_attach, add_handlers_, storage_value, lock, bind at 1 2 3 4,
    get_state, put_state, fail_with, ret.
  rewrite Hp, Hm. simpl.
  repeat (rewrite ?list_lookup_insert_eq by (by rewrite ?length_insert);
          simpl; rewrite ?list_insert_insert_eq).
  rewrite Hs. simpl. unfold bind, set_st, locked. by rewrite Hs.
Qed.
End Attach.

Definition queued (n : promise) (f : ResolveF) (g : RejectF) : handler :=
  mk_handler (mk_resolve_h n f (mk_reject_h n g)) (mk_reject_h n g).

Definition push (p : promise) (h : handler) (w : world) : world :=
  match promises w !! p with
  | Some st =>
      set_st p (mk_state (storage_ st) (status_ st) (exception_ st)
                         (mutex_ st) (handlers_ st ++ [h])) w
  | None => w
  end.

Lemma lookup_alloc_old w p st :
  promises w !! p = Some st -> promises (alloc w) !! p = Some st.
Proof. intros H. simpl. by apply lookup_app_l_Some. Qed.

Lemma lookup_alloc_new w :
  promises (alloc w) !! length (promises w) = Some fresh_state.
Proof. simpl. rewrite lookup_app_r by done. by rewrite Nat.sub_diag. Qed.

(** [then] on a pending handle queues the pair and returns a fresh handle. *)
Lemma then_pending fuel p f g w st :
  promises w !! p = Some st -> mutex_ st = false -> status_ st = pending ->
  then_ fuel p f g w =
  Ret (length (promises w))
      (push p (queued (length (promises w)) f g) (alloc w)).
Proof.
  intros Hp Hm Hs. unfold then_, attach, bind at 1, new_promise.
  fold (alloc w). unfold bind.
  rewrite (state_attach_pending _ _ p _ f g (alloc w) st
             (lookup_alloc_old _ _ _ Hp) Hm Hs).
  unfold ret, push. rewrite (lookup_alloc_old _ _ _ Hp).
  rewrite Hs, <- Hm. done.
Qed.

(** [then] on a settled handle calls the continuation at once, on a fresh
    downstream handle. *)
Lemma then_settled k p f g w st o :
  user_rf f -> user_jf g ->
  promises w !! p = Some st -> mutex_ st = false ->
  outcome_of w p = Some o ->
  then_ (S k) p f g w =
  Ret (length (promises w))
      (set_st (length (promises w)) (outcome_state (snd (fired o f g)))
              (add_trace (fst (fired o f g)) (alloc w))).
Proof.
  intros Hf Hg Hp Hm Ho.
  assert (Hlt : p < length (promises w)) by (by eapply lookup_lt_Some).
  unfold outcome_of in Ho. rewrite Hp in Ho.
  unfold then_, attach, bind at 1, new_promise. fold (alloc w).
  unfold bind at 1.
  pose proof (lookup_alloc_old _ _ _ Hp) as Hp'.
  assert (Hn : promises (set_st p (locked st) (alloc w))
                 !! length (promises w) = Some fresh_state).
  { rewrite lookup_set_st_ne by lia. apply lookup_alloc_new. }
  assert (Hfin : forall evs o',
    unlock p (set_st (length (promises w)) (outcome_state o')
                (add_trace evs (set_st p (locked st) (alloc w)))) =
    Ret tt (set_st (length (promises w)) (outcome_state o')
                   (add_trace evs (alloc w)))).
  { intros evs o'. erewrite unlock_eq; cycle 1.
    { rewrite lookup_set_st_ne by lia. simpl.
      apply list_lookup_insert_eq. rewrite length_app. simpl. lia. }
    f_equal. unfold set_st, add_trace, locked. simpl. f_equal.
    rewrite list_insert_insert_ne by lia. rewrite list_insert_insert_eq.
    rewrite <- Hm, state_eta.
    rewrite (list_insert_id (promises w ++ [fresh_state]) p st); [done|].
    by apply lookup_app_l_Some. }
  destruct (status_ st) eqn:Es; [done| |].
  - destruct (storage_ st) as [v|] eqn:Ev; [|done]. injection Ho as <-.
    rewrite (state_attach_resolved _ _ p _ f g (alloc w) st v Hp' Hm Es Ev).
    unfold bind. rewrite call_resolve_h_user by done.
    rewrite Hfin. done.
  - injection Ho as <-.
    rewrite (state_attach_rejected _ _ p _ f g (alloc w) st Hp' Hm Es).
    unfold bind. rewrite call_reject_h_user by done.
    rewrite Hfin. done.
Qed.

(** ** Both settlements at once *)

(** The call the settlement loop makes on a queued pair. *)
Definition fire (k : nat) (o : outcome) (h : handler) : M unit :=
  match o with
  | Resolved v => call_resolve_h (resolve k) (reject k) (resolve_ h) v
  | Rejected e => call_reject_h (reject k) (reject_ h) e
  end.

(** The state of [p] while its queue runs, and once it has run. *)
Definition settling (o : outcome) (st : state) : state :=
  match o with
  | Resolved v => mk_state (Some v) resolved (exception_ st) true (handlers_ st)
  | Rejected e => mk_state (storage_ st) rejected e true (handlers_ st)
  end.

Definition settled (o : outcome) (st : state) : state :=
  match o with
  | Resolved v => mk_state (Some v) resolved (exception_ st) false []
  | Rejected e => mk_state (storage_ st) rejected e false []
  end.

Lemma settle_pending k p o w st :
  promises w !! p = Some st -> mutex_ st = false -> status_ st = pending ->
  storage_ st = None ->
  settle (S k) p o w =
  finish p (for_each (fire k o) (handlers_ st) (set_st p (settling o st) w)).
Proof.
  intros Hp Hm Hs Hn. destruct o as [v|e]; simpl.
  - by rewrite (state_resolve_pending _ _ p v w st).
  - by rewrite (state_reject_pending _ p e w st).
Qed.

Lemma settle_settled k p o w st :
  promises w !! p = Some st -> mutex_ st = false -> status_ st <> pending ->
  settle (S k) p o w = Ret false w.
Proof.
  intros Hp Hm Hs. destruct o as [v|e]; simpl.
  - by rewrite (state_resolve_settled _ _ p v w st).
  - by rewrite (state_reject_settled _ p e w st).
Qed.

Lemma settling_not_pending o st : status_ (settling o st) <> pending.
Proof. by destruct o. Qed.

Lemma settling_stored o st :
  status_ (settling o st) = resolved -> is_Some (storage_ (settling o st)).
Proof. destruct o; simpl; [by eexists|done]. Qed.

Lemma finish_settling p o st w2 :
  promises w2 !! p = Some (settling o st) ->
  finish p (Ret tt w2) = Ret true (set_st p (settled o st) w2).
Proof. intros H. unfold finish. rewrite H. by destruct o. Qed.

Lemma outcome_settled o st w p :
  promises w !! p = Some (settled o st) -> storage_ st = None ->
  status_ st = pending ->
  outcome_of w p = Some o.
Proof.
  intros H Hn Hs. unfold outcome_of. rewrite H. by destruct o.
Qed.

Section SettleTotal.
Variable rank : promise -> nat.
Variable B : nat.
Variable X N : promise -> Prop.
Variable C L : nat -> Prop.
Hypothesis X_in_N : forall q, X q -> N q.

Lemma fire_queue_total k lo w0 hs o : forall w,
  inv rank B X N C L lo w0 -> step_rel N C L w0 w ->
  Forall (handler_ok (tok rank N w0 lo) (cok C w0) (lok L)) hs ->
  B < lo + k ->
  exists w', for_each (fire k o) hs w = Ret tt w' /\ step_rel N C L w0 w'.
Proof.
  intros w Hi Hs Hf Hk. destruct o as [v|e].
  - eapply resolve_queue_total; try done. by apply resolve_total.
  - eapply reject_queue_total; try done. by apply reject_total.
Qed.

(** Settlement returns in every well-formed store: [true] on a pending
    state, which it settles with [o]; [false] on a settled one, which it
    leaves alone. *)
Lemma settle_total k lo p o w st :
  inv rank B X N C L lo w -> tok rank N w lo p -> B < rank p + k ->
  promises w !! p = Some st ->
  exists b w',
    settle k p o w = Ret b w' /\ step_rel N C L w w' /\
    match status_ st with
    | pending => b = true /\ promises w' !! p = Some (settled o st)
    | _ => b = false /\ w' = w
    end.
Proof.
  intros Hi Ht Hk Hp. destruct o as [v|e]; simpl.
  - destruct (resolve_total rank B X N C L X_in_N k lo p v w Hi Ht Hk)
      as (b & w' & E & Hs & Hr).
    exists b, w'. split; [done|]. split; [done|]. by apply Hr.
  - destruct (reject_total rank B X N C L X_in_N k lo p e w Hi Ht Hk)
      as (b & w' & E & Hs & Hr).
    exists b, w'. split; [done|]. split; [done|]. by apply Hr.
Qed.
End SettleTotal.

(** ** Well-formed stores

    [wf L w]: nothing is locked, storage and status agree, every queued
    closure mentions existing handles and contexts only, the closures can be
    ranked, and no queued callback carries a label of [L]. *)
Definition no_promise : promise -> Prop := fun _ => False.
Definition no_index : nat -> Prop := fun _ => False.

Definition wf_at (rank : promise -> nat) (B : nat) (N : promise -> Prop)
    (L : nat -> Prop) (w : world) : Prop :=
  inv rank B no_promise N no_index L 0 w.

Definition wf (N : promise -> Prop) (L : nat -> Prop) (w : world) : Prop :=
  exists rank B, wf_at rank B N L w.

Lemma wf_empty N L : wf N L empty_world.
Proof. exists (fun _ => 0), 0. intros q st H. done. Qed.

Lemma no_promise_in N : forall q, no_promise q -> N q.
Proof. done. Qed.

Lemma wf_unlocked N L w p st :
  wf N L w -> promises w !! p = Some st -> mutex_ st = false.
Proof.
  intros (rank & B & Hi) Hp.
  destruct (Hi p st Hp) as (_ & Hm & _); [by intros []|].
  apply Hm. lia.
Qed.

Lemma wf_storage_pending N L w p st :
  wf N L w -> promises w !! p = Some st -> status_ st = pending ->
  storage_ st = None.
Proof.
  intros (rank & B & Hi) Hp Hs.
  destruct (Hi p st Hp) as (_ & _ & _ & Hq); [by intros []|].
  by apply Hq.
Qed.

Lemma wf_weaken (N N' : promise -> Prop) (L L' : nat -> Prop) w :
  (forall t, N' t -> N t) -> (forall l, L' l -> L l) ->
  wf N L w -> wf N' L' w.
Proof.
  intros HN HL (rank & B & Hi). exists rank, B. intros q st Hq HX.
  destruct (Hi q st Hq HX) as (Hr & Hm & Hv & Hp).
  repeat split; try done; try (by apply Hp).
  destruct (Hp H) as [_ Hf]. eapply Forall_impl; [exact Hf|].
  intros h. apply handler_ok_impl; try done.
  - unfold tok. intros t (? & ? & Ht). repeat split; try done.
    intros Ht'. apply Ht. by apply HN.
  - unfold lok. intros l Hl Hl'. apply Hl. by apply HL.
Qed.

Lemma wf_step N L w w' : wf N L w -> step_rel N no_index L w w' -> wf N L w'.
Proof.
  intros (rank & B & Hi) Hs. exists rank, B. by eapply inv_step.
Qed.

(** Settlement of a handle outside [N] returns, and keeps the store
    well formed. *)
Lemma wf_settle N L w p o st :
  wf N L w -> promises w !! p = Some st -> ~ N p ->
  exists fuel0, forall fuel, fuel0 <= fuel ->
    exists b w',
      settle fuel p o w = Ret b w' /\ wf N L w' /\
      step_rel N no_index L w w' /\
      match status_ st with
      | pending => b = true /\ promises w' !! p = Some (settled o st)
      | _ => b = false /\ w' = w
      end.
Proof.
  intros (rank & B & Hi) Hp HN. exists (S B). intros fuel Hfuel.
  destruct (settle_total rank B no_promise N no_index L
              (no_promise_in N) fuel 0 p o w st)
    as (b & w' & E & Hs & Hr); try done.
  - split; [lia|]. split; [by eapply lookup_lt_Some|]. done.
  - lia.
  - exists b, w'. split; [done|].
    split; [exists rank, B; by eapply inv_step|]. by split.
Qed.

(** ** Running the old queue of a handle in a store that has grown

    [w'] extends the well-formed [w0] by new handles and contexts, and the
    state of [p] is being settled.  The closures queued in [w0] reach
    neither the new handles nor [N]. *)
Lemma inv_extended rank B N L w0 w' p st1 :
  wf_at rank B N L w0 ->
  length (promises w0) <= length (promises w') ->
  length (contexts w0) <= length (contexts w') ->
  (forall q, q < length (promises w0) -> q <> p ->
             promises w' !! q = promises w0 !! q) ->
  p < length (promises w0) ->
  promises w' !! p = Some st1 -> status_ st1 <> pending ->
  (status_ st1 = resolved -> is_Some (storage_ st1)) ->
  inv rank B (fun t => length (promises w0) <= t)
      (fun t => N t \/ length (promises w0) <= t)
      (fun c => length (contexts w0) <= c) L (S (rank p)) w'.
Proof.
  intros Hi Hl Hc Hsame Hp Hp' Hs1 Hv1 q st Hq HX.
  assert (Hq0 : q < length (promises w0)) by lia.
  destruct (decide (q = p)) as [->|Hne].
  - rewrite Hp' in Hq. injection Hq as <-.
    destruct (lookup_lt_is_Some_2 _ _ Hp) as [st0 Hst0].
    destruct (Hi p st0 Hst0) as (Hr & _); [by intros []|].
    repeat split; try done. lia.
  - rewrite Hsame in Hq by done.
    destruct (Hi q st Hq) as (Hr & Hm & Hv & Hpe); [by intros []|].
    split; [done|]. split; [intros _; apply Hm; lia|]. split; [done|].
    intros Hpq. destruct (Hpe Hpq) as [Hn Hf]. split; [done|].
    eapply Forall_impl; [exact Hf|]. intros h.
    apply handler_ok_impl; try done.
    + intros t (? & ? & ?). repeat split; try done; [lia|].
      intros [?|?]; [done|lia].
    + intros c (? & ?). split; [lia|]. lia.
Qed.

(** ** Several continuations on one pending handle *)

Definition cont : Type := ResolveF * RejectF.

Definition user_cont (c : cont) : Prop := user_rf c.1 /\ user_jf c.2.

(** A caller that attaches the continuations [cs] to [p] one after the
    other: [p.then(f1, g1); p.then(f2, g2); ...]. *)
Fixpoint then_each (fuel : nat) (p : promise) (cs : list cont)
    : M (list promise) :=
  match cs with
  | [] => ret []
  | c :: cs' =>
      n <- then_ fuel p c.1 c.2 ;;
      ns <- then_each fuel p cs' ;;
      ret (n :: ns)
  end.

Fixpoint queue_of (base : nat) (cs : list cont) : list handler :=
  match cs with
  | [] => []
  | c :: cs' => queued base c.1 c.2 :: queue_of (S base) cs'
  end.

(** The store after [then_each] on a pending [p]. *)
Definition attached (p : promise) (st : state) (cs : list cont) (w : world)
    : world :=
  mk_world
    (<[p := mk_state (storage_ st) pending (exception_ st) false
                     (handlers_ st ++ queue_of (length (promises w)) cs)]>
       (promises w ++ replicate (length cs) fresh_state))
    (contexts w) (trace w).

Lemma attached_nil p st w :
  promises w !! p = Some st -> mutex_ st = false -> status_ st = pending ->
  attached p st [] w = w.
Proof.
  intros Hp Hm Hs. unfold attached. simpl. rewrite !app_nil_r.
  rewrite <- Hs, <- Hm, state_eta, list_insert_id by done. by destruct w.
Qed.

Lemma then_each_pending fuel p cs : forall w st,
  promises w !! p = Some st -> mutex_ st = false -> status_ st = pending ->
  then_each fuel p cs w =
  Ret (seq (length (promises w)) (length cs)) (attached p st cs w).
Proof.
  induction cs as [|[f g] cs IH]; intros w st Hp Hm Hs.
  - simpl. unfold ret. by rewrite attached_nil.
  - assert (Hlt : p < length (promises w)) by (by eapply lookup_lt_Some).
    cbn [then_each fst snd]. unfold bind at 1.
    rewrite (then_pending fuel p f g w st Hp Hm Hs).
    set (st' := mk_state (storage_ st) (status_ st) (exception_ st) (mutex_ st)
                  (handlers_ st ++ [queued (length (promises w)) f g])).
    assert (Hw' : push p (queued (length (promises w)) f g) (alloc w) =
                  set_st p st' (alloc w)).
    { unfold push. by rewrite (lookup_alloc_old _ _ _ Hp). }
    rewrite Hw'.
    assert (Hp' : promises (set_st p st' (alloc w)) !! p = Some st').
    { apply lookup_set_st_eq. simpl. rewrite length_app. lia. }
    unfold bind. rewrite (IH _ st' Hp'); [|done|done].
    unfold ret. f_equal.
    + simpl. rewrite length_insert, length_app. simpl.
      by rewrite Nat.add_1_r.
    + unfold attached. simpl. f_equal.
      rewrite length_insert, length_app. simpl. rewrite Nat.add_1_r.
      rewrite <- app_assoc. simpl.
      rewrite <- (insert_app_l _ _ p) by (rewrite length_app; lia).
      rewrite list_insert_insert_eq. rewrite <- !app_assoc. done.
Qed.

Lemma attached_lookup_p p st cs w :
  promises w !! p = Some st ->
  promises (attached p st cs w) !! p =
  Some (mk_state (storage_ st) pending (exception_ st) false
                 (handlers_ st ++ queue_of (length (promises w)) cs)).
Proof.
  intros Hp. simpl. apply list_lookup_insert_eq.
  rewrite length_app. apply lookup_lt_Some in Hp. lia.
Qed.

Lemma attached_lookup_new p st cs w i :
  promises w !! p = Some st -> i < length cs ->
  promises (attached p st cs w) !! (length (promises w) + i) =
  Some fresh_state.
Proof.
  intros Hp Hi. simpl. apply lookup_lt_Some in Hp.
  rewrite list_lookup_insert_ne by lia.
  rewrite lookup_app_r by lia.
  apply lookup_replicate. split; [done|lia].
Qed.

Lemma attached_lookup_old p st cs w q :
  q < length (promises w) -> q <> p ->
  promises (attached p st cs w) !! q = promises w !! q.
Proof.
  intros Hq Hne. simpl. rewrite list_lookup_insert_ne by done.
  by rewrite lookup_app_l.
Qed.

Lemma attached_length p st cs w :
  length (promises (attached p st cs w)) = length (promises w) + length cs.
Proof. simpl. by rewrite length_insert, length_app, length_replicate. Qed.

(** The queue of callbacks of the caller runs in attachment order: each
    logs its events and settles its own fresh downstream handle. *)
Lemma fire_queue_users k o cs : forall base w,
  Forall user_cont cs ->
  (forall i, i < length cs -> promises w !! (base + i) = Some fresh_state) ->
  exists w',
    for_each (fire (S k) o) (queue_of base cs) w = Ret tt w' /\
    trace w' = trace w ++ flat_map (fun c => fst (fired o c.1 c.2)) cs /\
    (forall i c, cs !! i = Some c ->
       promises w' !! (base + i) =
       Some (outcome_state (snd (fired o c.1 c.2)))) /\
    (forall q, q < base \/ base + length cs <= q ->
       promises w' !! q = promises w !! q) /\
    length (promises w') = length (promises w) /\
    contexts w' = contexts w.
Proof.
  induction cs as [|[f g] cs IH]; intros base w Hu Hfresh.
  - exists w. simpl. rewrite app_nil_r. repeat split; try done.
  - apply Forall_cons in Hu as [[Hf Hg] Hu]. simpl in Hf, Hg.
    assert (Hb : promises w !! base = Some fresh_state).
    { rewrite <- (Nat.add_0_r base). apply Hfresh. simpl. lia. }
    assert (Hblt : base < length (promises w)) by (by eapply lookup_lt_Some).
    set (w1 := set_st base (outcome_state (snd (fired o f g)))
                 (add_trace (fst (fired o f g)) w)).
    assert (E1 : fire (S k) o (queued base f g) w = Ret tt w1).
    { destruct o as [v|e]; unfold fire, queued; cbn [resolve_ reject_].
      - by apply call_resolve_h_user.
      - by apply call_reject_h_user. }
    destruct (IH (S base) w1 Hu) as (w' & E & Ht & Hnew & Hold & Hl & Hc).
    { intros i Hi. unfold w1. rewrite lookup_set_st_ne by lia. simpl.
      replace (S (base + i)) with (base + S i) by lia.
      apply Hfresh. simpl. lia. }
    exists w'. split; [|split; [|split; [|split; [|split]]]].
    + cbn [queue_of for_each fst snd].
      by rewrite (bind_ret _ _ _ _ _ E1).
    + rewrite Ht. simpl. by rewrite app_assoc.
    + intros [|i] c Hc'; simpl in Hc'.
      * injection Hc' as <-. rewrite Nat.add_0_r.
        rewrite Hold by lia. unfold w1.
        by apply lookup_set_st_eq.
      * replace (base + S i) with (S base + i) by lia. by apply Hnew.
    + intros q Hq. rewrite Hold by (simpl in Hq; lia).
      unfold w1. rewrite lookup_set_st_ne by (simpl in Hq; lia). done.
    + rewrite Hl. unfold w1. by rewrite length_set_st.
    + rewrite Hc. done.
Qed.

(** ** Settling a handle with continuations of the caller

    What the store looks like after the settlement of a handle that holds,
    behind an older queue, continuations attached by [then_each]. *)

Lemma step_rel_keep N C L w w' q st :
  step_rel N C L w w' -> promises w !! q = Some st ->
  N q \/ status_ st <> pending ->
  promises w' !! q = Some st.
Proof.
  intros (_ & _ & Hs & _) Hq Hk.
  destruct (Hs q st Hq) as [H|(Hp & HN & _)]; [done|].
  destruct Hk; done.
Qed.

Lemma settled_settling o st st' :
  storage_ st' = storage_ st -> exception_ st' = exception_ st ->
  settled o st' = settled o st.
Proof. intros H1 H2. destruct o; simpl; congruence. Qed.

(** Settling a pending handle that carries an old queue followed by
    callbacks of the caller: the old queue runs without touching anything
    new, then the callbacks run once each, in attachment order. *)
Lemma settle_attached N L w0 p st cs :
  wf N L w0 -> promises w0 !! p = Some st -> status_ st = pending ->
  Forall user_cont cs ->
  exists fuel0, forall fuel, fuel0 <= fuel -> forall o,
    exists w2 evs,
      settle fuel p o (attached p st cs w0) = Ret true w2 /\
      trace w2 =
        trace w0 ++ evs ++ flat_map (fun c => fst (fired o c.1 c.2)) cs /\
      Forall (fun ev => ~ L (ev_label ev)) evs /\
      promises w2 !! p = Some (settled o st) /\
      (forall i c, cs !! i = Some c ->
         promises w2 !! (length (promises w0) + i) =
         Some (outcome_state (snd (fired o c.1 c.2)))) /\
      length (promises w2) = length (promises w0) + length cs.
Proof.
  intros Hwf Hp Hs Hu.
  pose proof (wf_unlocked _ _ _ _ _ Hwf Hp) as Hm.
  pose proof (wf_storage_pending _ _ _ _ _ Hwf Hp Hs) as Hn.
  destruct Hwf as (rank & B & Hi).
  assert (Hlt : p < length (promises w0)) by (by eapply lookup_lt_Some).
  exists (S (S B)). intros fuel Hfuel o.
  destruct fuel as [|[|k]]; [lia..|].
  set (w1 := attached p st cs w0).
  set (st' := mk_state (storage_ st) pending (exception_ st) false
                (handlers_ st ++ queue_of (length (promises w0)) cs)).
  assert (Hp1 : promises w1 !! p = Some st') by (by apply attached_lookup_p).
  rewrite (settle_pending (S k) p o w1 st' Hp1); [|done..].
  set (w1' := set_st p (settling o st') w1).
  assert (Hp1' : promises w1' !! p = Some (settling o st')).
  { apply lookup_set_st_eq. by eapply lookup_lt_Some. }
  assert (Hl1 : length (promises w1') =
                length (promises w0) + length cs).
  { unfold w1'. rewrite length_set_st. apply attached_length. }
  cbn [handlers_ st'].
  rewrite for_each_app.
  (* the old queue *)
  destruct (fire_queue_total rank B
              (fun t => length (promises w0) <= t)
              (fun t => N t \/ length (promises w0) <= t)
              (fun c => length (contexts w0) <= c) L
              (fun q H => or_intror H)
              (S k) (S (rank p)) w1' (handlers_ st) o w1')
    as (w2a & Ea & Hsa).
  { eapply (inv_extended rank B N L w0 w1' p); try done.
    - lia.
    - intros q Hq Hne. unfold w1'. rewrite lookup_set_st_ne by done.
      by apply attached_lookup_old.
    - apply settling_not_pending.
    - apply settling_stored. }
  { apply step_rel_refl. }
  { destruct (Hi p st Hp) as (_ & _ & _ & Hpe); [by intros []|].
    destruct (Hpe Hs) as [_ Hf]. eapply Forall_impl; [exact Hf|].
    intros h. apply handler_ok_impl; try done.
    - intros t (? & ? & ?). repeat split; try done; [lia|].
      intros [?|?]; [done|lia].
    - intros c (? & ?). split; [done|]. simpl. lia. }
  { destruct (Hi p st Hp) as (Hr & _); [by intros []|]. lia. }
  assert (Hpa : promises w2a !! p = Some (settling o st')).
  { eapply step_rel_keep; [exact Hsa|exact Hp1'|].
    right. apply settling_not_pending. }
  destruct Hsa as (Hla & Hca & Hsta & Hxa & evs & Hta & Hfa).
  (* the callbacks of the caller *)
  destruct (fire_queue_users k o cs (length (promises w0)) w2a Hu)
    as (w2b & Eb & Htb & Hnewb & Holdb & Hlb & Hcb).
  { intros i Hi'.
    destruct (Hsta (length (promises w0) + i) fresh_state)
      as [H|(_ & HN & _)]; [|done|].
    - unfold w1'. rewrite lookup_set_st_ne by lia.
      by apply attached_lookup_new.
    - exfalso. apply HN. right. lia. }
  assert (Hpb : promises w2b !! p = Some (settling o st')).
  { rewrite Holdb by lia. done. }
  unfold bind. rewrite Ea, Eb.
  rewrite (finish_settling p o st' w2b Hpb).
  rewrite (settled_settling o st st') by done.
  eexists _, evs. split; [done|]. split; [|split; [|split; [|split]]].
  - simpl. rewrite Htb, Hta. simpl. by rewrite <- app_assoc.
  - done.
  - apply lookup_set_st_eq. rewrite Hlb, Hla, Hl1. lia.
  - intros i c Hc. rewrite lookup_set_st_ne.
    + by apply Hnewb.
    + lia.
  - rewrite length_set_st, Hlb, Hla, Hl1. done.
Qed.

(** ** The settlement state machine: pending, then settled for good *)

Lemma then_pending_attached fuel p f g w st :
  promises w !! p = Some st -> mutex_ st = false -> status_ st = pending ->
  then_ fuel p f g w = Ret (length (promises w)) (attached p st [(f, g)] w).
Proof.
  intros Hp Hm Hs.
  pose proof (then_each_pending fuel p [(f, g)] w st Hp Hm Hs) as H.
  cbn [then_each fst snd] in H. unfold bind, ret in H.
  destruct (then_ fuel p f g w) as [n w'|c w'|x] eqn:E; try done.
  simpl in H. by injection H as -> ->.
Qed.

Lemma wf_alloc N L w : wf N L w -> wf N L (alloc w).
Proof.
  intros (rank & B & Hi).
  exists rank, (B `max` rank (length (promises w))).
  intros q st Hq _. simpl in Hq.
  apply lookup_app_Some in Hq as [Hq|[Hge Hq]].
  - destruct (Hi q st Hq) as (Hr & Hm & Hv & Hp); [by intros []|].
    split; [lia|]. split; [done|]. split; [done|].
    intros Hs. destruct (Hp Hs) as [Hn Hf]. split; [done|].
    eapply Forall_impl; [exact Hf|]. intros h.
    apply handler_ok_impl; try done.
    intros t (? & ? & ?). repeat split; try done.
    simpl. rewrite length_app. lia.
  - apply list_lookup_singleton_Some in Hq as [Hq <-].
    assert (q = length (promises w)) as -> by lia.
    repeat split; try done. lia.
Qed.

Lemma outcome_of_state w p o :
  promises w !! p = Some (outcome_state o) -> outcome_of w p = Some o.
Proof. intros H. unfold outcome_of. rewrite H. by destruct o. Qed.

Lemma status_of_alloc w : status_of (alloc w) (length (promises w)) = Some pending.
Proof. unfold status_of. by rewrite lookup_alloc_new. Qed.

(** C1.  A handle returned by [new_promise] is pending.  On a pending handle
    of a well-formed store, with enough fuel, [resolve] returns [true] and
    leaves the handle resolved with the given value, and [reject] returns
    [true] and leaves it rejected with the given error; every later
    [resolve] or [reject] on that handle returns [false] and leaves the
    whole store, hence the stored status, value and error, as it was.  On a
    handle that is settled already both calls return [false] and change
    nothing.  Copies of a handle are the same index into the store. *)
Theorem settle_at_most_once (w : world) (p : promise) (st : state) :
  wf no_promise no_index w -> promises w !! p = Some st ->
  (exists q w0, new_promise w = Ret q w0 /\ status_of w0 q = Some pending) /\
  (status_ st = pending ->
   exists fuel0, forall fuel, fuel0 <= fuel ->
     (forall v, exists w',
        resolve fuel p v w = Ret true w' /\
        outcome_of w' p = Some (Resolved v) /\
        forall k v' e',
          resolve (S k) p v' w' = Ret false w' /\
          reject (S k) p e' w' = Ret false w') /\
     (forall e, exists w',
        reject fuel p e w = Ret true w' /\
        outcome_of w' p = Some (Rejected e) /\
        forall k v' e',
          resolve (S k) p v' w' = Ret false w' /\
          reject (S k) p e' w' = Ret false w')) /\
  (status_ st <> pending ->
   forall k v e,
     resolve (S k) p v w = Ret false w /\ reject (S k) p e w = Ret false w).
Proof.
  intros Hwf Hp. split; [|split].
  - exists (length (promises w)), (alloc w). split; [reflexivity|].
    apply status_of_alloc.
  - intros Hs.
    pose proof (wf_storage_pending _ _ _ _ _ Hwf Hp Hs) as Hn.
    destruct Hwf as (rank & B & Hi). exists (S B). intros fuel Hfuel.
    assert (Hgen : forall o, exists w',
      settle fuel p o w = Ret true w' /\ outcome_of w' p = Some o /\
      forall k o', settle (S k) p o' w' = Ret false w').
    { intros o.
      destruct (settle_total rank B no_promise no_promise no_index no_index
                  (no_promise_in _) fuel 0 p o w st)
        as (b & w' & E & Hstep & Hr); try done.
      - split; [lia|]. split; [by eapply lookup_lt_Some|]. by intros [].
      - lia.
      - rewrite Hs in Hr. destruct Hr as [-> Hp'].
        exists w'. split; [done|].
        split; [by eapply outcome_settled|].
        intros k o'. eapply settle_settled; [exact Hp'|..].
        + by destruct o.
        + by destruct o. }
    split.
    + intros v. destruct (Hgen (Resolved v)) as (w' & E & Ho & Hafter).
      exists w'. split; [done|]. split; [done|].
      intros k v' e'. split.
      * apply (Hafter k (Resolved v')).
      * apply (Hafter k (Rejected e')).
    + intros e. destruct (Hgen (Rejected e)) as (w' & E & Ho & Hafter).
      exists w'. split; [done|]. split; [done|].
      intros k v' e'. split.
      * apply (Hafter k (Resolved v')).
      * apply (Hafter k (Rejected e')).
  - intros Hs k v e.
    pose proof (wf_unlocked _ _ _ _ _ Hwf Hp) as Hm. split.
    + apply (settle_settled k p (Resolved v) w st Hp Hm Hs).
    + apply (settle_settled k p (Rejected e) w st Hp Hm Hs).
Qed.

Lemma settle_at_most_once_witness :
  (exists q w0, new_promise (alloc empty_world) = Ret q w0 /\
                status_of w0 q = Some pending) /\
  (status_ fresh_state = pending ->
   exists fuel0, forall fuel, fuel0 <= fuel ->
     (forall v, exists w',
        resolve fuel 0 v (alloc empty_world) = Ret true w' /\
        outcome_of w' 0 = Some (Resolved v) /\
        forall k v' e',
          resolve (S k) 0 v' w' = Ret false w' /\
          reject (S k) 0 e' w' = Ret false w') /\
     (forall e, exists w',
        reject fuel 0 e (alloc empty_world) = Ret true w' /\
        outcome_of w' 0 = Some (Rejected e) /\
        forall k v' e',
          resolve (S k) 0 v' w' = Ret false w' /\
          reject (S k) 0 e' w' = Ret false w')) /\
  (status_ fresh_state <> pending ->
   forall k v e,
     resolve (S k) 0 v (alloc empty_world) = Ret false (alloc empty_world) /\
     reject (S k) 0 e (alloc empty_world) = Ret false (alloc empty_world)).
Proof.
  apply (settle_at_most_once (alloc empty_world) 0 fresh_state).
  - apply wf_alloc, wf_empty.
  - reflexivity.
Defined.

(** ** [then] with a callback that returns a value *)

Lemma wf_outcome N L w p st :
  wf N L w -> promises w !! p = Some st -> status_ st <> pending ->
  exists o, outcome_of w p = Some o.
Proof.
  intros (rank & B & Hi) Hp Hs.
  destruct (Hi p st Hp) as (_ & _ & Hv & _); [by intros []|].
  unfold outcome_of. rewrite Hp.
  destruct (status_ st); [done| |by eexists].
  destruct (Hv eq_refl) as [v ->]. by eexists.
Qed.

(** One continuation of the caller on one handle, in either order of
    attaching and settling. *)
Lemma then_single L w p st f g :
  wf no_promise L w -> promises w !! p = Some st ->
  user_rf f -> user_jf g ->
  exists fuel0, forall fuel, fuel0 <= fuel ->
    exists w1,
      then_ fuel p f g w = Ret (length (promises w)) w1 /\
      (status_ st = pending ->
       trace w1 = trace w /\
       forall o, exists w2 evs,
         settle fuel p o w1 = Ret true w2 /\
         trace w2 = trace w ++ evs ++ fst (fired o f g) /\
         Forall (fun ev => ~ L (ev_label ev)) evs /\
         outcome_of w2 (length (promises w)) = Some (snd (fired o f g)) /\
         outcome_of w2 p = Some o) /\
      (forall o, outcome_of w p = Some o ->
         trace w1 = trace w ++ fst (fired o f g) /\
         outcome_of w1 (length (promises w)) = Some (snd (fired o f g))).
Proof.
  intros Hwf Hp Hf Hg.
  pose proof (wf_unlocked _ _ _ _ _ Hwf Hp) as Hm.
  destruct (status_ st) eqn:Hs.
  - pose proof (wf_storage_pending _ _ _ _ _ Hwf Hp Hs) as Hn.
    destruct (settle_attached no_promise L w p st [(f, g)] Hwf Hp Hs)
      as (fuel0 & Hsettle).
    { by repeat constructor. }
    exists fuel0. intros fuel Hfuel. exists (attached p st [(f, g)] w).
    split; [by apply then_pending_attached|]. split.
    + intros _. split; [done|]. intros o.
      destruct (Hsettle fuel Hfuel o) as (w2 & evs & E & Ht & Hfa & Hp2 & Hn2 & _).
      exists w2, evs. split; [done|]. split.
      { rewrite Ht. simpl. by rewrite app_nil_r. }
      split; [done|]. split.
      * apply outcome_of_state. specialize (Hn2 0 (f, g) eq_refl).
        by rewrite Nat.add_0_r in Hn2.
      * by eapply outcome_settled.
    + intros o Ho. unfold outcome_of in Ho. by rewrite Hp, Hs in Ho.
  - exists 1. intros [|k] Hfuel; [lia|].
    destruct (wf_outcome _ _ _ _ _ Hwf Hp) as [o Ho]; [congruence|].
    eexists. split; [by apply (then_settled k p f g w st o)|].
    split; [done|]. intros o' Ho'. rewrite Ho in Ho'. injection Ho' as <-.
    split; [done|]. apply outcome_of_state.
    apply lookup_set_st_eq. simpl. rewrite length_app. simpl. lia.
  - exists 1. intros [|k] Hfuel; [lia|].
    destruct (wf_outcome _ _ _ _ _ Hwf Hp) as [o Ho]; [congruence|].
    eexists. split; [by apply (then_settled k p f g w st o)|].
    split; [done|]. intros o' Ho'. rewrite Ho in Ho'. injection Ho' as <-.
    split; [done|]. apply outcome_of_state.
    apply lookup_set_st_eq. simpl. rewrite length_app. simpl. lia.
Qed.

(** C3.  [p.then(f)] for a callback [f], labelled [l], that returns a plain
    value: when [p] is resolved with [v], before or after the call, and
    [f v] returns [r], the handle [then] returned is resolved with [r]; when
    [p] is rejected with [e], before or after the call, that handle is
    rejected with [e] and the trace holds no new event labelled [l], that
    is, [f] has not been called. *)
Theorem then_maps_resolution (w : world) (p : promise) (st : state)
    (l : nat) (body : val -> val + exception) :
  wf no_promise (eq l) w -> promises w !! p = Some st ->
  exists fuel0, forall fuel, fuel0 <= fuel ->
    exists n w1,
      then1 fuel p (RF_user l body) w = Ret n w1 /\
      (status_ st = pending ->
       (forall v r, body v = inl r ->
          exists w2, resolve fuel p v w1 = Ret true w2 /\
                     outcome_of w2 n = Some (Resolved r)) /\
       (forall e,
          exists w2 evs, reject fuel p e w1 = Ret true w2 /\
                         outcome_of w2 n = Some (Rejected e) /\
                         trace w2 = trace w ++ evs /\
                         Forall (fun ev => ev_label ev <> l) evs)) /\
      (forall v r, outcome_of w p = Some (Resolved v) -> body v = inl r ->
                   outcome_of w1 n = Some (Resolved r)) /\
      (forall e, outcome_of w p = Some (Rejected e) ->
                 outcome_of w1 n = Some (Rejected e) /\ trace w1 = trace w).
Proof.
  intros Hwf Hp.
  destruct (then_single (eq l) w p st (RF_user l body) JF_ignore Hwf Hp)
    as (fuel0 & H); [done..|].
  exists fuel0. intros fuel Hfuel.
  destruct (H fuel Hfuel) as (w1 & E & Hpend & Hset).
  exists (length (promises w)), w1. split; [done|]. split; [|split].
  - intros Hs. destruct (Hpend Hs) as [_ Hall]. split.
    + intros v r Hb.
      destruct (Hall (Resolved v)) as (w2 & evs & E2 & _ & _ & Hn & _).
      exists w2. split; [done|]. simpl in Hn. by rewrite Hb in Hn.
    + intros e.
      destruct (Hall (Rejected e)) as (w2 & evs & E2 & Ht & Hfa & Hn & _).
      exists w2, evs. split; [done|]. split; [done|]. split.
      * rewrite Ht. simpl. by rewrite app_nil_r.
      * eapply Forall_impl; [exact Hfa|]. intros ev Hev Heq. by apply Hev.
  - intros v r Ho Hb. destruct (Hset _ Ho) as [_ Hn].
    simpl in Hn. by rewrite Hb in Hn.
  - intros e Ho. destruct (Hset _ Ho) as [Ht Hn]. split; [done|].
    rewrite Ht. simpl. by rewrite app_nil_r.
Qed.

(** ** Callbacks that raise, the reject handler, [fail] *)

(** [on_reject] returns normally when called with the raised [c]. *)
Definition returns_on (g : RejectF) (c : exception) : Prop :=
  match g with
  | JF_user _ body => body (Some c) = None
  | JF_ignore => True
  | JF_rejector _ => False
  end.

Lemma returns_on_result g c :
  returns_on g c -> snd (on_reject_result g (Some c)) = Rejected (Some c).
Proof. destruct g as [l body| |r]; simpl; [intros ->|..]; done. Qed.

(** C4.  When [f] raises [c] on the value [p] is resolved with, the handle
    [then] returned is rejected with [c], provided the on-reject callable
    returns normally on [c] (the one of the one-argument [then] always
    does).  Both [then] and the [resolve] that settles [p] return normally:
    the raise leaves neither. *)
Theorem then_catches_raise (w : world) (p : promise) (st : state)
    (l : nat) (body : val -> val + exception) (g : RejectF) :
  wf no_promise no_index w -> promises w !! p = Some st -> user_jf g ->
  exists fuel0, forall fuel, fuel0 <= fuel ->
    exists n w1,
      then_ fuel p (RF_user l body) g w = Ret n w1 /\
      (status_ st = pending ->
       forall v c, body v = inr c -> returns_on g c ->
         exists w2, resolve fuel p v w1 = Ret true w2 /\
                    outcome_of w2 n = Some (Rejected (Some c))) /\
      (forall v c, outcome_of w p = Some (Resolved v) -> body v = inr c ->
                   returns_on g c ->
                   outcome_of w1 n = Some (Rejected (Some c))).
Proof.
  intros Hwf Hp Hg.
  destruct (then_single no_index w p st (RF_user l body) g Hwf Hp)
    as (fuel0 & H); [done..|].
  exists fuel0. intros fuel Hfuel.
  destruct (H fuel Hfuel) as (w1 & E & Hpend & Hset).
  exists (length (promises w)), w1. split; [done|]. split.
  - intros Hs v c Hb Hq. destruct (Hpend Hs) as [_ Hall].
    destruct (Hall (Resolved v)) as (w2 & evs & E2 & _ & _ & Hn & _).
    exists w2. split; [done|]. simpl in Hn. rewrite Hb in Hn. simpl in Hn.
    by rewrite returns_on_result in Hn.
  - intros v c Ho Hb Hq. destruct (Hset _ Ho) as [_ Hn].
    simpl in Hn. rewrite Hb in Hn. simpl in Hn.
    by rewrite returns_on_result in Hn.
Qed.

(** C5.  [p.then(f, g)] with [p] rejected with [e], before or after the
    call: [g], labelled [l], is called once with [e]; the handle [then]
    returned is rejected with [e] when [g] returns normally and with the
    condition [g] raised when it raises. *)
Theorem on_reject_observes (w : world) (p : promise) (st : state)
    (f : ResolveF) (l : nat) (body : exception_ptr -> option exception) :
  wf no_promise (eq l) w -> promises w !! p = Some st -> user_rf f ->
  exists fuel0, forall fuel, fuel0 <= fuel ->
    exists n w1,
      then_ fuel p f (JF_user l body) w = Ret n w1 /\
      (status_ st = pending ->
       forall e, exists w2 evs,
         reject fuel p e w1 = Ret true w2 /\
         trace w2 = trace w ++ evs ++ [EvReject l e] /\
         Forall (fun ev => ev_label ev <> l) evs /\
         outcome_of w2 n =
           Some (Rejected (match body e with None => e | Some c => Some c end)))
      /\
      (forall e, outcome_of w p = Some (Rejected e) ->
         trace w1 = trace w ++ [EvReject l e] /\
         outcome_of w1 n =
           Some (Rejected (match body e with None => e | Some c => Some c end))).
Proof.
  intros Hwf Hp Hf.
  destruct (then_single (eq l) w p st f (JF_user l body) Hwf Hp)
    as (fuel0 & H); [done..|].
  exists fuel0. intros fuel Hfuel.
  destruct (H fuel Hfuel) as (w1 & E & Hpend & Hset).
  exists (length (promises w)), w1. split; [done|]. split.
  - intros Hs e. destruct (Hpend Hs) as [_ Hall].
    destruct (Hall (Rejected e)) as (w2 & evs & E2 & Ht & Hfa & Hn & _).
    exists w2, evs. split; [done|]. split; [done|]. split; [|done].
    eapply Forall_impl; [exact Hfa|]. intros ev Hev Heq. by apply Hev.
  - intros e Ho. by destruct (Hset _ Ho) as [Ht Hn].
Qed.

(** C8.  [p.fail(h)] returns a handle for the same payload.  When [p] is
    resolved with [v], before or after the call, that handle is resolved
    with [v] and [h], labelled [l], is not called.  When [p] is rejected
    with [e], [h] is called once with [e], and the handle is rejected with
    [e] unless [h] raised. *)
Theorem fail_passes_value_and_observes (w : world) (p : promise) (st : state)
    (l : nat) (body : exception_ptr -> option exception) :
  wf no_promise (eq l) w -> promises w !! p = Some st ->
  exists fuel0, forall fuel, fuel0 <= fuel ->
    exists n w1,
      fail fuel p (JF_user l body) w = Ret n w1 /\
      (status_ st = pending ->
       (forall v, exists w2 evs,
          resolve fuel p v w1 = Ret true w2 /\
          outcome_of w2 n = Some (Resolved v) /\
          trace w2 = trace w ++ evs /\
          Forall (fun ev => ev_label ev <> l) evs) /\
       (forall e, exists w2 evs,
          reject fuel p e w1 = Ret true w2 /\
          trace w2 = trace w ++ evs ++ [EvReject l e] /\
          Forall (fun ev => ev_label ev <> l) evs /\
          (body e = None -> outcome_of w2 n = Some (Rejected e)))) /\
      (forall v, outcome_of w p = Some (Resolved v) ->
         outcome_of w1 n = Some (Resolved v) /\ trace w1 = trace w) /\
      (forall e, outcome_of w p = Some (Rejected e) ->
         trace w1 = trace w ++ [EvReject l e] /\
         (body e = None -> outcome_of w1 n = Some (Rejected e))).
Proof.
  intros Hwf Hp.
  destruct (then_single (eq l) w p st RF_identity (JF_user l body) Hwf Hp)
    as (fuel0 & H); [done..|].
  exists fuel0. intros fuel Hfuel.
  destruct (H fuel Hfuel) as (w1 & E & Hpend & Hset).
  assert (Hne : forall evs, Forall (fun ev => ~ l = ev_label ev) evs ->
                            Forall (fun ev => ev_label ev <> l) evs).
  { intros evs Hfa. eapply Forall_impl; [exact Hfa|].
    intros ev Hev Heq. by apply Hev. }
  exists (length (promises w)), w1. split; [done|]. split; [|split].
  - intros Hs. destruct (Hpend Hs) as [_ Hall]. split.
    + intros v.
      destruct (Hall (Resolved v)) as (w2 & evs & E2 & Ht & Hfa & Hn & _).
      exists w2, evs. split; [done|]. split; [done|]. split; [|by apply Hne].
      rewrite Ht. simpl. by rewrite app_nil_r.
    + intros e.
      destruct (Hall (Rejected e)) as (w2 & evs & E2 & Ht & Hfa & Hn & _).
      exists w2, evs. split; [done|]. split; [done|].
      split; [by apply Hne|].
      intros Hb. simpl in Hn. by rewrite Hb in Hn.
  - intros v Ho. destruct (Hset _ Ho) as [Ht Hn]. split; [done|].
    rewrite Ht. simpl. by rewrite app_nil_r.
  - intros e Ho. destruct (Hset _ Ho) as [Ht Hn]. split; [done|].
    intros Hb. simpl in Hn. by rewrite Hb in Hn.
Qed.

Lemma reject_never_throws k p e w c w' : reject k p e w <> Throw c w'.
Proof.
  destruct k as [|k]; simpl; [done|].
  unfold state_reject, noexcept.
  by destruct (bind _ _ w).
Qed.

(** C9.  In [p.then(f, g)] the reject handler also sees what [f] raises.
    The resolve handler built by [attach], on a value on which [f] raises
    [c], first calls [f], then calls [g] with [c], and only then rejects the
    downstream handle, with [c] when [g] returned normally and with what
    [g] raised otherwise.  So when [p] is resolved with such a value,
    before or after the call, the trace ends with the call of [f] followed
    by the call of [g] on [c], and the handle [then] returned is rejected
    accordingly. *)
Theorem on_reject_sees_fault_of_on_resolve (w : world) (p : promise)
    (st : state) (l : nat) (fb : val -> val + exception)
    (l' : nat) (gb : exception_ptr -> option exception) :
  wf no_promise (fun x => x = l \/ x = l') w -> promises w !! p = Some st ->
  let raised c := match gb (Some c) with None => c | Some c' => c' end in
  (forall k n v c w0, fb v = inr c ->
     call_resolve_h (resolve k) (reject k)
       (mk_resolve_h n (RF_user l fb) (mk_reject_h n (JF_user l' gb))) v w0 =
     (reject k n (Some (raised c)) ;;; ret tt)
       (add_trace [EvResolve l v; EvReject l' (Some c)] w0)) /\
  exists fuel0, forall fuel, fuel0 <= fuel ->
    exists n w1,
      then_ fuel p (RF_user l fb) (JF_user l' gb) w = Ret n w1 /\
      (status_ st = pending ->
       forall v c, fb v = inr c ->
         exists w2 evs,
           resolve fuel p v w1 = Ret true w2 /\
           trace w2 =
             trace w ++ evs ++ [EvResolve l v; EvReject l' (Some c)] /\
           Forall (fun ev => ev_label ev <> l /\ ev_label ev <> l') evs /\
           outcome_of w2 n = Some (Rejected (Some (raised c)))) /\
      (forall v c, outcome_of w p = Some (Resolved v) -> fb v = inr c ->
         trace w1 = trace w ++ [EvResolve l v; EvReject l' (Some c)] /\
         outcome_of w1 n = Some (Rejected (Some (raised c)))).
Proof.
  intros Hwf Hp raised. split.
  - intros k n v c w0 Hb.
    unfold call_resolve_h, call_reject_h. cbn [rs_n rs_f rs_j rj_n rj_f].
    unfold invoke_resolveF, invoke_rejectF, try_catch, bind, log, throw, ret.
    rewrite Hb. unfold raised, add_trace. simpl. rewrite <- app_assoc. simpl.
    destruct (gb (Some c)) as [c'|]; [done|].
    destruct (reject k n (Some c) _) as [b w2|c2 w2|x] eqn:E; try done.
    by apply reject_never_throws in E.
  - destruct (then_single (fun x => x = l \/ x = l') w p st (RF_user l fb)
                (JF_user l' gb) Hwf Hp) as (fuel0 & H); [done..|].
    exists fuel0. intros fuel Hfuel.
    destruct (H fuel Hfuel) as (w1 & E & Hpend & Hset).
    exists (length (promises w)), w1. split; [done|]. split.
    + intros Hs v c Hb. destruct (Hpend Hs) as [_ Hall].
      destruct (Hall (Resolved v)) as (w2 & evs & E2 & Ht & Hfa & Hn & _).
      simpl in Ht, Hn. rewrite Hb in Ht, Hn. simpl in Ht, Hn.
      exists w2, evs. split; [done|]. split; [done|]. split.
      * eapply Forall_impl; [exact Hfa|]. intros ev Hev.
        split; intros Heq; apply Hev; auto.
      * rewrite Hn. unfold raised. by destruct (gb (Some c)).
    + intros v c Ho Hb. destruct (Hset _ Ho) as [Ht Hn].
      simpl in Ht, Hn. rewrite Hb in Ht, Hn. simpl in Ht, Hn.
      split; [done|]. rewrite Hn. unfold raised. by destruct (gb (Some c)).
Qed.

(** ** Attachment order *)

(** The events a list of continuations logs when it fires on [o]. *)
Definition fired_events (o : outcome) (cs : list cont) : list event :=
  flat_map (fun c => fst (fired o c.1 c.2)) cs.

(** C2.  Continuations of the caller attached to a pending handle log
    nothing while it stays pending.  When the handle is settled with [o],
    each of them fires once on [o], in attachment order: after the events of
    what was queued before, the trace holds the events of the first
    continuation, then those of the second, and so on.  The queue is empty
    afterwards, and a later settlement attempt returns [false] and changes
    nothing, so none fires twice.  A continuation attached after the
    settlement fires once, within the attaching call, on the same [o]. *)
Theorem continuations_fire_once_in_order (L : nat -> Prop) (w : world)
    (p : promise) (st : state) (cs : list cont) :
  wf no_promise L w -> promises w !! p = Some st -> status_ st = pending ->
  Forall user_cont cs ->
  exists fuel0, forall fuel, fuel0 <= fuel ->
    exists w1,
      then_each fuel p cs w =
        Ret (seq (length (promises w)) (length cs)) w1 /\
      trace w1 = trace w /\
      forall o, exists w2 evs st2,
        settle fuel p o w1 = Ret true w2 /\
        trace w2 = trace w ++ evs ++ fired_events o cs /\
        Forall (fun ev => ~ L (ev_label ev)) evs /\
        promises w2 !! p = Some st2 /\ handlers_ st2 = [] /\
        (forall c, user_cont c ->
           exists n w3,
             then_ fuel p c.1 c.2 w2 = Ret n w3 /\
             trace w3 = trace w2 ++ fst (fired o c.1 c.2) /\
             outcome_of w3 n = Some (snd (fired o c.1 c.2))) /\
        (forall k o', settle (S k) p o' w2 = Ret false w2).
Proof.
  intros Hwf Hp Hs Hu.
  pose proof (wf_unlocked _ _ _ _ _ Hwf Hp) as Hm.
  pose proof (wf_storage_pending _ _ _ _ _ Hwf Hp Hs) as Hn.
  destruct (settle_attached no_promise L w p st cs Hwf Hp Hs Hu)
    as (fuel0 & Hsettle).
  exists (S fuel0). intros fuel Hfuel.
  exists (attached p st cs w).
  split; [by apply then_each_pending|]. split; [done|].
  intros o.
  destruct (Hsettle fuel ltac:(lia) o) as (w2 & evs & E & Ht & Hfa & Hp2 & _).
  exists w2, evs, (settled o st).
  split; [done|]. split; [done|]. split; [done|]. split; [done|].
  split; [by destruct o|]. split.
  - intros [f g] [Hf Hg]. simpl in Hf, Hg. cbn [fst snd].
    destruct fuel as [|k]; [lia|].
    eexists _, _. split.
    + apply (then_settled k p f g w2 (settled o st) o); try done.
      * by destruct o.
      * by eapply outcome_settled.
    + split; [done|]. apply outcome_of_state.
      apply lookup_set_st_eq. simpl. rewrite length_app. simpl. lia.
  - intros k o'. eapply settle_settled; [exact Hp2|by destruct o..].
Qed.

(** ** [make_promise] with an initiator that raises *)

(** A callable the initiator of [make_promise] may use to settle. *)
Definition settle_via (fuel : nat) (resolver : resolver_t)
    (rejector : rejector_t) (o : outcome) : M bool :=
  match o with
  | Resolved v => call_resolver fuel resolver v
  | Rejected e => call_rejector fuel rejector e
  end.

(** When the initiator raises after the result has been settled, the
    [reject] of the catch branch changes nothing. *)
Lemma make_promise_raise_after_settle (fuel : nat)
    (f : resolver_t -> rejector_t -> M unit) (w w2 : world) (c : exception)
    (st : state) :
  f (Resolver (length (promises w))) (Rejector (length (promises w))) (alloc w)
    = Throw c w2 ->
  promises w2 !! length (promises w) = Some st -> status_ st <> pending ->
  mutex_ st = false ->
  make_promise (S fuel) f w = Ret (length (promises w)) w2.
Proof.
  intros Hf Hr Hs Hm.
  unfold make_promise, bind, try_catch, new_promise. fold (alloc w).
  rewrite Hf.
  change (reject (S fuel) (length (promises w)) (Some c) w2)
    with (settle (S fuel) (length (promises w)) (Rejected (Some c)) w2).
  by rewrite (settle_settled fuel _ _ w2 st Hr Hm Hs).
Qed.

(** C10.  When the initiator given to [make_promise] raises after the
    result has been settled, [make_promise] returns the handle with the
    store the initiator left: the [reject] of the catch branch finds the
    handle settled and changes nothing.  In particular an initiator that
    settles the result with [o] through the resolver or the rejector and
    then raises leaves the result settled with [o]. *)
Theorem make_promise_keeps_first_settlement (fuel : nat) (w : world)
    (c : exception) :
  (forall f w2 st,
     f (Resolver (length (promises w))) (Rejector (length (promises w)))
       (alloc w) = Throw c w2 ->
     promises w2 !! length (promises w) = Some st ->
     status_ st <> pending -> mutex_ st = false ->
     make_promise (S fuel) f w = Ret (length (promises w)) w2) /\
  (forall o, exists w',
     make_promise (S fuel)
       (fun resolver rejector =>
          settle_via (S fuel) resolver rejector o ;;; throw c) w =
     Ret (length (promises w)) w' /\
     outcome_of w' (length (promises w)) = Some o).
Proof.
  split.
  - intros f w2 st. apply make_promise_raise_after_settle.
  - intros o.
    set (result := length (promises w)).
    set (w2 := set_st result (outcome_state o) (alloc w)).
    assert (Hr : promises w2 !! result = Some (outcome_state o)).
    { apply lookup_set_st_eq. simpl. rewrite length_app. simpl.
      unfold result. lia. }
    exists w2. split; [|by apply outcome_of_state].
    apply (make_promise_raise_after_settle fuel _ w w2 c (outcome_state o));
      try (by destruct o).
    unfold bind, throw.
    replace (settle_via (S fuel) (Resolver (length (promises w)))
               (Rejector (length (promises w))) o (alloc w))
      with (settle (S fuel) result o (alloc w)) by (by destruct o).
    rewrite settle_fresh by apply lookup_alloc_new. done.
Qed.

(** ** Sinks: handles with an empty queue

    While a combinator attaches to its inputs, its result handle has no
    continuation of its own: it is either fresh or already settled. *)

Definition sink (st : state) : Prop :=
  st = fresh_state \/ (status_ st <> pending /\ mutex_ st = false).

(** Settling a sink: the first outcome sticks. *)
Definition settle_sink (r : promise) (o : outcome) (w : world) : world :=
  match promises w !! r with
  | Some st =>
      match status_ st with
      | pending => set_st r (outcome_state o) w
      | _ => w
      end
  | None => w
  end.

Lemma settle_on_sink k r o w st :
  promises w !! r = Some st -> sink st ->
  exists b, settle (S k) r o w = Ret b (settle_sink r o w).
Proof.
  intros Hr [->|[Hs Hm]]; unfold settle_sink; rewrite Hr.
  - exists true. by apply settle_fresh.
  - exists false. rewrite (settle_settled k r o w st Hr Hm Hs).
    by destruct (status_ st).
Qed.

Lemma resolve_on_sink k r v w st :
  promises w !! r = Some st -> sink st ->
  exists b, resolve (S k) r v w = Ret b (settle_sink r (Resolved v) w).
Proof. apply (settle_on_sink k r (Resolved v)). Qed.

Lemma reject_on_sink k r e w st :
  promises w !! r = Some st -> sink st ->
  exists b, reject (S k) r e w = Ret b (settle_sink r (Rejected e) w).
Proof. apply (settle_on_sink k r (Rejected e)). Qed.

Lemma sink_outcome_state o : sink (outcome_state o).
Proof. right. by destruct o. Qed.

Lemma settle_sink_lookup r o w st :
  promises w !! r = Some st ->
  promises (settle_sink r o w) !! r =
  Some (match status_ st with pending => outcome_state o | _ => st end).
Proof.
  intros Hr. unfold settle_sink. rewrite Hr.
  destruct (status_ st); try done.
  apply lookup_set_st_eq. by eapply lookup_lt_Some.
Qed.

Lemma settle_sink_lookup_ne r o w q :
  q <> r -> promises (settle_sink r o w) !! q = promises w !! q.
Proof.
  intros Hne. unfold settle_sink.
  destruct (promises w !! r) as [st|]; [|done].
  destruct (status_ st); try done. by apply lookup_set_st_ne.
Qed.

Lemma settle_sink_length r o w :
  length (promises (settle_sink r o w)) = length (promises w).
Proof.
  unfold settle_sink. destruct (promises w !! r) as [st|]; [|done].
  destruct (status_ st); try done. apply length_set_st.
Qed.

Lemma settle_sink_contexts r o w :
  contexts (settle_sink r o w) = contexts w.
Proof.
  unfold settle_sink. destruct (promises w !! r) as [st|]; [|done].
  by destruct (status_ st).
Qed.

Lemma settle_sink_trace r o w : trace (settle_sink r o w) = trace w.
Proof.
  unfold settle_sink. destruct (promises w !! r) as [st|]; [|done].
  by destruct (status_ st).
Qed.

(** ** Locking around a call *)

(** A call made while [q] is locked, followed by the unlock: if the call
    leaves [q] alone, the lock leaves no trace. *)
Lemma unlock_after q st (w' : world) :
  promises w' !! q = Some (locked st) -> mutex_ st = false ->
  unlock q w' = Ret tt (set_st q st w').
Proof.
  intros Hq Hm. rewrite (unlock_eq q w' (locked st) Hq). simpl.
  by rewrite <- Hm, state_eta.
Qed.

Lemma set_st_comm p q a b w :
  p <> q -> set_st p a (set_st q b w) = set_st q b (set_st p a w).
Proof.
  intros H. unfold set_st. simpl. by rewrite list_insert_insert_ne.
Qed.

Lemma settle_sink_set_st r o q a w :
  q <> r -> settle_sink r o (set_st q a w) = set_st q a (settle_sink r o w).
Proof.
  intros H. unfold settle_sink. rewrite lookup_set_st_ne by done.
  destruct (promises w !! r) as [st|]; [|done].
  destruct (status_ st); try done. by apply set_st_comm.
Qed.

(** ** The pair of handles a combinator hangs under each input

    [then(...)] returns [n1]; [.fail(...)] queues on it a pair that forwards
    a rejection to the rejector of [r] and settles [n2]. *)

Definition forward_pair (n2 r : promise) : handler :=
  queued n2 RF_identity (JF_rejector (Rejector r)).

Definition waiting (n2 r : promise) : state :=
  mk_state None pending None false [forward_pair n2 r].

(** The store after [n1] has been settled with [o]. *)
Definition pair_settled (n1 n2 r : promise) (o : outcome) (w : world) : world :=
  set_st n1 (outcome_state o)
    (set_st n2 (outcome_state o)
       (match o with
        | Resolved _ => w
        | Rejected e => settle_sink r (Rejected e) w
        end)).

Lemma call_resolve_h_identity k rej n j v w :
  promises w !! n = Some fresh_state ->
  call_resolve_h (resolve (S k)) rej (mk_resolve_h n RF_identity j) v w =
  Ret tt (set_st n (outcome_state (Resolved v)) w).
Proof.
  intros Hn. unfold call_resolve_h. cbn [rs_n rs_f rs_j invoke_resolveF].
  unfold try_catch, bind, ret. by rewrite resolve_fresh.
Qed.

Lemma call_reject_h_ignore k n e w :
  promises w !! n = Some fresh_state ->
  call_reject_h (reject (S k)) (mk_reject_h n JF_ignore) e w =
  Ret tt (set_st n (outcome_state (Rejected e)) w).
Proof.
  intros Hn. unfold call_reject_h. cbn [rj_n rj_f invoke_rejectF].
  unfold try_catch, bind, ret. by rewrite reject_fresh.
Qed.

Lemma call_reject_h_rejector k n r e w st :
  promises w !! n = Some fresh_state ->
  promises w !! r = Some st -> sink st -> n <> r ->
  call_reject_h (reject (S k)) (mk_reject_h n (JF_rejector (Rejector r))) e w =
  Ret tt (set_st n (outcome_state (Rejected e))
                 (settle_sink r (Rejected e) w)).
Proof.
  intros Hn Hr Hs Hne. unfold call_reject_h. cbn [rj_n rj_f invoke_rejectF].
  unfold try_catch, bind, ret.
  destruct (reject_on_sink k r e w st Hr Hs) as [b ->].
  rewrite reject_fresh; [done|].
  by rewrite settle_sink_lookup_ne.
Qed.

Lemma settle_pair k n1 n2 r o w st :
  promises w !! n1 = Some (waiting n2 r) ->
  promises w !! n2 = Some fresh_state ->
  promises w !! r = Some st -> sink st ->
  n1 <> n2 -> n1 <> r -> n2 <> r ->
  settle (S (S k)) n1 o w = Ret true (pair_settled n1 n2 r o w).
Proof.
  intros H1 H2 Hr Hs Hn12 Hn1r Hn2r.
  assert (Hl1 : n1 < length (promises w)) by (by eapply lookup_lt_Some).
  assert (Hl2 : n2 < length (promises w)) by (by eapply lookup_lt_Some).
  rewrite (settle_pending (S k) n1 o w (waiting n2 r) H1) by done.
  set (w1 := set_st n1 (settling o (waiting n2 r)) w).
  assert (H2' : promises w1 !! n2 = Some fresh_state).
  { unfold w1. by rewrite lookup_set_st_ne. }
  assert (Hr' : promises w1 !! r = Some st).
  { unfold w1. by rewrite lookup_set_st_ne. }
  cbn [handlers_ waiting for_each].
  destruct o as [v|e]; unfold bind, fire, forward_pair, queued;
    cbn [resolve_ reject_].
  - rewrite (call_resolve_h_identity k _ n2 _ v w1 H2').
    unfold ret, finish, w1.
    rewrite lookup_set_st_ne, lookup_set_st_eq by done.
    unfold pair_settled. cbn [settling waiting storage_ status_ exception_].
    rewrite (set_st_comm n2 n1) by done. by rewrite set_st_set_st.
  - rewrite (call_reject_h_rejector k n2 r e w1 st H2' Hr' Hs Hn2r).
    unfold ret, finish, w1.
    rewrite lookup_set_st_ne by done.
    rewrite settle_sink_set_st by done.
    rewrite lookup_set_st_eq by (by rewrite settle_sink_length).
    unfold pair_settled. cbn [settling waiting storage_ status_ exception_].
    rewrite (set_st_comm n2 n1) by done. by rewrite set_st_set_st.
Qed.

(** ** Attaching to a settled handle: the lock leaves no trace *)

Lemma bracket q st w (m : M unit) (T : world -> world) :
  promises w !! q = Some st -> mutex_ st = false ->
  m (set_st q (locked st) w) = Ret tt (T (set_st q (locked st) w)) ->
  (forall a w', T (set_st q a w') = set_st q a (T w')) ->
  (forall w', length (promises (T w')) = length (promises w')) ->
  (m ;;; unlock q) (set_st q (locked st) w) = Ret tt (T w).
Proof.
  intros Hq Hm Hrun Hcomm Hlen.
  assert (Hlt : q < length (promises w)) by (by eapply lookup_lt_Some).
  unfold bind. rewrite Hrun, Hcomm.
  rewrite (unlock_after q st); [|by apply lookup_set_st_eq; rewrite Hlen|done].
  rewrite set_st_set_st, <- Hcomm. by rewrite set_st_id.
Qed.

Lemma then_on_rejected k q f w st :
  promises w !! q = Some st -> mutex_ st = false -> status_ st = rejected ->
  then_ (S k) q f JF_ignore w =
  Ret (length (promises w))
      (set_st (length (promises w)) (outcome_state (Rejected (exception_ st)))
              (alloc w)).
Proof.
  intros Hq Hm Hs.
  assert (Hlt : q < length (promises w)) by (by eapply lookup_lt_Some).
  unfold then_, attach, bind at 1, new_promise. fold (alloc w).
  unfold bind at 1.
  rewrite (state_attach_rejected _ _ q _ f JF_ignore (alloc w) st
             (lookup_alloc_old _ _ _ Hq) Hm Hs).
  rewrite (bracket q st (alloc w) _
             (set_st (length (promises w))
                     (outcome_state (Rejected (exception_ st))))); try done.
  - by apply lookup_alloc_old.
  - apply call_reject_h_ignore. rewrite lookup_set_st_ne by lia.
    apply lookup_alloc_new.
  - intros a w'. apply set_st_comm. lia.
  - intros w'. apply length_set_st.
Qed.

Lemma fail_on_rejected k n r e w st str :
  promises w !! n = Some st -> mutex_ st = false -> status_ st = rejected ->
  exception_ st = e ->
  promises w !! r = Some str -> sink str -> n <> r ->
  fail (S k) n (JF_rejector (Rejector r)) w =
  Ret (length (promises w))
      (set_st (length (promises w)) (outcome_state (Rejected e))
              (settle_sink r (Rejected e) (alloc w))).
Proof.
  intros Hn Hm Hs He Hr Hsr Hne.
  assert (Hlt : n < length (promises w)) by (by eapply lookup_lt_Some).
  assert (Hltr : r < length (promises w)) by (by eapply lookup_lt_Some).
  unfold fail, then_, attach, bind at 1, new_promise. fold (alloc w).
  unfold bind at 1.
  rewrite (state_attach_rejected _ _ n _ RF_identity _ (alloc w) st
             (lookup_alloc_old _ _ _ Hn) Hm Hs).
  rewrite He.
  rewrite (bracket n st (alloc w) _
             (fun w' => set_st (length (promises w))
                          (outcome_state (Rejected e))
                          (settle_sink r (Rejected e) w'))); try done.
  - by apply lookup_alloc_old.
  - apply (call_reject_h_rejector k _ r e _ str).
    + rewrite lookup_set_st_ne by lia. apply lookup_alloc_new.
    + rewrite lookup_set_st_ne by done. by apply lookup_alloc_old.
    + done.
    + lia.
  - intros a w'. rewrite settle_sink_set_st by done.
    apply set_st_comm. lia.
  - intros w'. by rewrite length_set_st, settle_sink_length.
Qed.

Lemma fail_on_resolved k n g v w st :
  promises w !! n = Some st -> mutex_ st = false -> status_ st = resolved ->
  storage_ st = Some v ->
  fail (S k) n g w =
  Ret (length (promises w))
      (set_st (length (promises w)) (outcome_state (Resolved v)) (alloc w)).
Proof.
  intros Hn Hm Hs Hv.
  assert (Hlt : n < length (promises w)) by (by eapply lookup_lt_Some).
  unfold fail, then_, attach, bind at 1, new_promise. fold (alloc w).
  unfold bind at 1.
  rewrite (state_attach_resolved _ _ n _ RF_identity g (alloc w) st v
             (lookup_alloc_old _ _ _ Hn) Hm Hs Hv).
  rewrite (bracket n st (alloc w) _
             (set_st (length (promises w)) (outcome_state (Resolved v))));
    try done.
  - by apply lookup_alloc_old.
  - apply call_resolve_h_identity. rewrite lookup_set_st_ne by lia.
    apply lookup_alloc_new.
  - intros a w'. apply set_st_comm. lia.
  - intros w'. apply length_set_st.
Qed.

Lemma fail_on_fresh fuel n g w :
  promises w !! n = Some fresh_state ->
  fail fuel n g w =
  Ret (length (promises w))
      (set_st n (mk_state None pending None false
                          [queued (length (promises w)) RF_identity g])
              (alloc w)).
Proof.
  intros Hn. unfold fail.
  rewrite (then_pending fuel n RF_identity g w fresh_state Hn) by done.
  unfold push. by rewrite (lookup_alloc_old _ _ _ Hn).
Qed.

(** ** The loop shared by the two combinators

    Both attach to every input [p], in order,
    [p.then(F idx).fail(rejector)]; they differ in the callable [F idx]
    only.  What a call of [F idx] does is confined to the result handle
    [r] and to the contexts: an [eff]. *)

Definition eff : Type := state * list context_t.

Definition put_eff (r : promise) (e : eff) (w : world) : world :=
  mk_world (<[r := e.1]> (promises w)) e.2 (trace w).

Definition sink_settle (o : outcome) (st : state) : state :=
  match status_ st with
  | pending => outcome_state o
  | _ => st
  end.

Definition reject_eff (x : exception_ptr) (e : eff) : eff :=
  (sink_settle (Rejected x) e.1, e.2).

Fixpoint comb_loop (fuel : nat) (F : nat -> ResolveF) (rejector : rejector_t)
    (result_index : nat) (iter : list promise) : M unit :=
  match iter with
  | [] => ret tt
  | p :: iter' =>
      n <- then1 fuel p (F result_index) ;;
      fail fuel n (JF_rejector rejector) ;;;
      comb_loop fuel F rejector (S result_index) iter'
  end.

Lemma all_loop_comb fuel context resolver rejector idx ps w :
  all_loop fuel context resolver rejector idx ps w =
  comb_loop fuel (RF_all context resolver) rejector idx ps w.
Proof.
  revert idx w. induction ps as [|p ps IH]; intros idx w; [done|].
  simpl. unfold bind.
  destruct (then1 _ _ _ w) as [n w1|c w1|x]; try done.
  destruct (fail _ _ _ w1) as [n' w2|c w2|x]; try done.
Qed.

Lemma any_loop_comb fuel resolver rejector ps w idx :
  any_loop fuel resolver rejector ps w =
  comb_loop fuel (fun _ => RF_any resolver) rejector idx ps w.
Proof.
  revert idx w. unfold any_loop.
  induction ps as [|p ps IH]; intros idx w; [done|].
  simpl. unfold bind.
  destruct (then1 _ _ _ w) as [n w1|c w1|x]; try done.
  destruct (fail _ _ _ w1) as [n' w2|c w2|x]; try done.
  unfold ret. apply IH.
Qed.

Lemma settle_sink_put_eff r o w st :
  promises w !! r = Some st ->
  settle_sink r o w = put_eff r (sink_settle o st, contexts w) w.
Proof.
  intros Hr. unfold settle_sink, put_eff, sink_settle. rewrite Hr. simpl.
  destruct (status_ st); [reflexivity| |];
    rewrite (list_insert_id (promises w) r st Hr); clear Hr; by destruct w.
Qed.

Lemma sink_settle_sink o st : sink st -> sink (sink_settle o st).
Proof.
  intros [->|[Hs Hm]]; unfold sink_settle.
  - simpl. apply sink_outcome_state.
  - destruct (status_ st) eqn:E; [done|right; split; congruence..].
Qed.

(** Adding continuations to a state. *)
Definition extend (st : state) (hs : list handler) : state :=
  mk_state (storage_ st) (status_ st) (exception_ st) (mutex_ st)
           (handlers_ st ++ hs).

Lemma extend_nil st : extend st [] = st.
Proof. unfold extend. rewrite app_nil_r. apply state_eta. Qed.

Lemma extend_extend st hs hs' :
  extend (extend st hs) hs' = extend st (hs ++ hs').
Proof. unfold extend. simpl. by rewrite app_assoc. Qed.

(** The continuations the loop queues on a pending input [x]. *)
Fixpoint news (F : nat -> ResolveF) (n1 idx : nat) (ps : list promise)
    (x : promise) : list handler :=
  match ps with
  | [] => []
  | q :: ps' =>
      (if decide (q = x) then [queued n1 (F idx) JF_ignore] else []) ++
      news F (S (S n1)) (S idx) ps' x
  end.

Lemma news_not_in F n1 idx ps x : x ∉ ps -> news F n1 idx ps x = [].
Proof.
  revert n1 idx. induction ps as [|q ps IH]; intros n1 idx Hx; [done|].
  simpl. apply not_elem_of_cons in Hx as [Hne Hx].
  rewrite decide_False by done. by apply IH.
Qed.

(** How an input stood when the loop reached it. *)
Definition kind (w : world) (q : promise) : option outcome := outcome_of w q.

Fixpoint fold_steps (step : nat -> val -> eff -> eff) (idx : nat)
    (ks : list (option outcome)) (e : eff) : eff :=
  match ks with
  | [] => e
  | k :: ks' =>
      fold_steps step (S idx) ks'
        (match k with
         | None => e
         | Some (Resolved v) => step idx v e
         | Some (Rejected x) => reject_eff x e
         end)
  end.

(** The two handles under the input number [j]. *)
Definition pair_ok (r : promise) (w' : world) (n1 : promise)
    (k : option outcome) : Prop :=
  match k with
  | None =>
      promises w' !! n1 = Some (waiting (S n1) r) /\
      promises w' !! S n1 = Some fresh_state
  | Some (Resolved _) =>
      promises w' !! n1 = Some (outcome_state (Resolved VVoid)) /\
      promises w' !! S n1 = Some (outcome_state (Resolved VVoid))
  | Some (Rejected x) =>
      promises w' !! n1 = Some (outcome_state (Rejected x)) /\
      promises w' !! S n1 = Some (outcome_state (Rejected x))
  end.

(** What the loop needs of an input: a handle other than the result, not
    locked, holding its value if resolved. *)
Definition input_ok (r : promise) (w : world) (q : promise) : Prop :=
  q <> r /\
  exists st, promises w !! q = Some st /\ mutex_ st = false /\
             (status_ st = resolved -> is_Some (storage_ st)).

(** The store [w'] the loop over [ps] leaves, from the store [w] it
    started in. *)
Definition after (F : nat -> ResolveF) (step : nat -> val -> eff -> eff)
    (r : promise) (idx : nat) (ps : list promise) (w w' : world) : Prop :=
  length (promises w') = length (promises w) + 2 * length ps /\
  trace w' = trace w /\
  (forall x st, x <> r -> promises w !! x = Some st ->
     promises w' !! x =
     Some (extend st (match status_ st with
                      | pending => news F (length (promises w)) idx ps x
                      | _ => []
                      end))) /\
  (forall j q, ps !! j = Some q ->
     pair_ok r w' (length (promises w) + 2 * j) (kind w q)) /\
  (forall st, promises w !! r = Some st ->
     exists st', promises w' !! r = Some st' /\
       (st', contexts w') =
       fold_steps step idx (kind w <$> ps) (st, contexts w)).

Lemma put_eff_set_st r e q a w :
  q <> r -> put_eff r e (set_st q a w) = set_st q a (put_eff r e w).
Proof.
  intros H. unfold put_eff, set_st. simpl.
  by rewrite list_insert_insert_ne.
Qed.

Lemma put_eff_length r e w :
  length (promises (put_eff r e w)) = length (promises w).
Proof. simpl. apply length_insert. Qed.

Lemma put_eff_lookup r e w :
  r < length (promises w) -> promises (put_eff r e w) !! r = Some e.1.
Proof. intros H. simpl. by apply list_lookup_insert_eq. Qed.

Lemma put_eff_lookup_ne r e w x :
  x <> r -> promises (put_eff r e w) !! x = promises w !! x.
Proof. intros H. simpl. apply list_lookup_insert_ne. congruence. Qed.

Lemma length_alloc w : length (promises (alloc w)) = S (length (promises w)).
Proof. simpl. rewrite length_app. simpl. lia. Qed.

Lemma lookup_alloc_lt w x :
  x < length (promises w) -> promises (alloc w) !! x = promises w !! x.
Proof. intros H. simpl. by apply lookup_app_l. Qed.

Section Loop.
Variable k : nat.
Variable F : nat -> ResolveF.
Variable step : nat -> val -> eff -> eff.
Variable r : promise.
Variable G : eff -> Prop.
Hypothesis G_sink : forall e, G e -> sink e.1.
Hypothesis G_step : forall idx v e, G e -> G (step idx v e).
Hypothesis G_reject : forall x e, G e -> G (reject_eff x e).
Hypothesis F_fires : forall idx v w st,
  promises w !! r = Some st -> G (st, contexts w) ->
  invoke_resolveF (resolve (S (S k))) (F idx) v w =
  Ret VVoid (put_eff r (step idx v (st, contexts w)) w).

Lemma then1_F_on_resolved q idx v w st str :
  promises w !! q = Some st -> mutex_ st = false -> status_ st = resolved ->
  storage_ st = Some v ->
  promises w !! r = Some str -> G (str, contexts w) -> q <> r ->
  then1 (S (S k)) q (F idx) w =
  Ret (length (promises w))
      (set_st (length (promises w)) (outcome_state (Resolved VVoid))
              (put_eff r (step idx v (str, contexts w)) (alloc w))).
Proof.
  intros Hq Hm Hs Hv Hr HG Hne.
  assert (Hlt : q < length (promises w)) by (by eapply lookup_lt_Some).
  assert (Hltr : r < length (promises w)) by (by eapply lookup_lt_Some).
  unfold then1, then_, attach, bind at 1, new_promise. fold (alloc w).
  unfold bind at 1.
  rewrite (state_attach_resolved _ _ q _ _ JF_ignore (alloc w) st v
             (lookup_alloc_old _ _ _ Hq) Hm Hs Hv).
  rewrite (bracket q st (alloc w) _
             (fun w' => set_st (length (promises w))
                          (outcome_state (Resolved VVoid))
                          (put_eff r (step idx v (str, contexts w)) w')));
    try done.
  - by apply lookup_alloc_old.
  - set (w1 := set_st q (locked st) (alloc w)).
    assert (Hr1 : promises w1 !! r = Some str).
    { unfold w1. rewrite lookup_set_st_ne by done.
      by apply lookup_alloc_old. }
    unfold call_resolve_h. cbn [rs_n rs_f rs_j].
    unfold try_catch, bind, ret.
    rewrite (F_fires idx v w1 str Hr1 HG).
    rewrite resolve_fresh; [done|].
    rewrite put_eff_lookup_ne by lia.
    unfold w1. rewrite lookup_set_st_ne by lia. apply lookup_alloc_new.
  - intros a w'. rewrite put_eff_set_st by done.
    apply set_st_comm. lia.
  - intros w'. by rewrite length_set_st, put_eff_length.
Qed.

Lemma comb_iter q idx w st stq :
  promises w !! r = Some st -> G (st, contexts w) ->
  promises w !! q = Some stq -> q <> r ->
  mutex_ stq = false -> (status_ stq = resolved -> is_Some (storage_ stq)) ->
  exists w1,
    (n <- then1 (S (S k)) q (F idx) ;;
     fail (S (S k)) n (JF_rejector (Rejector r))) w =
    Ret (S (length (promises w))) w1 /\
    after F step r idx [q] w w1.
Proof.
  intros Hr HG Hq Hne Hm Hsto.
  assert (Hlt : q < length (promises w)) by (by eapply lookup_lt_Some).
  assert (Hltr : r < length (promises w)) by (by eapply lookup_lt_Some).
  set (n1 := length (promises w)) in *.
  assert (Hkind : forall x st', x <> q -> promises w !! x = Some st' ->
    st' = extend st' (match status_ st' with
                      | pending => news F n1 idx [q] x
                      | _ => []
                      end)).
  { intros x st' Hx _. simpl. rewrite decide_False by done. simpl.
    destruct (status_ st'); by rewrite extend_nil. }
  destruct (status_ stq) eqn:Es.
  - (* pending *)
    set (wa := set_st q (extend stq [queued n1 (F idx) JF_ignore]) (alloc w)).
    assert (Ea : then1 (S (S k)) q (F idx) w = Ret n1 wa).
    { unfold then1. rewrite (then_pending _ q _ _ w stq Hq Hm Es).
      unfold push. by rewrite (lookup_alloc_old _ _ _ Hq). }
    assert (Hla : length (promises wa) = S n1).
    { unfold wa. by rewrite length_set_st, length_alloc. }
    assert (Hn1 : promises wa !! n1 = Some fresh_state).
    { unfold wa. rewrite lookup_set_st_ne by lia. apply lookup_alloc_new. }
    assert (Hold : forall x, x < n1 -> x <> q ->
              promises wa !! x = promises w !! x).
    { intros x Hx Hxq. unfold wa. rewrite lookup_set_st_ne by done.
      by apply lookup_alloc_lt. }
    exists (set_st n1 (waiting (S n1) r) (alloc wa)).
    split.
    { unfold bind. rewrite Ea. rewrite (fail_on_fresh _ n1 _ wa Hn1).
      by rewrite Hla. }
    unfold after. fold n1. split; [|split; [|split; [|split]]].
    + rewrite length_set_st, length_alloc, Hla. simpl. lia.
    + done.
    + intros x st' Hx Hx'.
      assert (x < n1) by (by eapply lookup_lt_Some).
      rewrite lookup_set_st_ne by lia.
      rewrite lookup_alloc_lt by lia.
      destruct (decide (x = q)) as [->|Hqx].
      * rewrite Hq in Hx'. injection Hx' as <-. rewrite Es.
        unfold wa. rewrite lookup_set_st_eq by (rewrite length_alloc; lia).
        simpl. by rewrite decide_True.
      * rewrite Hold by done. rewrite Hx'. f_equal. by apply Hkind.
    + intros [|j] q' Hj; [|done]. injection Hj as <-.
      assert (Hk : kind w q = None)
        by (unfold kind, outcome_of; by rewrite Hq, Es).
      rewrite Hk. unfold pair_ok.
      rewrite Nat.mul_0_r, Nat.add_0_r. split.
      * apply lookup_set_st_eq. rewrite length_alloc. lia.
      * rewrite lookup_set_st_ne by lia. rewrite <- Hla.
        apply lookup_alloc_new.
    + intros st0 Hr0. rewrite Hr in Hr0. injection Hr0 as <-.
      exists st. split.
      * rewrite lookup_set_st_ne by lia. rewrite lookup_alloc_lt by lia.
        by rewrite Hold.
      * assert (Hk : kind w q = None)
          by (unfold kind, outcome_of; by rewrite Hq, Es).
        cbn [fmap list_fmap fold_steps]. by rewrite Hk.
  - (* resolved *)
    destruct (Hsto eq_refl) as [v Hv].
    set (wa := set_st n1 (outcome_state (Resolved VVoid))
                 (put_eff r (step idx v (st, contexts w)) (alloc w))).
    assert (Ea : then1 (S (S k)) q (F idx) w = Ret n1 wa).
    { by apply (then1_F_on_resolved q idx v w stq st). }
    assert (Hla : length (promises wa) = S n1).
    { unfold wa. by rewrite length_set_st, put_eff_length, length_alloc. }
    assert (Hn1 : promises wa !! n1 = Some (outcome_state (Resolved VVoid))).
    { unfold wa. apply lookup_set_st_eq.
      rewrite put_eff_length, length_alloc. lia. }
    assert (Hold : forall x, x < n1 -> x <> r ->
              promises wa !! x = promises w !! x).
    { intros x Hx Hxq. unfold wa. rewrite lookup_set_st_ne by lia.
      rewrite put_eff_lookup_ne by done. by apply lookup_alloc_lt. }
    exists (set_st (S n1) (outcome_state (Resolved VVoid)) (alloc wa)).
    split.
    { unfold bind. rewrite Ea.
      rewrite (fail_on_resolved (S k) n1 _ VVoid wa _ Hn1); try done.
      by rewrite Hla. }
    unfold after. fold n1. split; [|split; [|split; [|split]]].
    + rewrite length_set_st, length_alloc, Hla. simpl. lia.
    + done.
    + intros x st' Hx Hx'.
      assert (x < n1) by (by eapply lookup_lt_Some).
      rewrite lookup_set_st_ne by lia.
      rewrite lookup_alloc_lt by lia. rewrite Hold by done.
      rewrite Hx'. f_equal.
      destruct (decide (x = q)) as [->|Hqx]; [|by apply Hkind].
      rewrite Hq in Hx'. injection Hx' as <-. rewrite Es.
      by rewrite extend_nil.
    + intros [|j] q' Hj; [|done]. injection Hj as <-.
      assert (Hk : kind w q = Some (Resolved v))
        by (unfold kind, outcome_of; by rewrite Hq, Es, Hv).
      rewrite Hk. unfold pair_ok.
      rewrite Nat.mul_0_r, Nat.add_0_r. split.
      * rewrite lookup_set_st_ne by lia. by rewrite lookup_alloc_lt by lia.
      * apply lookup_set_st_eq. rewrite length_alloc. lia.
    + intros st0 Hr0. rewrite Hr in Hr0. injection Hr0 as <-.
      eexists. split.
      * rewrite lookup_set_st_ne by lia. rewrite lookup_alloc_lt by lia.
        unfold wa. rewrite lookup_set_st_ne by lia.
        apply put_eff_lookup. rewrite length_alloc. lia.
      * assert (Hk : kind w q = Some (Resolved v))
          by (unfold kind, outcome_of; by rewrite Hq, Es, Hv).
        cbn [fmap list_fmap fold_steps]. rewrite Hk.
        unfold wa, alloc, set_st, put_eff. cbn [contexts].
        by destruct (step idx v (st, contexts w)).
  - (* rejected *)
    set (e := exception_ stq).
    set (wa := set_st n1 (outcome_state (Rejected e)) (alloc w)).
    assert (Ea : then1 (S (S k)) q (F idx) w = Ret n1 wa).
    { by apply (then_on_rejected (S k) q (F idx) w stq). }
    assert (Hla : length (promises wa) = S n1).
    { unfold wa. by rewrite length_set_st, length_alloc. }
    assert (Hn1 : promises wa !! n1 = Some (outcome_state (Rejected e))).
    { unfold wa. apply lookup_set_st_eq. rewrite length_alloc. lia. }
    assert (Hold : forall x, x < n1 ->
              promises wa !! x = promises w !! x).
    { intros x Hx. unfold wa. rewrite lookup_set_st_ne by lia.
      by apply lookup_alloc_lt. }
    assert (Hra : promises wa !! r = Some st) by (by rewrite Hold).
    exists (set_st (S n1) (outcome_state (Rejected e))
              (settle_sink r (Rejected e) (alloc wa))).
    split.
    { unfold bind. rewrite Ea.
      rewrite (fail_on_rejected (S k) n1 r e wa _ st Hn1); try done.
      - by rewrite Hla.
      - by apply (G_sink (st, contexts w)).
      - lia. }
    assert (Hraa : promises (alloc wa) !! r = Some st)
      by (by apply lookup_alloc_old).
    unfold after. fold n1. split; [|split; [|split; [|split]]].
    + rewrite length_set_st, settle_sink_length, length_alloc, Hla.
      simpl. lia.
    + simpl. by rewrite settle_sink_trace.
    + intros x st' Hx Hx'.
      assert (x < n1) by (by eapply lookup_lt_Some).
      rewrite lookup_set_st_ne by lia.
      rewrite settle_sink_lookup_ne by done.
      rewrite lookup_alloc_lt by lia. rewrite Hold by done.
      rewrite Hx'. f_equal.
      destruct (decide (x = q)) as [->|Hqx]; [|by apply Hkind].
      rewrite Hq in Hx'. injection Hx' as <-. rewrite Es.
      by rewrite extend_nil.
    + intros [|j] q' Hj; [|done]. injection Hj as <-.
      assert (Hk : kind w q = Some (Rejected e))
        by (unfold kind, outcome_of; by rewrite Hq, Es).
      rewrite Hk. unfold pair_ok.
      rewrite Nat.mul_0_r, Nat.add_0_r. split.
      * rewrite lookup_set_st_ne by lia.
        rewrite settle_sink_lookup_ne by lia.
        by rewrite lookup_alloc_lt by lia.
      * apply lookup_set_st_eq.
        rewrite settle_sink_length, length_alloc. lia.
    + intros st0 Hr0. rewrite Hr in Hr0. injection Hr0 as <-.
      eexists. split.
      * rewrite lookup_set_st_ne by lia.
        apply (settle_sink_lookup r (Rejected e) (alloc wa) st Hraa).
      * assert (Hk : kind w q = Some (Rejected e))
          by (unfold kind, outcome_of; by rewrite Hq, Es).
        cbn [fmap list_fmap fold_steps]. rewrite Hk.
        unfold set_st. cbn [contexts]. rewrite settle_sink_contexts.
        done.
Qed.

Lemma kind_after idx ps w w' x :
  after F step r idx ps w w' -> x <> r -> x < length (promises w) ->
  kind w' x = kind w x.
Proof.
  intros (_ & _ & Hold & _) Hx Hlt.
  destruct (lookup_lt_is_Some_2 _ _ Hlt) as [st Hst].
  unfold kind, outcome_of. by rewrite (Hold x st Hx Hst), Hst.
Qed.

Lemma input_ok_after idx ps w w' q :
  after F step r idx ps w w' -> input_ok r w q -> input_ok r w' q.
Proof.
  intros (_ & _ & Hold & _) (Hne & st & Hq & Hm & Hs). split; [done|].
  eexists. split; [by apply Hold|]. done.
Qed.

Lemma after_nil idx w : after F step r idx [] w w.
Proof.
  unfold after. split; [simpl; lia|]. split; [done|].
  split; [|split].
  - intros x st _ Hx. rewrite Hx. f_equal.
    destruct (status_ st); by rewrite extend_nil.
  - intros j q Hj. done.
  - intros st Hr. by exists st.
Qed.

Lemma after_cons idx q ps w w1 w' :
  q <> r -> q < length (promises w) -> r < length (promises w) ->
  Forall (fun x => x <> r /\ x < length (promises w)) ps ->
  after F step r idx [q] w w1 -> after F step r (S idx) ps w1 w' ->
  after F step r idx (q :: ps) w w'.
Proof.
  intros Hq Hqlt Hrlt Hps H1 H2.
  pose proof H1 as (Hl1 & Ht1 & Hold1 & Hpair1 & Heff1).
  pose proof H2 as (Hl2 & Ht2 & Hold2 & Hpair2 & Heff2).
  simpl in Hl1.
  assert (Hkinds : kind w1 <$> ps = kind w <$> ps).
  { apply list_fmap_ext. intros j x Hx.
    rewrite Forall_forall in Hps.
    destruct (Hps x) as [Hxr Hxlt]; [by eapply list_elem_of_lookup_2|].
    by apply (kind_after idx [q] w w1). }
  assert (Hnot : forall x, length (promises w) <= x -> x ∉ ps).
  { intros x Hx Hin. rewrite Forall_forall in Hps.
    destruct (Hps x Hin). lia. }
  unfold after. split; [|split; [|split; [|split]]].
  - rewrite Hl2, Hl1. simpl. lia.
  - congruence.
  - intros x st Hx Hst.
    rewrite (Hold2 x _ Hx (Hold1 x st Hx Hst)).
    rewrite extend_extend. f_equal. simpl status_.
    destruct (status_ st); simpl; rewrite ?app_nil_r; try done.
    rewrite Hl1.
    by replace (length (promises w) + 2) with (S (S (length (promises w))))
      by lia.
  - intros [|j] q' Hj.
    + injection Hj as <-. specialize (Hpair1 0 q eq_refl).
      rewrite Nat.mul_0_r, Nat.add_0_r in *.
      assert (Hkeep : forall x st,
        length (promises w) <= x -> promises w1 !! x = Some st ->
        promises w' !! x = Some st).
      { intros x st Hx Hst. rewrite (Hold2 x st); [|lia|done].
        rewrite news_not_in by (by apply Hnot).
        f_equal. destruct (status_ st); by rewrite extend_nil. }
      unfold pair_ok in *.
      destruct (kind w q) as [[v|e]|]; destruct Hpair1 as [Ha Hb];
        split; apply Hkeep; (lia || done).
    + simpl in Hj. specialize (Hpair2 j q' Hj).
      rewrite Forall_forall in Hps.
      destruct (Hps q') as [Hxr Hxlt]; [by eapply list_elem_of_lookup_2|].
      rewrite (kind_after idx [q] w w1) in Hpair2 by done.
      rewrite Hl1 in Hpair2.
      replace (length (promises w) + 2 * S j)
        with (length (promises w) + 2 * 1 + 2 * j) by lia.
      done.
  - intros st Hst. destruct (Heff1 st Hst) as (st1 & Hr1 & E1).
    destruct (Heff2 st1 Hr1) as (st' & Hr' & E').
    exists st'. split; [done|].
    rewrite E', Hkinds. simpl in E1. rewrite E1. done.
Qed.

Lemma comb_loop_after ps : forall idx w st,
  promises w !! r = Some st -> G (st, contexts w) ->
  Forall (input_ok r w) ps ->
  exists w',
    comb_loop (S (S k)) F (Rejector r) idx ps w = Ret tt w' /\
    after F step r idx ps w w'.
Proof.
  induction ps as [|q ps IH]; intros idx w st Hr HG Hps.
  - exists w. split; [done|]. apply after_nil.
  - apply Forall_cons in Hps as [(Hqr & stq & Hq & Hm & Hsto) Hps].
    destruct (comb_iter q idx w st stq Hr HG Hq Hqr Hm Hsto)
      as (w1 & E1 & H1).
    pose proof H1 as (Hl1 & Ht1 & Hold1 & Hpair1 & Heff1).
    destruct (Heff1 st Hr) as (st1 & Hr1 & Eeff).
    destruct (IH (S idx) w1 st1 Hr1) as (w' & E' & H').
    { rewrite Eeff. simpl. destruct (kind w q) as [[v|e]|]; auto. }
    { eapply Forall_impl; [exact Hps|]. intros x.
      by apply (input_ok_after idx [q] w w1). }
    exists w'. split.
    + cbn [comb_loop]. unfold bind in *.
      destruct (then1 _ q _ w) as [n wa|c wa|x]; try done.
      destruct (fail _ n _ wa) as [n' wb|c wb|x]; try done.
      injection E1 as _ ->. done.
    + eapply after_cons; try done.
      * by eapply lookup_lt_Some.
      * by eapply lookup_lt_Some.
      * eapply Forall_impl; [exact Hps|].
        intros x (Hx & stx & Hxl & _). split; [done|].
        by eapply lookup_lt_Some.
Qed.

(** *** Settling an input after the loop: its new continuations *)

(** What the pair under an input receives. *)
Definition pair_outcome (o : outcome) : outcome :=
  match o with
  | Resolved _ => Resolved VVoid
  | Rejected e => Rejected e
  end.

Definition effect_of (idx : nat) (o : outcome) (e : eff) : eff :=
  match o with
  | Resolved v => step idx v e
  | Rejected x => reject_eff x e
  end.

Lemma G_effect idx o e : G e -> G (effect_of idx o e).
Proof. destruct o; simpl; auto. Qed.

Lemma fire_new n1 idx o w st :
  promises w !! r = Some st -> G (st, contexts w) ->
  promises w !! n1 = Some (waiting (S n1) r) ->
  promises w !! S n1 = Some fresh_state ->
  n1 <> r -> S n1 <> r ->
  exists w',
    fire (S (S k)) o (queued n1 (F idx) JF_ignore) w = Ret tt w' /\
    length (promises w') = length (promises w) /\
    trace w' = trace w /\
    promises w' !! n1 = Some (outcome_state (pair_outcome o)) /\
    promises w' !! S n1 = Some (outcome_state (pair_outcome o)) /\
    (forall x, x <> r -> x <> n1 -> x <> S n1 ->
               promises w' !! x = promises w !! x) /\
    promises w' !! r = Some (effect_of idx o (st, contexts w)).1 /\
    contexts w' = (effect_of idx o (st, contexts w)).2.
Proof.
  intros Hr HG H1 H2 Hn1 Hn2.
  assert (Hl1 : n1 < length (promises w)) by (by eapply lookup_lt_Some).
  assert (Hl2 : S n1 < length (promises w)) by (by eapply lookup_lt_Some).
  assert (Hlr : r < length (promises w)) by (by eapply lookup_lt_Some).
  destruct o as [v|e]; unfold fire, queued; cbn [resolve_ reject_].
  - set (w1 := put_eff r (step idx v (st, contexts w)) w).
    assert (Hr1 : promises w1 !! r = Some (step idx v (st, contexts w)).1).
    { by apply put_eff_lookup. }
    assert (Hs1 : sink (step idx v (st, contexts w)).1).
    { by apply G_sink, G_step. }
    exists (pair_settled n1 (S n1) r (Resolved VVoid) w1).
    split.
    { unfold call_resolve_h. cbn [rs_n rs_f rs_j].
      unfold try_catch, bind, ret.
      rewrite (F_fires idx v w st Hr HG). fold w1.
      change (resolve (S (S k)) n1 VVoid w1)
        with (settle (S (S k)) n1 (Resolved VVoid) w1).
      rewrite (settle_pair k n1 (S n1) r (Resolved VVoid) w1
                 (step idx v (st, contexts w)).1);
        try done; try lia; unfold w1; by rewrite put_eff_lookup_ne. }
    unfold pair_settled, w1.
    split; [by rewrite !length_set_st, put_eff_length|].
    split; [done|].
    split; [apply lookup_set_st_eq;
            by rewrite length_set_st, put_eff_length|].
    split; [rewrite lookup_set_st_ne by lia; apply lookup_set_st_eq;
            by rewrite put_eff_length|].
    split; [|split].
    + intros x Hx Hx1 Hx2. rewrite !lookup_set_st_ne by done.
      by apply put_eff_lookup_ne.
    + by rewrite !lookup_set_st_ne by done.
    + done.
  - exists (pair_settled n1 (S n1) r (Rejected e) w).
    split.
    { unfold call_reject_h. cbn [rj_n rj_f invoke_rejectF].
      unfold try_catch, bind, ret.
      change (reject (S (S k)) n1 e w)
        with (settle (S (S k)) n1 (Rejected e) w).
      rewrite (settle_pair k n1 (S n1) r (Rejected e) w st);
        try done; try lia. by apply (G_sink (st, contexts w)). }
    unfold pair_settled.
    split; [by rewrite !length_set_st, settle_sink_length|].
    split; [simpl; by rewrite settle_sink_trace|].
    split; [apply lookup_set_st_eq;
            by rewrite length_set_st, settle_sink_length|].
    split; [rewrite lookup_set_st_ne by lia; apply lookup_set_st_eq;
            by rewrite settle_sink_length|].
    split; [|split].
    + intros x Hx Hx1 Hx2. rewrite !lookup_set_st_ne by done.
      by apply settle_sink_lookup_ne.
    + rewrite !lookup_set_st_ne by done.
      rewrite (settle_sink_lookup r (Rejected e) w st Hr). done.
    + simpl. by rewrite settle_sink_contexts.
Qed.

(** Which inputs are the handle [q] being settled with [o]. *)
Definition occ (q : promise) (o : outcome) (p : promise) : option outcome :=
  if decide (p = q) then Some o else None.

Lemma fire_news q o ps : forall n1 idx w st,
  promises w !! r = Some st -> G (st, contexts w) -> r < n1 ->
  (forall j, ps !! j = Some q ->
     promises w !! (n1 + 2 * j) = Some (waiting (S (n1 + 2 * j)) r) /\
     promises w !! S (n1 + 2 * j) = Some fresh_state) ->
  exists w' st',
    for_each (fire (S (S k)) o) (news F n1 idx ps q) w = Ret tt w' /\
    length (promises w') = length (promises w) /\
    trace w' = trace w /\
    promises w' !! r = Some st' /\
    (st', contexts w') =
      fold_steps step idx (occ q o <$> ps) (st, contexts w) /\
    (forall x, x <> r ->
       (forall j, ps !! j = Some q -> x <> n1 + 2 * j /\ x <> S (n1 + 2 * j)) ->
       promises w' !! x = promises w !! x) /\
    (forall j, ps !! j = Some q ->
       promises w' !! (n1 + 2 * j) = Some (outcome_state (pair_outcome o)) /\
       promises w' !! S (n1 + 2 * j) = Some (outcome_state (pair_outcome o))).
Proof.
  induction ps as [|p ps IH]; intros n1 idx w st Hr HG Hrn Hpairs.
  - exists w, st. repeat split; try done.
  - cbn [news fmap list_fmap fold_steps].
    destruct (decide (p = q)) as [->|Hpq].
    + destruct (Hpairs 0 eq_refl) as [Ha Hb].
      rewrite Nat.mul_0_r, Nat.add_0_r in Ha, Hb.
      destruct (fire_new n1 idx o w st Hr HG Ha Hb)
        as (w1 & E1 & Hl1 & Ht1 & Hn1 & Hn2 & Hold1 & Hr1 & Hc1);
        [lia..|].
      destruct (IH (S (S n1)) (S idx) w1 _ Hr1)
        as (w' & st' & E' & Hl' & Ht' & Hr' & Eeff & Hold' & Hnew').
      { rewrite Hc1, <- surjective_pairing. by apply G_effect. }
      { lia. }
      { intros j Hj. destruct (Hpairs (S j) Hj) as [Hc Hd].
        replace (S (S n1) + 2 * j) with (n1 + 2 * S j) by lia.
        rewrite !Hold1 by lia. done. }
      exists w', st'. split; [|split; [|split; [|split; [|split; [|split]]]]].
      * cbn [app for_each]. by rewrite (bind_ret _ _ _ _ _ E1).
      * congruence.
      * congruence.
      * done.
      * rewrite Eeff, Hc1, <- surjective_pairing.
        unfold occ at 3. rewrite decide_True by done. by destruct o.
      * intros x Hx Hnot. rewrite Hold'; [|done|].
        -- destruct (Hnot 0 eq_refl).
           rewrite Nat.mul_0_r, Nat.add_0_r in *. by apply Hold1.
        -- intros j Hj. destruct (Hnot (S j) Hj).
           split; lia.
      * intros [|j] Hj.
        -- rewrite Nat.mul_0_r, Nat.add_0_r.
           rewrite !Hold' by (try lia; intros j' Hj'; split; lia). done.
        -- destruct (Hnew' j Hj) as [Hc Hd].
           replace (n1 + 2 * S j) with (S (S n1) + 2 * j) by lia. done.
    + destruct (IH (S (S n1)) (S idx) w st Hr HG)
        as (w' & st' & E' & Hl' & Ht' & Hr' & Eeff & Hold' & Hnew').
      { lia. }
      { intros j Hj. destruct (Hpairs (S j) Hj) as [Hc Hd].
        replace (S (S n1) + 2 * j) with (n1 + 2 * S j) by lia. done. }
      exists w', st'. split; [done|]. split; [done|]. split; [done|].
      split; [done|]. split.
      { rewrite Eeff. unfold occ at 3. by rewrite decide_False. }
      split.
      * intros x Hx Hnot. apply Hold'; [done|].
        intros j Hj. destruct (Hnot (S j) Hj). split; lia.
      * intros [|j] Hj; [simpl in Hj; congruence|].
        destruct (Hnew' j Hj) as [Hc Hd].
        replace (n1 + 2 * S j) with (S (S n1) + 2 * j) by lia. done.
Qed.
End Loop.

(** ** make_any_promise *)

Definition F_any (r : promise) : nat -> ResolveF :=
  fun _ => RF_any (Resolver r).

Definition step_any : nat -> val -> eff -> eff :=
  fun _ v e => (sink_settle (Resolved v) e.1, e.2).

Definition G_any (e : eff) : Prop := sink e.1.

Lemma F_any_fires k r idx v w st :
  promises w !! r = Some st -> G_any (st, contexts w) ->
  invoke_resolveF (resolve (S (S k))) (F_any r idx) v w =
  Ret VVoid (put_eff r (step_any idx v (st, contexts w)) w).
Proof.
  intros Hr HG. unfold F_any, step_any. cbn [invoke_resolveF fst snd].
  unfold bind, ret.
  destruct (resolve_on_sink (S k) r v w st Hr HG) as [b ->].
  by rewrite (settle_sink_put_eff r _ w st Hr).
Qed.

Lemma G_any_step idx v e : G_any e -> G_any (step_any idx v e).
Proof. apply sink_settle_sink. Qed.

Lemma G_any_reject x e : G_any e -> G_any (reject_eff x e).
Proof. apply sink_settle_sink. Qed.

Lemma G_any_sink e : G_any e -> sink e.1.
Proof. done. Qed.

(** The first input, by position, that was settled. *)
Fixpoint first_some (ks : list (option outcome)) : option outcome :=
  match ks with
  | [] => None
  | Some o :: _ => Some o
  | None :: ks' => first_some ks'
  end.

Lemma sink_settle_idem o o' st :
  sink_settle o' (sink_settle o st) = sink_settle o st.
Proof.
  unfold sink_settle. destruct (status_ st) eqn:E; [by destruct o| |];
    by rewrite E.
Qed.

Lemma fold_any_settled ks : forall idx o st cs,
  fold_steps step_any idx ks (sink_settle o st, cs) = (sink_settle o st, cs).
Proof.
  induction ks as [|[[v|x]|] ks IH]; intros idx o st cs; simpl; try done.
  - unfold step_any. simpl. rewrite sink_settle_idem. apply IH.
  - unfold reject_eff. simpl. rewrite sink_settle_idem. apply IH.
Qed.

Lemma fold_any_first ks : forall idx st cs,
  fold_steps step_any idx ks (st, cs) =
  (match first_some ks with Some o => sink_settle o st | None => st end, cs).
Proof.
  induction ks as [|[[v|x]|] ks IH]; intros idx st cs; simpl; try done.
  - unfold step_any. simpl. apply fold_any_settled.
  - unfold reject_eff. simpl. apply fold_any_settled.
Qed.

Lemma first_some_app_pending pre o post :
  Forall (fun k => k = None) pre ->
  first_some (pre ++ Some o :: post) = Some o.
Proof.
  induction pre as [|k pre IH]; intros H; [done|].
  apply Forall_cons in H as [-> H]. simpl. by apply IH.
Qed.

Lemma first_some_none ks :
  Forall (fun k => k = None) ks -> first_some ks = None.
Proof.
  induction ks as [|k ks IH]; intros H; [done|].
  apply Forall_cons in H as [-> H]. simpl. by apply IH.
Qed.

Lemma first_some_occ q o ps :
  q ∈ ps -> first_some (occ q o <$> ps) = Some o.
Proof.
  induction ps as [|p ps IH]; intros H; [by apply elem_of_nil in H|].
  simpl. unfold occ at 1. destruct (decide (p = q)) as [->|Hne]; [done|].
  apply IH. apply elem_of_cons in H as [->|H]; done.
Qed.

Lemma outcome_of_alloc w x :
  x < length (promises w) -> outcome_of (alloc w) x = outcome_of w x.
Proof. intros H. unfold outcome_of. by rewrite lookup_alloc_lt. Qed.

Lemma wf_input_ok N L w r q :
  wf N L w -> q < length (promises w) -> r = length (promises w) ->
  input_ok r (alloc w) q.
Proof.
  intros (rank & B & Hi) Hq ->. split; [lia|].
  destruct (lookup_lt_is_Some_2 _ _ Hq) as [st Hst].
  destruct (Hi q st Hst) as (_ & Hm & Hv & _); [by intros []|].
  exists st. split; [by apply lookup_alloc_old|]. split; [apply Hm; lia|done].
Qed.

(** [make_any_promise] on a non-empty collection returns a new handle and
    leaves the store the loop produces. *)
Lemma make_any_after k N L w ps :
  wf N L w -> ps <> [] -> Forall (fun q => q < length (promises w)) ps ->
  exists w1,
    make_any_promise (S (S k)) ps w = Ret (length (promises w)) w1 /\
    after (F_any (length (promises w))) step_any (length (promises w)) 0 ps
          (alloc w) w1.
Proof.
  intros Hwf Hne Hps.
  destruct (comb_loop_after k (F_any (length (promises w))) step_any
              (length (promises w)) G_any G_any_sink G_any_step G_any_reject
              (F_any_fires k (length (promises w))) ps 0 (alloc w) fresh_state)
    as (w1 & E & Hafter).
  - apply lookup_alloc_new.
  - by left.
  - eapply Forall_impl; [exact Hps|]. intros q Hq.
    by eapply wf_input_ok.
  - exists w1. split; [|done].
    destruct ps as [|p ps]; [done|].
    unfold make_any_promise, make_promise, bind at 1, new_promise.
    fold (alloc w). unfold bind, try_catch.
    rewrite (any_loop_comb _ _ _ _ _ 0). unfold F_any in E. by rewrite E.
Qed.

(** ** The contexts keep their number *)

Lemma fold_steps_length step :
  (forall idx v e, length (step idx v e).2 = length e.2) ->
  forall ks idx e, length (fold_steps step idx ks e).2 = length e.2.
Proof.
  intros Hstep. induction ks as [|[[v|x]|] ks IH]; intros idx e; simpl;
    rewrite ?IH; try done.
Qed.

(** *** The race *)

Lemma step_any_length idx v e : length (step_any idx v e).2 = length e.2.
Proof. done. Qed.

Lemma G_any_stable C0 st (cs cs' : list context_t) :
  G_any (st, cs) -> length cs' = length cs ->
  (forall c, C0 <= c -> cs' !! c = cs !! c) -> G_any (st, cs').
Proof. done. Qed.

Lemma kind_alloc w x :
  x < length (promises w) -> kind (alloc w) x = outcome_of w x.
Proof. apply outcome_of_alloc. Qed.

(** ** make_all_promise: what its callable does to the context and to the
    result *)

Definition F_all (c : nat) (r : promise) : nat -> ResolveF :=
  fun i => RF_all c (Resolver r) i.

Definition step_all (c : nat) : nat -> val -> eff -> eff :=
  fun i v e =>
    match e.2 !! c with
    | Some x =>
        let res := <[i := v]> (results x) in
        (if S (counter x) =? length (results x)
         then sink_settle (Resolved (VVec res)) e.1
         else e.1,
         <[c := mk_context res (S (counter x))]> e.2)
    | None => e
    end.

Definition G_all (c : nat) (e : eff) : Prop := sink e.1 /\ c < length e.2.

Lemma G_all_sink c e : G_all c e -> sink e.1.
Proof. by intros []. Qed.

Lemma G_all_step c idx v e : G_all c e -> G_all c (step_all c idx v e).
Proof.
  intros [Hs Hc]. unfold step_all.
  destruct (e.2 !! c) as [x|]; [|done]. split; cbn [fst snd].
  - destruct (S (counter x) =? length (results x)); [by apply sink_settle_sink|done].
  - by rewrite length_insert.
Qed.

Lemma G_all_reject c x e : G_all c e -> G_all c (reject_eff x e).
Proof. intros [Hs Hc]. split; [by apply sink_settle_sink|done]. Qed.

Lemma G_all_stable c st (cs cs' : list context_t) :
  G_all c (st, cs) -> length cs' = length cs ->
  (forall c', c <= c' -> cs' !! c' = cs !! c') -> G_all c (st, cs').
Proof. intros [Hs Hc] Hl _. split; [done|]. simpl in *. lia. Qed.

Lemma step_all_length c idx v e : length (step_all c idx v e).2 = length e.2.
Proof.
  unfold step_all. destruct (e.2 !! c); [|done]. simpl. apply length_insert.
Qed.

Lemma F_all_fires k c r idx v w st :
  promises w !! r = Some st -> G_all c (st, contexts w) ->
  invoke_resolveF (resolve (S (S k))) (F_all c r idx) v w =
  Ret VVoid (put_eff r (step_all c idx v (st, contexts w)) w).
Proof.
  intros Hr [Hs Hc]. simpl in Hs, Hc.
  destruct (lookup_lt_is_Some_2 _ _ Hc) as [x Hx].
  unfold F_all, step_all. cbn [invoke_resolveF fst snd]. rewrite Hx.
  unfold bind. rewrite (apply_result_eq c idx v w x Hx).
  destruct (S (counter x) =? length (results x)) eqn:Elast.
  - rewrite (get_context_eq c (applied c idx v x w)
               (mk_context (<[idx := v]> (results x)) (S (counter x))));
      [|simpl; by apply list_lookup_insert_eq].
    cbn [results].
    destruct (resolve_on_sink (S k) r (VVec (<[idx := v]> (results x)))
                (applied c idx v x w) st Hr Hs) as [b ->].
    unfold ret. f_equal.
    rewrite (settle_sink_put_eff r _ _ st) by done. done.
  - unfold ret. f_equal. unfold applied, put_eff. cbn [fst snd].
    rewrite (list_insert_id (promises w) r st Hr). done.
Qed.

(** *** The fold over the inputs *)

Definition is_res (k : option outcome) : bool :=
  match k with Some (Resolved _) => true | _ => false end.

Fixpoint count_res (ks : list (option outcome)) : nat :=
  match ks with
  | [] => 0
  | k :: ks' => (if is_res k then 1 else 0) + count_res ks'
  end.

(** The error of the first rejected input, by position. *)
Fixpoint first_rej (ks : list (option outcome)) : option exception_ptr :=
  match ks with
  | [] => None
  | Some (Rejected e) :: _ => Some e
  | _ :: ks' => first_rej ks'
  end.

Lemma step_all_eq c idx v stR cs x :
  cs !! c = Some x ->
  step_all c idx v (stR, cs) =
  (if S (counter x) =? length (results x)
   then sink_settle (Resolved (VVec (<[idx := v]> (results x)))) stR
   else stR,
   <[c := mk_context (<[idx := v]> (results x)) (S (counter x))]> cs).
Proof. intros Hx. unfold step_all. cbn [fst snd]. by rewrite Hx. Qed.

Lemma fold_all_spec c ks : forall idx stR cs x,
  cs !! c = Some x ->
  counter x + count_res ks <= length (results x) ->
  idx + length ks <= length (results x) ->
  exists x',
    (fold_steps (step_all c) idx ks (stR, cs)).2 = <[c := x']> cs /\
    length (results x') = length (results x) /\
    counter x' = counter x + count_res ks /\
    (forall i, i < idx \/ idx + length ks <= i ->
               results x' !! i = results x !! i) /\
    (forall j k, ks !! j = Some k ->
       results x' !! (idx + j) =
       match k with
       | Some (Resolved v) => Some v
       | _ => results x !! (idx + j)
       end) /\
    (forall e, first_rej ks = Some e ->
       counter x + count_res ks < length (results x) ->
       (fold_steps (step_all c) idx ks (stR, cs)).1 =
       sink_settle (Rejected e) stR) /\
    (first_rej ks = None ->
       (fold_steps (step_all c) idx ks (stR, cs)).1 =
       if decide (0 < count_res ks /\
                  counter x + count_res ks = length (results x))
       then sink_settle (Resolved (VVec (results x'))) stR
       else stR).
Proof.
  induction ks as [|k ks IH]; intros idx stR cs x Hx Hcnt Hidx.
  - exists x. simpl. rewrite list_insert_id by done.
    repeat split; done.
  - pose proof (lookup_lt_Some _ _ _ Hx) as Hc.
    cbn [length count_res] in Hcnt, Hidx.
    destruct k as [[v|e]|]; cbn [fold_steps is_res count_res length first_rej] in *.
    + rewrite !(step_all_eq c idx v stR cs x Hx).
      set (x1 := mk_context (<[idx := v]> (results x)) (S (counter x))).
      set (stR1 := if S (counter x) =? length (results x)
                   then sink_settle (Resolved (VVec (<[idx := v]> (results x)))) stR
                   else stR).
      destruct (IH (S idx) stR1 (<[c := x1]> cs) x1)
        as (x' & Hcs & Hlen & Hcount & Hout & Hin & Hrej & Hres).
      { by apply list_lookup_insert_eq. }
      { simpl. rewrite length_insert. lia. }
      { simpl. rewrite length_insert. lia. }
      simpl in Hlen, Hcount. rewrite length_insert in Hlen.
      assert (Hx1 : forall i, i <> idx -> results x1 !! i = results x !! i).
      { intros i Hi. simpl. by apply list_lookup_insert_ne. }
      exists x'. split; [by rewrite Hcs, list_insert_insert_eq|].
      split; [done|]. split; [lia|]. split; [|split; [|split]].
      * intros i Hi. rewrite Hout by lia. apply Hx1. lia.
      * intros [|j] k Hk.
        -- simpl in Hk. injection Hk as <-. rewrite Nat.add_0_r.
           rewrite Hout by lia. simpl. apply list_lookup_insert_eq. lia.
        -- simpl in Hk. replace (idx + S j) with (S idx + j) by lia.
           rewrite (Hin j k Hk). rewrite Hx1 by lia. done.
      * intros e Hfr Hlt. cbn [first_rej] in Hfr.
        rewrite (Hrej e Hfr) by (simpl; rewrite length_insert; lia).
        unfold stR1. destruct (Nat.eqb_spec (S (counter x)) (length (results x)));
          [lia|done].
      * intros Hfr. cbn [first_rej] in Hfr. rewrite (Hres Hfr).
        simpl. rewrite length_insert. unfold stR1.
        destruct (Nat.eqb_spec (S (counter x)) (length (results x))) as [El|El].
        -- rewrite decide_False by lia. rewrite decide_True by lia.
           f_equal. f_equal. f_equal. symmetry. apply list_eq. intros i.
           destruct (decide (i < S idx \/ S idx + length ks <= i)) as [Hi|Hi];
             [by apply Hout|].
           destruct (lookup_lt_is_Some_2 ks (i - S idx)) as [k Hk]; [lia|].
           pose proof (Hin _ _ Hk) as Hi'.
           replace (S idx + (i - S idx)) with i in Hi' by lia.
           rewrite Hi'. destruct k as [[v'|e']|]; try done.
           exfalso. assert (count_res ks = 0) as Hz by lia.
           clear -Hk Hz. revert Hk Hz. generalize (i - S idx).
           induction ks as [|k' ks IHks]; intros [|n] Hk Hz; try done.
           ++ simpl in Hk. injection Hk as ->. simpl in Hz. lia.
           ++ simpl in Hk, Hz. eapply IHks; [exact Hk|lia].
        -- repeat case_decide; try done; lia.
    + destruct (IH (S idx) (sink_settle (Rejected e) stR) cs x Hx)
        as (x' & Hcs & Hlen & Hcount & Hout & Hin & Hrej & Hres); try lia.
      unfold reject_eff. cbn [fst snd].
      exists x'. split; [done|]. split; [done|]. split; [lia|].
      split; [|split; [|split]].
      * intros i Hi. apply Hout. lia.
      * intros [|j] k Hk.
        -- simpl in Hk. injection Hk as <-. rewrite Nat.add_0_r.
           apply Hout. lia.
        -- simpl in Hk. replace (idx + S j) with (S idx + j) by lia.
           by apply Hin.
      * intros e0 Hfr Hlt. cbn [first_rej] in Hfr. injection Hfr as <-.
        destruct (first_rej ks) as [e'|] eqn:Efr.
        -- rewrite (Hrej e' eq_refl) by lia. apply sink_settle_idem.
        -- rewrite (Hres eq_refl).
           destruct (decide _); [apply sink_settle_idem|done].
      * intros Hfr. cbn [first_rej] in Hfr. done.
    + destruct (IH (S idx) stR cs x Hx)
        as (x' & Hcs & Hlen & Hcount & Hout & Hin & Hrej & Hres); try lia.
      exists x'. split; [done|]. split; [done|]. split; [lia|].
      split; [|split; [|split]].
      * intros i Hi. apply Hout. lia.
      * intros [|j] k Hk.
        -- simpl in Hk. injection Hk as <-. rewrite Nat.add_0_r.
           apply Hout. lia.
        -- simpl in Hk. replace (idx + S j) with (S idx + j) by lia.
           by apply Hin.
      * intros e0 Hfr Hlt. cbn [first_rej] in Hfr.
        apply Hrej; [done|lia].
      * intros Hfr. cbn [first_rej] in Hfr. rewrite (Hres Hfr).
        repeat case_decide; try done; lia.
Qed.

(** *** The store [make_all_promise] leaves *)

(** The store after [std::make_shared<context_t>(count)]. *)
Definition with_context (dflt : val) (count : nat) (w : world) : world :=
  mk_world (promises w)
           (contexts w ++ [mk_context (replicate count dflt) 0])
           (trace w).

Lemma count_res_le ks : count_res ks <= length ks.
Proof.
  induction ks as [|k ks IH]; simpl; [done|]. destruct (is_res k); lia.
Qed.

Lemma first_rej_count ks e :
  first_rej ks = Some e -> count_res ks < length ks.
Proof.
  induction ks as [|[[v|x]|] ks IH]; simpl; intros H; try done.
  - specialize (IH H). lia.
  - pose proof (count_res_le ks). lia.
  - specialize (IH H). lia.
Qed.

Lemma first_rej_elem ks e :
  first_rej ks = Some e -> Some (Rejected e) ∈ ks.
Proof.
  induction ks as [|[[v|x]|] ks IH]; simpl; intros H; try done.
  - right. auto.
  - injection H as ->. left.
  - right. auto.
Qed.

Lemma first_rej_none ks e :
  first_rej ks = None -> Some (Rejected e) ∉ ks.
Proof.
  induction ks as [|[[v|x]|] ks IH]; simpl; intros H Hin; try done.
  - by apply elem_of_nil in Hin.
  - apply elem_of_cons in Hin as [?|?]; [done|]. by apply IH.
  - apply elem_of_cons in Hin as [?|?]; [done|]. by apply IH.
Qed.

Lemma first_rej_app_clean ks1 k ks2 :
  Forall (fun k' => forall e, k' <> Some (Rejected e)) ks1 ->
  first_rej (ks1 ++ k :: ks2) = first_rej (k :: ks2).
Proof.
  induction 1 as [|[[v|x]|] ks1 Hk _ IH]; try done.
  by destruct (Hk x).
Qed.

(** [make_all_promise] on a non-empty collection returns a new handle and
    leaves the store the loop produces. *)
Lemma make_all_after k dflt N L w ps :
  wf N L w -> ps <> [] -> Forall (fun q => q < length (promises w)) ps ->
  exists w1,
    make_all_promise (S (S k)) dflt ps w = Ret (length (promises w)) w1 /\
    after (F_all (length (contexts w)) (length (promises w)))
          (step_all (length (contexts w))) (length (promises w)) 0 ps
          (with_context dflt (length ps) (alloc w)) w1.
Proof.
  intros Hwf Hne Hps.
  destruct (comb_loop_after k (F_all (length (contexts w)) (length (promises w)))
              (step_all (length (contexts w)))
              (length (promises w)) (G_all (length (contexts w)))
              (G_all_sink _) (G_all_step _) (G_all_reject _)
              (F_all_fires k (length (contexts w)) (length (promises w)))
              ps 0 (with_context dflt (length ps) (alloc w)) fresh_state)
    as (w1 & E & Hafter).
  - apply lookup_alloc_new.
  - split; [by left|]. simpl. rewrite length_app. simpl. lia.
  - eapply Forall_impl; [exact Hps|]. intros q Hq.
    by eapply wf_input_ok.
  - exists w1. split; [|done].
    destruct ps as [|p ps]; [done|].
    unfold make_all_promise, make_promise, bind at 1, new_promise.
    fold (alloc w). unfold bind, try_catch, make_shared_context.
    rewrite all_loop_comb.
    match goal with
    | |- context [comb_loop ?a ?b ?c ?d ?e ?f] =>
        replace (comb_loop a b c d e f) with (Ret tt w1 : res unit)
          by (symmetry; exact E)
    end.
    done.
Qed.

(** *** Counting the resolved inputs *)

Lemma count_res_occ (f : promise -> option outcome) q o ps :
  f q = None ->
  count_res ((fun p => if decide (p = q) then Some o else f p) <$> ps) =
  count_res (f <$> ps) + count_res (occ q o <$> ps).
Proof.
  intros Hq. induction ps as [|p ps IH]; [done|].
  rewrite !fmap_cons. cbn [count_res]. rewrite IH. unfold occ in *.
  destruct (decide (p = q)) as [->|]; [rewrite Hq; destruct o|];
    cbn [is_res]; lia.
Qed.

Lemma count_res_pending (f : promise -> option outcome) q ps :
  q ∈ ps -> f q = None -> count_res (f <$> ps) < length ps.
Proof.
  intros Hin Hq. induction ps as [|p ps IH]; [by apply elem_of_nil in Hin|].
  rewrite fmap_cons. cbn [count_res length].
  apply elem_of_cons in Hin as [<-|Hin].
  - rewrite Hq. simpl. pose proof (count_res_le (f <$> ps)) as Hle.
    rewrite length_fmap in Hle. lia.
  - specialize (IH Hin). destruct (is_res (f p)); lia.
Qed.

Lemma count_res_occ_rejected q e ps :
  count_res (occ q (Rejected e) <$> ps) = 0.
Proof.
  induction ps as [|p ps IH]; [done|]. rewrite fmap_cons. cbn [count_res].
  rewrite IH. unfold occ. by destruct (decide (p = q)).
Qed.

Lemma count_res_occ_resolved q v ps :
  q ∈ ps -> 0 < count_res (occ q (Resolved v) <$> ps).
Proof.
  intros Hin. induction ps as [|p ps IH]; [by apply elem_of_nil in Hin|].
  rewrite fmap_cons. cbn [count_res]. unfold occ in *.
  destruct (decide (p = q)) as [->|Hne]; cbn [is_res]; [lia|].
  apply elem_of_cons in Hin as [<-|Hin]; [done|]. by apply IH.
Qed.

Lemma first_rej_occ_rejected q e ps :
  q ∈ ps -> first_rej (occ q (Rejected e) <$> ps) = Some e.
Proof.
  intros Hin. induction ps as [|p ps IH]; [by apply elem_of_nil in Hin|].
  rewrite fmap_cons. unfold occ in *.
  destruct (decide (p = q)) as [->|Hne]; [done|]. cbn [first_rej].
  apply elem_of_cons in Hin as [<-|Hin]; [done|]. by apply IH.
Qed.

Lemma first_rej_occ_resolved q v ps :
  first_rej (occ q (Resolved v) <$> ps) = None.
Proof.
  induction ps as [|p ps IH]; [done|]. rewrite fmap_cons. unfold occ in *.
  by destruct (decide (p = q)).
Qed.

Lemma sink_settle_settled o st :
  status_ st <> pending -> sink_settle o st = st.
Proof. unfold sink_settle. by destruct (status_ st). Qed.

Lemma pair_ok_same r w w' n1 k :
  promises w' !! n1 = promises w !! n1 ->
  promises w' !! S n1 = promises w !! S n1 ->
  pair_ok r w n1 k -> pair_ok r w' n1 k.
Proof. unfold pair_ok. intros -> ->. done. Qed.

(** *** Settling the inputs in any order *)

(** A caller that settles handles one after the other. *)
Fixpoint settle_each (fuel : nat) (ops : list (promise * outcome)) : M unit :=
  match ops with
  | [] => ret tt
  | op :: ops' => settle fuel op.1 op.2 ;;; settle_each fuel ops'
  end.

Lemma count_res_all (f : promise -> option outcome) ps :
  Forall (fun q => exists v, f q = Some (Resolved v)) ps ->
  count_res (f <$> ps) = length ps.
Proof.
  induction 1 as [|q ps [v Hq] _ IH]; [done|].
  rewrite fmap_cons. cbn [count_res length]. rewrite Hq, IH. done.
Qed.

(** ** The theorems at a concrete store: one pending handle *)

(** Callbacks for the examples. *)
Definition wrap_value : val -> val + exception := fun v => inl (VVec [v]).
Definition always_raise : val -> val + exception :=
  fun _ => inr (user_exception 7).
Definition observe : exception_ptr -> option exception := fun _ => None.

Lemma wf_one N L : wf N L (alloc empty_world).
Proof. apply wf_alloc, wf_empty. Qed.

Lemma then_maps_resolution_witness :
  (wf no_promise (eq 1) (alloc empty_world)) /\
  (promises (alloc empty_world) !! 0 = Some fresh_state) /\
  (exists fuel0, forall fuel, fuel0 <= fuel ->
    exists n w1,
      then1 fuel 0 (RF_user 1 wrap_value) (alloc empty_world) = Ret n w1 /\
      (status_ fresh_state = pending ->
       (forall v r, wrap_value v = inl r ->
          exists w2, resolve fuel 0 v w1 = Ret true w2 /\
                     outcome_of w2 n = Some (Resolved r)) /\
       (forall e,
          exists w2 evs, reject fuel 0 e w1 = Ret true w2 /\
                         outcome_of w2 n = Some (Rejected e) /\
                         trace w2 = trace (alloc empty_world) ++ evs /\
                         Forall (fun ev => ev_label ev <> 1) evs)) /\
      (forall v r, outcome_of (alloc empty_world) 0 = Some (Resolved v) -> wrap_value v = inl r ->
                   outcome_of w1 n = Some (Resolved r)) /\
      (forall e, outcome_of (alloc empty_world) 0 = Some (Rejected e) ->
                 outcome_of w1 n = Some (Rejected e) /\ trace w1 = trace (alloc empty_world))).
Proof.
  split; [apply wf_one|].
  split; [reflexivity|].
  apply (then_maps_resolution (alloc empty_world) 0 fresh_state 1 wrap_value); [apply wf_one | reflexivity].
Defined.

Lemma then_catches_raise_witness :
  (wf no_promise no_index (alloc empty_world)) /\
  (promises (alloc empty_world) !! 0 = Some fresh_state) /\
  (user_jf JF_ignore) /\
  (exists fuel0, forall fuel, fuel0 <= fuel ->
    exists n w1,
      then_ fuel 0 (RF_user 1 always_raise) JF_ignore (alloc empty_world) = Ret n w1 /\
      (status_ fresh_state = pending ->
       forall v c, always_raise v = inr c -> returns_on JF_ignore c ->
         exists w2, resolve fuel 0 v w1 = Ret true w2 /\
                    outcome_of w2 n = Some (Rejected (Some c))) /\
      (forall v c, outcome_of (alloc empty_world) 0 = Some (Resolved v) -> always_raise v = inr c ->
                   returns_on JF_ignore c ->
                   outcome_of w1 n = Some (Rejected (Some c)))).
Proof.
  split; [apply wf_one|].
  split; [reflexivity|].
  split; [exact I|].
  apply (then_catches_raise (alloc empty_world) 0 fresh_state 1 always_raise JF_ignore); [apply wf_one | reflexivity | exact I].
Defined.

Lemma on_reject_observes_witness :
  (wf no_promise (eq 2) (alloc empty_world)) /\
  (promises (alloc empty_world) !! 0 = Some fresh_state) /\
  (user_rf RF_identity) /\
  (exists fuel0, forall fuel, fuel0 <= fuel ->
    exists n w1,
      then_ fuel 0 RF_identity (JF_user 2 observe) (alloc empty_world) = Ret n w1 /\
      (status_ fresh_state = pending ->
       forall e, exists w2 evs,
         reject fuel 0 e w1 = Ret true w2 /\
         trace w2 = trace (alloc empty_world) ++ evs ++ [EvReject 2 e] /\
         Forall (fun ev => ev_label ev <> 2) evs /\
         outcome_of w2 n =
           Some (Rejected (match observe e with None => e | Some c => Some c end)))
      /\
      (forall e, outcome_of (alloc empty_world) 0 = Some (Rejected e) ->
         trace w1 = trace (alloc empty_world) ++ [EvReject 2 e] /\
         outcome_of w1 n =
           Some (Rejected (match observe e with None => e | Some c => Some c end)))).
Proof.
  split; [apply wf_one|].
  split; [reflexivity|].
  split; [exact I|].
  apply (on_reject_observes (alloc empty_world) 0 fresh_state RF_identity 2 observe); [apply wf_one | reflexivity | exact I].
Defined.

Lemma fail_passes_value_and_observes_witness :
  (wf no_promise (eq 2) (alloc empty_world)) /\
  (promises (alloc empty_world) !! 0 = Some fresh_state) /\
  (exists fuel0, forall fuel, fuel0 <= fuel ->
    exists n w1,
      fail fuel 0 (JF_user 2 observe) (alloc empty_world) = Ret n w1 /\
      (status_ fresh_state = pending ->
       (forall v, exists w2 evs,
          resolve fuel 0 v w1 = Ret true w2 /\
          outcome_of w2 n = Some (Resolved v) /\
          trace w2 = trace (alloc empty_world) ++ evs /\
          Forall (fun ev => ev_label ev <> 2) evs) /\
       (forall e, exists w2 evs,
          reject fuel 0 e w1 = Ret true w2 /\
          trace w2 = trace (alloc empty_world) ++ evs ++ [EvReject 2 e] /\
          Forall (fun ev => ev_label ev <> 2) evs /\
          (observe e = None -> outcome_of w2 n = Some (Rejected e)))) /\
      (forall v, outcome_of (alloc empty_world) 0 = Some (Resolved v) ->
         outcome_of w1 n = Some (Resolved v) /\ trace w1 = trace (alloc empty_world)) /\
      (forall e, outcome_of (alloc empty_world) 0 = Some (Rejected e) ->
         trace w1 = trace (alloc empty_world) ++ [EvReject 2 e] /\
         (observe e = None -> outcome_of w1 n = Some (Rejected e)))).
Proof.
  split; [apply wf_one|].
  split; [reflexivity|].
  apply (fail_passes_value_and_observes (alloc empty_world) 0 fresh_state 2 observe); [apply wf_one | reflexivity].
Defined.

Lemma on_reject_sees_fault_of_on_resolve_witness :
  (wf no_promise (fun x => x = 1 \/ x = 2) (alloc empty_world)) /\
  (promises (alloc empty_world) !! 0 = Some fresh_state) /\
  (let raised c := match observe (Some c) with None => c | Some c' => c' end in
  (forall k n v c w0, always_raise v = inr c ->
     call_resolve_h (resolve k) (reject k)
       (mk_resolve_h n (RF_user 1 always_raise) (mk_reject_h n (JF_user 2 observe))) v w0 =
     (reject k n (Some (raised c)) ;;; ret tt)
       (add_trace [EvResolve 1 v; EvReject 2 (Some c)] w0)) /\
  exists fuel0, forall fuel, fuel0 <= fuel ->
    exists n w1,
      then_ fuel 0 (RF_user 1 always_raise) (JF_user 2 observe) (alloc empty_world) = Ret n w1 /\
      (status_ fresh_state = pending ->
       forall v c, always_raise v = inr c ->
         exists w2 evs,
           resolve fuel 0 v w1 = Ret true w2 /\
           trace w2 =
             trace (alloc empty_world) ++ evs ++ [EvResolve 1 v; EvReject 2 (Some c)] /\
           Forall (fun ev => ev_label ev <> 1 /\ ev_label ev <> 2) evs /\
           outcome_of w2 n = Some (Rejected (Some (raised c)))) /\
      (forall v c, outcome_of (alloc empty_world) 0 = Some (Resolved v) -> always_raise v = inr c ->
         trace w1 = trace (alloc empty_world) ++ [EvResolve 1 v; EvReject 2 (Some c)] /\
         outcome_of w1 n = Some (Rejected (Some (raised c))))).
Proof.
  split; [apply wf_one|].
  split; [reflexivity|].
  apply (on_reject_sees_fault_of_on_resolve (alloc empty_world) 0 fresh_state 1 always_raise 2 observe); [apply wf_one | reflexivity].
Defined.

Lemma continuations_fire_once_in_order_witness :
  (wf no_promise (fun l => l = 1 \/ l = 2) (alloc empty_world)) /\
  (promises (alloc empty_world) !! 0 = Some fresh_state) /\
  (status_ fresh_state = pending) /\
  (Forall user_cont [(RF_user 1 wrap_value, JF_ignore); (RF_identity, JF_user 2 observe)]) /\
  (exists fuel0, forall fuel, fuel0 <= fuel ->
    exists w1,
      then_each fuel 0 [(RF_user 1 wrap_value, JF_ignore); (RF_identity, JF_user 2 observe)] (alloc empty_world) =
        Ret (seq (length (promises (alloc empty_world))) (length [(RF_user 1 wrap_value, JF_ignore); (RF_identity, JF_user 2 observe)])) w1 /\
      trace w1 = trace (alloc empty_world) /\
      forall o, exists w2 evs st2,
        settle fuel 0 o w1 = Ret true w2 /\
        trace w2 = trace (alloc empty_world) ++ evs ++ fired_events o [(RF_user 1 wrap_value, JF_ignore); (RF_identity, JF_user 2 observe)] /\
        Forall (fun ev => ~ (fun l => l = 1 \/ l = 2) (ev_label ev)) evs /\
        promises w2 !! 0 = Some st2 /\ handlers_ st2 = [] /\
        (forall c, user_cont c ->
           exists n w3,
             then_ fuel 0 c.1 c.2 w2 = Ret n w3 /\
             trace w3 = trace w2 ++ fst (fired o c.1 c.2) /\
             outcome_of w3 n = Some (snd (fired o c.1 c.2))) /\
        (forall k o', settle (S k) 0 o' w2 = Ret false w2)).
Proof.
  split; [apply wf_one|].
  split; [reflexivity|].
  split; [reflexivity|].
  split; [by repeat constructor|].
  apply (continuations_fire_once_in_order (fun l => l = 1 \/ l = 2) (alloc empty_world) 0 fresh_state [(RF_user 1 wrap_value, JF_ignore); (RF_identity, JF_user 2 observe)]); [apply wf_one | reflexivity | reflexivity | by repeat constructor].
Defined.

Lemma make_promise_keeps_first_settlement_witness :
  exists w',
    make_promise 1
      (fun resolver rejector =>
         settle_via 1 resolver rejector (Resolved (VInt 1)) ;;;
         throw (user_exception 7)) empty_world = Ret 0 w' /\
    outcome_of w' 0 = Some (Resolved (VInt 1)).
Proof.
  apply (proj2 (make_promise_keeps_first_settlement 0 empty_world
                  (user_exception 7)) (Resolved (VInt 1))).
Defined.

(** ** The combinators at a concrete store: two pending handles *)

Definition two_pending : world := alloc (alloc empty_world).

(** Two inputs rejected with different errors: the result keeps the error
    of the one rejected first. *)
Lemma make_all_keeps_first_rejection :
  exists w1 w2 w3,
    make_all_promise 3 (VInt 0) [0; 1] two_pending = Ret 2 w1 /\
    reject 3 0 (Some (user_exception 1)) w1 = Ret true w2 /\
    reject 3 1 (Some (user_exception 2)) w2 = Ret true w3 /\
    outcome_of w3 1 = Some (Rejected (Some (user_exception 2))) /\
    outcome_of w3 2 = Some (Rejected (Some (user_exception 1))).
Proof.
  pose (m1 := make_all_promise 3 (VInt 0) [0; 1] two_pending).
  pose (w1 := match m1 with Ret _ x => x | _ => empty_world end).
  pose (m2 := reject 3 0 (Some (user_exception 1)) w1).
  pose (w2 := match m2 with Ret _ x => x | _ => empty_world end).
  pose (m3 := reject 3 1 (Some (user_exception 2)) w2).
  pose (w3 := match m3 with Ret _ x => x | _ => empty_world end).
  exists w1, w2, w3.
  do 4 (split; [vm_compute; reflexivity|]). vm_compute; reflexivity.
Qed.

(** * More fuel changes no result

    A run that returns or throws with some recursion bound does the same
    with every larger one. *)

Definition le_res {A} (r r' : res A) : Prop :=
  match r with
  | Fault _ => True
  | _ => r' = r
  end.

Definition le_M {A} (m m' : M A) : Prop := forall w, le_res (m w) (m' w).

Lemma le_M_refl {A} (m : M A) : le_M m m.
Proof. intros w. unfold le_res. by destruct (m w). Qed.

Lemma le_bind {A B} (m m' : M A) (k k' : A -> M B) :
  le_M m m' -> (forall a, le_M (k a) (k' a)) -> le_M (bind m k) (bind m' k').
Proof.
  intros Hm Hk w. unfold bind. specialize (Hm w). unfold le_res in Hm.
  destruct (m w) as [a w1|e w1|x]; [| |done]; rewrite Hm; [apply Hk|done].
Qed.

Lemma le_try_catch {A} (m m' : M A) (h h' : exception -> M A) :
  le_M m m' -> (forall e, le_M (h e) (h' e)) ->
  le_M (try_catch m h) (try_catch m' h').
Proof.
  intros Hm Hh w. unfold try_catch. specialize (Hm w). unfold le_res in Hm.
  destruct (m w) as [a w1|e w1|x]; [| |done]; rewrite Hm; [done|apply Hh].
Qed.

Lemma le_noexcept {A} (m m' : M A) : le_M m m' -> le_M (noexcept m) (noexcept m').
Proof.
  intros Hm w. unfold noexcept. specialize (Hm w). unfold le_res in Hm.
  destruct (m w) as [a w1|e w1|x]; [| |done]; by rewrite Hm.
Qed.

Lemma le_for_each {A} (body body' : A -> M unit) l :
  (forall x, le_M (body x) (body' x)) ->
  le_M (for_each body l) (for_each body' l).
Proof.
  intros Hb. induction l as [|x l IH]; [apply le_M_refl|].
  simpl. apply le_bind; [apply Hb|]. intros _. apply IH.
Qed.

Section Monotone.
Variables resolve resolve' : promise -> val -> M bool.
Variables reject reject' : promise -> exception_ptr -> M bool.
Hypothesis resolve_le : forall p v, le_M (resolve p v) (resolve' p v).
Hypothesis reject_le : forall p e, le_M (reject p e) (reject' p e).

Lemma invoke_resolveF_le f v :
  le_M (invoke_resolveF resolve f v) (invoke_resolveF resolve' f v).
Proof.
  destruct f as [l body| |c [r] i|[r]]; simpl.
  - apply le_M_refl.
  - apply le_M_refl.
  - apply le_bind; [apply le_M_refl|]. intros [|]; [|apply le_M_refl].
    apply le_bind; [apply le_M_refl|]. intros x.
    apply le_bind; [apply resolve_le|]. intros _. apply le_M_refl.
  - apply le_bind; [apply resolve_le|]. intros _. apply le_M_refl.
Qed.

Lemma invoke_rejectF_le g e :
  le_M (invoke_rejectF reject g e) (invoke_rejectF reject' g e).
Proof.
  destruct g as [l body| |[r]]; simpl; try apply le_M_refl.
  apply le_bind; [apply reject_le|]. intros _. apply le_M_refl.
Qed.

Lemma call_reject_h_le h e :
  le_M (call_reject_h reject h e) (call_reject_h reject' h e).
Proof.
  unfold call_reject_h. apply le_try_catch.
  - apply le_bind; [apply invoke_rejectF_le|]. intros _.
    apply le_bind; [apply reject_le|]. intros _. apply le_M_refl.
  - intros c. apply le_bind; [apply reject_le|]. intros _. apply le_M_refl.
Qed.

Lemma call_resolve_h_le h v :
  le_M (call_resolve_h resolve reject h v)
       (call_resolve_h resolve' reject' h v).
Proof.
  unfold call_resolve_h. apply le_try_catch.
  - apply le_bind; [apply invoke_resolveF_le|]. intros r.
    apply le_bind; [apply resolve_le|]. intros _. apply le_M_refl.
  - intros c. apply call_reject_h_le.
Qed.

Lemma state_reject_le p e :
  le_M (state_reject reject p e) (state_reject reject' p e).
Proof.
  unfold state_reject, invoke_reject_handlers_. apply le_noexcept.
  apply le_bind; [apply le_M_refl|]. intros _.
  apply le_bind; [apply le_M_refl|]. intros st.
  destruct (status_ st); try apply le_M_refl.
  apply le_bind; [apply le_M_refl|]. intros _.
  apply le_bind; [apply le_M_refl|]. intros _.
  apply le_bind; [|intros _; apply le_M_refl].
  apply le_noexcept. apply le_bind; [apply le_M_refl|]. intros st'.
  apply le_bind; [|intros _; apply le_M_refl].
  apply le_for_each. intros h. apply call_reject_h_le.
Qed.

Lemma state_resolve_le p v :
  le_M (state_resolve resolve reject p v) (state_resolve resolve' reject' p v).
Proof.
  unfold state_resolve, invoke_resolve_handlers_.
  apply le_bind; [apply le_M_refl|]. intros _.
  apply le_bind; [apply le_M_refl|]. intros st.
  destruct (status_ st); try apply le_M_refl.
  apply le_bind; [apply le_M_refl|]. intros _.
  apply le_bind; [apply le_M_refl|]. intros _.
  apply le_bind; [|intros _; apply le_M_refl].
  apply le_noexcept. apply le_bind; [apply le_M_refl|]. intros value.
  apply le_bind; [apply le_M_refl|]. intros st'.
  apply le_bind; [|intros _; apply le_M_refl].
  apply le_for_each. intros h. apply call_resolve_h_le.
Qed.

Lemma state_attach_le p n f g :
  le_M (state_attach resolve reject p n f g)
       (state_attach resolve' reject' p n f g).
Proof.
  unfold state_attach, add_handlers_.
  apply le_bind; [apply le_M_refl|]. intros _.
  apply le_bind; [|intros _; apply le_M_refl].
  apply le_bind; [apply le_M_refl|]. intros st.
  destruct (status_ st); try apply le_M_refl.
  - apply le_bind; [apply le_M_refl|]. intros value.
    apply call_resolve_h_le.
  - apply call_reject_h_le.
Qed.
End Monotone.

Lemma reject_le_S k : forall p e, le_M (reject k p e) (reject (S k) p e).
Proof.
  induction k as [|k IH]; intros p e; [by intros w|].
  change (le_M (state_reject (reject k) p e) (state_reject (reject (S k)) p e)).
  by apply state_reject_le.
Qed.

Lemma resolve_le_S k : forall p v, le_M (resolve k p v) (resolve (S k) p v).
Proof.
  induction k as [|k IH]; intros p v; [by intros w|].
  change (le_M (state_resolve (resolve k) (reject k) p v)
               (state_resolve (resolve (S k)) (reject (S k)) p v)).
  apply state_resolve_le; [done|apply reject_le_S].
Qed.

Lemma le_M_trans {A} (m1 m2 m3 : M A) : le_M m1 m2 -> le_M m2 m3 -> le_M m1 m3.
Proof.
  intros H1 H2 w. specialize (H1 w). specialize (H2 w). unfold le_res in *.
  destruct (m1 w); [| |done]; by rewrite H1 in H2.
Qed.

(** A computation indexed by the bound that only gains from more fuel. *)
Definition monotone {A} (m : nat -> M A) : Prop :=
  forall k, le_M (m k) (m (S k)).

Lemma monotone_le {A} (m : nat -> M A) :
  monotone m -> forall k k', k <= k' -> le_M (m k) (m k').
Proof.
  intros Hm k k' Hle. induction Hle as [|k' _ IH]; [apply le_M_refl|].
  eapply le_M_trans; [exact IH|apply Hm].
Qed.

Lemma monotone_ret {A} (m : nat -> M A) k k' w a w' :
  monotone m -> m k w = Ret a w' -> k <= k' -> m k' w = Ret a w'.
Proof.
  intros Hm E Hle. pose proof (monotone_le m Hm k k' Hle w) as H.
  unfold le_res in H. by rewrite E in H.
Qed.

Lemma monotone_throw {A} (m : nat -> M A) k k' w e w' :
  monotone m -> m k w = Throw e w' -> k <= k' -> m k' w = Throw e w'.
Proof.
  intros Hm E Hle. pose proof (monotone_le m Hm k k' Hle w) as H.
  unfold le_res in H. by rewrite E in H.
Qed.

Lemma resolve_monotone p v : monotone (fun k => resolve k p v).
Proof. intros k. apply resolve_le_S. Qed.

Lemma reject_monotone p e : monotone (fun k => reject k p e).
Proof. intros k. apply reject_le_S. Qed.

Lemma settle_monotone p o : monotone (fun k => settle k p o).
Proof. destruct o; [apply resolve_monotone|apply reject_monotone]. Qed.

Lemma then_monotone p f g : monotone (fun k => then_ k p f g).
Proof.
  intros k. unfold then_. apply le_bind; [apply le_M_refl|]. intros n.
  apply le_bind; [|intros _; apply le_M_refl].
  apply state_attach_le; [apply resolve_le_S|apply reject_le_S].
Qed.

Lemma make_promise_monotone (f : nat -> resolver_t -> rejector_t -> M unit) :
  (forall r j, monotone (fun k => f k r j)) ->
  monotone (fun k => make_promise k (f k)).
Proof.
  intros Hf k. unfold make_promise. apply le_bind; [apply le_M_refl|].
  intros r. apply le_bind; [|intros _; apply le_M_refl].
  apply le_try_catch; [apply Hf|]. intros c.
  apply le_bind; [apply reject_le_S|]. intros _. apply le_M_refl.
Qed.

Lemma all_loop_monotone c r j ps : forall idx,
  monotone (fun k => all_loop k c r j idx ps).
Proof.
  induction ps as [|p ps IH]; intros idx k; [apply le_M_refl|].
  simpl. apply le_bind; [apply then_monotone|]. intros n.
  apply le_bind; [apply then_monotone|]. intros _. apply IH.
Qed.

Lemma make_all_monotone dflt ps : monotone (fun k => make_all_promise k dflt ps).
Proof.
  destruct ps as [|p ps].
  - intros k. unfold make_all_promise, make_resolved_promise.
    apply le_bind; [apply le_M_refl|]. intros r.
    apply le_bind; [apply resolve_le_S|]. intros _. apply le_M_refl.
  - apply (make_promise_monotone
             (fun k r j => c <- make_shared_context dflt (length (p :: ps)) ;;
                           all_loop k c r j 0 (p :: ps))).
    intros r j k. apply le_bind; [apply le_M_refl|]. intros c.
    apply all_loop_monotone.
Qed.

Lemma make_any_monotone ps : monotone (fun k => make_any_promise k ps).
Proof.
  destruct ps as [|p ps]; [intros k; apply le_M_refl|].
  apply (make_promise_monotone (fun k r j => any_loop k r j (p :: ps))).
  intros r j k. unfold any_loop. apply le_for_each. intros q.
  apply le_bind; [apply then_monotone|]. intros n.
  apply le_bind; [apply then_monotone|]. intros _. apply le_M_refl.
Qed.

Lemma make_resolved_monotone v : monotone (fun k => make_resolved_promise k v).
Proof.
  intros k. unfold make_resolved_promise.
  apply le_bind; [apply le_M_refl|]. intros r.
  apply le_bind; [apply resolve_le_S|]. intros _. apply le_M_refl.
Qed.

Lemma make_rejected_monotone e : monotone (fun k => make_rejected_promise k e).
Proof.
  intros k. unfold make_rejected_promise.
  apply le_bind; [apply le_M_refl|]. intros r.
  apply le_bind; [apply reject_le_S|]. intros _. apply le_M_refl.
Qed.

(** * Beyond the settled statements: programs of calls

    The recursion bound of the interpreter has no counterpart in the
    source.  A call of the source returns [a] and leaves the store [w'] when
    the interpreter does so for every bound that is large enough. *)

Definition runs_to {A} (m : nat -> M A) (w : world) (a : A) (w' : world)
  : Prop :=
  exists fuel0, forall fuel, fuel0 <= fuel -> m fuel w = Ret a w'.

Lemma runs_to_unique {A} (m : nat -> M A) w a1 w1 a2 w2 :
  runs_to m w a1 w1 -> runs_to m w a2 w2 -> a1 = a2 /\ w1 = w2.
Proof.
  intros [k1 H1] [k2 H2].
  specialize (H1 (k1 `max` k2) ltac:(lia)).
  specialize (H2 (k1 `max` k2) ltac:(lia)).
  rewrite H1 in H2. by injection H2.
Qed.

Lemma runs_to_intro {A} (m : nat -> M A) k w a w' :
  monotone m -> m k w = Ret a w' -> runs_to m w a w'.
Proof. intros Hm E. exists k. intros fuel Hle. by eapply monotone_ret. Qed.

(** What no call undoes: handles stay, and a settled state stays as it
    is. *)
Definition keeps (w w' : world) : Prop :=
  length (promises w) <= length (promises w') /\
  forall q st, promises w !! q = Some st -> status_ st <> pending ->
               promises w' !! q = Some st.

Lemma keeps_refl w : keeps w w.
Proof. by split. Qed.

Lemma keeps_trans w1 w2 w3 : keeps w1 w2 -> keeps w2 w3 -> keeps w1 w3.
Proof.
  intros [Hl1 H1] [Hl2 H2]. split; [lia|]. intros q st Hq Hs.
  apply H2; [|done]. by apply H1.
Qed.

Lemma keeps_outcome w w' q o :
  keeps w w' -> outcome_of w q = Some o -> outcome_of w' q = Some o.
Proof.
  intros [_ H] Ho. unfold outcome_of in *.
  destruct (promises w !! q) as [st|] eqn:Hq; [|done].
  rewrite (H q st Hq); [done|]. intros Hp. by rewrite Hp in Ho.
Qed.

Lemma step_rel_keeps N C L w w' : step_rel N C L w w' -> keeps w w'.
Proof.
  intros (Hl & _ & Hs & _). split; [lia|]. intros q st Hq Hne.
  destruct (Hs q st Hq) as [H|[H _]]; done.
Qed.

Lemma keeps_alloc w : keeps w (alloc w).
Proof.
  split; [rewrite length_alloc; lia|]. intros q st Hq _.
  by apply lookup_alloc_old.
Qed.

(** ** [then] keeps the store well formed *)

(** The rank of a store that has grown by handles that nothing old
    mentions: the new handles rank above the old ones. *)
Definition rank_above (rank : promise -> nat) (n B : nat) : promise -> nat :=
  fun t => if decide (t < n) then rank t else S B.

Lemma rank_above_old rank n B t : t < n -> rank_above rank n B t = rank t.
Proof. intros H. unfold rank_above. by rewrite decide_True. Qed.

Lemma rank_above_new rank n B t : n <= t -> rank_above rank n B t = S B.
Proof. intros H. unfold rank_above. rewrite decide_False; [done|lia]. Qed.

Lemma handlers_ok_above rank B w w' lo hs :
  length (promises w) <= length (promises w') ->
  length (contexts w) <= length (contexts w') ->
  Forall (handler_ok (tok rank no_promise w lo) (cok no_index w)
                     (lok no_index)) hs ->
  Forall (handler_ok
            (tok (rank_above rank (length (promises w)) B) no_promise w' lo)
            (cok no_index w') (lok no_index)) hs.
Proof.
  intros Hl Hc Hf. eapply Forall_impl; [exact Hf|]. intros h.
  apply handler_ok_impl; try done.
  - intros t (Hlo & Ht & _). unfold tok.
    rewrite rank_above_old by done. repeat split; [done|lia|by intros []].
  - intros c (Hlt & _). split; [lia|by intros []].
Qed.

(** A well-formed store grown by one handle [stn], a new outcome or a
    fresh state, and by continuations [hs] queued on [p]. *)
Lemma wf_grown rank B w w' p st hs stn :
  wf_at rank B no_promise no_index w ->
  promises w !! p = Some st ->
  promises w' = <[p := extend st hs]> (promises w) ++ [stn] ->
  contexts w' = contexts w ->
  (hs = [] \/ status_ st = pending) ->
  Forall (handler_ok
            (tok (rank_above rank (length (promises w)) B) no_promise w'
                 (S (rank p)))
            (cok no_index w') (lok no_index)) hs ->
  (stn = fresh_state \/ exists o, stn = outcome_state o) ->
  wf_at (rank_above rank (length (promises w)) B) (S B)
        no_promise no_index w'.
Proof.
  intros Hi Hp Hw' Hcs Hhs Hok Hn q st' Hq _.
  assert (Hlt : p < length (promises w)) by (by eapply lookup_lt_Some).
  set (n := length (promises w)) in *.
  assert (Hlen : length (promises w') = S n).
  { rewrite Hw', length_app, length_insert. simpl. fold n. lia. }
  rewrite Hw' in Hq.
  apply lookup_app_Some in Hq as [Hq|[Hge Hq]].
  - assert (Hql : q < n).
    { apply lookup_lt_Some in Hq. by rewrite length_insert in Hq. }
    unfold state_inv. rewrite rank_above_old by done.
    destruct (decide (q = p)) as [->|Hne].
    + rewrite list_lookup_insert_eq in Hq by done. injection Hq as <-.
      destruct (Hi p st Hp) as (Hr & Hm & Hv & Hpe); [by intros []|].
      split; [lia|]. split; [done|]. split; [done|].
      cbn [extend status_ storage_ handlers_]. intros Hs.
      destruct (Hpe Hs) as [Hsn Hh]. split; [done|].
      apply Forall_app. split; [|done].
      apply (handlers_ok_above rank B w); [lia|by rewrite Hcs|done].
    + rewrite list_lookup_insert_ne in Hq by done.
      destruct (Hi q st' Hq) as (Hr & Hmq & Hv & Hpe); [by intros []|].
      split; [lia|]. split; [done|]. split; [done|].
      intros Hsq. destruct (Hpe Hsq) as [Hsn Hh]. split; [done|].
      apply (handlers_ok_above rank B w); [lia|by rewrite Hcs|done].
  - rewrite length_insert in Hge, Hq. fold n in Hge, Hq.
    assert (q = n) as ->.
    { apply lookup_lt_Some in Hq. simpl in Hq. lia. }
    rewrite Nat.sub_diag in Hq. injection Hq as <-.
    unfold state_inv. rewrite rank_above_new by lia.
    destruct Hn as [->|[o ->]].
    + repeat split; try done.
    + destruct o; repeat split; try done; by eexists.
Qed.

Lemma then_ok w p f g st :
  wf no_promise no_index w -> promises w !! p = Some st ->
  user_rf f -> user_jf g ->
  exists w',
    (forall k, then_ (S k) p f g w = Ret (length (promises w)) w') /\
    wf no_promise no_index w' /\ keeps w w' /\
    length (promises w') = S (length (promises w)).
Proof.
  intros Hwf Hp Hf Hg. pose proof Hwf as (rank & B & Hi).
  pose proof (wf_unlocked _ _ _ _ _ Hwf Hp) as Hm.
  assert (Hlt : p < length (promises w)) by (by eapply lookup_lt_Some).
  set (n := length (promises w)) in *.
  assert (Hdec : status_ st = pending \/ status_ st <> pending)
    by (destruct (status_ st); auto).
  destruct Hdec as [Hs|Hs].
  - (* pending: the pair is queued *)
    set (w1 := push p (queued n f g) (alloc w)).
    exists w1.
    split; [intros k; by apply (then_pending _ p f g w st)|].
    assert (Hpush : promises w1 = <[p := extend st [queued n f g]]> (promises w)
                                  ++ [fresh_state]).
    { unfold w1, push. rewrite (lookup_alloc_old _ _ _ Hp).
      cbn [promises set_st alloc]. by rewrite insert_app_l. }
    assert (Hcs : contexts w1 = contexts w).
    { unfold w1, push. by rewrite (lookup_alloc_old _ _ _ Hp). }
    assert (Hlen : length (promises w1) = S n).
    { rewrite Hpush, length_app, length_insert. simpl. fold n. lia. }
    split; [|split; [|done]].
    + exists (rank_above rank n B), (S B).
      apply (wf_grown rank B w w1 p st [queued n f g] fresh_state);
        try done; [by right| |by left].
      apply Forall_singleton.
      destruct (Hi p st Hp) as (Hr & _); [by intros []|].
      assert (Ht : tok (rank_above rank n B) no_promise w1 (S (rank p)) n).
      { unfold tok. rewrite rank_above_new by lia.
        repeat split; [lia|lia|by intros []]. }
      assert (Hrf : rf_ok (tok (rank_above rank n B) no_promise w1
                            (S (rank p)))
                      (cok no_index w1) (lok no_index) f).
      { destruct f; try done. by intros []. }
      assert (Hjf : jf_ok (tok (rank_above rank n B) no_promise w1
                            (S (rank p)))
                      (lok no_index) g).
      { destruct g; try done. by intros []. }
      unfold handler_ok, resolve_h_ok, reject_h_ok, queued.
      cbn [resolve_ reject_ rs_n rs_f rs_j rj_n rj_f]. tauto.
    + split; [lia|]. intros q st' Hq Hne. rewrite Hpush.
      apply lookup_app_l_Some.
      rewrite list_lookup_insert_ne; [done|]. congruence.
  - (* settled: the continuation fires at once *)
    destruct (wf_outcome _ _ _ _ _ Hwf Hp Hs) as [o Ho].
    set (w1 := set_st n (outcome_state (snd (fired o f g)))
                 (add_trace (fst (fired o f g)) (alloc w))).
    exists w1.
    split; [intros k; by apply (then_settled k p f g w st o)|].
    assert (Hpush : promises w1 = <[p := extend st []]> (promises w)
                                  ++ [outcome_state (snd (fired o f g))]).
    { unfold w1. cbn [promises set_st alloc add_trace].
      rewrite extend_nil, (list_insert_id _ _ _ Hp).
      rewrite insert_app_r_alt by (fold n; lia).
      fold n. by rewrite Nat.sub_diag. }
    assert (Hlen : length (promises w1) = S n).
    { rewrite Hpush, length_app, length_insert. simpl. fold n. lia. }
    split; [|split; [|done]].
    + exists (rank_above rank n B), (S B).
      apply (wf_grown rank B w w1 p st [] (outcome_state (snd (fired o f g))));
        try done; [by left|by right; eexists].
    + split; [lia|]. intros q st' Hq Hne. rewrite Hpush.
      apply lookup_app_l_Some. by rewrite extend_nil, list_insert_id.
Qed.

(** ** Settlement keeps the store well formed *)

Lemma settle_ok w p o st :
  wf no_promise no_index w -> promises w !! p = Some st ->
  exists b w',
    runs_to (fun fuel => settle fuel p o) w b w' /\
    wf no_promise no_index w' /\ keeps w w' /\
    length (promises w') = length (promises w) /\
    match status_ st with
    | pending => b = true /\ promises w' !! p = Some (settled o st)
    | _ => b = false /\ w' = w
    end.
Proof.
  intros Hwf Hp. pose proof Hwf as (rank & B & Hi).
  destruct (settle_total rank B no_promise no_promise no_index no_index
              (no_promise_in no_promise) (S B) 0 p o w st)
    as (b & w' & E & Hs & Hr); try done.
  { split; [lia|]. split; [by eapply lookup_lt_Some|]. by intros []. }
  { lia. }
  exists b, w'. split.
  - eapply runs_to_intro; [apply settle_monotone|done].
  - split; [by eapply wf_step|]. split; [by eapply step_rel_keeps|].
    split; [by destruct Hs|done].
Qed.

(** ** The combinators keep the store well formed

    After the loop the result handle [r] ranks above the pairs hung under
    the inputs, and these above every older handle. *)

Definition rank_comb (rank : promise -> nat) (r B : nat) : promise -> nat :=
  fun t => if decide (t < r) then rank t
           else if decide (t = r) then B + 3
           else if Nat.odd (t - r) then B + 1 else B + 2.

Lemma rank_comb_old rank r B t : t < r -> rank_comb rank r B t = rank t.
Proof. intros H. unfold rank_comb. by rewrite decide_True. Qed.

Lemma rank_comb_result rank r B : rank_comb rank r B r = B + 3.
Proof.
  unfold rank_comb. rewrite decide_False by lia. by rewrite decide_True.
Qed.

Lemma rank_comb_first rank r B j : rank_comb rank r B (S r + 2 * j) = B + 1.
Proof.
  unfold rank_comb. rewrite decide_False by lia. rewrite decide_False by lia.
  replace (S r + 2 * j - r) with (1 + 2 * j) by lia.
  by rewrite Nat.odd_add_mul_2.
Qed.

Lemma rank_comb_second rank r B j :
  rank_comb rank r B (S (S r + 2 * j)) = B + 2.
Proof.
  unfold rank_comb. rewrite decide_False by lia. rewrite decide_False by lia.
  replace (S (S r + 2 * j) - r) with (0 + 2 * (S j)) by lia.
  by rewrite Nat.odd_add_mul_2.
Qed.

Lemma news_elem F ps : forall n1 idx x h,
  h ∈ news F n1 idx ps x ->
  exists j, j < length ps /\ h = queued (n1 + 2 * j) (F (idx + j)) JF_ignore.
Proof.
  induction ps as [|q ps IH]; intros n1 idx x h Hh; simpl in Hh.
  - by apply elem_of_nil in Hh.
  - apply elem_of_app in Hh as [Hh|Hh].
    + destruct (decide (q = x)); [|by apply elem_of_nil in Hh].
      apply list_elem_of_singleton in Hh as ->. exists 0. simpl.
      split; [lia|]. by rewrite !Nat.add_0_r.
    + destruct (IH _ _ _ _ Hh) as (j & Hj & ->). exists (S j). simpl.
      split; [lia|]. f_equal; [lia|f_equal; lia].
Qed.

Lemma handlers_ok_comb rank B r w w' lo hs :
  r = length (promises w) ->
  length (promises w) <= length (promises w') ->
  length (contexts w) <= length (contexts w') ->
  Forall (handler_ok (tok rank no_promise w lo) (cok no_index w)
                     (lok no_index)) hs ->
  Forall (handler_ok (tok (rank_comb rank r B) no_promise w' lo)
                     (cok no_index w') (lok no_index)) hs.
Proof.
  intros -> Hl Hc Hf. eapply Forall_impl; [exact Hf|]. intros h.
  apply handler_ok_impl; try done.
  - intros t (Hlo & Ht & _). unfold tok.
    rewrite rank_comb_old by done. repeat split; [done|lia|by intros []].
  - intros c (Hlt & _). split; [lia|by intros []].
Qed.

Lemma wf_after rank B F step ps w0 wc w1 :
  wf_at rank B no_promise no_index w0 ->
  promises wc = promises w0 ++ [fresh_state] ->
  length (contexts w0) <= length (contexts w1) ->
  after F step (length (promises w0)) 0 ps wc w1 ->
  Forall (fun q => q < length (promises w0)) ps ->
  (forall idx (P : promise -> Prop),
     P (length (promises w0)) ->
     rf_ok P (cok no_index w1) (lok no_index) (F idx)) ->
  (exists st', promises w1 !! length (promises w0) = Some st' /\
               (st' = fresh_state \/ exists o, st' = outcome_state o)) ->
  wf_at (rank_comb rank (length (promises w0)) B) (B + 3)
        no_promise no_index w1 /\
  keeps w0 w1.
Proof.
  intros Hi Hwc Hcs (Hl1 & _ & Hold & Hpair & _) Hps HF (str & Hr & Hstr).
  set (r := length (promises w0)) in *.
  assert (Hlwc : length (promises wc) = S r).
  { rewrite Hwc, length_app. simpl. fold r. lia. }
  rewrite Hlwc in Hl1, Hold, Hpair.
  assert (Holdq : forall q st, promises w0 !! q = Some st ->
            promises w1 !! q =
            Some (extend st (match status_ st with
                             | pending => news F (S r) 0 ps q
                             | _ => []
                             end))).
  { intros q st Hq. apply Hold.
    - apply lookup_lt_Some in Hq. fold r in Hq. lia.
    - rewrite Hwc. by apply lookup_app_l_Some. }
  split.
  - intros q st' Hq _.
    destruct (decide (q < r)) as [Hlt|Hge].
    + destruct (lookup_lt_is_Some_2 (promises w0) q Hlt) as [st Hst].
      rewrite (Holdq q st Hst) in Hq. injection Hq as <-.
      destruct (Hi q st Hst) as (Hrk & Hm & Hv & Hpe); [by intros []|].
      unfold state_inv. rewrite rank_comb_old by done.
      cbn [extend status_ storage_ mutex_ handlers_].
      split; [lia|]. split; [done|]. split; [done|]. intros Hs.
      destruct (Hpe Hs) as [Hn Hh]. split; [done|]. rewrite Hs.
      apply Forall_app. split.
      * apply (handlers_ok_comb rank B r w0); [done|lia|done|done].
      * apply Forall_forall. intros h Hin.
        destruct (news_elem _ _ _ _ _ _ Hin) as (j & Hj & ->).
        assert (Ht : tok (rank_comb rank r B) no_promise w1 (S (rank q))
                       (S r + 2 * j)).
        { unfold tok. rewrite rank_comb_first.
          repeat split; [lia|lia|by intros []]. }
        assert (Hrf : rf_ok (tok (rank_comb rank r B) no_promise w1
                               (S (rank q)))
                        (cok no_index w1) (lok no_index) (F (0 + j))).
        { apply HF. unfold tok. rewrite rank_comb_result.
          repeat split; [lia|lia|by intros []]. }
        unfold handler_ok, resolve_h_ok, reject_h_ok, queued.
        cbn [resolve_ reject_ rs_n rs_f rs_j rj_n rj_f jf_ok]. tauto.
    + destruct (decide (q = r)) as [->|Hne].
      * assert (st' = str) as -> by congruence.
        unfold state_inv. rewrite rank_comb_result.
        destruct Hstr as [->|[o ->]].
        -- repeat split; try done; lia.
        -- destruct o; repeat split; try done; try lia; by eexists.
      * assert (Hql : q < S r + 2 * length ps).
        { apply lookup_lt_Some in Hq. lia. }
        remember ((q - S r) / 2) as j eqn:Ej.
        assert (Hj : j < length ps).
        { rewrite Ej. apply Nat.Div0.div_lt_upper_bound. lia. }
        destruct (lookup_lt_is_Some_2 ps j Hj) as [x Hx].
        specialize (Hpair j x Hx).
        assert (Hq2 : q = S r + 2 * j \/ q = S (S r + 2 * j)).
        { rewrite Ej.
          pose proof (Nat.div_mod_eq (q - S r) 2) as Hd.
          pose proof (Nat.mod_upper_bound (q - S r) 2 ltac:(lia)) as Hu.
          lia. }
        assert (Hfw : Forall (handler_ok
                       (tok (rank_comb rank r B) no_promise w1 (S (B + 1)))
                       (cok no_index w1) (lok no_index))
                     [forward_pair (S (S r + 2 * j)) r]).
        { apply Forall_singleton.
          assert (Ht : tok (rank_comb rank r B) no_promise w1 (S (B + 1))
                         (S (S r + 2 * j))).
          { unfold tok. rewrite rank_comb_second.
            repeat split; [lia|lia|by intros []]. }
          assert (Htr : tok (rank_comb rank r B) no_promise w1 (S (B + 1)) r).
          { unfold tok. rewrite rank_comb_result.
            repeat split; [lia|lia|by intros []]. }
          unfold handler_ok, resolve_h_ok, reject_h_ok, forward_pair, queued.
          cbn [resolve_ reject_ rs_n rs_f rs_j rj_n rj_f jf_ok rf_ok]. tauto. }
        unfold state_inv. clear Ej.
        destruct Hq2 as [->| ->];
          [rewrite rank_comb_first|rewrite rank_comb_second];
          destruct (kind wc x) as [[v|e]|]; destruct Hpair as [H1 H2];
          rewrite ?H1, ?H2 in Hq; injection Hq as <-;
          repeat split; try done; try lia; by eexists.
  - split; [lia|]. intros q st Hq Hs. rewrite (Holdq q st Hq).
    f_equal. destruct (status_ st); [done|by rewrite extend_nil..].
Qed.

(** A state nothing is queued on: fresh, or settled by the library. *)
Definition clean (st : state) : Prop :=
  st = fresh_state \/ exists o, st = outcome_state o.

Lemma clean_sink_settle o st : clean st -> clean (sink_settle o st).
Proof.
  intros [->|[o' ->]]; [right; by exists o|].
  right. exists o'. unfold sink_settle. by destruct o'.
Qed.

Lemma fold_steps_clean step :
  (forall idx v e, clean e.1 -> clean (step idx v e).1) ->
  forall ks idx e, clean e.1 -> clean (fold_steps step idx ks e).1.
Proof.
  intros Hstep. induction ks as [|[[v|x]|] ks IH]; intros idx e He; simpl;
    try done.
  - apply IH. by apply Hstep.
  - apply IH. by apply clean_sink_settle.
  - by apply IH.
Qed.

Lemma step_any_clean idx v e : clean e.1 -> clean (step_any idx v e).1.
Proof. apply clean_sink_settle. Qed.

Lemma step_all_clean c idx v e : clean e.1 -> clean (step_all c idx v e).1.
Proof.
  intros He. unfold step_all. destruct (e.2 !! c); [|done]. cbn [fst].
  destruct (_ =? _); [by apply clean_sink_settle|done].
Qed.

Lemma make_resolved_ok w v :
  wf no_promise no_index w ->
  runs_to (fun fuel => make_resolved_promise fuel v) w (length (promises w))
          (set_st (length (promises w)) (outcome_state (Resolved v)) (alloc w))
  /\
  wf no_promise no_index
     (set_st (length (promises w)) (outcome_state (Resolved v)) (alloc w)) /\
  keeps w (set_st (length (promises w)) (outcome_state (Resolved v)) (alloc w)).
Proof.
  intros Hwf.
  assert (E : forall k, make_resolved_promise (S k) v w =
                Ret (length (promises w))
                    (set_st (length (promises w)) (outcome_state (Resolved v))
                            (alloc w))).
  { intros k. unfold make_resolved_promise, bind at 1, new_promise.
    fold (alloc w). unfold bind.
    by rewrite (resolve_fresh k _ _ _ (lookup_alloc_new w)). }
  split; [exists 1; intros [|k] Hk; [lia|apply E]|].
  destruct (settle_ok (alloc w) (length (promises w)) (Resolved v) fresh_state)
    as (b & w' & [k0 Hrun] & Hwf' & Hk' & _ & _).
  { by apply wf_alloc. }
  { apply lookup_alloc_new. }
  specialize (Hrun (S k0) ltac:(lia)).
  rewrite (settle_fresh k0 _ _ _ (lookup_alloc_new w)) in Hrun.
  injection Hrun as _ <-. split; [done|].
  eapply keeps_trans; [apply keeps_alloc|done].
Qed.

Lemma make_rejected_ok w e :
  wf no_promise no_index w ->
  runs_to (fun fuel => make_rejected_promise fuel e) w (length (promises w))
          (set_st (length (promises w)) (outcome_state (Rejected e)) (alloc w))
  /\
  wf no_promise no_index
     (set_st (length (promises w)) (outcome_state (Rejected e)) (alloc w)) /\
  keeps w (set_st (length (promises w)) (outcome_state (Rejected e)) (alloc w)).
Proof.
  intros Hwf.
  assert (E : forall k, make_rejected_promise (S k) e w =
                Ret (length (promises w))
                    (set_st (length (promises w)) (outcome_state (Rejected e))
                            (alloc w))).
  { intros k. unfold make_rejected_promise, bind at 1, new_promise.
    fold (alloc w). unfold bind.
    by rewrite (reject_fresh k _ _ _ (lookup_alloc_new w)). }
  split; [exists 1; intros [|k] Hk; [lia|apply E]|].
  destruct (settle_ok (alloc w) (length (promises w)) (Rejected e) fresh_state)
    as (b & w' & [k0 Hrun] & Hwf' & Hk' & _ & _).
  { by apply wf_alloc. }
  { apply lookup_alloc_new. }
  specialize (Hrun (S k0) ltac:(lia)).
  rewrite (settle_fresh k0 _ _ _ (lookup_alloc_new w)) in Hrun.
  injection Hrun as _ <-. split; [done|].
  eapply keeps_trans; [apply keeps_alloc|done].
Qed.

Lemma make_any_ok w ps :
  wf no_promise no_index w -> ps <> [] ->
  Forall (fun q => q < length (promises w)) ps ->
  exists w1,
    runs_to (fun fuel => make_any_promise fuel ps) w (length (promises w)) w1 /\
    wf no_promise no_index w1 /\ keeps w w1.
Proof.
  intros Hwf Hne Hps. pose proof Hwf as (rank & B & Hi).
  destruct (make_any_after 0 _ _ w ps Hwf Hne Hps) as (w1 & E1 & Hafter).
  exists w1. split; [by eapply runs_to_intro; [apply make_any_monotone|]|].
  pose proof Hafter as (_ & _ & _ & _ & Heff).
  destruct (Heff fresh_state (lookup_alloc_new w)) as (st1 & Hr1 & Eeff).
  assert (Hc1 : length (contexts w1) = length (contexts w)).
  { change (contexts w1) with (st1, contexts w1).2. rewrite Eeff.
    by rewrite (fold_steps_length _ step_any_length). }
  assert (Hst1 : clean st1).
  { change st1 with (st1, contexts w1).1. rewrite Eeff.
    apply fold_steps_clean; [apply step_any_clean|by left]. }
  destruct (wf_after rank B (F_any (length (promises w))) step_any ps w
              (alloc w) w1 Hi) as [Hwf1 Hk1];
    try done; try lia; try (by exists st1).
  split; [by exists (rank_comb rank (length (promises w)) B), (B + 3)|done].
Qed.

Lemma make_all_ok w dflt ps :
  wf no_promise no_index w ->
  Forall (fun q => q < length (promises w)) ps ->
  exists w1,
    runs_to (fun fuel => make_all_promise fuel dflt ps) w
            (length (promises w)) w1 /\
    wf no_promise no_index w1 /\ keeps w w1.
Proof.
  intros Hwf Hps. destruct (decide (ps = [])) as [->|Hne].
  { eexists. apply (make_resolved_ok w (VVec []) Hwf). }
  pose proof Hwf as (rank & B & Hi).
  destruct (make_all_after 0 dflt _ _ w ps Hwf Hne Hps) as (w1 & E1 & Hafter).
  exists w1. split; [by eapply runs_to_intro; [apply make_all_monotone|]|].
  pose proof Hafter as (_ & _ & _ & _ & Heff).
  destruct (Heff fresh_state (lookup_alloc_new w)) as (st1 & Hr1 & Eeff).
  assert (Hc1 : length (contexts w1) = S (length (contexts w))).
  { change (contexts w1) with (st1, contexts w1).2. rewrite Eeff.
    rewrite (fold_steps_length _ (step_all_length _)). simpl.
    rewrite length_app. simpl. lia. }
  assert (Hst1 : clean st1).
  { change st1 with (st1, contexts w1).1. rewrite Eeff.
    apply fold_steps_clean; [apply step_all_clean|by left]. }
  destruct (wf_after rank B
              (F_all (length (contexts w)) (length (promises w)))
              (step_all (length (contexts w))) ps w
              (with_context dflt (length ps) (alloc w)) w1 Hi) as [Hwf1 Hk1];
    try done; try lia; try (by exists st1).
  - intros idx P HP. split; [|done]. split; [lia|by intros []].
  - split; [by exists (rank_comb rank (length (promises w)) B), (B + 3)|done].
Qed.

(** ** Stores a program can reach

    One call of the interface on existing handles: the constructor
    [promise()] (also [make_promise<R>()]), [then] and [fail] with callbacks
    of the caller, [resolve] and [reject], the two factories of settled
    handles and the two combinators. *)
Inductive api_step : world -> world -> Prop :=
| call_new w :
    api_step w (alloc w)
| call_then w p f g n w' :
    p < length (promises w) -> user_rf f -> user_jf g ->
    runs_to (fun fuel => then_ fuel p f g) w n w' ->
    api_step w w'
| call_settle w p o b w' :
    p < length (promises w) ->
    runs_to (fun fuel => settle fuel p o) w b w' ->
    api_step w w'
| call_make_resolved w v r w' :
    runs_to (fun fuel => make_resolved_promise fuel v) w r w' ->
    api_step w w'
| call_make_rejected w e r w' :
    runs_to (fun fuel => make_rejected_promise fuel e) w r w' ->
    api_step w w'
| call_make_all w dflt ps r w' :
    Forall (fun q => q < length (promises w)) ps ->
    runs_to (fun fuel => make_all_promise fuel dflt ps) w r w' ->
    api_step w w'
| call_make_any w ps r w' :
    Forall (fun q => q < length (promises w)) ps ->
    runs_to (fun fuel => make_any_promise fuel ps) w r w' ->
    api_step w w'.

Inductive api_steps : world -> world -> Prop :=
| steps_refl w : api_steps w w
| steps_step w1 w2 w3 : api_steps w1 w2 -> api_step w2 w3 -> api_steps w1 w3.

Definition reachable (w : world) : Prop := api_steps empty_world w.

Lemma then_runs w p f g st :
  wf no_promise no_index w -> promises w !! p = Some st ->
  user_rf f -> user_jf g ->
  exists w',
    runs_to (fun fuel => then_ fuel p f g) w (length (promises w)) w' /\
    wf no_promise no_index w' /\ keeps w w'.
Proof.
  intros Hwf Hp Hf Hg.
  destruct (then_ok w p f g st Hwf Hp Hf Hg) as (w' & E & Hwf' & Hk & _).
  exists w'. split; [|done]. exists 1. intros [|k] Hk'; [lia|apply E].
Qed.

(** One call keeps the store well formed and undoes nothing. *)
Lemma api_step_ok w w' :
  wf no_promise no_index w -> api_step w w' ->
  wf no_promise no_index w' /\ keeps w w'.
Proof.
  intros Hwf Hstep.
  destruct Hstep as [w|w p f g n w' Hp Hf Hg Hrun|w p o b w' Hp Hrun
                    |w v r w' Hrun|w e r w' Hrun
                    |w dflt ps r w' Hps Hrun|w ps r w' Hps Hrun].
  - split; [by apply wf_alloc|apply keeps_alloc].
  - destruct (lookup_lt_is_Some_2 _ _ Hp) as [st Hst].
    destruct (then_runs w p f g st Hwf Hst Hf Hg) as (w2 & Hrun2 & H2).
    by destruct (runs_to_unique _ _ _ _ _ _ Hrun Hrun2) as [_ ->].
  - destruct (lookup_lt_is_Some_2 _ _ Hp) as [st Hst].
    destruct (settle_ok w p o st Hwf Hst) as (b2 & w2 & Hrun2 & H2 & H3 & _).
    by destruct (runs_to_unique _ _ _ _ _ _ Hrun Hrun2) as [_ ->].
  - destruct (make_resolved_ok w v Hwf) as (Hrun2 & H2).
    by destruct (runs_to_unique _ _ _ _ _ _ Hrun Hrun2) as [_ ->].
  - destruct (make_rejected_ok w e Hwf) as (Hrun2 & H2).
    by destruct (runs_to_unique _ _ _ _ _ _ Hrun Hrun2) as [_ ->].
  - destruct (make_all_ok w dflt ps Hwf Hps) as (w2 & Hrun2 & H2).
    by destruct (runs_to_unique _ _ _ _ _ _ Hrun Hrun2) as [_ ->].
  - destruct ps as [|q ps].
    { destruct Hrun as [k Hk]. by specialize (Hk k ltac:(lia)). }
    destruct (make_any_ok w (q :: ps) Hwf ltac:(done) Hps) as (w2 & Hrun2 & H2).
    by destruct (runs_to_unique _ _ _ _ _ _ Hrun Hrun2) as [_ ->].
Qed.

Lemma api_steps_ok w w' :
  wf no_promise no_index w -> api_steps w w' ->
  wf no_promise no_index w' /\ keeps w w'.
Proof.
  intros Hwf Hsteps. induction Hsteps as [w|w1 w2 w3 _ IH Hstep].
  - split; [done|apply keeps_refl].
  - destruct (IH Hwf) as [Hwf2 Hk2].
    destruct (api_step_ok w2 w3 Hwf2 Hstep) as [Hwf3 Hk3].
    split; [done|by eapply keeps_trans].
Qed.

Lemma api_steps_trans w1 w2 w3 :
  api_steps w1 w2 -> api_steps w2 w3 -> api_steps w1 w3.
Proof.
  intros H1 H2. induction H2 as [|w2 w3 w4 _ IH Hstep]; [done|].
  eapply steps_step; [by apply IH|done].
Qed.

(** X1.  Every store a program reaches is well formed: nothing is left locked,
    a resolved state holds its value, a pending one holds none, and the
    queued closures, which mention existing handles only, can be ranked so
    that each one mentions handles of larger rank than the one it is
    queued on. *)
Theorem reachable_well_formed (w : world) :
  reachable w -> wf no_promise no_index w.
Proof.
  intros Hr. apply (api_steps_ok empty_world w); [apply wf_empty|done].
Qed.

(** X2.  On a store a program has reached, every call on existing handles
    returns: no mutex is locked twice, no assertion fails, no exception
    leaves a [noexcept] function or the call, and the store it leaves is
    reachable again. *)
Theorem reachable_calls_return (w : world) :
  reachable w ->
  (forall p o, p < length (promises w) ->
     exists b w', runs_to (fun fuel => settle fuel p o) w b w' /\
                  reachable w') /\
  (forall p f g, p < length (promises w) -> user_rf f -> user_jf g ->
     exists w', runs_to (fun fuel => then_ fuel p f g) w
                        (length (promises w)) w' /\
                reachable w') /\
  (forall dflt ps, Forall (fun q => q < length (promises w)) ps ->
     exists w', runs_to (fun fuel => make_all_promise fuel dflt ps) w
                        (length (promises w)) w' /\
                reachable w') /\
  (forall ps, ps <> [] -> Forall (fun q => q < length (promises w)) ps ->
     exists w', runs_to (fun fuel => make_any_promise fuel ps) w
                        (length (promises w)) w' /\
                reachable w').
Proof.
  intros Hr. pose proof (api_steps_ok empty_world w (wf_empty _ _) Hr)
    as [Hwf _].
  split; [|split; [|split]].
  - intros p o Hp. destruct (lookup_lt_is_Some_2 _ _ Hp) as [st Hst].
    destruct (settle_ok w p o st Hwf Hst) as (b & w' & Hrun & _).
    exists b, w'. split; [done|].
    eapply steps_step; [exact Hr|by eapply call_settle].
  - intros p f g Hp Hf Hg. destruct (lookup_lt_is_Some_2 _ _ Hp) as [st Hst].
    destruct (then_runs w p f g st Hwf Hst Hf Hg) as (w' & Hrun & _).
    exists w'. split; [done|].
    eapply steps_step; [exact Hr|by eapply call_then].
  - intros dflt ps Hps.
    destruct (make_all_ok w dflt ps Hwf Hps) as (w' & Hrun & _).
    exists w'. split; [done|].
    eapply steps_step; [exact Hr|by eapply call_make_all].
  - intros ps Hne Hps.
    destruct (make_any_ok w ps Hwf Hne Hps) as (w' & Hrun & _).
    exists w'. split; [done|].
    eapply steps_step; [exact Hr|by eapply call_make_any].
Qed.

(** X3.  Settled for good: whatever a program calls next, on any handle, a
    handle that is settled keeps its outcome, and no handle disappears. *)
Theorem settled_for_good (w w' : world) (q : promise) (o : outcome) :
  reachable w -> api_steps w w' ->
  outcome_of w q = Some o ->
  outcome_of w' q = Some o /\ length (promises w) <= length (promises w').
Proof.
  intros Hr Hsteps Ho.
  pose proof (api_steps_ok empty_world w (wf_empty _ _) Hr) as [Hwf _].
  destruct (api_steps_ok w w' Hwf Hsteps) as [_ Hk].
  split; [by eapply keeps_outcome|by destruct Hk].
Qed.

(** ** [make_promise] and the factories of settled handles *)

Definition no_throw {A} (m : M A) : Prop := forall w c w', m w <> Throw c w'.

Lemma no_throw_bind {A B} (m : M A) (k : A -> M B) :
  no_throw m -> (forall a, no_throw (k a)) -> no_throw (bind m k).
Proof.
  intros Hm Hk w c w'. unfold bind. specialize (Hm w).
  destruct (m w) as [a w1|e w1|x]; [apply Hk|by destruct (Hm e w1)|done].
Qed.

Lemma no_throw_noexcept {A} (m : M A) : no_throw (noexcept m).
Proof. intros w c w'. unfold noexcept. by destruct (m w). Qed.

Lemma no_throw_ret {A} (a : A) : no_throw (ret a).
Proof. done. Qed.

Lemma no_throw_get_state p : no_throw (get_state p).
Proof. intros w c w'. unfold get_state. by destruct (promises w !! p). Qed.

Lemma no_throw_put_state p st : no_throw (put_state p st).
Proof. done. Qed.

Lemma no_throw_lock p : no_throw (lock p).
Proof.
  apply no_throw_bind; [apply no_throw_get_state|]. intros st.
  by destruct (mutex_ st).
Qed.

Lemma no_throw_unlock p : no_throw (unlock p).
Proof. apply no_throw_bind; [apply no_throw_get_state|]. done. Qed.

Lemma no_throw_storage_set p v : no_throw (storage_set p v).
Proof.
  apply no_throw_bind; [apply no_throw_get_state|]. intros st.
  by destruct (storage_ st).
Qed.

Lemma no_throw_set_status p s : no_throw (set_status p s).
Proof. apply no_throw_bind; [apply no_throw_get_state|]. done. Qed.

Lemma resolve_never_throws k p v : no_throw (resolve k p v).
Proof.
  destruct k as [|k]; [done|]. simpl. unfold state_resolve.
  apply no_throw_bind; [apply no_throw_lock|]. intros _.
  apply no_throw_bind; [apply no_throw_get_state|]. intros st.
  destruct (status_ st).
  - apply no_throw_bind; [apply no_throw_storage_set|]. intros _.
    apply no_throw_bind; [apply no_throw_set_status|]. intros _.
    apply no_throw_bind; [apply no_throw_noexcept|]. intros _.
    apply no_throw_bind; [apply no_throw_unlock|]. done.
  - apply no_throw_bind; [apply no_throw_unlock|]. done.
  - apply no_throw_bind; [apply no_throw_unlock|]. done.
Qed.

Lemma no_throw_reject k p e : no_throw (reject k p e).
Proof. intros w c w'. apply reject_never_throws. Qed.

Lemma settle_never_throws k p o : no_throw (settle k p o).
Proof. destruct o; [apply resolve_never_throws|apply no_throw_reject]. Qed.

(** What [reject_h] and [resolve_h] do for callbacks of the caller: the
    callbacks are called, then the downstream handle is settled. *)
Lemma call_reject_h_fired k n g e w :
  user_jf g ->
  call_reject_h (reject k) (mk_reject_h n g) e w =
  (settle k n (snd (on_reject_result g e)) ;;; ret tt)
    (add_trace (fst (on_reject_result g e)) w).
Proof.
  intros Hg. unfold call_reject_h. cbn [rj_n rj_f].
  destruct g as [l body| |r]; [| |done];
    cbn [invoke_rejectF on_reject_result fst snd settle].
  - unfold try_catch, bind at 1 2 3, log, ret, throw.
    fold (add_trace [EvReject l e] w).
    destruct (body e) as [c|] eqn:Eb; [done|].
    unfold bind.
    pose proof (reject_never_throws k n e (add_trace [EvReject l e] w)) as Hn.
    destruct (reject k n e _) as [b w1|c w1|x]; [done|by destruct (Hn c w1)|done].
  - unfold try_catch, bind, ret.
    assert (add_trace [] w = w) as ->.
    { unfold add_trace. rewrite app_nil_r. by destruct w. }
    pose proof (reject_never_throws k n e w) as Hn.
    destruct (reject k n e w) as [b w1|c w1|x]; [done|by destruct (Hn c w1)|done].
Qed.

Lemma call_resolve_h_fired k n f g v w :
  user_rf f -> user_jf g ->
  call_resolve_h (resolve k) (reject k)
                 (mk_resolve_h n f (mk_reject_h n g)) v w =
  (settle k n (snd (on_resolve_result f g v)) ;;; ret tt)
    (add_trace (fst (on_resolve_result f g v)) w).
Proof.
  intros Hf Hg. unfold call_resolve_h. cbn [rs_n rs_f rs_j].
  destruct f as [l body| |? ? ?|?]; [| |done..];
    cbn [invoke_resolveF on_resolve_result].
  - unfold try_catch at 1, bind at 1 2 3, log, ret, throw.
    fold (add_trace [EvResolve l v] w).
    destruct (body v) as [r|c] eqn:Eb; cbn [fst snd settle].
    + unfold bind.
      pose proof (resolve_never_throws k n r (add_trace [EvResolve l v] w))
        as Hn.
      destruct (resolve k n r _) as [b w1|c w1|x];
        [done|by destruct (Hn c w1)|done].
    + rewrite (call_reject_h_fired k n g (Some c)) by done.
      unfold add_trace. simpl. by rewrite <- app_assoc.
  - cbn [fst snd settle]. unfold try_catch, bind, ret.
    assert (add_trace [] w = w) as ->.
    { unfold add_trace. rewrite app_nil_r. by destruct w. }
    pose proof (resolve_never_throws k n v w) as Hn.
    destruct (resolve k n v w) as [b w1|c w1|x];
      [done|by destruct (Hn c w1)|done].
Qed.

(** X4.  [make_promise]: what the initiator raises becomes the rejection of the
    result; an initiator that returns leaves the result as it is; nothing
    is thrown to the caller of [make_promise]. *)
Theorem make_promise_catches_initiator (w : world)
    (f : resolver_t -> rejector_t -> M unit) :
  (forall k c w2,
     f (Resolver (length (promises w))) (Rejector (length (promises w)))
       (alloc w) = Throw c w2 ->
     promises w2 !! length (promises w) = Some fresh_state ->
     make_promise (S k) f w =
     Ret (length (promises w))
         (set_st (length (promises w)) (outcome_state (Rejected (Some c)))
                 w2)) /\
  (forall k w2,
     f (Resolver (length (promises w))) (Rejector (length (promises w)))
       (alloc w) = Ret tt w2 ->
     make_promise k f w = Ret (length (promises w)) w2) /\
  (forall k c w', make_promise k f w <> Throw c w').
Proof.
  split; [|split].
  - intros k c w2 Hf Hfresh.
    unfold make_promise, bind, try_catch, new_promise. fold (alloc w).
    rewrite Hf. by rewrite (reject_fresh k _ _ _ Hfresh).
  - intros k w2 Hf.
    unfold make_promise, bind, try_catch, new_promise. fold (alloc w).
    by rewrite Hf.
  - intros k c w'.
    unfold make_promise, bind at 1, new_promise. fold (alloc w).
    unfold bind, try_catch.
    destruct (f _ _ (alloc w)) as [[] w1|c1 w1|x]; [done| |done].
    pose proof (reject_never_throws k (length (promises w)) (Some c1) w1)
      as Hn.
    destruct (reject k _ _ w1) as [b w2|c2 w2|x];
      [done|by destruct (Hn c2 w2)|done].
Qed.

Lemma make_resolved_eq k v w :
  make_resolved_promise (S k) v w =
  Ret (length (promises w))
      (set_st (length (promises w)) (outcome_state (Resolved v)) (alloc w)).
Proof.
  unfold make_resolved_promise, bind at 1, new_promise.
  fold (alloc w). unfold bind.
  by rewrite (resolve_fresh k _ _ _ (lookup_alloc_new w)).
Qed.

Lemma make_rejected_eq k e w :
  make_rejected_promise (S k) e w =
  Ret (length (promises w))
      (set_st (length (promises w)) (outcome_state (Rejected e)) (alloc w)).
Proof.
  unfold make_rejected_promise, bind at 1, new_promise.
  fold (alloc w). unfold bind.
  by rewrite (reject_fresh k _ _ _ (lookup_alloc_new w)).
Qed.

(** [then] on a handle made by a factory of settled handles. *)
Lemma then_on_made k o f g w :
  user_rf f -> user_jf g ->
  exists w',
    then_ (S k) (length (promises w)) f g
      (set_st (length (promises w)) (outcome_state o) (alloc w)) =
    Ret (S (length (promises w))) w' /\
    outcome_of w' (length (promises w)) = Some o /\
    trace w' = trace w ++ fst (fired o f g) /\
    outcome_of w' (S (length (promises w))) = Some (snd (fired o f g)).
Proof.
  intros Hf Hg.
  set (r := length (promises w)).
  set (w1 := set_st r (outcome_state o) (alloc w)).
  assert (Hl1 : length (promises w1) = S r).
  { unfold w1. rewrite length_set_st, length_alloc. done. }
  assert (Hr1 : promises w1 !! r = Some (outcome_state o)).
  { apply lookup_set_st_eq. rewrite length_alloc. unfold r. lia. }
  eexists. split.
  - rewrite (then_settled k r f g w1 (outcome_state o) o); try done.
    + by rewrite Hl1.
    + by destruct o.
    + by apply outcome_of_state.
  - split; [|split].
    + apply outcome_of_state. rewrite lookup_set_st_ne by lia.
      cbn [promises add_trace]. by apply lookup_alloc_old.
    + done.
    + apply outcome_of_state. apply lookup_set_st_eq.
      cbn [promises add_trace]. rewrite length_alloc. lia.
Qed.

(** X5.  A continuation attached to a handle that a factory made settled runs
    inside the attaching call, once, on the outcome the factory was given. *)
Theorem then_on_settled_factory (w : world) :
  (forall k l body v r,
     body v = inl r ->
     exists w',
       (p <- make_resolved_promise (S k) v ;; then1 (S k) p (RF_user l body)) w
         = Ret (S (length (promises w))) w' /\
       trace w' = trace w ++ [EvResolve l v] /\
       outcome_of w' (length (promises w)) = Some (Resolved v) /\
       outcome_of w' (S (length (promises w))) = Some (Resolved r)) /\
  (forall k l body v c,
     body v = inr c ->
     exists w',
       (p <- make_resolved_promise (S k) v ;; then1 (S k) p (RF_user l body)) w
         = Ret (S (length (promises w))) w' /\
       trace w' = trace w ++ [EvResolve l v] /\
       outcome_of w' (S (length (promises w))) = Some (Rejected (Some c))) /\
  (forall k l body e,
     exists w',
       (p <- make_rejected_promise (S k) e ;; then1 (S k) p (RF_user l body)) w
         = Ret (S (length (promises w))) w' /\
       trace w' = trace w /\
       outcome_of w' (S (length (promises w))) = Some (Rejected e)) /\
  (forall k l body e,
     exists w',
       (p <- make_rejected_promise (S k) e ;; fail (S k) p (JF_user l body)) w
         = Ret (S (length (promises w))) w' /\
       trace w' = trace w ++ [EvReject l e] /\
       outcome_of w' (length (promises w)) = Some (Rejected e) /\
       outcome_of w' (S (length (promises w))) =
         Some (Rejected (match body e with None => e | Some c => Some c end)))
  /\
  (forall k l body v,
     exists w',
       (p <- make_resolved_promise (S k) v ;; fail (S k) p (JF_user l body)) w
         = Ret (S (length (promises w))) w' /\
       trace w' = trace w /\
       outcome_of w' (S (length (promises w))) = Some (Resolved v)).
Proof.
  split; [|split; [|split; [|split]]].
  - intros k l body v r Hb.
    destruct (then_on_made k (Resolved v) (RF_user l body) JF_ignore w I I)
      as (w' & E & Ho & Ht & Hn).
    exists w'. unfold bind. rewrite make_resolved_eq. unfold then1.
    cbn [fired on_resolve_result] in Ht, Hn. rewrite Hb in Ht, Hn. done.
  - intros k l body v c Hb.
    destruct (then_on_made k (Resolved v) (RF_user l body) JF_ignore w I I)
      as (w' & E & Ho & Ht & Hn).
    exists w'. unfold bind. rewrite make_resolved_eq. unfold then1.
    cbn [fired on_resolve_result on_reject_result fst snd] in Ht, Hn.
    rewrite Hb in Ht, Hn. done.
  - intros k l body e.
    destruct (then_on_made k (Rejected e) (RF_user l body) JF_ignore w I I)
      as (w' & E & Ho & Ht & Hn).
    exists w'. unfold bind. rewrite make_rejected_eq. unfold then1.
    cbn [fired on_reject_result fst snd] in Ht, Hn.
    rewrite app_nil_r in Ht. done.
  - intros k l body e.
    destruct (then_on_made k (Rejected e) RF_identity (JF_user l body) w I I)
      as (w' & E & Ho & Ht & Hn).
    exists w'. unfold bind. rewrite make_rejected_eq. unfold fail. done.
  - intros k l body v.
    destruct (then_on_made k (Resolved v) RF_identity (JF_user l body) w I I)
      as (w' & E & Ho & Ht & Hn).
    exists w'. unfold bind. rewrite make_resolved_eq. unfold fail.
    cbn [fired on_resolve_result fst snd] in Ht, Hn.
    rewrite app_nil_r in Ht. done.
Qed.

(** ** Chains: [p.then(f1, g1).then(f2, g2)...] *)

(** A caller that attaches to [p], then to the handle that call returned,
    and so on; the value is the last handle. *)
Fixpoint then_chain (fuel : nat) (p : promise) (cs : list cont) : M promise :=
  match cs with
  | [] => ret p
  | c :: cs' => n <- then_ fuel p c.1 c.2 ;; then_chain fuel n cs'
  end.

(** The outcome that reaches the end of the chain, and the calls of
    callbacks on the way. *)
Fixpoint chain_outcome (o : outcome) (cs : list cont) : outcome :=
  match cs with
  | [] => o
  | c :: cs' => chain_outcome (snd (fired o c.1 c.2)) cs'
  end.

Fixpoint chain_events (o : outcome) (cs : list cont) : list event :=
  match cs with
  | [] => []
  | c :: cs' =>
      fst (fired o c.1 c.2) ++ chain_events (snd (fired o c.1 c.2)) cs'
  end.

(** The last handle of a chain hung under [p] whose first new handle is
    [n]. *)
Fixpoint chain_last (p n : promise) (cs : list cont) : promise :=
  match cs with
  | [] => p
  | _ :: cs' => chain_last n (S n) cs'
  end.

(** [n] holds the first continuation of [cs], with downstream handle [b],
    which holds the second, and so on; the last handle is fresh. *)
Fixpoint links (n b : promise) (cs : list cont) (w : world) : Prop :=
  match cs with
  | [] => promises w !! n = Some fresh_state
  | c :: cs' =>
      promises w !! n = Some (extend fresh_state [queued b c.1 c.2]) /\
      links b (S b) cs' w
  end.

Lemma links_frame cs : forall n b w w',
  n < b ->
  (forall q, q = n \/ b <= q -> promises w' !! q = promises w !! q) ->
  links n b cs w -> links n b cs w'.
Proof.
  induction cs as [|c cs IH]; intros n b w w' Hnb Hsame; simpl.
  - intros H. rewrite Hsame; [done|by left].
  - intros [H1 H2]. split; [rewrite Hsame; [done|by left]|].
    apply (IH _ _ w); [lia| |done].
    intros q Hq. apply Hsame. right. lia.
Qed.

Lemma chain_last_bound cs : forall p n,
  p < n -> p <= chain_last p n cs /\ chain_last p n cs < n + length cs
           /\ (cs <> [] -> n <= chain_last p n cs).
Proof.
  induction cs as [|c cs IH]; intros p n Hpn; simpl; [split; [lia|split; [lia|done]]|].
  destruct (IH n (S n) ltac:(lia)) as (H1 & H2 & H3).
  split; [lia|]. split; [lia|]. intros _. lia.
Qed.

Lemma fire_fired k o n f g w :
  user_rf f -> user_jf g ->
  fire k o (queued n f g) w =
  (settle k n (snd (fired o f g)) ;;; ret tt) (add_trace (fst (fired o f g)) w).
Proof.
  intros Hf Hg. destruct o as [v|e]; simpl.
  - by apply call_resolve_h_fired.
  - by apply call_reject_h_fired.
Qed.

Lemma settled_one o h : settled o (extend fresh_state [h]) = outcome_state o.
Proof. by destruct o. Qed.

(** Settling the head of a chain settles the chain. *)
Lemma settle_links cs : forall k n b o w,
  Forall user_cont cs -> n < b -> links n b cs w ->
  exists w',
    settle (S (length cs) + k) n o w = Ret true w' /\
    length (promises w') = length (promises w) /\
    trace w' = trace w ++ chain_events o cs /\
    promises w' !! n = Some (outcome_state o) /\
    outcome_of w' (chain_last n b cs) = Some (chain_outcome o cs) /\
    (forall q, q < n \/ (n < q /\ q < b) \/ b + length cs <= q ->
               promises w' !! q = promises w !! q).
Proof.
  induction cs as [|[f g] cs IH]; intros k n b o w Hu Hnb Hl.
  - simpl in Hl. exists (set_st n (outcome_state o) w).
    assert (Hlt : n < length (promises w)) by (by eapply lookup_lt_Some).
    split; [by apply settle_fresh|]. split; [apply length_set_st|].
    split; [simpl; by rewrite app_nil_r|].
    split; [by apply lookup_set_st_eq|].
    split; [apply outcome_of_state; by apply lookup_set_st_eq|].
    intros q Hq. apply lookup_set_st_ne. lia.
  - destruct Hl as [Hn Hl]. apply Forall_cons in Hu as [[Hf Hg] Hu].
    cbn [fst snd] in Hf, Hg.
    assert (Hlt : n < length (promises w)) by (by eapply lookup_lt_Some).
    set (st0 := extend fresh_state [queued b f g]) in *.
    cbn [length]. change (S (S (length cs)) + k) with (S (S (length cs) + k)).
    rewrite (settle_pending _ n o w st0 Hn); [|done..].
    set (wl := set_st n (settling o st0) w).
    change (handlers_ st0) with [queued b f g]. cbn [for_each].
    unfold bind at 1. rewrite (fire_fired _ o b f g wl Hf Hg).
    set (o1 := snd (fired o f g)). set (evs1 := fst (fired o f g)).
    destruct (IH k b (S b) o1 (add_trace evs1 wl) Hu ltac:(lia))
      as (w2 & E2 & Hl2 & Ht2 & Hb2 & Hlast2 & Hsame2).
    { apply (links_frame cs b (S b) w); [lia| |done].
      intros q Hq. cbn [promises add_trace]. unfold wl.
      apply lookup_set_st_ne. lia. }
    unfold bind at 1. rewrite E2. unfold ret.
    assert (Hn2 : promises w2 !! n = Some (settling o st0)).
    { rewrite Hsame2 by lia. cbn [promises add_trace]. unfold wl.
      by apply lookup_set_st_eq. }
    rewrite (finish_settling n o st0 w2 Hn2). unfold st0.
    rewrite settled_one.
    assert (Hlw2 : length (promises w2) = length (promises w)).
    { rewrite Hl2. cbn [promises add_trace]. unfold wl. apply length_set_st. }
    eexists. split; [done|]. split; [by rewrite length_set_st|].
    split; [|split; [|split]].
    + cbn [trace set_st]. rewrite Ht2. cbn [trace add_trace set_st wl].
      cbn [chain_events fst snd]. by rewrite <- app_assoc.
    + apply lookup_set_st_eq. lia.
    + cbn [chain_last chain_outcome fst snd].
      destruct (chain_last_bound cs b (S b) ltac:(lia)) as (Hb1 & _).
      unfold outcome_of. rewrite lookup_set_st_ne by lia. apply Hlast2.
    + intros q Hq. cbn [length] in Hq.
      rewrite lookup_set_st_ne by lia. rewrite Hsame2 by lia.
      cbn [promises add_trace]. unfold wl. apply lookup_set_st_ne. lia.
Qed.

(** The store after a chain has been hung under a pending handle. *)
Lemma then_chain_pending cs : forall p st w,
  promises w !! p = Some st -> mutex_ st = false -> status_ st = pending ->
  exists w1,
    (forall fuel,
       then_chain fuel p cs w =
       Ret (chain_last p (length (promises w)) cs) w1) /\
    length (promises w1) = length (promises w) + length cs /\
    contexts w1 = contexts w /\ trace w1 = trace w /\
    promises w1 !! p =
      Some (match cs with
            | [] => st
            | c :: _ => extend st [queued (length (promises w)) c.1 c.2]
            end) /\
    match cs with
    | [] => True
    | _ :: cs' => links (length (promises w)) (S (length (promises w))) cs' w1
    end /\
    (forall q, q < length (promises w) -> q <> p ->
               promises w1 !! q = promises w !! q).
Proof.
  induction cs as [|[f g] cs IH]; intros p st w Hp Hm Hs.
  - exists w. repeat split; try done; simpl; lia.
  - assert (Hlt : p < length (promises w)) by (by eapply lookup_lt_Some).
    set (n := length (promises w)).
    set (wa := push p (queued n f g) (alloc w)).
    assert (Hpa : promises wa = <[p := extend st [queued n f g]]> (promises w)
                                ++ [fresh_state]).
    { unfold wa, push. rewrite (lookup_alloc_old _ _ _ Hp).
      cbn [promises set_st alloc]. by rewrite insert_app_l. }
    assert (Hca : contexts wa = contexts w /\ trace wa = trace w).
    { unfold wa, push. by rewrite (lookup_alloc_old _ _ _ Hp). }
    assert (Hla : length (promises wa) = S n).
    { rewrite Hpa, length_app, length_insert. simpl. fold n. lia. }
    assert (Hna : promises wa !! n = Some fresh_state).
    { rewrite Hpa. rewrite lookup_app_r by (rewrite length_insert; fold n; lia).
      rewrite length_insert. fold n. by rewrite Nat.sub_diag. }
    destruct (IH n fresh_state wa Hna eq_refl eq_refl)
      as (w1 & E1 & Hl1 & Hc1 & Ht1 & Hn1 & Hlinks & Hold1).
    rewrite Hla in *.
    exists w1. split; [|split; [|split; [|split; [|split; [|split]]]]].
    + intros fuel. cbn [then_chain fst snd]. unfold bind.
      rewrite (then_pending fuel p f g w st Hp Hm Hs). fold n wa.
      apply E1.
    + simpl. fold n. lia.
    + destruct Hca. congruence.
    + destruct Hca. congruence.
    + rewrite Hold1 by lia. rewrite Hpa.
      apply lookup_app_l_Some. by apply list_lookup_insert_eq.
    + cbn [fst snd]. destruct cs as [|c2 cs]; simpl; [done|]. by split.
    + intros q Hq Hne. rewrite Hold1 by lia. rewrite Hpa.
      rewrite lookup_app_l by (rewrite length_insert; fold n; lia).
      by apply list_lookup_insert_ne.
Qed.

(** A chain hung under a settled handle runs at once. *)
Lemma then_chain_settled cs : forall k p o w st,
  promises w !! p = Some st -> mutex_ st = false ->
  outcome_of w p = Some o -> Forall user_cont cs ->
  exists w1,
    then_chain (S k) p cs w =
      Ret (chain_last p (length (promises w)) cs) w1 /\
    trace w1 = trace w ++ chain_events o cs /\
    outcome_of w1 (chain_last p (length (promises w)) cs) =
      Some (chain_outcome o cs).
Proof.
  induction cs as [|[f g] cs IH]; intros k p o w st Hp Hm Ho Hu.
  - exists w. simpl. by rewrite app_nil_r.
  - apply Forall_cons in Hu as [[Hf Hg] Hu]. cbn [fst snd] in Hf, Hg.
    set (n := length (promises w)).
    set (wa := set_st n (outcome_state (snd (fired o f g)))
                 (add_trace (fst (fired o f g)) (alloc w))).
    assert (Hla : length (promises wa) = S n).
    { unfold wa. rewrite length_set_st. cbn [promises add_trace].
      by rewrite length_alloc. }
    assert (Hna : promises wa !! n = Some (outcome_state (snd (fired o f g)))).
    { apply lookup_set_st_eq. cbn [promises add_trace].
      rewrite length_alloc. unfold n. lia. }
    destruct (IH k n (snd (fired o f g)) wa _ Hna) as (w1 & E1 & Ht1 & Ho1);
      [by destruct (snd (fired o f g))|by apply outcome_of_state|done|].
    rewrite Hla in *. exists w1. split; [|split].
    + cbn [then_chain fst snd]. unfold bind.
      rewrite (then_settled k p f g w st o Hf Hg Hp Hm Ho). fold n wa.
      apply E1.
    + rewrite Ht1. cbn [chain_events fst snd trace wa set_st add_trace].
      by rewrite <- app_assoc.
    + done.
Qed.

(** X6.  A chain of continuations of the caller hands the outcome of its head
    from link to link.  When the head is pending, nothing runs until it is
    settled; then, after the older continuations of the head, every link
    fires in turn, and the last handle gets what the last link makes of
    what the link before it made, and so on.  When the head is settled,
    all of this happens while the chain is attached.  In a chain of
    one-argument [then] a rejection reaches the last handle unchanged and
    no callback is called; a value goes through the callbacks in order. *)
Theorem then_chain_composes (L : nat -> Prop) (w : world) (p : promise)
    (st : state) (cs : list cont) :
  wf no_promise L w -> promises w !! p = Some st -> Forall user_cont cs ->
  (exists fuel0, forall fuel, fuel0 <= fuel ->
   exists w1,
     then_chain fuel p cs w =
       Ret (chain_last p (length (promises w)) cs) w1 /\
     (status_ st = pending ->
        trace w1 = trace w /\
        forall o, exists w2 evs,
          settle fuel p o w1 = Ret true w2 /\
          trace w2 = trace w ++ evs ++ chain_events o cs /\
          Forall (fun ev => ~ L (ev_label ev)) evs /\
          outcome_of w2 (chain_last p (length (promises w)) cs) =
            Some (chain_outcome o cs)) /\
     (forall o, outcome_of w p = Some o ->
        trace w1 = trace w ++ chain_events o cs /\
        outcome_of w1 (chain_last p (length (promises w)) cs) =
          Some (chain_outcome o cs))) /\
  (forall e, Forall (fun c => c.2 = JF_ignore) cs ->
     chain_outcome (Rejected e) cs = Rejected e /\
     chain_events (Rejected e) cs = []) /\
  (forall l1 f1 l2 f2 v r1 r2,
     f1 v = inl r1 -> f2 r1 = inl r2 ->
     chain_outcome (Resolved v)
       [(RF_user l1 f1, JF_ignore); (RF_user l2 f2, JF_ignore)] = Resolved r2
     /\
     chain_events (Resolved v)
       [(RF_user l1 f1, JF_ignore); (RF_user l2 f2, JF_ignore)] =
     [EvResolve l1 v; EvResolve l2 r1]).
Proof.
  intros Hwf Hp Hu. split; [|split].
  2:{ intros e Hcs. clear Hu. induction Hcs as [|[f g] cs Hc _ IH]; [done|].
      simpl in Hc. subst g. simpl. exact IH. }
  2:{ intros l1 f1 l2 f2 v r1 r2 H1 H2.
      simpl. rewrite H1. simpl. rewrite H2. done. }
  pose proof (wf_unlocked _ _ _ _ _ Hwf Hp) as Hm.
  assert (Hlt : p < length (promises w)) by (by eapply lookup_lt_Some).
  assert (Hdec : status_ st = pending \/ status_ st <> pending)
    by (destruct (status_ st); auto).
  destruct Hdec as [Hs|Hs].
  - (* pending head *)
    pose proof (wf_storage_pending _ _ _ _ _ Hwf Hp Hs) as Hn.
    destruct (then_chain_pending cs p st w Hp Hm Hs)
      as (w1 & E1 & Hl1 & Hc1 & Ht1 & Hp1 & Hlinks & Hold1).
    destruct (settle_attached no_promise L w p st [] Hwf Hp Hs)
      as (fuel1 & Hnil); [done|].
    pose proof Hwf as (rank & B & Hi).
    exists (fuel1 + S (S (B + length cs))). intros fuel Hfuel.
    exists w1. split; [apply E1|]. split.
    2:{ intros o Ho. exfalso. unfold outcome_of in Ho. rewrite Hp, Hs in Ho.
        done. }
    intros _. split; [done|]. intros o.
    destruct cs as [|[f g] cs].
    { destruct (Hnil fuel ltac:(lia) o) as (w2 & evs & E2 & Ht2 & Hf2 & Hp2 & _).
      rewrite (attached_nil p st w Hp Hm Hs) in E2.
      assert (w1 = w) as ->.
      { specialize (E1 0). simpl in E1. unfold ret in E1. by injection E1. }
      exists w2, evs. split; [done|]. split; [done|]. split; [done|].
      simpl. by eapply outcome_settled. }
    apply Forall_cons in Hu as [[Hf Hg] Hu]. cbn [fst snd] in Hf, Hg, Hp1.
    set (n := length (promises w)) in *.
    set (st1 := extend st [queued n f g]) in *.
    destruct fuel as [|K]; [lia|].
    rewrite (settle_pending K p o w1 st1 Hp1); [|done..].
    set (wl := set_st p (settling o st1) w1).
    assert (Hpl : promises wl !! p = Some (settling o st1)).
    { apply lookup_set_st_eq. by eapply lookup_lt_Some. }
    assert (Hll : length (promises wl) = n + S (length cs)).
    { unfold wl. rewrite length_set_st. done. }
    change (handlers_ st1) with (handlers_ st ++ [queued n f g]).
    rewrite for_each_app.
    destruct (fire_queue_total rank B
                (fun t => n <= t) (fun t => no_promise t \/ n <= t)
                (fun c => length (contexts w) <= c) L
                (fun q H => or_intror H)
                K (S (rank p)) wl (handlers_ st) o wl)
      as (w2a & Ea & Hsa).
    { eapply (inv_extended rank B no_promise L w wl p); try done.
      - fold n. lia.
      - unfold wl. cbn [contexts set_st]. rewrite Hc1. lia.
      - intros q Hq Hne. unfold wl. rewrite lookup_set_st_ne by done.
        by apply Hold1.
      - apply settling_not_pending.
      - apply settling_stored. }
    { apply step_rel_refl. }
    { destruct (Hi p st Hp) as (_ & _ & _ & Hpe); [by intros []|].
      destruct (Hpe Hs) as [_ Hfo]. eapply Forall_impl; [exact Hfo|].
      intros h. apply handler_ok_impl; try done.
      - intros t (? & ? & ?). repeat split; try done; [lia|].
        intros [?|?]; [done|lia].
      - intros c (? & ?). split; [|simpl; lia]. unfold wl.
        cbn [contexts set_st]. rewrite Hc1. done. }
    { destruct (Hi p st Hp) as (Hr & _); [by intros []|]. lia. }
    assert (Hkeep : forall q, q = p \/ n <= q ->
                              promises w2a !! q = promises wl !! q).
    { intros q Hq. destruct (promises wl !! q) as [stq|] eqn:Eq.
      - eapply step_rel_keep; [exact Hsa|exact Eq|].
        destruct Hq as [->|Hq]; [right|left; by right].
        assert (stq = settling o st1) as -> by congruence.
        apply settling_not_pending.
      - apply lookup_ge_None in Eq. apply lookup_ge_None.
        destruct Hsa as (Hla & _). lia. }
    destruct Hsa as (Hla & Hca & _ & _ & evs & Hta & Hfa).
    unfold bind at 1. rewrite Ea. cbn [for_each]. unfold bind at 1.
    rewrite (fire_fired K o n f g w2a Hf Hg).
    set (o1 := snd (fired o f g)). set (evs1 := fst (fired o f g)).
    destruct (settle_links cs (K - S (length cs)) n (S n) o1
                (add_trace evs1 w2a) Hu ltac:(lia))
      as (w3 & E3 & Hl3 & Ht3 & Hn3 & Hlast3 & Hsame3).
    { apply (links_frame cs n (S n) w1); [lia| |done].
      intros q Hq. cbn [promises add_trace]. rewrite Hkeep by lia.
      unfold wl. apply lookup_set_st_ne. lia. }
    replace (S (length cs) + (K - S (length cs))) with K in E3
      by (simpl in Hfuel; lia).
    unfold bind at 1. rewrite E3. unfold ret.
    assert (Hp3 : promises w3 !! p = Some (settling o st1)).
    { rewrite Hsame3 by lia. cbn [promises add_trace].
      rewrite Hkeep by (by left). done. }
    rewrite (finish_settling p o st1 w3 Hp3).
    eexists _, evs. split; [done|]. split; [|split; [done|]].
    + cbn [trace set_st]. rewrite Ht3. cbn [trace add_trace].
      rewrite Hta. unfold wl. cbn [trace set_st]. rewrite Ht1.
      cbn [chain_events fst snd]. by rewrite <- !app_assoc.
    + cbn [chain_last chain_outcome fst snd].
      destruct (chain_last_bound cs n (S n) ltac:(lia)) as (Hb1 & _).
      unfold outcome_of. rewrite lookup_set_st_ne by lia. apply Hlast3.
  - (* settled head *)
    destruct (wf_outcome _ _ _ _ _ Hwf Hp Hs) as [o Ho].
    exists 1. intros [|k] Hk; [lia|].
    destruct (then_chain_settled cs k p o w st Hp Hm Ho Hu)
      as (w1 & E1 & Ht1 & Ho1).
    exists w1. split; [done|]. split; [done|].
    intros o' Ho'. assert (o' = o) as -> by congruence. done.
Qed.

(** ** Continuations run under the lock of the handle they hang on *)

Lemma resolve_locked k p v w st :
  promises w !! p = Some st -> mutex_ st = true ->
  resolve (S k) p v w = Fault deadlock.
Proof.
  intros Hp Hm. cbn [resolve]. unfold state_resolve, lock, bind, get_state.
  by rewrite Hp, Hm.
Qed.

Lemma reject_locked k p e w st :
  promises w !! p = Some st -> mutex_ st = true ->
  reject (S k) p e w = Fault deadlock.
Proof.
  intros Hp Hm. cbn [reject].
  unfold state_reject, noexcept, lock, bind, get_state.
  by rewrite Hp, Hm.
Qed.

Lemma fire_self_resolve k p n g v w st :
  promises w !! p = Some st -> mutex_ st = true ->
  fire (S k) (Resolved v) (queued n (RF_any (Resolver p)) g) w =
  Fault deadlock.
Proof.
  intros Hp Hm. unfold fire, queued, call_resolve_h.
  cbn [resolve_ rs_n rs_f rs_j invoke_resolveF].
  unfold try_catch, bind. by rewrite (resolve_locked k p v w st).
Qed.

Lemma fire_self_reject k p n f e w st :
  promises w !! p = Some st -> mutex_ st = true ->
  fire (S k) (Rejected e) (queued n f (JF_rejector (Rejector p))) w =
  Fault deadlock.
Proof.
  intros Hp Hm. unfold fire, queued, call_reject_h.
  cbn [reject_ rj_n rj_f invoke_rejectF].
  unfold try_catch, bind. by rewrite (reject_locked k p e w st).
Qed.

(** Settling a handle whose last continuation faults when it runs under
    the lock. *)
Lemma settle_faulty w p st :
  wf no_promise no_index w -> promises w !! p = Some st ->
  status_ st = pending ->
  exists fuel0, forall fuel, fuel0 <= fuel -> forall h o,
    (forall k w' stp, promises w' !! p = Some stp -> mutex_ stp = true ->
                      fire (S k) o h w' = Fault deadlock) ->
    settle fuel p o (push p h (alloc w)) = Fault deadlock.
Proof.
  intros Hwf Hp Hs.
  pose proof (wf_unlocked _ _ _ _ _ Hwf Hp) as Hm.
  pose proof (wf_storage_pending _ _ _ _ _ Hwf Hp Hs) as Hn.
  assert (Hlt : p < length (promises w)) by (by eapply lookup_lt_Some).
  pose proof Hwf as (rank & B & Hi).
  exists (S (S B)). intros fuel Hfuel h o Hh.
  destruct fuel as [|[|K]]; [lia..|].
  set (w1 := push p h (alloc w)).
  set (st1 := extend st [h]).
  assert (Hpush : promises w1 = <[p := st1]> (promises w) ++ [fresh_state]).
  { unfold w1, push. rewrite (lookup_alloc_old _ _ _ Hp).
    cbn [promises set_st alloc]. by rewrite insert_app_l. }
  assert (Hc1 : contexts w1 = contexts w).
  { unfold w1, push. by rewrite (lookup_alloc_old _ _ _ Hp). }
  assert (Hp1 : promises w1 !! p = Some st1).
  { rewrite Hpush. apply lookup_app_l_Some. by apply list_lookup_insert_eq. }
  rewrite (settle_pending (S K) p o w1 st1 Hp1); [|done..].
  set (wl := set_st p (settling o st1) w1).
  assert (Hpl : promises wl !! p = Some (settling o st1)).
  { apply lookup_set_st_eq. by eapply lookup_lt_Some. }
  change (handlers_ st1) with (handlers_ st ++ [h]).
  rewrite for_each_app.
  destruct (fire_queue_total rank B
              (fun t => length (promises w) <= t)
              (fun t => no_promise t \/ length (promises w) <= t)
              (fun c => length (contexts w) <= c) no_index
              (fun q H => or_intror H)
              (S K) (S (rank p)) wl (handlers_ st) o wl)
    as (w2a & Ea & Hsa).
  { eapply (inv_extended rank B no_promise no_index w wl p); try done.
    - unfold wl. rewrite length_set_st, Hpush, length_app, length_insert. lia.
    - unfold wl. cbn [contexts set_st]. rewrite Hc1. lia.
    - intros q Hq Hne. unfold wl. rewrite lookup_set_st_ne by done.
      rewrite Hpush, lookup_app_l by (by rewrite length_insert).
      by apply list_lookup_insert_ne.
    - apply settling_not_pending.
    - apply settling_stored. }
  { apply step_rel_refl. }
  { destruct (Hi p st Hp) as (_ & _ & _ & Hpe); [by intros []|].
    destruct (Hpe Hs) as [_ Hfo]. eapply Forall_impl; [exact Hfo|].
    intros h'. apply handler_ok_impl; try done.
    - intros t (? & ? & ?). repeat split; try done.
      + unfold wl. rewrite length_set_st, Hpush, length_app, length_insert.
        lia.
      + intros [?|?]; [done|lia].
    - intros c (? & ?). split; [|simpl; lia]. unfold wl.
      cbn [contexts set_st]. rewrite Hc1. done. }
  { destruct (Hi p st Hp) as (Hr & _); [by intros []|]. lia. }
  assert (Hpa : promises w2a !! p = Some (settling o st1)).
  { eapply step_rel_keep; [exact Hsa|exact Hpl|].
    right. apply settling_not_pending. }
  unfold bind at 1. rewrite Ea. cbn [for_each]. unfold bind at 1.
  rewrite (Hh K w2a (settling o st1) Hpa); [done|by destruct o].
Qed.

(** X7.  A continuation of [p] that settles [p] itself finds the mutex of [p]
    held by the call that runs it: the settlement of [p] never returns, and
    when [p] is settled already the attaching call never does. *)
Theorem settling_own_handle_deadlocks (w : world) (p : promise) (st : state) :
  wf no_promise no_index w -> promises w !! p = Some st ->
  (status_ st = pending ->
   exists fuel0, forall fuel, fuel0 <= fuel ->
   exists w1 w2,
     then1 fuel p (RF_any (Resolver p)) w = Ret (length (promises w)) w1 /\
     (forall v, resolve fuel p v w1 = Fault deadlock) /\
     then_ fuel p RF_identity (JF_rejector (Rejector p)) w =
       Ret (length (promises w)) w2 /\
     (forall e, reject fuel p e w2 = Fault deadlock)) /\
  (forall v, outcome_of w p = Some (Resolved v) ->
     forall k, then1 (S k) p (RF_any (Resolver p)) w = Fault deadlock) /\
  (forall e, outcome_of w p = Some (Rejected e) ->
     forall k, then_ (S k) p RF_identity (JF_rejector (Rejector p)) w =
               Fault deadlock).
Proof.
  intros Hwf Hp.
  pose proof (wf_unlocked _ _ _ _ _ Hwf Hp) as Hm.
  assert (Hlt : p < length (promises w)) by (by eapply lookup_lt_Some).
  split; [|split].
  - intros Hs. destruct (settle_faulty w p st Hwf Hp Hs) as (fuel0 & Hf).
    exists fuel0. intros fuel Hfuel. eexists _, _.
    split; [by apply (then_pending fuel p _ _ w st)|].
    split; [|split; [by apply (then_pending fuel p _ _ w st)|]].
    + intros v. apply (Hf fuel Hfuel _ (Resolved v)).
      intros k w' stp. apply fire_self_resolve.
    + intros e. apply (Hf fuel Hfuel _ (Rejected e)).
      intros k w' stp. apply fire_self_reject.
  - intros v Ho k. unfold outcome_of in Ho. rewrite Hp in Ho.
    destruct (status_ st) eqn:Hs; [done| |done].
    destruct (storage_ st) as [v'|] eqn:Hv; [|done]. injection Ho as ->.
    unfold then1, then_, attach, bind at 1, new_promise. fold (alloc w).
    unfold bind at 1.
    rewrite (state_attach_resolved _ _ p _ _ _ (alloc w) st v
               (lookup_alloc_old _ _ _ Hp) Hm Hs Hv).
    unfold bind at 1, call_resolve_h.
    cbn [rs_n rs_f rs_j invoke_resolveF]. unfold try_catch, bind.
    rewrite (resolve_locked k p v _ (locked st)); [done| |done].
    apply lookup_set_st_eq. rewrite length_alloc. lia.
  - intros e Ho k. unfold outcome_of in Ho. rewrite Hp in Ho.
    destruct (status_ st) eqn:Hs; [done| |].
    { by destruct (storage_ st). }
    injection Ho as <-.
    unfold then_, attach, bind at 1, new_promise. fold (alloc w).
    unfold bind at 1.
    rewrite (state_attach_rejected _ _ p _ _ _ (alloc w) st
               (lookup_alloc_old _ _ _ Hp) Hm Hs).
    unfold bind at 1, call_reject_h.
    cbn [rj_n rj_f invoke_rejectF]. unfold try_catch, bind.
    rewrite (reject_locked k p _ _ (locked st)); [done| |done].
    apply lookup_set_st_eq. rewrite length_alloc. lia.
Qed.

(** ** A full count *)

Lemma count_res_full ks :
  count_res ks = length ks -> Forall (fun k => is_res k = true) ks.
Proof.
  induction ks as [|k ks IH]; [done|]. cbn [count_res length]. intros H.
  pose proof (count_res_le ks) as Hle.
  destruct (is_res k) eqn:Ek; [|lia].
  apply Forall_cons. split; [done|]. apply IH. lia.
Qed.

(** * The specialisation [promise<void>]

    [promise<void>::state] repeats the code of the primary template without
    the storage slot: [resolve()] takes no value and stores none, and the
    continuations take no argument.  A callable of no argument is a callable
    applied to the payload [VVoid] here. *)

Section VoidState.
Variable resolve : promise -> val -> M bool.
Variable reject : promise -> exception_ptr -> M bool.

(** [invoke_resolve_handlers_] of [promise<void>::state]:
    [for (const auto& h : handlers_) h.resolve_(); handlers_.clear();] *)
Definition invoke_resolve_handlers_void (p : promise) : M unit :=
  noexcept
    (st <- get_state p ;;
     for_each (fun h => call_resolve_h resolve reject (resolve_ h) VVoid)
              (handlers_ st) ;;;
     clear_handlers p).

(** [promise<void>::state::resolve()]. *)
Definition state_resolve_void (p : promise) : M bool :=
  lock p ;;;
  st <- get_state p ;;
  match status_ st with
  | pending =>
      set_status p resolved ;;;
      invoke_resolve_handlers_void p ;;;
      unlock p ;;;
      ret true
  | _ =>
      unlock p ;;;
      ret false
  end.

(** [add_handlers_] of [promise<void>::state]: a resolved state calls
    [resolve] with no argument. *)
Definition add_handlers_void (p : promise) (rs : resolve_h) (rj : reject_h)
  : M unit :=
  st <- get_state p ;;
  match status_ st with
  | resolved => call_resolve_h resolve reject rs VVoid
  | rejected => call_reject_h reject rj (exception_ st)
  | pending => push_handler p (mk_handler rs rj)
  end.

(** [promise<void>::state::attach]. *)
Definition state_attach_void (p next : promise) (f : ResolveF) (g : RejectF)
  : M unit :=
  let reject_h := mk_reject_h next g in
  let resolve_h := mk_resolve_h next f reject_h in
  lock p ;;;
  add_handlers_void p resolve_h reject_h ;;;
  unlock p.

Lemma state_resolve_void_absent p w :
  promises w !! p = None -> state_resolve_void p w = Fault bad_handle.
Proof.
  intros H. unfold state_resolve_void, lock, bind, get_state. by rewrite H.
Qed.

Lemma state_resolve_absent p v w :
  promises w !! p = None -> state_resolve resolve reject p v w = Fault bad_handle.
Proof.
  intros H. unfold state_resolve, lock, bind, get_state. by rewrite H.
Qed.

Lemma state_reject_absent p e w :
  promises w !! p = None -> state_reject reject p e w = Fault bad_handle.
Proof.
  intros H. unfold state_reject, noexcept, lock, bind, get_state.
  by rewrite H.
Qed.

Lemma state_attach_absent p n f g w :
  promises w !! p = None ->
  state_attach resolve reject p n f g w = Fault bad_handle.
Proof.
  intros H. unfold state_attach, lock, bind, get_state. by rewrite H.
Qed.

Lemma state_attach_void_absent p n f g w :
  promises w !! p = None -> state_attach_void p n f g w = Fault bad_handle.
Proof.
  intros H. unfold state_attach_void, lock, bind, get_state. by rewrite H.
Qed.

Lemma state_resolve_void_locked p w st :
  promises w !! p = Some st -> mutex_ st = true ->
  state_resolve_void p w = Fault deadlock.
Proof.
  intros H Hm. unfold state_resolve_void, lock, bind, get_state.
  by rewrite H, Hm.
Qed.

Lemma state_resolve_locked p v w st :
  promises w !! p = Some st -> mutex_ st = true ->
  state_resolve resolve reject p v w = Fault deadlock.
Proof.
  intros H Hm. unfold state_resolve, lock, bind, get_state. by rewrite H, Hm.
Qed.

Lemma state_reject_locked p e w st :
  promises w !! p = Some st -> mutex_ st = true ->
  state_reject reject p e w = Fault deadlock.
Proof.
  intros H Hm. unfold state_reject, noexcept, lock, bind, get_state.
  by rewrite H, Hm.
Qed.

Lemma state_attach_locked p n f g w st :
  promises w !! p = Some st -> mutex_ st = true ->
  state_attach resolve reject p n f g w = Fault deadlock.
Proof.
  intros H Hm. unfold state_attach, lock, bind, get_state. by rewrite H, Hm.
Qed.

Lemma state_attach_void_locked p n f g w st :
  promises w !! p = Some st -> mutex_ st = true ->
  state_attach_void p n f g w = Fault deadlock.
Proof.
  intros H Hm. unfold state_attach_void, lock, bind, get_state.
  by rewrite H, Hm.
Qed.

Lemma state_resolve_void_settled p w st :
  promises w !! p = Some st -> mutex_ st = false -> status_ st <> pending ->
  state_resolve_void p w = Ret false w.
Proof.
  intros Hp Hm Hs.
  assert (Hlt : p < length (promises w)) by (by eapply lookup_lt_Some).
  unfold state_resolve_void, lock, unlock, bind, get_state, put_state,
    fail_with, ret.
  rewrite Hp, Hm. simpl. rewrite list_lookup_insert_eq by done. simpl.
  destruct (status_ st) eqn:E; [done | |];
    simpl; rewrite list_lookup_insert_eq by (by rewrite ?length_insert);
    simpl; rewrite list_insert_insert_eq;
    rewrite <- Hm, <- E, state_eta, list_insert_id by done;
    by destruct w.
Qed.

Lemma state_resolve_void_pending p w st :
  promises w !! p = Some st -> mutex_ st = false -> status_ st = pending ->
  state_resolve_void p w =
  finish p
    (for_each (fun h => call_resolve_h resolve reject (resolve_ h) VVoid)
       (handlers_ st)
       (set_st p (mk_state (storage_ st) resolved (exception_ st) true
                           (handlers_ st)) w)).
Proof.
  intros Hp Hm Hs.
  assert (Hlt : p < length (promises w)) by (by eapply lookup_lt_Some).
  unfold state_resolve_void, invoke_resolve_handlers_void, noexcept, lock,
    unlock, set_status, clear_handlers, bind, get_state, put_state,
    fail_with, ret.
  rewrite Hp, Hm. simpl. rewrite list_lookup_insert_eq by done. simpl.
  rewrite Hs. simpl.
  repeat (rewrite ?list_lookup_insert_eq by (by rewrite ?length_insert);
          simpl; rewrite ?list_insert_insert_eq).
  unfold set_st.
  destruct (for_each _ _ _) as [[] w2|c w2|f]; simpl; try done.
  destruct (promises w2 !! p) as [st2|] eqn:E2; simpl; [|done].
  assert (p < length (promises w2)) by (by eapply lookup_lt_Some).
  repeat (rewrite ?list_lookup_insert_eq by (by rewrite ?length_insert);
          simpl; rewrite ?list_insert_insert_eq).
  done.
Qed.

Lemma state_attach_void_pending p n f g w st :
  promises w !! p = Some st -> mutex_ st = false -> status_ st = pending ->
  state_attach_void p n f g w =
  Ret tt (set_st p (mk_state (storage_ st) pending (exception_ st) false
                      (handlers_ st ++
                         [mk_handler (mk_resolve_h n f (mk_reject_h n g))
                                     (mk_reject_h n g)])) w).
Proof.
  intros Hp Hm Hs.
  assert (Hlt : p < length (promises w)) by (by eapply lookup_lt_Some).
  unfold state_attach_void, add_handlers_void, push_handler, lock, unlock,
    bind, get_state, put_state, fail_with, ret.
  rewrite Hp, Hm. simpl.
  repeat (rewrite ?list_lookup_insert_eq by (by rewrite ?length_insert);
          simpl; rewrite ?list_insert_insert_eq).
  rewrite Hs. simpl.
  repeat (rewrite ?list_lookup_insert_eq by (by rewrite ?length_insert);
          simpl; rewrite ?list_insert_insert_eq).
  done.
Qed.

Lemma lock_eq p w st :
  promises w !! p = Some st -> mutex_ st = false ->
  lock p w = Ret tt (set_st p (locked st) w).
Proof.
  intros H Hm. unfold lock, bind, get_state, put_state. by rewrite H, Hm.
Qed.

Lemma state_attach_void_resolved p n f g w st :
  promises w !! p = Some st -> mutex_ st = false -> status_ st = resolved ->
  state_attach_void p n f g w =
  (call_resolve_h resolve reject (mk_resolve_h n f (mk_reject_h n g)) VVoid ;;;
   unlock p) (set_st p (locked st) w).
Proof.
  intros Hp Hm Hs.
  assert (Hlt : p < length (promises w)) by (by eapply lookup_lt_Some).
  unfold state_attach_void. cbv zeta. unfold bind at 1.
  rewrite (lock_eq p w st Hp Hm).
  assert (Ha : forall rs rj,
    add_handlers_void p rs rj (set_st p (locked st) w) =
    call_resolve_h resolve reject rs VVoid (set_st p (locked st) w)).
  { intros rs rj. unfold add_handlers_void, bind at 1, get_state.
    rewrite lookup_set_st_eq by done. cbn [locked status_]. by rewrite Hs. }
  unfold bind. by rewrite Ha.
Qed.

Lemma state_attach_void_rejected p n f g w st :
  promises w !! p = Some st -> mutex_ st = false -> status_ st = rejected ->
  state_attach_void p n f g w =
  (call_reject_h reject (mk_reject_h n g) (exception_ st) ;;;
   unlock p) (set_st p (locked st) w).
Proof.
  intros Hp Hm Hs.
  assert (Hlt : p < length (promises w)) by (by eapply lookup_lt_Some).
  unfold state_attach_void. cbv zeta. unfold bind at 1.
  rewrite (lock_eq p w st Hp Hm).
  assert (Ha : forall rs rj,
    add_handlers_void p rs rj (set_st p (locked st) w) =
    call_reject_h reject rj (exception_ st) (set_st p (locked st) w)).
  { intros rs rj. unfold add_handlers_void, bind at 1, get_state.
    rewrite lookup_set_st_eq by done. cbn [locked status_ exception_].
    by rewrite Hs. }
  unfold bind. by rewrite Ha.
Qed.
End VoidState.

(** ** Stores that hold both kinds of handle

    [is_void q] is the static type of the handle [q]: [promise<void>] or
    [promise<T>].  A member function called on a handle is the one of its
    class; [reject] is the same code in both classes and never resolves a
    handle. *)

Section Typed.
Variable is_void : promise -> bool.

Fixpoint resolve_typed (fuel : nat) (p : promise) (value : val) : M bool :=
  match fuel with
  | 0 => fail_with out_of_fuel
  | S k =>
      if is_void p then state_resolve_void (resolve_typed k) (reject k) p
      else state_resolve (resolve_typed k) (reject k) p value
  end.

Definition attach_typed (fuel : nat) (p next : promise) (f : ResolveF)
    (g : RejectF) : M unit :=
  if is_void p
  then state_attach_void (resolve_typed fuel) (reject fuel) p next f g
  else state_attach (resolve_typed fuel) (reject fuel) p next f g.

(** [then(on_resolve, on_reject)] of either class. *)
Definition then_typed (fuel : nat) (p : promise) (on_resolve : ResolveF)
    (on_reject : RejectF) : M promise :=
  next <- new_promise ;;
  attach_typed fuel p next on_resolve on_reject ;;;
  ret next.

(** The store of the primary template alone, with the storage slot of the
    [promise<void>] handles forgotten. *)
Definition erased (st : state) : state :=
  mk_state None (status_ st) (exception_ st) (mutex_ st) (handlers_ st).

Definition erase_at (q : promise) (st : state) : state :=
  if is_void q then erased st else st.

Definition erase_void (w : world) : world :=
  mk_world (imap erase_at (promises w)) (contexts w) (trace w).

Definition erase_res {A} (r : res A) : res A :=
  match r with
  | Ret a w => Ret a (erase_void w)
  | Throw c w => Throw c (erase_void w)
  | Fault x => Fault x
  end.

(** What the C++ types guarantee: a callable whose result settles a
    [promise<void>] returns nothing, a [promise<void>] is resolved by the
    continuation of a [promise<void>] only, and [make_all_promise] resolves
    a promise of a vector. *)
Definition returns_void (src_void : bool) (f : ResolveF) : Prop :=
  match f with
  | RF_user _ body => forall v r, body v = inl r -> r = VVoid
  | RF_identity => src_void = true
  | RF_all _ _ _ | RF_any _ => True
  end.

Definition targets_typed (src_void : bool) (f : ResolveF) : Prop :=
  match f with
  | RF_all _ (Resolver r) _ => is_void r = false
  | RF_any (Resolver r) => is_void r = true -> src_void = true
  | RF_user _ _ | RF_identity => True
  end.

Definition handler_typed (q : promise) (h : handler) : Prop :=
  targets_typed (is_void q) (rs_f (resolve_ h)) /\
  (is_void (rs_n (resolve_ h)) = true ->
   returns_void (is_void q) (rs_f (resolve_ h))).

Definition state_typed (q : promise) (st : state) : Prop :=
  (status_ st = pending -> storage_ st = None) /\
  (status_ st = resolved ->
   exists v, storage_ st = Some v /\ (is_void q = true -> v = VVoid)) /\
  Forall (handler_typed q) (handlers_ st).

Definition well_typed (w : world) : Prop :=
  forall q st, promises w !! q = Some st -> state_typed q st.

(** ** Forgetting commutes with the store operations *)

Lemma erase_lookup w q :
  promises (erase_void w) !! q = erase_at q <$> promises w !! q.
Proof. simpl. apply list_lookup_imap. Qed.

Lemma erase_length w :
  length (promises (erase_void w)) = length (promises w).
Proof. simpl. apply length_imap. Qed.

Lemma erase_set_st p st w :
  erase_void (set_st p st w) = set_st p (erase_at p st) (erase_void w).
Proof.
  unfold erase_void, set_st. simpl. f_equal. apply list_eq. intros i.
  rewrite list_lookup_imap.
  destruct (decide (i = p)) as [->|Hp].
  - destruct (decide (p < length (promises w))).
    + rewrite !list_lookup_insert_eq; [done|by rewrite length_imap|done].
    + rewrite !list_insert_ge; [|rewrite length_imap; lia|lia].
      by rewrite list_lookup_imap.
  - rewrite !list_lookup_insert_ne by done. by rewrite list_lookup_imap.
Qed.

Lemma erase_at_shape q st s e m hs :
  erase_at q (mk_state (storage_ st) s e m hs) =
  mk_state (storage_ (erase_at q st)) s e m hs.
Proof. unfold erase_at. by destruct (is_void q). Qed.

Lemma erase_at_status q st : status_ (erase_at q st) = status_ st.
Proof. unfold erase_at. by destruct (is_void q). Qed.

Lemma erase_at_mutex q st : mutex_ (erase_at q st) = mutex_ st.
Proof. unfold erase_at. by destruct (is_void q). Qed.

Lemma erase_at_exception q st : exception_ (erase_at q st) = exception_ st.
Proof. unfold erase_at. by destruct (is_void q). Qed.

Lemma erase_at_handlers q st : handlers_ (erase_at q st) = handlers_ st.
Proof. unfold erase_at. by destruct (is_void q). Qed.

Lemma well_typed_set_st p st w :
  well_typed w -> state_typed p st -> well_typed (set_st p st w).
Proof.
  intros Hw Hst q st' H. simpl in H.
  apply list_lookup_insert_Some in H as [(-> & -> & _)|[_ H]]; [done|].
  by apply Hw.
Qed.

(** ** The simulation *)

Definition post {A} (Q : A -> Prop) (r : res A) : Prop :=
  match r with
  | Ret a w => Q a /\ well_typed w
  | Throw _ w => well_typed w
  | Fault _ => True
  end.

Definition sim {A} (Q : A -> Prop) (mt mg : M A) : Prop :=
  forall w, well_typed w ->
    mt (erase_void w) = erase_res (mg w) /\ post Q (mg w).

Definition any {A} (a : A) : Prop := True.

Lemma sim_ret {A} (Q : A -> Prop) a : Q a -> sim Q (ret a) (ret a).
Proof. intros H w Hw. by split. Qed.

Lemma sim_throw {A} (Q : A -> Prop) c : sim Q (throw c) (throw c).
Proof. intros w Hw. by split. Qed.

Lemma sim_fault {A} (Q : A -> Prop) x : sim Q (fail_with x) (fail_with x).
Proof. intros w Hw. by split. Qed.

Lemma sim_bind {A B} (Q : A -> Prop) (Q' : B -> Prop) mt mg kt kg :
  sim Q mt mg -> (forall a, Q a -> sim Q' (kt a) (kg a)) ->
  sim Q' (bind mt kt) (bind mg kg).
Proof.
  intros Hm Hk w Hw. destruct (Hm w Hw) as [E P]. unfold bind. rewrite E.
  destruct (mg w) as [a w1|c w1|x]; simpl in *; [|done..].
  destruct P as [Ha Hw1]. by apply Hk.
Qed.

Lemma sim_try_catch {A} (Q : A -> Prop) mt mg ht hg :
  sim Q mt mg -> (forall c, sim Q (ht c) (hg c)) ->
  sim Q (try_catch mt ht) (try_catch mg hg).
Proof.
  intros Hm Hh w Hw. destruct (Hm w Hw) as [E P]. unfold try_catch.
  rewrite E. destruct (mg w) as [a w1|c w1|x]; simpl in *; [done| |done].
  by apply Hh.
Qed.

Lemma sim_noexcept {A} (Q : A -> Prop) mt mg :
  sim Q mt mg -> sim Q (noexcept mt) (noexcept mg).
Proof.
  intros Hm w Hw. destruct (Hm w Hw) as [E P]. unfold noexcept. rewrite E.
  by destruct (mg w) as [a w1|c w1|x].
Qed.

Lemma sim_for_each {A} (bt bg : A -> M unit) l :
  Forall (fun x => sim any (bt x) (bg x)) l ->
  sim any (for_each bt l) (for_each bg l).
Proof.
  induction 1 as [|x l Hx _ IH]; [by apply sim_ret|].
  simpl. eapply sim_bind; [exact Hx|]. intros _ _. exact IH.
Qed.

Lemma sim_log ev : sim any (log ev) (log ev).
Proof. intros w Hw. by split. Qed.

Lemma sim_get_context c : sim any (get_context c) (get_context c).
Proof.
  intros w Hw. unfold get_context. simpl.
  by destruct (contexts w !! c).
Qed.

Lemma sim_put_context c x : sim any (put_context c x) (put_context c x).
Proof. intros w Hw. by split. Qed.

Lemma sim_apply_result c i v :
  sim any (apply_result c i v) (apply_result c i v).
Proof.
  unfold apply_result. eapply sim_bind; [apply sim_get_context|].
  intros x _. cbv zeta. eapply sim_bind; [apply sim_put_context|].
  intros _ _. by apply sim_ret.
Qed.

Lemma sim_unlock p : sim any (unlock p) (unlock p).
Proof.
  intros w Hw. destruct (promises w !! p) as [st|] eqn:Hp.
  - rewrite (unlock_eq p w st Hp).
    rewrite (unlock_eq p (erase_void w) (erase_at p st))
      by (by rewrite erase_lookup, Hp).
    simpl. rewrite erase_set_st.
    rewrite erase_at_status, erase_at_exception, erase_at_handlers.
    split; [by rewrite (erase_at_shape p st)|].
    split; [done|]. apply well_typed_set_st; [done|].
    destruct (Hw p st Hp) as (H1 & H2 & H3). by repeat split.
  - unfold unlock, bind, get_state. rewrite erase_lookup, Hp. by simpl.
Qed.

Lemma sim_finish p rt (rg : res unit) :
  rt = erase_res rg -> post any rg ->
  finish p rt = erase_res (finish p rg) /\ post any (finish p rg).
Proof.
  intros -> P. destruct rg as [[] w2|c w2|x]; simpl in *; [|done..].
  destruct P as [_ Hw2]. rewrite list_lookup_imap.
  destruct (promises w2 !! p) as [st2|] eqn:E2; simpl; [|done].
  change (mk_world (imap erase_at (promises w2)) (contexts w2) (trace w2))
    with (erase_void w2).
  rewrite erase_at_status, erase_at_exception.
  split.
  - f_equal. rewrite erase_set_st. by rewrite (erase_at_shape p st2).
  - split; [done|]. apply well_typed_set_st; [done|].
    destruct (Hw2 p st2 E2) as (H1 & H2 & H3). by repeat split.
Qed.

Section Sim.
Variables resolve_t resolve_g : promise -> val -> M bool.
Variable reject_g : promise -> exception_ptr -> M bool.
Hypothesis resolve_sim : forall p v,
  (is_void p = true -> v = VVoid) -> sim any (resolve_t p v) (resolve_g p v).
Hypothesis reject_sim : forall p e, sim any (reject_g p e) (reject_g p e).

Lemma sim_invoke_rejectF g e :
  sim any (invoke_rejectF reject_g g e) (invoke_rejectF reject_g g e).
Proof.
  destruct g as [l body| |[r]]; cbn [invoke_rejectF].
  - eapply sim_bind; [apply sim_log|]. intros _ _.
    destruct (body e); [apply sim_throw|by apply sim_ret].
  - by apply sim_ret.
  - eapply sim_bind; [apply reject_sim|]. intros _ _. by apply sim_ret.
Qed.

Lemma sim_call_reject_h h e :
  sim any (call_reject_h reject_g h e) (call_reject_h reject_g h e).
Proof.
  unfold call_reject_h. apply sim_try_catch.
  - eapply sim_bind; [apply sim_invoke_rejectF|]. intros _ _.
    eapply sim_bind; [apply reject_sim|]. intros _ _. by apply sim_ret.
  - intros c. eapply sim_bind; [apply reject_sim|]. intros _ _.
    by apply sim_ret.
Qed.

Lemma sim_invoke_resolveF sv f v :
  targets_typed sv f -> (sv = true -> v = VVoid) ->
  sim (fun r => returns_void sv f -> r = VVoid)
      (invoke_resolveF resolve_t f v) (invoke_resolveF resolve_g f v).
Proof.
  intros Ht Hv. destruct f as [l body| |c [r] i|[r]]; cbn [invoke_resolveF].
  - eapply sim_bind; [apply sim_log|]. intros _ _.
    destruct (body v) as [r|c] eqn:E; [|apply sim_throw].
    apply sim_ret. intros H. by eapply H.
  - by apply sim_ret.
  - eapply sim_bind; [apply sim_apply_result|]. intros last _.
    destruct last; [|by apply sim_ret].
    eapply sim_bind; [apply sim_get_context|]. intros x _.
    eapply sim_bind; [apply resolve_sim|].
    + simpl in Ht. congruence.
    + intros _ _. by apply sim_ret.
  - eapply sim_bind; [apply resolve_sim|].
    + simpl in Ht. auto.
    + intros _ _. by apply sim_ret.
Qed.

Lemma sim_call_resolve_h q rs v :
  targets_typed (is_void q) (rs_f rs) ->
  (is_void (rs_n rs) = true -> returns_void (is_void q) (rs_f rs)) ->
  (is_void q = true -> v = VVoid) ->
  sim any (call_resolve_h resolve_t reject_g rs v)
          (call_resolve_h resolve_g reject_g rs v).
Proof.
  intros Ht Hr Hv. unfold call_resolve_h. apply sim_try_catch.
  - eapply sim_bind; [by apply (sim_invoke_resolveF (is_void q))|].
    intros r Hq. eapply sim_bind; [apply resolve_sim; auto|].
    intros _ _. by apply sim_ret.
  - intros c. apply sim_call_reject_h.
Qed.

Lemma sim_state_reject p e :
  sim any (state_reject reject_g p e) (state_reject reject_g p e).
Proof.
  intros w Hw. destruct (promises w !! p) as [st|] eqn:Hp.
  2:{ rewrite !state_reject_absent; [done|done|].
      by rewrite erase_lookup, Hp. }
  assert (Hp' : promises (erase_void w) !! p = Some (erase_at p st))
    by (by rewrite erase_lookup, Hp).
  assert (Hm' : mutex_ (erase_at p st) = mutex_ st)
    by apply erase_at_mutex.
  assert (Hs' : status_ (erase_at p st) = status_ st)
    by apply erase_at_status.
  destruct (mutex_ st) eqn:Hm.
  { by rewrite (state_reject_locked _ p e w st Hp Hm),
      (state_reject_locked _ p e _ _ Hp' Hm'). }
  assert (status_ st = pending \/ status_ st <> pending) as [Hs|Hs]
    by (destruct (status_ st); auto).
  - rewrite (state_reject_pending _ p e w st Hp Hm Hs).
    rewrite (state_reject_pending _ p e _ _ Hp' Hm') by congruence.
    rewrite erase_at_handlers.
    destruct (Hw p st Hp) as (H1 & H2 & H3).
    assert (Hl : well_typed
      (set_st p (mk_state (storage_ st) rejected e true (handlers_ st)) w)).
    { apply well_typed_set_st; [done|]. by repeat split. }
    assert (Hf : Forall (fun h => sim any
        (call_reject_h reject_g (reject_ h) e)
        (call_reject_h reject_g (reject_ h) e)) (handlers_ st)).
    { apply Forall_forall. intros h _. apply sim_call_reject_h. }
    destruct (sim_for_each _ _ _ Hf _ Hl) as [E P].
    apply sim_finish; [|done].
    by rewrite <- erase_at_shape, <- erase_set_st.
  - rewrite (state_reject_settled _ p e w st Hp Hm Hs).
    rewrite (state_reject_settled _ p e _ _ Hp' Hm') by congruence.
    by split.
Qed.

Lemma sim_handlers q hs v :
  Forall (handler_typed q) hs -> (is_void q = true -> v = VVoid) ->
  Forall (fun h => sim any
    (call_resolve_h resolve_t reject_g (resolve_ h) v)
    (call_resolve_h resolve_g reject_g (resolve_ h) v)) hs.
Proof.
  intros H Hv. eapply Forall_impl; [exact H|].
  intros h [Ht Hr]. by apply (sim_call_resolve_h q).
Qed.

Lemma sim_state_resolve p v :
  is_void p = false ->
  sim any (state_resolve resolve_t reject_g p v)
          (state_resolve resolve_g reject_g p v).
Proof.
  intros Hv w Hw. destruct (promises w !! p) as [st|] eqn:Hp.
  2:{ rewrite !state_resolve_absent; [done|done|].
      by rewrite erase_lookup, Hp. }
  assert (Hp' : promises (erase_void w) !! p = Some st).
  { rewrite erase_lookup, Hp. unfold erase_at. by rewrite Hv. }
  destruct (mutex_ st) eqn:Hm.
  { by rewrite (state_resolve_locked _ _ p v w st Hp Hm),
      (state_resolve_locked _ _ p v _ _ Hp' Hm). }
  destruct (Hw p st Hp) as (H1 & H2 & H3).
  assert (status_ st = pending \/ status_ st <> pending) as [Hs|Hs]
    by (destruct (status_ st); auto).
  - rewrite (state_resolve_pending _ _ p v w st Hp Hm Hs (H1 Hs)).
    rewrite (state_resolve_pending _ _ p v _ _ Hp' Hm Hs (H1 Hs)).
    assert (Hl : well_typed
      (set_st p (mk_state (Some v) resolved (exception_ st) true
                          (handlers_ st)) w)).
    { apply well_typed_set_st; [done|]. repeat split; [done| |done].
      intros _. exists v. split; [done|congruence]. }
    assert (Hf := sim_handlers p (handlers_ st) v H3
                    ltac:(intros; congruence)).
    destruct (sim_for_each _ _ _ Hf _ Hl) as [E P].
    apply sim_finish; [|done].
    rewrite <- E, erase_set_st. unfold erase_at. by rewrite Hv.
  - rewrite (state_resolve_settled _ _ p v w st Hp Hm Hs).
    rewrite (state_resolve_settled _ _ p v _ _ Hp' Hm Hs).
    by split.
Qed.

Lemma sim_state_resolve_void p :
  is_void p = true ->
  sim any (state_resolve_void resolve_t reject_g p)
          (state_resolve resolve_g reject_g p VVoid).
Proof.
  intros Hv w Hw. destruct (promises w !! p) as [st|] eqn:Hp.
  2:{ rewrite state_resolve_absent, state_resolve_void_absent;
        [done| |done]. by rewrite erase_lookup, Hp. }
  assert (Hp' : promises (erase_void w) !! p = Some (erased st)).
  { rewrite erase_lookup, Hp. unfold erase_at. by rewrite Hv. }
  destruct (mutex_ st) eqn:Hm.
  { by rewrite (state_resolve_locked _ _ p VVoid w st Hp Hm),
      (state_resolve_void_locked _ _ p _ _ Hp' Hm). }
  destruct (Hw p st Hp) as (H1 & H2 & H3).
  assert (status_ st = pending \/ status_ st <> pending) as [Hs|Hs]
    by (destruct (status_ st); auto).
  - rewrite (state_resolve_pending _ _ p VVoid w st Hp Hm Hs (H1 Hs)).
    rewrite (state_resolve_void_pending _ _ p _ _ Hp' Hm Hs).
    cbn [erased storage_ exception_ handlers_].
    assert (Hl : well_typed
      (set_st p (mk_state (Some VVoid) resolved (exception_ st) true
                          (handlers_ st)) w)).
    { apply well_typed_set_st; [done|]. repeat split; [done| |done].
      intros _. by exists VVoid. }
    assert (Hf := sim_handlers p (handlers_ st) VVoid H3 ltac:(done)).
    destruct (sim_for_each _ _ _ Hf _ Hl) as [E P].
    apply sim_finish; [|done].
    rewrite <- E, erase_set_st. unfold erase_at. by rewrite Hv.
  - rewrite (state_resolve_settled _ _ p VVoid w st Hp Hm Hs).
    rewrite (state_resolve_void_settled _ _ p _ _ Hp' Hm Hs).
    by split.
Qed.

Lemma sim_attached q (m_t m_g : M unit) w st :
  well_typed w -> promises w !! q = Some st -> mutex_ st = false ->
  sim any m_t m_g ->
  (m_t ;;; unlock q) (set_st q (locked (erase_at q st)) (erase_void w)) =
  erase_res ((m_g ;;; unlock q) (set_st q (locked st) w)) /\
  post any ((m_g ;;; unlock q) (set_st q (locked st) w)).
Proof.
  intros Hw Hp Hm Hs.
  assert (Hl : well_typed (set_st q (locked st) w)).
  { apply well_typed_set_st; [done|]. destruct (Hw q st Hp) as (?&?&?).
    by repeat split. }
  assert (Hb : sim any (m_t ;;; unlock q) (m_g ;;; unlock q)).
  { eapply sim_bind; [exact Hs|]. intros _ _. apply sim_unlock. }
  destruct (Hb _ Hl) as [E P]. split; [|done].
  rewrite <- E, erase_set_st. unfold locked.
  by rewrite (erase_at_shape q st), erase_at_status, erase_at_exception,
    erase_at_handlers.
Qed.

Lemma sim_state_attach p n f g :
  handler_typed p (queued n f g) ->
  sim any
    (if is_void p then state_attach_void resolve_t reject_g p n f g
     else state_attach resolve_t reject_g p n f g)
    (state_attach resolve_g reject_g p n f g).
Proof.
  intros [Ht Hr] w Hw. cbn [queued resolve_ rs_f rs_n] in Ht, Hr.
  destruct (promises w !! p) as [st|] eqn:Hp.
  2:{ assert (promises (erase_void w) !! p = None)
        by (by rewrite erase_lookup, Hp).
      rewrite state_attach_absent by done.
      destruct (is_void p);
        by rewrite ?state_attach_absent, ?state_attach_void_absent. }
  assert (Hp' : promises (erase_void w) !! p = Some (erase_at p st))
    by (by rewrite erase_lookup, Hp).
  assert (Hm' : mutex_ (erase_at p st) = mutex_ st)
    by apply erase_at_mutex.
  assert (Hs' : status_ (erase_at p st) = status_ st)
    by apply erase_at_status.
  destruct (mutex_ st) eqn:Hm.
  { rewrite (state_attach_locked _ _ p n f g w st Hp Hm).
    destruct (is_void p);
      by rewrite ?(state_attach_locked _ _ p n f g _ _ Hp' Hm'),
                 ?(state_attach_void_locked _ _ p n f g _ _ Hp' Hm'). }
  destruct (Hw p st Hp) as (H1 & H2 & H3).
  destruct (status_ st) eqn:Hs.
  - rewrite (state_attach_pending _ _ p n f g w st Hp Hm Hs).
    assert (E : (if is_void p
                 then state_attach_void resolve_t reject_g p n f g
                 else state_attach resolve_t reject_g p n f g) (erase_void w) =
      Ret tt (set_st p (mk_state (storage_ (erase_at p st)) pending
                          (exception_ (erase_at p st)) false
                          (handlers_ (erase_at p st) ++
                           [mk_handler (mk_resolve_h n f (mk_reject_h n g))
                                       (mk_reject_h n g)])) (erase_void w))).
    { destruct (is_void p);
        [by rewrite (state_attach_void_pending _ _ p n f g _ _ Hp' Hm' Hs')
        |by rewrite (state_attach_pending _ _ p n f g _ _ Hp' Hm' Hs')]. }
    rewrite E, erase_at_exception, erase_at_handlers. simpl.
    rewrite erase_set_st, (erase_at_shape p st).
    split; [done|]. split; [done|].
    apply well_typed_set_st; [done|]. repeat split; [auto|done|].
    apply Forall_app. split; [done|]. by repeat constructor.
  - destruct (H2 eq_refl) as (v & Hv & Hvv).
    rewrite (state_attach_resolved _ _ p n f g w st v Hp Hm Hs Hv).
    destruct (is_void p) eqn:Vp.
    + rewrite (state_attach_void_resolved _ _ p n f g _ _ Hp' Hm' Hs').
      rewrite (Hvv eq_refl).
      apply (sim_attached p); try done.
      apply (sim_call_resolve_h p); cbn [rs_f rs_n]; rewrite ?Vp; done.
    + assert (Hv' : storage_ (erase_at p st) = Some v).
      { unfold erase_at. by rewrite Vp. }
      rewrite (state_attach_resolved _ _ p n f g _ _ v Hp' Hm' Hs' Hv').
      apply (sim_attached p); try done.
      apply (sim_call_resolve_h p); cbn [rs_f rs_n]; rewrite ?Vp; done.
  - rewrite (state_attach_rejected _ _ p n f g w st Hp Hm Hs).
    assert (E : (if is_void p
                 then state_attach_void resolve_t reject_g p n f g
                 else state_attach resolve_t reject_g p n f g) (erase_void w) =
      (call_reject_h reject_g (mk_reject_h n g) (exception_ st) ;;;
       unlock p) (set_st p (locked (erase_at p st)) (erase_void w))).
    { rewrite <- (erase_at_exception p st).
      destruct (is_void p);
        [by rewrite (state_attach_void_rejected _ _ p n f g _ _ Hp' Hm' Hs')
        |by rewrite (state_attach_rejected _ _ p n f g _ _ Hp' Hm' Hs')]. }
    rewrite E.
    apply (sim_attached p); try done.
    apply sim_call_reject_h.
Qed.
End Sim.

Lemma sim_reject fuel p e : sim any (reject fuel p e) (reject fuel p e).
Proof.
  revert p e. induction fuel as [|k IH]; intros p e; [apply sim_fault|].
  cbn [reject]. by apply sim_state_reject.
Qed.

Lemma sim_resolve fuel p v :
  (is_void p = true -> v = VVoid) ->
  sim any (resolve_typed fuel p v) (resolve fuel p v).
Proof.
  revert p v. induction fuel as [|k IH]; intros p v Hv; [apply sim_fault|].
  cbn [resolve_typed resolve]. destruct (is_void p) eqn:Vp.
  - rewrite (Hv eq_refl).
    apply sim_state_resolve_void; [exact IH|apply sim_reject|done].
  - apply sim_state_resolve; [exact IH|apply sim_reject|done].
Qed.

Lemma well_typed_alloc w : well_typed w -> well_typed (alloc w).
Proof.
  intros Hw q st H. unfold alloc in H. simpl in H.
  apply lookup_app_Some in H as [H|[_ H]]; [by apply Hw|].
  apply list_lookup_singleton_Some in H as [_ <-].
  repeat split; done.
Qed.

Lemma erase_alloc w : erase_void (alloc w) = alloc (erase_void w).
Proof.
  unfold erase_void, alloc. simpl. f_equal. rewrite imap_app. simpl.
  f_equal. unfold erase_at. by destruct (is_void _).
Qed.
End Typed.

(** X9.  [promise<void>] behaves as [promise<T>] at the payload [VVoid].
    In a store whose handles are typed, a call of [resolve], [reject] or
    [then] dispatched to the class of its handle (the member functions of
    [promise<void>::state] on the [promise<void>] handles, at every depth
    of the continuations) returns what the primary template returns on the
    same store, leaves the same store but for the storage slots of the
    [promise<void>] handles, which stay empty, and leaves a typed store;
    allocation commutes with forgetting the slots, and the forgotten store
    shows the same trace and the same statuses. *)
Theorem promise_void_refines_promise (is_void : promise -> bool) (w : world) :
  well_typed is_void w ->
  (forall fuel p v,
     (is_void p = true -> v = VVoid) ->
     resolve_typed is_void fuel p v (erase_void is_void w) =
       erase_res is_void (resolve fuel p v w) /\
     post is_void any (resolve fuel p v w)) /\
  (forall fuel p e,
     reject fuel p e (erase_void is_void w) =
       erase_res is_void (reject fuel p e w) /\
     post is_void any (reject fuel p e w)) /\
  (forall fuel p f g,
     handler_typed is_void p (queued (length (promises w)) f g) ->
     then_typed is_void fuel p f g (erase_void is_void w) =
       erase_res is_void (then_ fuel p f g w) /\
     post is_void any (then_ fuel p f g w)) /\
  (erase_void is_void (alloc w) = alloc (erase_void is_void w) /\
   well_typed is_void (alloc w)) /\
  trace (erase_void is_void w) = trace w /\
  forall q,
    status_of (erase_void is_void w) q = status_of w q /\
    (is_void q = true ->
     storage_ <$> promises (erase_void is_void w) !! q =
     (fun _ => None) <$> promises w !! q) /\
    (is_void q = false ->
     promises (erase_void is_void w) !! q = promises w !! q).
Proof.
  intros Hw. split; [|split; [|split; [|split; [|split]]]].
  - intros fuel p v Hv. by apply sim_resolve.
  - intros fuel p e. by apply sim_reject.
  - intros fuel p f g Hh. unfold then_typed, then_, attach, attach_typed.
    unfold bind at 1 3. unfold new_promise. rewrite erase_length.
    change (mk_world (promises w ++ [fresh_state]) (contexts w) (trace w))
      with (alloc w).
    change (mk_world (promises (erase_void is_void w) ++ [fresh_state])
              (contexts (erase_void is_void w)) (trace (erase_void is_void w)))
      with (alloc (erase_void is_void w)).
    rewrite <- erase_alloc.
    refine (sim_bind is_void any any _ _ _ _ _ _ (alloc w) _).
    + apply sim_state_attach; [apply sim_resolve|apply sim_reject|exact Hh].
    + intros _ _. by apply sim_ret.
    + by apply well_typed_alloc.
  - split; [apply erase_alloc|by apply well_typed_alloc].
  - done.
  - intros q. unfold status_of. rewrite erase_lookup.
    destruct (promises w !! q) as [st|]; simpl; [|done].
    unfold erase_at. by destruct (is_void q).
Qed.

Lemma well_typed_empty is_void : well_typed is_void empty_world.
Proof. intros q st H. simpl in H. by rewrite lookup_nil in H. Qed.

(** ** The statements above at concrete stores *)

Lemma reach_one : reachable (alloc empty_world).
Proof. eapply steps_step; [apply steps_refl|apply call_new]. Qed.

(** One handle, resolved with 1. *)
Definition one_resolved : world :=
  set_st 0 (outcome_state (Resolved (VInt 1))) (alloc empty_world).

Lemma reach_one_resolved : reachable one_resolved.
Proof.
  eapply steps_step; [apply reach_one|].
  apply (call_settle (alloc empty_world) 0 (Resolved (VInt 1)) true);
    [simpl; lia|].
  apply (runs_to_intro _ 1); [apply settle_monotone|].
  vm_compute. reflexivity.
Qed.

Lemma one_resolved_grows : api_steps one_resolved (alloc one_resolved).
Proof. eapply steps_step; [apply steps_refl|apply call_new]. Qed.

Lemma two_typed : well_typed Nat.even two_pending.
Proof. apply well_typed_alloc, well_typed_alloc, well_typed_empty. Qed.

Lemma reachable_well_formed_witness :
  (reachable (alloc empty_world)) /\
  (wf no_promise no_index (alloc empty_world)).
Proof.
  split; [apply reach_one|].
  apply (reachable_well_formed (alloc empty_world)); [apply reach_one].
Defined.

Lemma reachable_calls_return_witness :
  (reachable (alloc empty_world)) /\
  ((forall p o, p < length (promises (alloc empty_world)) ->
     exists b w', runs_to (fun fuel => settle fuel p o) (alloc empty_world) b w' /\
                  reachable w') /\
  (forall p f g, p < length (promises (alloc empty_world)) -> user_rf f -> user_jf g ->
     exists w', runs_to (fun fuel => then_ fuel p f g) (alloc empty_world)
                        (length (promises (alloc empty_world))) w' /\
                reachable w') /\
  (forall dflt ps, Forall (fun q => q < length (promises (alloc empty_world))) ps ->
     exists w', runs_to (fun fuel => make_all_promise fuel dflt ps) (alloc empty_world)
                        (length (promises (alloc empty_world))) w' /\
                reachable w') /\
  (forall ps, ps <> [] -> Forall (fun q => q < length (promises (alloc empty_world))) ps ->
     exists w', runs_to (fun fuel => make_any_promise fuel ps) (alloc empty_world)
                        (length (promises (alloc empty_world))) w' /\
                reachable w')).
Proof.
  split; [apply reach_one|].
  apply (reachable_calls_return (alloc empty_world)); [apply reach_one].
Defined.

Lemma settled_for_good_witness :
  (reachable one_resolved) /\
  (api_steps one_resolved (alloc one_resolved)) /\
  (outcome_of one_resolved 0 = Some (Resolved (VInt 1))) /\
  (outcome_of (alloc one_resolved) 0 = Some (Resolved (VInt 1)) /\ length (promises one_resolved) <= length (promises (alloc one_resolved))).
Proof.
  split; [apply reach_one_resolved|].
  split; [apply one_resolved_grows|].
  split; [reflexivity|].
  apply (settled_for_good one_resolved (alloc one_resolved) 0 (Resolved (VInt 1))); [apply reach_one_resolved | apply one_resolved_grows | reflexivity].
Defined.

Lemma then_chain_composes_witness :
  (wf no_promise no_index (alloc empty_world)) /\
  (promises (alloc empty_world) !! 0 = Some fresh_state) /\
  (Forall user_cont [(RF_user 1 wrap_value, JF_ignore); (RF_user 2 always_raise, JF_user 3 observe)]) /\
  ((exists fuel0, forall fuel, fuel0 <= fuel ->
   exists w1,
     then_chain fuel 0 [(RF_user 1 wrap_value, JF_ignore); (RF_user 2 always_raise, JF_user 3 observe)] (alloc empty_world) =
       Ret (chain_last 0 (length (promises (alloc empty_world))) [(RF_user 1 wrap_value, JF_ignore); (RF_user 2 always_raise, JF_user 3 observe)]) w1 /\
     (status_ fresh_state = pending ->
        trace w1 = trace (alloc empty_world) /\
        forall o, exists w2 evs,
          settle fuel 0 o w1 = Ret true w2 /\
          trace w2 = trace (alloc empty_world) ++ evs ++ chain_events o [(RF_user 1 wrap_value, JF_ignore); (RF_user 2 always_raise, JF_user 3 observe)] /\
          Forall (fun ev => ~ no_index (ev_label ev)) evs /\
          outcome_of w2 (chain_last 0 (length (promises (alloc empty_world))) [(RF_user 1 wrap_value, JF_ignore); (RF_user 2 always_raise, JF_user 3 observe)]) =
            Some (chain_outcome o [(RF_user 1 wrap_value, JF_ignore); (RF_user 2 always_raise, JF_user 3 observe)])) /\
     (forall o, outcome_of (alloc empty_world) 0 = Some o ->
        trace w1 = trace (alloc empty_world) ++ chain_events o [(RF_user 1 wrap_value, JF_ignore); (RF_user 2 always_raise, JF_user 3 observe)] /\
        outcome_of w1 (chain_last 0 (length (promises (alloc empty_world))) [(RF_user 1 wrap_value, JF_ignore); (RF_user 2 always_raise, JF_user 3 observe)]) =
          Some (chain_outcome o [(RF_user 1 wrap_value, JF_ignore); (RF_user 2 always_raise, JF_user 3 observe)]))) /\
  (forall e, Forall (fun c => c.2 = JF_ignore) [(RF_user 1 wrap_value, JF_ignore); (RF_user 2 always_raise, JF_user 3 observe)] ->
     chain_outcome (Rejected e) [(RF_user 1 wrap_value, JF_ignore); (RF_user 2 always_raise, JF_user 3 observe)] = Rejected e /\
     chain_events (Rejected e) [(RF_user 1 wrap_value, JF_ignore); (RF_user 2 always_raise, JF_user 3 observe)] = []) /\
  (forall l1 f1 l2 f2 v r1 r2,
     f1 v = inl r1 -> f2 r1 = inl r2 ->
     chain_outcome (Resolved v)
       [(RF_user l1 f1, JF_ignore); (RF_user l2 f2, JF_ignore)] = Resolved r2
     /\
     chain_events (Resolved v)
       [(RF_user l1 f1, JF_ignore); (RF_user l2 f2, JF_ignore)] =
     [EvResolve l1 v; EvResolve l2 r1])).
Proof.
  split; [apply wf_one|].
  split; [reflexivity|].
  split; [repeat constructor|].
  apply (then_chain_composes no_index (alloc empty_world) 0 fresh_state [(RF_user 1 wrap_value, JF_ignore); (RF_user 2 always_raise, JF_user 3 observe)]); [apply wf_one | reflexivity | repeat constructor].
Defined.

Lemma settling_own_handle_deadlocks_witness :
  (wf no_promise no_index (alloc empty_world)) /\
  (promises (alloc empty_world) !! 0 = Some fresh_state) /\
  ((status_ fresh_state = pending ->
   exists fuel0, forall fuel, fuel0 <= fuel ->
   exists w1 w2,
     then1 fuel 0 (RF_any (Resolver 0)) (alloc empty_world) = Ret (length (promises (alloc empty_world))) w1 /\
     (forall v, resolve fuel 0 v w1 = Fault deadlock) /\
     then_ fuel 0 RF_identity (JF_rejector (Rejector 0)) (alloc empty_world) =
       Ret (length (promises (alloc empty_world))) w2 /\
     (forall e, reject fuel 0 e w2 = Fault deadlock)) /\
  (forall v, outcome_of (alloc empty_world) 0 = Some (Resolved v) ->
     forall k, then1 (S k) 0 (RF_any (Resolver 0)) (alloc empty_world) = Fault deadlock) /\
  (forall e, outcome_of (alloc empty_world) 0 = Some (Rejected e) ->
     forall k, then_ (S k) 0 RF_identity (JF_rejector (Rejector 0)) (alloc empty_world) =
               Fault deadlock)).
Proof.
  split; [apply wf_one|].
  split; [reflexivity|].
  apply (settling_own_handle_deadlocks (alloc empty_world) 0 fresh_state); [apply wf_one | reflexivity].
Defined.

Lemma promise_void_refines_promise_witness :
  (well_typed Nat.even two_pending) /\
  ((forall fuel p v,
     (Nat.even p = true -> v = VVoid) ->
     resolve_typed Nat.even fuel p v (erase_void Nat.even two_pending) =
       erase_res Nat.even (resolve fuel p v two_pending) /\
     post Nat.even any (resolve fuel p v two_pending)) /\
  (forall fuel p e,
     reject fuel p e (erase_void Nat.even two_pending) =
       erase_res Nat.even (reject fuel p e two_pending) /\
     post Nat.even any (reject fuel p e two_pending)) /\
  (forall fuel p f g,
     handler_typed Nat.even p (queued (length (promises two_pending)) f g) ->
     then_typed Nat.even fuel p f g (erase_void Nat.even two_pending) =
       erase_res Nat.even (then_ fuel p f g two_pending) /\
     post Nat.even any (then_ fuel p f g two_pending)) /\
  (erase_void Nat.even (alloc two_pending) = alloc (erase_void Nat.even two_pending) /\
   well_typed Nat.even (alloc two_pending)) /\
  trace (erase_void Nat.even two_pending) = trace two_pending /\
  forall q,
    status_of (erase_void Nat.even two_pending) q = status_of two_pending q /\
    (Nat.even q = true ->
     storage_ <$> promises (erase_void Nat.even two_pending) !! q =
     (fun _ => None) <$> promises two_pending !! q) /\
    (Nat.even q = false ->
     promises (erase_void Nat.even two_pending) !! q = promises two_pending !! q)).
Proof.
  split; [apply two_typed|].
  apply (promise_void_refines_promise Nat.even two_pending); [apply two_typed].
Defined.

(** * The combinators on inputs that other continuations settle

    An input of [make_all_promise] or [make_any_promise] may be the result
    of a continuation queued on another handle, another input included: a
    settlement then runs through old continuations into the inputs, and
    several inputs may be settled by one call.  Below, the store a
    combinator leaves is followed through such runs. *)

Lemma fire_le_S k o h : le_M (fire k o h) (fire (S k) o h).
Proof.
  destruct o as [v|e]; unfold fire.
  - apply call_resolve_h_le; [apply resolve_le_S|apply reject_le_S].
  - apply call_reject_h_le. apply reject_le_S.
Qed.

Lemma for_each_fire_le k o hs :
  le_M (for_each (fire k o) hs) (for_each (fire (S (S k)) o) hs).
Proof.
  eapply le_M_trans; apply le_for_each; intros h; apply fire_le_S.
Qed.

Lemma kind_same w w' q :
  promises w' !! q = promises w !! q -> kind w' q = kind w q.
Proof. intros H. unfold kind, outcome_of. by rewrite H. Qed.

Lemma kind_settling o st w p :
  promises w !! p = Some (settling o st) -> kind w p = Some o.
Proof. intros H. unfold kind, outcome_of. rewrite H. by destruct o. Qed.

Lemma kind_settled o st w p :
  promises w !! p = Some (settled o st) -> kind w p = Some o.
Proof. intros H. unfold kind, outcome_of. rewrite H. by destruct o. Qed.

Lemma kind_pending w p st :
  promises w !! p = Some st -> status_ st = pending -> kind w p = None.
Proof. intros H Hs. unfold kind, outcome_of. by rewrite H, Hs. Qed.

Lemma fold_steps_none step ks : forall idx e,
  Forall (fun k => k = None) ks -> fold_steps step idx ks e = e.
Proof.
  induction ks as [|k ks IH]; intros idx e Hks; [done|].
  apply Forall_cons in Hks as [-> Hks]. simpl. by apply IH.
Qed.

Lemma occ_not_in q o ps : q ∉ ps -> Forall (fun k => k = None) (occ q o <$> ps).
Proof.
  intros Hq. apply Forall_fmap, Forall_forall. intros p Hp. simpl.
  unfold occ. rewrite decide_False; [done|]. by intros ->.
Qed.

Section Cascade.
Variable F : nat -> ResolveF.
Variable step : nat -> val -> eff -> eff.
Variable r : promise.
Variable G : eff -> Prop.
Hypothesis G_sink : forall e, G e -> sink e.1.
Hypothesis G_step : forall idx v e, G e -> G (step idx v e).
Hypothesis G_reject : forall x e, G e -> G (reject_eff x e).
Hypothesis F_fires : forall k idx v w st,
  promises w !! r = Some st -> G (st, contexts w) ->
  invoke_resolveF (resolve (S (S k))) (F idx) v w =
  Ret VVoid (put_eff r (step idx v (st, contexts w)) w).

(** [C0] is the first context the combinator made, [ps] are its inputs. *)
Variable C0 : nat.
Variable ps : list promise.
Hypothesis ps_old : Forall (fun q => q < r) ps.
Hypothesis G_stable : forall st cs cs',
  G (st, cs) -> length cs' = length cs ->
  (forall c, C0 <= c -> cs' !! c = cs !! c) -> G (st, cs').

(** [RI f e]: what the result and the contexts [e] are when [f] tells, for
    every input, whether the continuations of the combinator on it have
    run, and on which outcome. *)
Variable RI : (promise -> option outcome) -> eff -> Prop.
Hypothesis RI_stable : forall f st cs cs',
  RI f (st, cs) -> length cs' = length cs ->
  (forall c, C0 <= c -> cs' !! c = cs !! c) -> RI f (st, cs').
Hypothesis RI_ext : forall f f' e,
  (forall q, q ∈ ps -> f q = f' q) -> RI f e -> RI f' e.
Hypothesis RI_fire : forall f q o e,
  G e -> RI f e -> q ∈ ps -> f q = None ->
  RI (fun p => if decide (p = q) then Some o else f p)
     (fold_steps step 0 (occ q o <$> ps) e).

Lemma G_fold ks : forall idx e, G e -> G (fold_steps step idx ks e).
Proof.
  induction ks as [|[[v|x]|] ks IH]; intros idx e He; simpl; auto.
Qed.

(** The closures queued before the combinator was called mention old
    handles and old contexts only. *)
Definition old_t (t : promise) : Prop := t < r.
Definition old_c (c : nat) : Prop := c < C0.
Definition any_label (l : nat) : Prop := True.
Definition old_ok (h : handler) : Prop := handler_ok old_t old_c any_label h.

(** A store during or between the settlements that follow the call. *)
Definition casc_inv (w : world) : Prop :=
  length (promises w) = S r + 2 * length ps /\
  (forall x st, x < r -> promises w !! x = Some st ->
     (status_ st = resolved -> is_Some (storage_ st)) /\
     (status_ st = pending ->
        storage_ st = None /\
        exists old, handlers_ st = old ++ news F (S r) 0 ps x /\
                    Forall old_ok old)) /\
  exists f stR,
    (forall q, q ∈ ps -> f q = None \/ f q = kind w q) /\
    (forall q st, q ∈ ps -> promises w !! q = Some st ->
       status_ st <> pending -> mutex_ st = false -> f q = kind w q) /\
    (forall j q, ps !! j = Some q -> pair_ok r w (S r + 2 * j) (f q)) /\
    promises w !! r = Some stR /\
    G (stR, contexts w) /\ RI f (stR, contexts w).

Definition npend (w : world) (x : promise) : Prop :=
  exists st, promises w !! x = Some st /\ status_ st <> pending.

(** What a settlement leaves alone: the old states that are settled or
    being settled, and the pairs under the inputs that are. *)
Definition casc_rel (w w' : world) : Prop :=
  (forall x st, x < r -> promises w !! x = Some st ->
     status_ st <> pending -> promises w' !! x = Some st) /\
  (forall j q, ps !! j = Some q -> npend w q ->
     promises w' !! (S r + 2 * j) = promises w !! (S r + 2 * j) /\
     promises w' !! S (S r + 2 * j) = promises w !! S (S r + 2 * j)).

Lemma casc_rel_refl w : casc_rel w w.
Proof. by split. Qed.

Lemma input_old j q : ps !! j = Some q -> q < r.
Proof.
  intros Hj. rewrite Forall_forall in ps_old. apply ps_old.
  by eapply list_elem_of_lookup_2.
Qed.

Lemma casc_rel_trans w1 w2 w3 :
  casc_rel w1 w2 -> casc_rel w2 w3 -> casc_rel w1 w3.
Proof.
  intros [H1 H2] [H3 H4]. split.
  - intros x st Hx Hst Hs. apply H3; auto.
  - intros j q Hj (st & Hst & Hs).
    destruct (H2 j q Hj) as [Ha Hb]; [by exists st|].
    destruct (H4 j q Hj) as [Hc Hd].
    { exists st. split; [|done]. apply H1; [by eapply input_old|done..]. }
    split; congruence.
Qed.

Definition casc_post {A} (w : world) (x : res A) : Prop :=
  match x with
  | Ret _ w' | Throw _ w' => casc_inv w' /\ casc_rel w w'
  | Fault _ => True
  end.

Definition casc {A} (m : M A) : Prop :=
  forall w, casc_inv w -> casc_post w (m w).

Lemma casc_ret {A} (a : A) : casc (ret a).
Proof. intros w Hw. split; [done|apply casc_rel_refl]. Qed.

Lemma casc_throw {A} c : casc (throw c : M A).
Proof. intros w Hw. split; [done|apply casc_rel_refl]. Qed.

Lemma casc_fault {A} x : casc (fail_with x : M A).
Proof. by intros w Hw. Qed.

Lemma casc_bind {A B} (m : M A) (k : A -> M B) :
  casc m -> (forall a, casc (k a)) -> casc (bind m k).
Proof.
  intros Hm Hk w Hw. specialize (Hm w Hw). unfold bind.
  destruct (m w) as [a w1|c w1|x]; simpl in *; [|done..].
  destruct Hm as [Hw1 Hr1]. specialize (Hk a w1 Hw1).
  destruct (k a w1) as [b w2|c w2|x]; simpl in *; [| |done];
    destruct Hk as [Hw2 Hr2]; (split; [done|by eapply casc_rel_trans]).
Qed.

Lemma casc_try_catch {A} (m : M A) h :
  casc m -> (forall c, casc (h c)) -> casc (try_catch m h).
Proof.
  intros Hm Hh w Hw. specialize (Hm w Hw). unfold try_catch.
  destruct (m w) as [a w1|c w1|x]; simpl in *; [done| |done].
  destruct Hm as [Hw1 Hr1]. specialize (Hh c w1 Hw1).
  destruct (h c w1) as [b w2|c2 w2|x]; simpl in *; [| |done];
    destruct Hh as [Hw2 Hr2]; (split; [done|by eapply casc_rel_trans]).
Qed.

Lemma casc_for_each {A} (body : A -> M unit) l :
  Forall (fun x => casc (body x)) l -> casc (for_each body l).
Proof.
  induction 1 as [|x l Hx _ IH]; [apply casc_ret|].
  simpl. apply casc_bind; [exact Hx|]. intros _. exact IH.
Qed.

(** The invariant looks at the handles and at the new contexts only. *)
Lemma casc_inv_frame w w' :
  promises w' = promises w -> length (contexts w') = length (contexts w) ->
  (forall c, C0 <= c -> contexts w' !! c = contexts w !! c) ->
  casc_inv w -> casc_inv w'.
Proof.
  intros Hp Hl Hc (H0 & H1 & f & stR & Hf & H4 & Hpairs & Hr & HG & HRI).
  assert (Hk : forall q, kind w' q = kind w q)
    by (intros q; apply kind_same; by rewrite Hp).
  split; [by rewrite Hp|]. split; [by rewrite Hp|].
  exists f, stR. split; [intros q; rewrite Hk; apply Hf|].
  split; [intros q st; rewrite Hp, Hk; apply H4|].
  split.
  { intros j q Hj. apply (pair_ok_same r w); [by rewrite Hp..|].
    by apply Hpairs. }
  split; [by rewrite Hp|]. split; [by eapply G_stable|by eapply RI_stable].
Qed.

Lemma casc_rel_frame w w' : promises w' = promises w -> casc_rel w w'.
Proof. intros Hp. unfold casc_rel. rewrite Hp. by split. Qed.

Lemma casc_log ev : casc (log ev).
Proof.
  intros w Hw. split; [by apply (casc_inv_frame w)|by apply casc_rel_frame].
Qed.

Lemma casc_get_context c : casc (get_context c).
Proof.
  intros w Hw. unfold get_context. destruct (contexts w !! c); [|done].
  split; [done|apply casc_rel_refl].
Qed.

Lemma casc_put_context c x : old_c c -> casc (put_context c x).
Proof.
  intros Hc w Hw. split; [|by apply casc_rel_frame].
  apply (casc_inv_frame w); simpl; [done|apply length_insert| |done].
  intros c' Hc'. apply list_lookup_insert_ne. unfold old_c in Hc. lia.
Qed.

Lemma casc_apply_result c i v : old_c c -> casc (apply_result c i v).
Proof.
  intros Hc. unfold apply_result. apply casc_bind; [apply casc_get_context|].
  intros x. cbv zeta. apply casc_bind; [by apply casc_put_context|].
  intros _. apply casc_ret.
Qed.

(** ** One more level of nested settlements *)

Section CascStep.
Variable k : nat.
Hypothesis resolve_casc : forall p v, p < r -> casc (resolve k p v).
Hypothesis reject_casc : forall p e, p < r -> casc (reject k p e).

Lemma casc_invoke_rejectF g e :
  jf_ok old_t any_label g -> casc (invoke_rejectF (reject k) g e).
Proof.
  destruct g as [l body| |[t]]; cbn [invoke_rejectF jf_ok]; intros Hg.
  - apply casc_bind; [apply casc_log|]. intros _.
    destruct (body e); [apply casc_throw|apply casc_ret].
  - apply casc_ret.
  - apply casc_bind; [by apply reject_casc|]. intros _. apply casc_ret.
Qed.

Lemma casc_call_reject_h h e :
  reject_h_ok old_t any_label h -> casc (call_reject_h (reject k) h e).
Proof.
  intros [Hn Hg]. unfold call_reject_h. apply casc_try_catch.
  - apply casc_bind; [by apply casc_invoke_rejectF|]. intros _.
    apply casc_bind; [by apply reject_casc|]. intros _. apply casc_ret.
  - intros c. apply casc_bind; [by apply reject_casc|]. intros _.
    apply casc_ret.
Qed.

Lemma casc_invoke_resolveF f v :
  rf_ok old_t old_c any_label f -> casc (invoke_resolveF (resolve k) f v).
Proof.
  destruct f as [l body| |c [t] i|[t]]; cbn [invoke_resolveF rf_ok];
    intros Hf.
  - apply casc_bind; [apply casc_log|]. intros _.
    destruct (body v); [apply casc_ret|apply casc_throw].
  - apply casc_ret.
  - destruct Hf as [Hc Ht].
    apply casc_bind; [by apply casc_apply_result|]. intros last.
    destruct last; [|apply casc_ret].
    apply casc_bind; [apply casc_get_context|]. intros x.
    apply casc_bind; [by apply resolve_casc|]. intros _. apply casc_ret.
  - apply casc_bind; [by apply resolve_casc|]. intros _. apply casc_ret.
Qed.

Lemma casc_call_resolve_h h v :
  resolve_h_ok old_t old_c any_label h ->
  casc (call_resolve_h (resolve k) (reject k) h v).
Proof.
  intros (Hn & Hf & Hj). unfold call_resolve_h. apply casc_try_catch.
  - apply casc_bind; [by apply casc_invoke_resolveF|]. intros x.
    apply casc_bind; [by apply resolve_casc|]. intros _. apply casc_ret.
  - intros c. by apply casc_call_reject_h.
Qed.

Lemma casc_fire_old o h : old_ok h -> casc (fire k o h).
Proof.
  intros [Hrs Hrj]. destruct o as [v|e]; unfold fire.
  - by apply casc_call_resolve_h.
  - by apply casc_call_reject_h.
Qed.

(** The continuations of the combinator on [q] run once [q] is marked. *)
Lemma casc_fire_news q o w stq :
  casc_inv w -> q < r ->
  promises w !! q = Some (settling o stq) ->
  (forall j, ps !! j = Some q ->
     promises w !! (S r + 2 * j) = Some (waiting (S (S r + 2 * j)) r) /\
     promises w !! S (S r + 2 * j) = Some fresh_state) ->
  match for_each (fire k o) (news F (S r) 0 ps q) w with
  | Ret _ w' =>
      casc_inv w' /\
      (forall x, x < r -> promises w' !! x = promises w !! x) /\
      (forall j p, ps !! j = Some p -> p <> q ->
         promises w' !! (S r + 2 * j) = promises w !! (S r + 2 * j) /\
         promises w' !! S (S r + 2 * j) = promises w !! S (S r + 2 * j)) /\
      (forall j, ps !! j = Some q ->
         promises w' !! (S r + 2 * j) =
         Some (outcome_state (pair_outcome o)))
  | Throw _ _ => False
  | Fault _ => True
  end.
Proof.
  intros (H0 & H1 & f & stR & Hf & H4 & Hpairs & Hr & HG & HRI) Hq Hst Hwait.
  assert (Hkq : kind w q = Some o) by (by eapply kind_settling).
  destruct (fire_news k F step r G G_sink G_step G_reject (F_fires k)
              q o ps (S r) 0 w stR Hr HG)
    as (w' & st' & E & Hl' & _ & Hr' & Eeff & Hold' & Hnew'); [lia|done|].
  pose proof (for_each_fire_le k o (news F (S r) 0 ps q) w) as Hle.
  unfold le_res in Hle.
  destruct (for_each (fire k o) (news F (S r) 0 ps q) w) as [[] w2|c w2|x];
    [|congruence|done].
  assert (w2 = w') as -> by congruence.
  assert (Hfq : q ∈ ps -> f q = None).
  { intros Hin. apply list_elem_of_lookup in Hin as [j Hj].
    specialize (Hpairs j q Hj). destruct (Hwait j Hj) as [Ha _].
    destruct (f q) as [[v|e]|]; [| |done]; unfold pair_ok in Hpairs;
      destruct Hpairs as [Hb _]; rewrite Ha in Hb; done. }
  assert (Hsame : forall x, x < r -> promises w' !! x = promises w !! x).
  { intros x Hx. apply Hold'; [lia|]. intros j _. lia. }
  assert (Hk' : forall x, x < r -> kind w' x = kind w x)
    by (intros x Hx; by apply kind_same, Hsame).
  assert (Hother : forall j p, ps !! j = Some p -> p <> q ->
    promises w' !! (S r + 2 * j) = promises w !! (S r + 2 * j) /\
    promises w' !! S (S r + 2 * j) = promises w !! S (S r + 2 * j)).
  { intros j p Hj Hne.
    split; (apply Hold'; [lia|]; intros j' Hj';
            assert (j <> j') by congruence; lia). }
  split; [|split; [done|split; [done|intros j Hj; by apply Hnew']]].
  split; [by rewrite Hl'|]. split.
  { intros x st Hx. rewrite Hsame by done. by apply H1. }
  exists (fun p => if decide (p = q) then Some o else f p), st'.
  split.
  { intros p Hp. destruct (decide (p = q)) as [->|Hne].
    - right. by rewrite Hk'.
    - rewrite Hk'; [by apply Hf|]. rewrite Forall_forall in ps_old. auto. }
  split.
  { intros p st Hp Hpst Hs Hm. destruct (decide (p = q)) as [->|Hne].
    - by rewrite Hk'.
    - assert (p < r) by (rewrite Forall_forall in ps_old; auto).
      rewrite Hk' by done. rewrite Hsame in Hpst by done.
      by apply (H4 p st). }
  split.
  { intros j p Hj. destruct (decide (p = q)) as [->|Hne].
    - destruct (Hnew' j Hj) as [Ha Hb]. unfold pair_ok.
      by destruct o.
    - destruct (Hother j p Hj Hne) as [Ha Hb].
      apply (pair_ok_same r w); [done..|]. by apply Hpairs. }
  split; [done|].
  rewrite Eeff. split; [by apply G_fold|].
  destruct (decide (q ∈ ps)) as [Hin|Hnin].
  - apply RI_fire; auto.
  - rewrite fold_steps_none by (by apply occ_not_in).
    eapply RI_ext; [|exact HRI]. intros p Hp.
    rewrite decide_False; [done|]. by intros ->.
Qed.

Lemma settle_absent p o w :
  promises w !! p = None -> settle (S k) p o w = Fault bad_handle.
Proof.
  intros H. destruct o; cbn [settle resolve reject].
  - by apply state_resolve_absent.
  - by apply state_reject_absent.
Qed.

Lemma settle_locked p o w st :
  promises w !! p = Some st -> mutex_ st = true ->
  settle (S k) p o w = Fault deadlock.
Proof.
  intros H Hm. destruct o; cbn [settle resolve reject].
  - by eapply state_resolve_locked.
  - by eapply state_reject_locked.
Qed.

Lemma casc_inv_settling p o st w :
  casc_inv w -> p < r -> promises w !! p = Some st -> status_ st = pending ->
  casc_inv (set_st p (settling o st) w) /\
  casc_rel w (set_st p (settling o st) w).
Proof.
  intros (H0 & H1 & f & stR & Hf & H4 & Hpairs & Hr & HG & HRI) Hp Hst Hs.
  assert (Hlt : p < length (promises w)) by (by eapply lookup_lt_Some).
  assert (Hkp : kind w p = None) by (by eapply kind_pending).
  assert (Hk : forall x, x <> p ->
            kind (set_st p (settling o st) w) x = kind w x).
  { intros x Hx. apply kind_same. by apply lookup_set_st_ne. }
  split.
  - split; [by rewrite length_set_st|]. split.
    { intros x st' Hx Hst'. destruct (decide (x = p)) as [->|Hne].
      - rewrite lookup_set_st_eq in Hst' by done. injection Hst' as <-.
        split; [|intros Hpe; by destruct (settling_not_pending o st)].
        intros Hres. destruct o; simpl in *; [by eexists|done].
      - rewrite lookup_set_st_ne in Hst' by done. by apply H1. }
    exists f, stR. split.
    { intros q Hq. destruct (decide (q = p)) as [->|Hne].
      - left. destruct (Hf p Hq) as [Hn|Hn]; congruence.
      - rewrite Hk by done. by apply Hf. }
    split.
    { intros q st' Hq Hst' Hs' Hm'. destruct (decide (q = p)) as [->|Hne].
      - rewrite lookup_set_st_eq in Hst' by done. injection Hst' as <-.
        destruct o; simpl in Hm'; done.
      - rewrite lookup_set_st_ne in Hst' by done. rewrite Hk by done.
        by apply (H4 q st'). }
    split.
    { intros j q Hj. apply (pair_ok_same r w);
        [apply lookup_set_st_ne; lia..|]. by apply Hpairs. }
    split; [rewrite lookup_set_st_ne by lia; done|]. done.
  - split.
    + intros x st' Hx Hst' Hs'. rewrite lookup_set_st_ne; [done|].
      intros ->. congruence.
    + intros j q Hj _. split; apply lookup_set_st_ne; lia.
Qed.

Lemma casc_inv_settled p o st w :
  casc_inv w -> p < r -> promises w !! p = Some (settling o st) ->
  (p ∈ ps ->
   forall j, ps !! j = Some p ->
     promises w !! (S r + 2 * j) <> Some (waiting (S (S r + 2 * j)) r)) ->
  casc_inv (set_st p (settled o st) w).
Proof.
  intros (H0 & H1 & f & stR & Hf & H4 & Hpairs & Hr & HG & HRI) Hp Hst Hdone.
  assert (Hlt : p < length (promises w)) by (by eapply lookup_lt_Some).
  assert (Hkp : kind w p = Some o) by (by eapply kind_settling).
  assert (Hkp' : kind (set_st p (settled o st) w) p = Some o).
  { eapply kind_settled. by apply lookup_set_st_eq. }
  assert (Hk : forall x, kind (set_st p (settled o st) w) x = kind w x).
  { intros x. destruct (decide (x = p)) as [->|Hne]; [congruence|].
    apply kind_same. by apply lookup_set_st_ne. }
  split; [by rewrite length_set_st|]. split.
  { intros x st' Hx Hst'. destruct (decide (x = p)) as [->|Hne].
    - rewrite lookup_set_st_eq in Hst' by done. injection Hst' as <-.
      split; [|by destruct o].
      intros Hres. destruct o; simpl in *; [by eexists|done].
    - rewrite lookup_set_st_ne in Hst' by done. by apply H1. }
  exists f, stR. split; [intros q Hq; rewrite Hk; by apply Hf|].
  split.
  { intros q st' Hq Hst' Hs' Hm'. rewrite Hk.
    destruct (decide (q = p)) as [->|Hne].
    - apply list_elem_of_lookup in Hq as [j Hj].
      specialize (Hpairs j p Hj).
      destruct (Hf p) as [Hn|Hn]; [by eapply list_elem_of_lookup_2| |done].
      exfalso. apply (Hdone (list_elem_of_lookup_2 _ _ _ Hj) j Hj).
      rewrite Hn in Hpairs. by destruct Hpairs.
    - rewrite lookup_set_st_ne in Hst' by done. by apply (H4 q st'). }
  split.
  { intros j q Hj. apply (pair_ok_same r w);
      [apply lookup_set_st_ne; lia..|]. by apply Hpairs. }
  split; [rewrite lookup_set_st_ne by lia; done|]. done.
Qed.

Lemma casc_settle p o : p < r -> casc (settle (S k) p o).
Proof.
  intros Hp w Hw.
  destruct (promises w !! p) as [st|] eqn:Hst;
    [|by rewrite settle_absent].
  destruct (mutex_ st) eqn:Hm; [by rewrite (settle_locked p o w st)|].
  assert (status_ st = pending \/ status_ st <> pending) as [Hs|Hs]
    by (destruct (status_ st); auto).
  2:{ rewrite (settle_settled k p o w st Hst Hm Hs).
      split; [done|apply casc_rel_refl]. }
  pose proof Hw as (H0 & H1 & _).
  destruct (H1 p st Hp Hst) as [_ Hpe].
  destruct (Hpe Hs) as (Hn & old & Hhs & Hold).
  rewrite (settle_pending k p o w st Hst Hm Hs Hn).
  destruct (casc_inv_settling p o st w Hw Hp Hst Hs) as [HwL HrL].
  set (wL := set_st p (settling o st) w) in *.
  assert (Hlt : p < length (promises w)) by (by eapply lookup_lt_Some).
  assert (HpL : promises wL !! p = Some (settling o st))
    by (by apply lookup_set_st_eq).
  assert (Hwait : forall j, ps !! j = Some p ->
     promises w !! (S r + 2 * j) = Some (waiting (S (S r + 2 * j)) r) /\
     promises w !! S (S r + 2 * j) = Some fresh_state).
  { intros j Hj. destruct Hw as (_ & _ & f & stR & Hf & _ & Hpairs & _).
    specialize (Hpairs j p Hj).
    destruct (Hf p) as [Hn'|Hn']; [by eapply list_elem_of_lookup_2| |].
    - by rewrite Hn' in Hpairs.
    - rewrite Hn', (kind_pending w p st Hst Hs) in Hpairs. done. }
  rewrite Hhs, for_each_app. unfold bind at 1.
  pose proof (casc_for_each (fire k o) old) as Hfold.
  specialize (Hfold ltac:(eapply Forall_impl; [exact Hold|];
                         intros h; apply casc_fire_old) wL HwL).
  destruct (for_each (fire k o) old wL) as [[] wa|c wa|x]; [|done..].
  destruct Hfold as [Hwa Hra].
  assert (Hpa : promises wa !! p = Some (settling o st)).
  { apply Hra; [done|done|apply settling_not_pending]. }
  assert (Hwaita : forall j, ps !! j = Some p ->
     promises wa !! (S r + 2 * j) = Some (waiting (S (S r + 2 * j)) r) /\
     promises wa !! S (S r + 2 * j) = Some fresh_state).
  { intros j Hj. destruct Hra as [_ Hra2].
    destruct (Hra2 j p Hj) as [Ha Hb].
    { exists (settling o st). split; [done|apply settling_not_pending]. }
    destruct HrL as [_ HrL2].
    destruct (Hwait j Hj) as [Hc Hd].
    unfold wL in Ha, Hb. rewrite lookup_set_st_ne in Ha, Hb by lia.
    split; congruence. }
  pose proof (casc_fire_news p o wa st Hwa Hp Hpa Hwaita) as Hnews.
  destruct (for_each (fire k o) (news F (S r) 0 ps p) wa)
    as [[] wb|c wb|x]; [|done..].
  destruct Hnews as (Hwb & Hsame & Hother & Hfired).
  assert (Hpb : promises wb !! p = Some (settling o st))
    by (by rewrite Hsame).
  rewrite (finish_settling p o st wb Hpb).
  split.
  - apply casc_inv_settled; [done..|].
    intros Hin j Hj Hw'. rewrite (Hfired j Hj) in Hw'. by destruct o.
  - split.
    + intros x st' Hx Hst' Hs'.
      assert (x <> p) by (intros ->; congruence).
      rewrite lookup_set_st_ne by done. rewrite Hsame by done.
      apply Hra; [done| |done]. unfold wL. by rewrite lookup_set_st_ne.
    + intros j q Hj (stq & Hstq & Hsq).
      assert (q <> p) by (intros ->; congruence).
      rewrite !lookup_set_st_ne by lia.
      destruct (Hother j q Hj) as [Ha Hb]; [done|].
      destruct Hra as [_ Hra2]. destruct (Hra2 j q Hj) as [Hc Hd].
      { exists stq. split; [|done]. unfold wL. by rewrite lookup_set_st_ne. }
      unfold wL in Hc, Hd. rewrite lookup_set_st_ne in Hc, Hd by lia.
      split; congruence.
Qed.
End CascStep.

Lemma casc_settle_fuel fuel : forall p o, p < r -> casc (settle fuel p o).
Proof.
  induction fuel as [|k IH]; intros p o Hp.
  - destruct o; apply casc_fault.
  - apply casc_settle; [| |done].
    + intros q v Hq. apply (IH q (Resolved v) Hq).
    + intros q e Hq. apply (IH q (Rejected e) Hq).
Qed.

Lemma casc_settle_each fuel ops :
  Forall (fun op => op.1 < r) ops -> casc (settle_each fuel ops).
Proof.
  induction 1 as [|op ops Hop _ IH]; [apply casc_ret|].
  cbn [settle_each]. apply casc_bind; [by apply casc_settle_fuel|].
  intros _. exact IH.
Qed.

(** The store the combinator leaves. *)
Lemma casc_init rank B w w0 w1 st' :
  wf_at rank B no_promise no_index w ->
  r = length (promises w) -> length (contexts w) <= C0 ->
  promises w0 = promises w ++ [fresh_state] ->
  after F step r 0 ps w0 w1 ->
  promises w1 !! r = Some st' -> G (st', contexts w1) ->
  RI (kind w1) (st', contexts w1) ->
  casc_inv w1.
Proof.
  intros Hi Er Hc Hw0 (Hl1 & _ & Hold & Hpair & _) Hr HG HRI.
  assert (Hl0 : length (promises w0) = S r).
  { rewrite Hw0, length_app. simpl. lia. }
  assert (Hx0 : forall x st, promises w !! x = Some st ->
                             promises w0 !! x = Some st).
  { intros x st Hx. rewrite Hw0. by apply lookup_app_l_Some. }
  assert (Hx1 : forall x, x < r -> exists st,
            promises w !! x = Some st /\
            promises w1 !! x =
            Some (extend st (match status_ st with
                             | pending => news F (S r) 0 ps x
                             | _ => []
                             end))).
  { intros x Hx. rewrite Er in Hx.
    destruct (lookup_lt_is_Some_2 _ _ Hx) as [st Hst].
    exists st. split; [done|]. rewrite <- Hl0. apply Hold; [lia|by apply Hx0]. }
  assert (Hk : forall x, x < r -> kind w1 x = kind w0 x).
  { intros x Hx. destruct (Hx1 x Hx) as (st & Hst & Hst1).
    unfold kind, outcome_of. rewrite Hst1, (Hx0 x st Hst). done. }
  split; [rewrite Hl1, Hl0; done|]. split.
  { intros x st1 Hx Hst1. destruct (Hx1 x Hx) as (st & Hst & Hst1').
    rewrite Hst1' in Hst1. injection Hst1 as <-.
    destruct (Hi x st Hst) as (_ & _ & Hv & Hpe); [by intros []|].
    split; [done|]. cbn [extend status_ storage_ handlers_]. intros Hs.
    destruct (Hpe Hs) as [Hn Hhs]. split; [done|].
    exists (handlers_ st). rewrite Hs. split; [done|].
    eapply Forall_impl; [exact Hhs|]. intros h.
    apply handler_ok_impl; try done.
    - intros t (_ & Ht & _). unfold old_t. lia.
    - intros c (Hc' & _). unfold old_c. lia. }
  exists (kind w1), st'. split; [by right|]. split; [done|].
  split; [|done].
  intros j q Hj. rewrite Hk by (by eapply input_old).
  rewrite <- Hl0. by apply Hpair.
Qed.

(** Between two calls nothing is locked: the continuations of the
    combinator have run on every input that is settled. *)
Lemma casc_quiet w :
  casc_inv w ->
  (forall q st, q ∈ ps -> promises w !! q = Some st -> mutex_ st = false) ->
  exists stR,
    promises w !! r = Some stR /\ G (stR, contexts w) /\
    RI (kind w) (stR, contexts w).
Proof.
  intros (H0 & H1 & f & stR & Hf & H4 & Hpairs & Hr & HG & HRI) Hm.
  exists stR. split; [done|]. split; [done|].
  eapply RI_ext; [|exact HRI]. intros q Hq.
  assert (Hlt : q < length (promises w)).
  { rewrite Forall_forall in ps_old. specialize (ps_old q Hq). lia. }
  destruct (lookup_lt_is_Some_2 _ _ Hlt) as [st Hst].
  assert (status_ st = pending \/ status_ st <> pending) as [Hs|Hs]
    by (destruct (status_ st); auto).
  - rewrite (kind_pending w q st Hst Hs).
    destruct (Hf q Hq) as [Hn|Hn]; [done|].
    by rewrite Hn, (kind_pending w q st Hst Hs).
  - apply (H4 q st); auto. by apply (Hm q st).
Qed.
End Cascade.

(** Settlements of existing handles return with any fuel above the bound
    of the ranks, and keep the ranks. *)
Lemma settle_each_total rank B fuel ops : forall w,
  wf_at rank B no_promise no_index w -> B < fuel ->
  Forall (fun op => op.1 < length (promises w)) ops ->
  exists w2,
    settle_each fuel ops w = Ret tt w2 /\
    wf_at rank B no_promise no_index w2 /\ keeps w w2 /\
    length (promises w2) = length (promises w).
Proof.
  induction ops as [|[p o] ops IH]; intros w Hi Hfuel Hops.
  - exists w. split; [done|]. split; [done|]. split; [apply keeps_refl|done].
  - apply Forall_cons in Hops as [Hp Hops]. cbn [fst] in Hp.
    destruct (lookup_lt_is_Some_2 _ _ Hp) as [st Hst].
    destruct (settle_total rank B no_promise no_promise no_index no_index
                (no_promise_in no_promise) fuel 0 p o w st)
      as (b & w' & E & Hs & _); try done.
    { split; [lia|]. split; [done|]. by intros []. }
    { lia. }
    assert (Hl : length (promises w') = length (promises w))
      by (by destruct Hs).
    destruct (IH w') as (w2 & E2 & Hi2 & Hk2 & Hl2).
    { by eapply inv_step. }
    { done. }
    { by rewrite Hl. }
    exists w2. split; [|split; [done|split]].
    + cbn [settle_each fst snd]. unfold bind. by rewrite E.
    + eapply keeps_trans; [by eapply step_rel_keeps|done].
    + congruence.
Qed.

(** ** The race on any inputs *)

(** The result is fresh while no continuation of the race has run, and
    holds the outcome of an input otherwise. *)
Definition any_RI (ps : list promise) (f : promise -> option outcome)
    (e : eff) : Prop :=
  (e.1 = fresh_state /\ forall q, q ∈ ps -> f q = None) \/
  (exists q o, q ∈ ps /\ f q = Some o /\ e.1 = outcome_state o).

Lemma any_RI_stable ps C0 f st (cs cs' : list context_t) :
  any_RI ps f (st, cs) -> length cs' = length cs ->
  (forall c, C0 <= c -> cs' !! c = cs !! c) -> any_RI ps f (st, cs').
Proof. done. Qed.

Lemma any_RI_ext ps f f' e :
  (forall q, q ∈ ps -> f q = f' q) -> any_RI ps f e -> any_RI ps f' e.
Proof.
  intros Hf [[He Hn]|(q & o & Hq & Hfq & He)].
  - left. split; [done|]. intros q Hq. rewrite <- Hf by done. by apply Hn.
  - right. exists q, o. rewrite <- Hf by done. done.
Qed.

Lemma any_RI_fire ps f q o e :
  G_any e -> any_RI ps f e -> q ∈ ps -> f q = None ->
  any_RI ps (fun p => if decide (p = q) then Some o else f p)
         (fold_steps step_any 0 (occ q o <$> ps) e).
Proof.
  intros _ HRI Hq Hfq. destruct e as [st cs].
  rewrite fold_any_first, (first_some_occ q o ps Hq).
  right. destruct HRI as [[He Hn]|(q' & o' & Hq' & Hfq' & He)];
    simpl in He; subst st.
  - exists q, o. split; [done|]. by rewrite decide_True.
  - exists q', o'. split; [done|].
    rewrite decide_False by congruence. split; [done|].
    simpl. apply sink_settle_settled. by destruct o'.
Qed.

Lemma first_some_elem ks o : first_some ks = Some o -> Some o ∈ ks.
Proof.
  induction ks as [|[o'|] ks IH]; simpl; intros H; [done| |].
  - injection H as ->. apply elem_of_cons. by left.
  - apply elem_of_cons. right. by apply IH.
Qed.

Lemma first_some_all_none ks :
  first_some ks = None -> Forall (fun k => k = None) ks.
Proof.
  induction ks as [|[o'|] ks IH]; simpl; intros H; [done|done|].
  constructor; [done|by apply IH].
Qed.

(** The store [make_any_promise] leaves. *)
Lemma make_any_casc rank B k w ps :
  wf_at rank B no_promise no_index w -> ps <> [] ->
  Forall (fun q => q < length (promises w)) ps ->
  exists w1 st1,
    make_any_promise (S (S k)) ps w = Ret (length (promises w)) w1 /\
    promises w1 !! length (promises w) = Some st1 /\
    st1 = match first_some (outcome_of w <$> ps) with
          | Some o => outcome_state o
          | None => fresh_state
          end /\
    wf_at (rank_comb rank (length (promises w)) B) (B + 3)
          no_promise no_index w1 /\
    keeps w w1 /\
    casc_inv (F_any (length (promises w))) (length (promises w)) G_any
             (length (contexts w)) ps (any_RI ps) w1.
Proof.
  intros Hi Hne Hps.
  assert (Hwf : wf no_promise no_index w) by (by exists rank, B).
  destruct (make_any_after k _ _ w ps Hwf Hne Hps) as (w1 & E1 & Hafter).
  set (r := length (promises w)) in *.
  pose proof Hafter as (_ & _ & _ & _ & Heff).
  destruct (Heff fresh_state (lookup_alloc_new w)) as (st1 & Hr1 & Eeff).
  assert (Hkinds : kind (alloc w) <$> ps = outcome_of w <$> ps).
  { apply list_fmap_ext. intros j q Hj. apply kind_alloc.
    rewrite Forall_forall in Hps. apply Hps.
    by eapply list_elem_of_lookup_2. }
  rewrite fold_any_first, Hkinds in Eeff. injection Eeff as Est1 Hc1.
  assert (Est1' : st1 = match first_some (outcome_of w <$> ps) with
                        | Some o => outcome_state o
                        | None => fresh_state
                        end).
  { rewrite Est1. by destruct (first_some _). }
  exists w1, st1. split; [done|]. split; [done|]. split; [done|].
  destruct (wf_after rank B (F_any r) step_any ps w (alloc w) w1 Hi)
    as [Hwf1 Hk1]; try done; try (rewrite Hc1; lia).
  { exists st1. split; [done|]. rewrite Est1'.
    destruct (first_some _); [right; by eexists|by left]. }
  split; [done|]. split; [done|].
  assert (Hold : Forall (fun q => q < r) ps) by done.
  assert (Hk : forall q, q ∈ ps -> kind w1 q = outcome_of w q).
  { intros q Hq. rewrite Forall_forall in Hps. specialize (Hps q Hq).
    rewrite <- (kind_alloc w q Hps).
    eapply kind_after; [exact Hafter|lia|].
    rewrite length_alloc. fold r. lia. }
  apply (casc_init (F_any r) step_any r G_any
           (length (contexts w)) ps Hold (any_RI ps)
           rank B w (alloc w) w1 st1); try done.
  - unfold G_any. cbn [fst]. rewrite Est1'.
    destruct (first_some _) as [o|]; [right|by left].
    split; [by destruct o|by destruct o].
  - rewrite Est1'. destruct (first_some (outcome_of w <$> ps)) as [o|] eqn:E.
    + right. apply first_some_elem in E.
      apply list_elem_of_fmap in E as (q & Ho & Hq).
      exists q, o. split; [done|]. split; [|done]. by rewrite Hk.
    + left. split; [done|]. intros q Hq. rewrite Hk by done.
      apply first_some_all_none in E. rewrite Forall_fmap, Forall_forall in E.
      by apply E.
Qed.

Lemma pending_outcome w x :
  status_of w x = Some pending -> outcome_of w x = None.
Proof.
  unfold status_of, outcome_of. destruct (promises w !! x) as [st|]; [|done].
  simpl. intros H. injection H as ->. done.
Qed.

Lemma wf_at_unlocked rank B w q st :
  wf_at rank B no_promise no_index w -> promises w !! q = Some st ->
  mutex_ st = false.
Proof. intros Hi. apply (wf_unlocked no_promise no_index). by exists rank, B. Qed.

(** After the call: settlements of handles that existed at the call. *)
Lemma make_any_settlements rank B r C0 ps fuel ops w1 :
  casc_inv (F_any r) r G_any C0 ps (any_RI ps) w1 ->
  wf_at rank B no_promise no_index w1 -> B < fuel ->
  Forall (fun q => q < r) ps -> r < length (promises w1) ->
  Forall (fun op => op.1 < r) ops ->
  exists w2,
    settle_each fuel ops w1 = Ret tt w2 /\
    wf_at rank B no_promise no_index w2 /\ keeps w1 w2 /\
    length (promises w2) = length (promises w1) /\
    casc_inv (F_any r) r G_any C0 ps (any_RI ps) w2 /\
    (forall o, outcome_of w2 r = Some o ->
       exists q, q ∈ ps /\ outcome_of w2 q = Some o) /\
    ((exists q o, q ∈ ps /\ outcome_of w2 q = Some o) ->
     exists o, outcome_of w2 r = Some o).
Proof.
  intros Hc Hi Hfuel Hps Hr Hops.
  destruct (settle_each_total rank B fuel ops w1 Hi Hfuel)
    as (w2 & E2 & Hi2 & Hk2 & Hl2).
  { eapply Forall_impl; [exact Hops|]. intros op Hop. simpl in *. lia. }
  exists w2. split; [done|]. split; [done|]. split; [done|]. split; [done|].
  pose proof (casc_settle_each (F_any r) step_any r G_any G_any_sink
                G_any_step G_any_reject (fun k => F_any_fires k r) C0 ps Hps
                (G_any_stable C0) (any_RI ps) (any_RI_stable ps C0)
                (any_RI_ext ps) (any_RI_fire ps) fuel ops Hops w1 Hc) as Hpost.
  rewrite E2 in Hpost. destruct Hpost as [Hc2 _]. split; [done|].
  destruct (casc_quiet (F_any r) r G_any C0 ps Hps (any_RI ps)
              (any_RI_ext ps) w2 Hc2) as (stR & HR & _ & HRI).
  { intros q st _ Hst. by eapply wf_at_unlocked. }
  destruct HRI as [[He Hn]|(q & o & Hq & Hkq & He)]; simpl in He; subst stR.
  - split.
    + intros o Ho. unfold outcome_of in Ho. by rewrite HR in Ho.
    + intros (q & o & Hq & Ho). specialize (Hn q Hq).
      unfold kind in Hn. congruence.
  - split.
    + intros o' Ho'. rewrite (outcome_of_state w2 r o HR) in Ho'.
      injection Ho' as <-. by exists q.
    + intros _. exists o. by apply outcome_of_state.
Qed.

(** C7.  [make_any_promise] on an empty collection throws
    [std::logic_error] to its caller and creates no handle.  On a non-empty
    collection of valid handles it returns, with enough fuel, a new handle
    [r].  If an input is settled at the time of the call, [r] has the
    outcome of the first settled input by position, whichever input was
    settled earlier; if every input is pending, [r] is pending.  After any
    settlements of handles that existed at the call, [r] is settled if and
    only if an input is, always with the outcome of a settled input: with
    the outcome of the input [q] when [q] is the only settled one.  An
    outcome [r] has is the one it keeps. *)
Theorem make_any_first_to_fire_wins (w : world) (ps : list promise) :
  wf no_promise no_index w ->
  Forall (fun q => q < length (promises w)) ps ->
  (forall fuel,
     make_any_promise fuel [] w =
     Throw (logic_error
       "at least one input promise must be provided for make_any_promise") w)
  /\
  (ps <> [] ->
   exists fuel0, forall fuel, fuel0 <= fuel ->
   exists w1,
     make_any_promise fuel ps w = Ret (length (promises w)) w1 /\
     (forall pre q post o,
        ps = pre ++ q :: post ->
        Forall (fun x => status_of w x = Some pending) pre ->
        outcome_of w q = Some o ->
        outcome_of w1 (length (promises w)) = Some o) /\
     (Forall (fun x => status_of w x = Some pending) ps ->
      status_of w1 (length (promises w)) = Some pending) /\
     forall ops, Forall (fun op => op.1 < length (promises w)) ops ->
     exists w2,
       settle_each fuel ops w1 = Ret tt w2 /\
       (forall o, outcome_of w2 (length (promises w)) = Some o ->
          exists q, q ∈ ps /\ outcome_of w2 q = Some o) /\
       ((exists q o, q ∈ ps /\ outcome_of w2 q = Some o) ->
        exists o, outcome_of w2 (length (promises w)) = Some o) /\
       (forall q o,
          q ∈ ps -> outcome_of w2 q = Some o ->
          (forall q', q' ∈ ps -> q' <> q -> outcome_of w2 q' = None) ->
          outcome_of w2 (length (promises w)) = Some o) /\
       (forall ops', Forall (fun op => op.1 < length (promises w)) ops' ->
        exists w3,
          settle_each fuel ops' w2 = Ret tt w3 /\
          (outcome_of w2 (length (promises w)) <> None ->
           outcome_of w3 (length (promises w)) =
           outcome_of w2 (length (promises w))))).
Proof.
  intros Hwf Hps. split; [done|]. intros Hne.
  pose proof Hwf as (rank & B & Hi).
  exists (B + 4). intros fuel Hfuel.
  destruct fuel as [|[|k]]; [lia..|].
  destruct (make_any_casc rank B k w ps Hi Hne Hps)
    as (w1 & st1 & E1 & Hr1 & Est1 & Hi1 & Hk1 & Hc1).
  set (r := length (promises w)) in *.
  exists w1. split; [done|]. split; [|split].
  - intros pre q post o -> Hpre Ho.
    apply outcome_of_state. rewrite Hr1, Est1.
    rewrite fmap_app, fmap_cons, Ho, first_some_app_pending; [done|].
    apply Forall_fmap. eapply Forall_impl; [exact Hpre|].
    intros x. apply pending_outcome.
  - intros Hall. unfold status_of. rewrite Hr1, Est1.
    rewrite first_some_none; [done|].
    apply Forall_fmap. eapply Forall_impl; [exact Hall|].
    intros x. apply pending_outcome.
  - intros ops Hops.
    assert (Hrlt : r < length (promises w1)) by (by eapply lookup_lt_Some).
    destruct (make_any_settlements _ (B + 3) r (length (contexts w)) ps
                (S (S k)) ops w1 Hc1 Hi1)
      as (w2 & E2 & Hi2 & Hk2 & Hl2 & Hc2 & Hfrom & Hto); try done; [lia|].
    exists w2. split; [done|]. split; [done|]. split; [done|]. split.
    + intros q o Hq Ho Hothers.
      destruct Hto as [o' Ho']; [by exists q, o|].
      destruct (Hfrom o' Ho') as (q' & Hq' & Hoq').
      destruct (decide (q' = q)) as [->|Hne']; [congruence|].
      rewrite (Hothers q' Hq' Hne') in Hoq'. done.
    + intros ops' Hops'.
      destruct (settle_each_total _ (B + 3) (S (S k)) ops' w2 Hi2)
        as (w3 & E3 & _ & Hk3 & _); [lia| |].
      { eapply Forall_impl; [exact Hops'|]. intros op Hop. simpl in *.
        fold r in Hop. lia. }
      exists w3. split; [done|]. intros Hsome.
      destruct (outcome_of w2 r) as [o|] eqn:Ho; [|done].
      by apply (keeps_outcome w2 w3).
Qed.

(** ** [make_all_promise] on any inputs *)

(** The context counts the inputs on which the callable of the combinator
    has run with a value, and holds these values by position; the result is
    rejected with the error of an input on which its rejector has run if
    there is one, resolved with the buffer if the count is full, fresh
    otherwise. *)
Definition all_RI (ps : list promise) (c : nat)
    (f : promise -> option outcome) (e : eff) : Prop :=
  exists x,
    e.2 !! c = Some x /\
    length (results x) = length ps /\
    counter x = count_res (f <$> ps) /\
    (forall j q v, ps !! j = Some q -> f q = Some (Resolved v) ->
                   results x !! j = Some v) /\
    ((exists q e', q ∈ ps /\ f q = Some (Rejected e')) ->
     exists q e', q ∈ ps /\ f q = Some (Rejected e') /\
                  e.1 = outcome_state (Rejected e')) /\
    ((forall q e', q ∈ ps -> f q <> Some (Rejected e')) ->
     e.1 = if decide (counter x = length ps)
           then outcome_state (Resolved (VVec (results x)))
           else fresh_state).

Lemma all_RI_stable ps c f st (cs cs' : list context_t) :
  all_RI ps c f (st, cs) -> length cs' = length cs ->
  (forall c', c <= c' -> cs' !! c' = cs !! c') -> all_RI ps c f (st, cs').
Proof.
  intros (x & Hx & H) Hl Hc. exists x. split; [|done].
  simpl in *. rewrite Hc; [done|lia].
Qed.

Lemma all_RI_ext ps c f f' e :
  (forall q, q ∈ ps -> f q = f' q) -> all_RI ps c f e -> all_RI ps c f' e.
Proof.
  intros Hf (x & Hx & Hlen & Hcnt & Hvals & Hrej & Hnorej).
  assert (Hmap : f <$> ps = f' <$> ps).
  { apply list_fmap_ext. intros j q Hj. apply Hf.
    by eapply list_elem_of_lookup_2. }
  exists x. split; [done|]. split; [done|]. split; [by rewrite <- Hmap|].
  split; [|split].
  - intros j q v Hj Hv. apply (Hvals j q v Hj).
    rewrite Hf; [done|]. by eapply list_elem_of_lookup_2.
  - intros (q & e' & Hq & Hqe).
    destruct Hrej as (q' & e'' & Hq' & Hqe' & He).
    { exists q, e'. by rewrite Hf. }
    exists q', e''. by rewrite <- Hf.
  - intros Hno. apply Hnorej. intros q e' Hq. rewrite Hf by done.
    by apply Hno.
Qed.

Lemma rejected_or_not (ps : list promise) (f : promise -> option outcome) :
  (exists q e, q ∈ ps /\ f q = Some (Rejected e)) \/
  (forall q e, q ∈ ps -> f q <> Some (Rejected e)).
Proof.
  destruct (first_rej (f <$> ps)) as [e|] eqn:E.
  - left. apply first_rej_elem in E.
    apply list_elem_of_fmap in E as (q & Hk & Hq). by exists q, e.
  - right. intros q e Hq Hk. apply (first_rej_none _ e E).
    rewrite <- Hk. by apply list_elem_of_fmap_2.
Qed.

Lemma all_RI_fire ps c f q o e :
  G_all c e -> all_RI ps c f e -> q ∈ ps -> f q = None ->
  all_RI ps c (fun p => if decide (p = q) then Some o else f p)
         (fold_steps (step_all c) 0 (occ q o <$> ps) e).
Proof.
  intros [Hsink Hc] (x & Hx & Hlen & Hcnt & Hvals & Hrej & Hnorej) Hq Hfq.
  destruct e as [stR cs]. cbn [fst snd] in *.
  set (f' := fun p => if decide (p = q) then Some o else f p).
  pose proof (count_res_occ f q o ps Hfq) as Hcount. fold f' in Hcount.
  pose proof (count_res_le (f' <$> ps)) as Hle.
  rewrite length_fmap, Hcount in Hle.
  destruct (fold_all_spec c (occ q o <$> ps) 0 stR cs x Hx)
    as (x2 & Hcs2 & Hlen2 & Hcnt2 & _ & Hin2 & Hfrej & Hfres).
  { lia. }
  { rewrite length_fmap. lia. }
  pose proof (count_res_pending f q ps Hq Hfq) as Hlt.
  assert (Hst' : (fold_steps (step_all c) 0 (occ q o <$> ps) (stR, cs)).1 =
                 match o with
                 | Rejected e => sink_settle (Rejected e) stR
                 | Resolved v =>
                     if decide (counter x2 = length ps)
                     then sink_settle (Resolved (VVec (results x2))) stR
                     else stR
                 end).
  { destruct o as [v|e].
    - rewrite (Hfres (first_rej_occ_resolved q v ps)).
      pose proof (count_res_occ_resolved q v ps Hq).
      repeat case_decide; try done; lia.
    - apply Hfrej; [by apply first_rej_occ_rejected|].
      rewrite count_res_occ_rejected. lia. }
  assert (Hother : forall p, p <> q -> f' p = f p).
  { intros p Hp. unfold f'. by rewrite decide_False. }
  assert (Hfq' : f' q = Some o) by (unfold f'; by rewrite decide_True).
  exists x2. split.
  { rewrite Hcs2. apply list_lookup_insert_eq. done. }
  split; [lia|]. split; [rewrite Hcount; lia|].
  split; [|split].
  - intros j p v Hj Hkv.
    assert ((occ q o <$> ps) !! j = Some (occ q o p)) as Hocc
      by (by rewrite list_lookup_fmap, Hj).
    specialize (Hin2 j _ Hocc). simpl in Hin2. rewrite Hin2.
    unfold occ. destruct (decide (p = q)) as [->|Hne].
    + rewrite Hfq' in Hkv. injection Hkv as ->. done.
    + apply (Hvals j p v Hj). by rewrite <- Hother.
  - intros (p & e & Hp & Hpe). rewrite Hst'. destruct o as [v|e0].
    + assert (p <> q) as Hne by (intros ->; congruence).
      destruct Hrej as (p0 & e1 & Hp0 & Hk0 & ->).
      { exists p, e. by rewrite <- Hother. }
      exists p0, e1. split; [done|]. split.
      * rewrite Hother; [done|]. congruence.
      * case_decide; [|done]. by apply sink_settle_settled.
    + destruct (rejected_or_not ps f) as [Hy|Hno].
      * destruct (Hrej Hy) as (p0 & e1 & Hp0 & Hk0 & ->).
        exists p0, e1. split; [done|]. split.
        -- rewrite Hother; [done|]. congruence.
        -- by apply sink_settle_settled.
      * exists q, e0. split; [done|]. split; [done|].
        rewrite (Hnorej Hno). rewrite decide_False by lia. done.
  - intros Hno. rewrite Hst'.
    destruct o as [v|e0]; [|by destruct (Hno q e0 Hq)].
    assert (Hno' : forall p e, p ∈ ps -> f p <> Some (Rejected e)).
    { intros p e Hp Hpe. apply (Hno p e Hp).
      rewrite Hother; [done|]. congruence. }
    rewrite (Hnorej Hno').
    rewrite (decide_False (P := counter x = _)) by lia. done.
Qed.

(** What the invariant gives between two calls. *)
Lemma all_RI_resolved ps c w r stR vs :
  promises w !! r = Some stR -> all_RI ps c (kind w) (stR, contexts w) ->
  Forall2 (fun q v => outcome_of w q = Some (Resolved v)) ps vs ->
  outcome_of w r = Some (Resolved (VVec vs)).
Proof.
  intros HR (x & _ & Hlen & Hcnt & Hvals & _ & Hnorej) Hall.
  cbn [fst snd] in *.
  apply outcome_of_state. rewrite HR. f_equal.
  rewrite Hnorej.
  - rewrite decide_True.
    + f_equal. f_equal. f_equal. apply list_eq. intros j.
      destruct (ps !! j) as [q|] eqn:Hj.
      * destruct (Forall2_lookup_l _ _ _ _ _ Hall Hj) as (v & Hv & Hqv).
        rewrite Hv. by apply (Hvals j q v Hj).
      * apply lookup_ge_None in Hj.
        rewrite (lookup_ge_None_2 (results x)) by lia.
        symmetry. apply lookup_ge_None_2.
        rewrite <- (Forall2_length _ _ _ Hall). done.
    + rewrite Hcnt. apply count_res_all.
      apply Forall_forall. intros q Hq.
      apply list_elem_of_lookup in Hq as [j Hj].
      destruct (Forall2_lookup_l _ _ _ _ _ Hall Hj) as (v & _ & Hqv).
      by exists v.
  - intros q e Hq Hk.
    apply list_elem_of_lookup in Hq as [j Hj].
    destruct (Forall2_lookup_l _ _ _ _ _ Hall Hj) as (v & _ & Hqv).
    unfold kind in Hk. congruence.
Qed.

Lemma all_RI_rejected ps c w r stR :
  promises w !! r = Some stR -> all_RI ps c (kind w) (stR, contexts w) ->
  (exists q e, q ∈ ps /\ outcome_of w q = Some (Rejected e)) ->
  exists q e, q ∈ ps /\ outcome_of w q = Some (Rejected e) /\
              outcome_of w r = Some (Rejected e).
Proof.
  intros HR (x & _ & _ & _ & _ & Hrej & _) Hy. cbn [fst snd] in *.
  destruct (Hrej Hy) as (q & e & Hq & Hk & ->).
  exists q, e. split; [done|]. split; [done|]. by apply outcome_of_state.
Qed.

Lemma all_RI_converse ps c w r stR :
  promises w !! r = Some stR -> all_RI ps c (kind w) (stR, contexts w) ->
  (forall x, outcome_of w r = Some (Resolved x) ->
     exists vs, x = VVec vs /\
       Forall2 (fun q v => outcome_of w q = Some (Resolved v)) ps vs) /\
  (forall e, outcome_of w r = Some (Rejected e) ->
     exists q, q ∈ ps /\ outcome_of w q = Some (Rejected e)).
Proof.
  intros HR (x & _ & Hlen & Hcnt & Hvals & Hrej & Hnorej).
  cbn [fst snd] in *.
  unfold outcome_of at 1 3. rewrite HR.
  destruct (rejected_or_not ps (kind w)) as [Hy|Hno].
  - destruct (Hrej Hy) as (q & e & Hq & Hk & ->). split.
    + intros y Hy'. done.
    + intros e' He'. simpl in He'. injection He' as <-. by exists q.
  - rewrite (Hnorej Hno). split.
    + intros y Hy. destruct (decide (counter x = length ps)) as [Hfull|];
        [|done].
      simpl in Hy. injection Hy as <-. exists (results x). split; [done|].
      rewrite Hcnt in Hfull. rewrite <- (length_fmap (kind w)) in Hfull.
      apply count_res_full in Hfull.
      apply Forall2_same_length_lookup_2; [done|].
      intros i q v Hi Hv.
      assert (Hk : is_res (kind w q) = true).
      { rewrite Forall_forall in Hfull. apply Hfull.
        apply list_elem_of_fmap_2. by eapply list_elem_of_lookup_2. }
      destruct (kind w q) as [[v'|e']|] eqn:Ekq; try done.
      rewrite (Hvals i q v' Hi Ekq) in Hv. by injection Hv as <-.
    + intros e' He'. by destruct (decide (counter x = length ps)).
Qed.

(** The store [make_all_promise] leaves. *)
Lemma make_all_casc rank B k dflt w ps :
  wf_at rank B no_promise no_index w -> ps <> [] ->
  Forall (fun q => q < length (promises w)) ps ->
  exists w1 st1,
    make_all_promise (S (S k)) dflt ps w = Ret (length (promises w)) w1 /\
    promises w1 !! length (promises w) = Some st1 /\
    (forall e, first_rej (outcome_of w <$> ps) = Some e ->
               st1 = outcome_state (Rejected e)) /\
    wf_at (rank_comb rank (length (promises w)) B) (B + 3)
          no_promise no_index w1 /\
    keeps w w1 /\
    casc_inv (F_all (length (contexts w)) (length (promises w)))
             (length (promises w)) (G_all (length (contexts w)))
             (length (contexts w)) ps (all_RI ps (length (contexts w))) w1.
Proof.
  intros Hi Hne Hps.
  assert (Hwf : wf no_promise no_index w) by (by exists rank, B).
  destruct (make_all_after k dflt _ _ w ps Hwf Hne Hps) as (w1 & E1 & Hafter).
  set (r := length (promises w)) in *. set (c := length (contexts w)) in *.
  set (wc := with_context dflt (length ps) (alloc w)) in *.
  set (x0 := mk_context (replicate (length ps) dflt) 0).
  assert (Hlwc : length (promises wc) = S r) by apply length_alloc.
  assert (Hcx0 : contexts wc !! c = Some x0).
  { unfold wc, with_context. cbn [contexts alloc].
    rewrite lookup_app_r by done. by rewrite Nat.sub_diag. }
  assert (Hlcwc : length (contexts wc) = S c).
  { unfold wc, with_context. cbn [contexts alloc]. rewrite length_app.
    simpl. fold c. lia. }
  pose proof Hafter as (Hl1 & Ht1 & Hold1 & Hpair1 & Heff1).
  destruct (Heff1 fresh_state (lookup_alloc_new w)) as (st1 & Hr1 & Eeff).
  assert (Hps' : forall q, q ∈ ps -> q < r)
    by (by apply Forall_forall).
  assert (Hk1 : forall q, q ∈ ps -> kind w1 q = kind wc q).
  { intros q Hq. specialize (Hps' q Hq).
    apply (kind_after _ _ _ _ _ _ _ _ Hafter); lia. }
  assert (Hkinds : kind w1 <$> ps = kind wc <$> ps).
  { apply list_fmap_ext. intros i q Hq. apply Hk1.
    by eapply list_elem_of_lookup_2. }
  assert (Hkinds0 : outcome_of w <$> ps = kind wc <$> ps).
  { apply list_fmap_ext. intros i q Hq. symmetry.
    apply kind_alloc, Hps'. by eapply list_elem_of_lookup_2. }
  pose proof (count_res_le (kind wc <$> ps)) as Hle.
  rewrite length_fmap in Hle.
  destruct (fold_all_spec c (kind wc <$> ps) 0 fresh_state (contexts wc) x0
              Hcx0)
    as (x' & Hcs & Hlen & Hcnt & _ & Hin & Hfrej & Hfres).
  { simpl. rewrite length_replicate. lia. }
  { simpl. rewrite length_replicate, length_fmap. lia. }
  rewrite <- Eeff in Hcs, Hfrej, Hfres. cbn [fst snd] in Hcs, Hfrej, Hfres.
  simpl in Hlen, Hcnt, Hfrej, Hfres. rewrite length_replicate in *.
  assert (Hlen0 : 0 < length ps) by (destruct ps; [done|simpl; lia]).
  assert (Hc1 : length (contexts w1) = S c).
  { rewrite Hcs, length_insert. done. }
  assert (Hst1 : clean st1).
  { change st1 with (st1, contexts w1).1. rewrite Eeff.
    apply fold_steps_clean; [apply step_all_clean|by left]. }
  exists w1, st1. split; [done|]. split; [done|]. split.
  { intros e He. rewrite Hkinds0 in He. apply Hfrej; [done|].
    pose proof (first_rej_count _ _ He) as Hcc.
    rewrite length_fmap in Hcc. done. }
  destruct (wf_after rank B (F_all c r) (step_all c) ps w wc w1 Hi)
    as [Hwf1 Hkp1]; try done; try lia; try (by exists st1).
  { intros idx P HP. split; [|done]. split; [lia|by intros []]. }
  split; [done|]. split; [done|].
  apply (casc_init (F_all c r) (step_all c) r (G_all c) c ps Hps
           (all_RI ps c) rank B w wc w1 st1); try done.
  - split; cbn [fst snd]; [|lia].
    destruct Hst1 as [->|[o ->]]; [by left|right].
    split; by destruct o.
  - exists x'. cbn [fst snd]. split.
    { rewrite Hcs. apply list_lookup_insert_eq. lia. }
    split; [done|]. split; [by rewrite Hkinds|].
    split; [|split].
    + intros j q v Hj Hkv.
      assert (Hq : q ∈ ps) by (by eapply list_elem_of_lookup_2).
      rewrite (Hk1 q Hq) in Hkv.
      assert ((kind wc <$> ps) !! j = Some (Some (Resolved v))) as Hkj
          by (by rewrite list_lookup_fmap, Hj, <- Hkv).
      apply (Hin j _ Hkj).
    + intros (q & e & Hq & Hkq).
      destruct (first_rej (kind wc <$> ps)) as [e'|] eqn:Efr.
      * pose proof (first_rej_elem _ _ Efr) as Hel.
        apply list_elem_of_fmap in Hel as (q' & Hk' & Hq').
        exists q', e'. split; [done|]. split; [by rewrite Hk1|].
        apply Hfrej; [done|].
        pose proof (first_rej_count _ _ Efr) as Hcc.
        rewrite length_fmap in Hcc. done.
      * exfalso. apply (first_rej_none _ e Efr).
        rewrite <- Hkq, (Hk1 q Hq). by apply list_elem_of_fmap_2.
    + intros Hno.
      destruct (first_rej (kind wc <$> ps)) as [e'|] eqn:Efr.
      * exfalso. pose proof (first_rej_elem _ _ Efr) as Hel.
        apply list_elem_of_fmap in Hel as (q' & Hk' & Hq').
        apply (Hno q' e' Hq'). by rewrite Hk1.
      * rewrite (Hfres eq_refl). repeat case_decide; try done; lia.
Qed.

(** After the call: settlements of handles that existed at the call. *)
Lemma make_all_settlements rank B r c ps fuel ops w1 :
  casc_inv (F_all c r) r (G_all c) c ps (all_RI ps c) w1 ->
  wf_at rank B no_promise no_index w1 -> B < fuel ->
  Forall (fun q => q < r) ps -> r < length (promises w1) ->
  Forall (fun op => op.1 < r) ops ->
  exists w2 stR,
    settle_each fuel ops w1 = Ret tt w2 /\
    wf_at rank B no_promise no_index w2 /\ keeps w1 w2 /\
    length (promises w2) = length (promises w1) /\
    casc_inv (F_all c r) r (G_all c) c ps (all_RI ps c) w2 /\
    promises w2 !! r = Some stR /\
    all_RI ps c (kind w2) (stR, contexts w2).
Proof.
  intros Hc Hi Hfuel Hps Hr Hops.
  destruct (settle_each_total rank B fuel ops w1 Hi Hfuel)
    as (w2 & E2 & Hi2 & Hk2 & Hl2).
  { eapply Forall_impl; [exact Hops|]. intros op Hop. simpl in *. lia. }
  pose proof (casc_settle_each (F_all c r) (step_all c) r (G_all c)
                (G_all_sink c) (G_all_step c) (G_all_reject c)
                (fun k => F_all_fires k c r) c ps Hps
                (G_all_stable c) (all_RI ps c) (all_RI_stable ps c)
                (all_RI_ext ps c) (all_RI_fire ps c) fuel ops Hops w1 Hc)
    as Hpost.
  rewrite E2 in Hpost. destruct Hpost as [Hc2 _].
  destruct (casc_quiet (F_all c r) r (G_all c) c ps Hps (all_RI ps c)
              (all_RI_ext ps c) w2 Hc2) as (stR & HR & _ & HRI).
  { intros q st _ Hst. by eapply wf_at_unlocked. }
  exists w2, stR. done.
Qed.

(** C6.  [make_all_promise] on an empty collection returns a handle that is
    resolved with the empty vector.  On a non-empty collection of valid
    handles it returns, with enough fuel, a new handle [r].  If an input is
    rejected at the time of the call, [r] is rejected with the error of the
    first rejected input by position.  After any settlements of handles
    that existed at the call: if every input is resolved, [r] is resolved
    with the vector of their values by input position; if an input is
    rejected, [r] is rejected with the error of a rejected input; a call
    that rejects inputs while [r] is pending rejects [r] with the error of
    an input that this call rejected; and an outcome [r] has is the one it
    keeps, whatever is settled afterwards. *)
Theorem make_all_collects_by_position (w : world) (ps : list promise)
    (dflt : val) :
  wf no_promise no_index w ->
  Forall (fun q => q < length (promises w)) ps ->
  (forall fuel, exists w1,
     make_all_promise (S fuel) dflt [] w = Ret (length (promises w)) w1 /\
     outcome_of w1 (length (promises w)) = Some (Resolved (VVec []))) /\
  (ps <> [] ->
   exists fuel0, forall fuel, fuel0 <= fuel ->
   exists w1,
     make_all_promise fuel dflt ps w = Ret (length (promises w)) w1 /\
     (forall pre q post e,
        ps = pre ++ q :: post ->
        Forall (fun x => forall e', outcome_of w x <> Some (Rejected e')) pre ->
        outcome_of w q = Some (Rejected e) ->
        outcome_of w1 (length (promises w)) = Some (Rejected e)) /\
     forall ops, Forall (fun op => op.1 < length (promises w)) ops ->
     exists w2,
       settle_each fuel ops w1 = Ret tt w2 /\
       (forall vs,
          Forall2 (fun q v => outcome_of w2 q = Some (Resolved v)) ps vs ->
          outcome_of w2 (length (promises w)) = Some (Resolved (VVec vs))) /\
       ((exists q e, q ∈ ps /\ outcome_of w2 q = Some (Rejected e)) ->
        exists q e, q ∈ ps /\ outcome_of w2 q = Some (Rejected e) /\
                    outcome_of w2 (length (promises w)) = Some (Rejected e)) /\
       (forall p o,
          p < length (promises w) ->
          status_of w2 (length (promises w)) = Some pending ->
          exists b w3,
            settle fuel p o w2 = Ret b w3 /\
            ((exists q e, q ∈ ps /\ outcome_of w3 q = Some (Rejected e)) ->
             exists q e,
               q ∈ ps /\ outcome_of w2 q = None /\
               outcome_of w3 q = Some (Rejected e) /\
               outcome_of w3 (length (promises w)) = Some (Rejected e))) /\
       (forall ops', Forall (fun op => op.1 < length (promises w)) ops' ->
        exists w3,
          settle_each fuel ops' w2 = Ret tt w3 /\
          (outcome_of w2 (length (promises w)) <> None ->
           outcome_of w3 (length (promises w)) =
           outcome_of w2 (length (promises w))))).
Proof.
  intros Hwf Hps. split.
  - intros fuel. eexists. split.
    + cbn [make_all_promise]. apply make_resolved_eq.
    + apply outcome_of_state. apply lookup_set_st_eq.
      rewrite length_alloc. lia.
  - intros Hne. pose proof Hwf as (rank & B & Hi).
    exists (B + 4). intros fuel Hfuel.
    destruct fuel as [|[|k]]; [lia..|].
    destruct (make_all_casc rank B k dflt w ps Hi Hne Hps)
      as (w1 & st1 & E1 & Hr1 & Hfirst & Hi1 & Hk1 & Hc1).
    set (r := length (promises w)) in *.
    set (c := length (contexts w)) in *.
    assert (Hrlt : r < length (promises w1)) by (by eapply lookup_lt_Some).
    exists w1. split; [done|]. split.
    + intros pre q post e -> Hpre Hq. apply outcome_of_state.
      rewrite Hr1. f_equal. apply Hfirst.
      rewrite fmap_app, fmap_cons, first_rej_app_clean, Hq; [done|].
      apply Forall_fmap. eapply Forall_impl; [exact Hpre|]. done.
    + intros ops Hops.
      destruct (make_all_settlements _ (B + 3) r c ps (S (S k)) ops w1
                  Hc1 Hi1)
        as (w2 & stR & E2 & Hi2 & Hk2 & Hl2 & Hc2 & HR2 & HRI2);
        try done; [lia|].
      exists w2. split; [done|]. split; [|split; [|split]].
      * intros vs. by apply (all_RI_resolved ps c w2 r stR).
      * by apply (all_RI_rejected ps c w2 r stR).
      * intros p o Hp Hpend.
        destruct (make_all_settlements _ (B + 3) r c ps (S (S k)) [(p, o)]
                    w2 Hc2 Hi2)
          as (w3 & stR3 & E3 & Hi3 & Hk3 & Hl3 & Hc3 & HR3 & HRI3);
          try done; [lia|lia|by repeat constructor|].
        cbn [settle_each fst snd] in E3. unfold bind in E3.
        destruct (settle (S (S k)) p o w2) as [b w3'|x w3'|x] eqn:E; try done.
        injection E3 as ->. exists b, w3. split; [done|].
        intros Hy.
        destruct (all_RI_rejected ps c w3 r stR3 HR3 HRI3 Hy)
          as (q & e & Hq & Hoq & Hor).
        exists q, e. split; [done|]. split; [|done].
        destruct (outcome_of w2 q) as [[v|e2]|] eqn:Ho2; [| |done].
        -- rewrite (keeps_outcome w2 w3 q _ Hk3 Ho2) in Hoq. done.
        -- destruct (all_RI_rejected ps c w2 r stR HR2 HRI2)
             as (q' & e' & _ & _ & Hor2); [by exists q, e2|].
           apply pending_outcome in Hpend. congruence.
      * intros ops' Hops'.
        destruct (settle_each_total _ (B + 3) (S (S k)) ops' w2 Hi2)
          as (w3 & E3 & _ & Hk3 & _); [lia| |].
        { eapply Forall_impl; [exact Hops'|]. intros op Hop. simpl in *.
          fold r in Hop. lia. }
        exists w3. split; [done|]. intros Hsome.
        destruct (outcome_of w2 r) as [o|] eqn:Ho; [|done].
        by apply (keeps_outcome w2 w3).
Qed.

(** X8.  The result of [make_all_promise] is resolved only when every input
    is resolved, and then with their values by position; it is rejected
    only with the error of an input that is rejected.  So it stays pending
    while inputs are pending and none is rejected. *)
Theorem make_all_result_reflects_inputs (w : world) (ps : list promise)
    (dflt : val) :
  wf no_promise no_index w ->
  Forall (fun q => q < length (promises w)) ps -> ps <> [] ->
  exists fuel0, forall fuel, fuel0 <= fuel ->
  exists w1,
    make_all_promise fuel dflt ps w = Ret (length (promises w)) w1 /\
    forall ops, Forall (fun op => op.1 < length (promises w)) ops ->
    exists w2,
      settle_each fuel ops w1 = Ret tt w2 /\
      (forall x, outcome_of w2 (length (promises w)) = Some (Resolved x) ->
         exists vs, x = VVec vs /\
           Forall2 (fun q v => outcome_of w2 q = Some (Resolved v)) ps vs) /\
      (forall e, outcome_of w2 (length (promises w)) = Some (Rejected e) ->
         exists q, q ∈ ps /\ outcome_of w2 q = Some (Rejected e)) /\
      ((exists q, q ∈ ps /\ outcome_of w2 q = None) ->
       (forall q e, q ∈ ps -> outcome_of w2 q <> Some (Rejected e)) ->
       outcome_of w2 (length (promises w)) = None).
Proof.
  intros Hwf Hps Hne. pose proof Hwf as (rank & B & Hi).
  exists (B + 4). intros fuel Hfuel.
  destruct fuel as [|[|k]]; [lia..|].
  destruct (make_all_casc rank B k dflt w ps Hi Hne Hps)
    as (w1 & st1 & E1 & Hr1 & Hfirst & Hi1 & Hk1 & Hc1).
  set (r := length (promises w)) in *.
  set (c := length (contexts w)) in *.
  assert (Hrlt : r < length (promises w1)) by (by eapply lookup_lt_Some).
  exists w1. split; [done|]. intros ops Hops.
  destruct (make_all_settlements _ (B + 3) r c ps (S (S k)) ops w1 Hc1 Hi1)
    as (w2 & stR & E2 & Hi2 & Hk2 & Hl2 & Hc2 & HR2 & HRI2);
    try done; [lia|].
  exists w2. split; [done|].
  destruct (all_RI_converse ps c w2 r stR HR2 HRI2) as [Hres Hrej].
  split; [done|]. split; [done|].
  intros (q & Hq & Hpend) Hnorej.
  destruct (outcome_of w2 r) as [[x|e]|] eqn:Eo; [| |done].
  - destruct (Hres x eq_refl) as (vs & _ & Hall).
    apply list_elem_of_lookup in Hq as [i Hi'].
    destruct (Forall2_lookup_l _ _ _ _ _ Hall Hi') as (v & _ & Hv).
    congruence.
  - destruct (Hrej e eq_refl) as (q' & Hq' & He'). by destruct (Hnorej q' e).
Qed.

(** ** The combinators at a concrete store: an input that a continuation
    of another input settles *)

(** Handle 0 is pending and handle 1 is [then(always_raise)] of it. *)
Definition then_store : world :=
  push 0 (queued 1 (RF_user 1 always_raise) JF_ignore)
       (alloc (alloc empty_world)).

Lemma wf_then_store : wf no_promise no_index then_store.
Proof.
  destruct (then_ok (alloc empty_world) 0 (RF_user 1 always_raise) JF_ignore
              fresh_state) as (w' & E & Hwf & _); try done.
  { apply wf_one. }
  specialize (E 0). vm_compute in E. injection E as <-. exact Hwf.
Qed.

Lemma then_store_valid :
  Forall (fun q => q < length (promises then_store)) [0; 1].
Proof. repeat constructor. Qed.

(** The input settled first loses: handle 0 is resolved by the caller, its
    continuation rejects handle 1, and the race takes the rejection; and
    among inputs settled before the call the position decides. *)
Lemma make_any_first_settled_loses :
  (exists w1 w2,
     make_any_promise 3 [0; 1] then_store = Ret 2 w1 /\
     status_of w1 2 = Some pending /\
     resolve 6 0 (VInt 5) w1 = Ret true w2 /\
     trace w2 = [EvResolve 1 (VInt 5)] /\
     outcome_of w2 0 = Some (Resolved (VInt 5)) /\
     outcome_of w2 1 = Some (Rejected (Some (user_exception 7))) /\
     outcome_of w2 2 = Some (Rejected (Some (user_exception 7)))) /\
  (exists w1 w2 w3,
     resolve 1 1 (VInt 1) two_pending = Ret true w1 /\
     reject 1 0 (Some (user_exception 7)) w1 = Ret true w2 /\
     make_any_promise 3 [0; 1] w2 = Ret 2 w3 /\
     outcome_of w3 1 = Some (Resolved (VInt 1)) /\
     outcome_of w3 2 = Some (Rejected (Some (user_exception 7)))).
Proof.
  split.
  - pose (m1 := make_any_promise 3 [0; 1] then_store).
    pose (w1 := match m1 with Ret _ x => x | _ => empty_world end).
    pose (m2 := resolve 6 0 (VInt 5) w1).
    pose (w2 := match m2 with Ret _ x => x | _ => empty_world end).
    exists w1, w2.
    do 6 (split; [vm_compute; reflexivity|]). vm_compute; reflexivity.
  - pose (m1 := resolve 1 1 (VInt 1) two_pending).
    pose (w1 := match m1 with Ret _ x => x | _ => empty_world end).
    pose (m2 := reject 1 0 (Some (user_exception 7)) w1).
    pose (w2 := match m2 with Ret _ x => x | _ => empty_world end).
    pose (m3 := make_any_promise 3 [0; 1] w2).
    pose (w3 := match m3 with Ret _ x => x | _ => empty_world end).
    exists w1, w2, w3.
    do 4 (split; [vm_compute; reflexivity|]). vm_compute; reflexivity.
Qed.

Lemma make_any_first_to_fire_wins_witness :
  (wf no_promise no_index then_store) /\
  (Forall (fun q => q < length (promises then_store)) [0; 1]) /\
  ((forall fuel,
     make_any_promise fuel [] then_store =
     Throw (logic_error
       "at least one input promise must be provided for make_any_promise") then_store)
  /\
  ([0; 1] <> [] ->
   exists fuel0, forall fuel, fuel0 <= fuel ->
   exists w1,
     make_any_promise fuel [0; 1] then_store = Ret (length (promises then_store)) w1 /\
     (forall pre q post o,
        [0; 1] = pre ++ q :: post ->
        Forall (fun x => status_of then_store x = Some pending) pre ->
        outcome_of then_store q = Some o ->
        outcome_of w1 (length (promises then_store)) = Some o) /\
     (Forall (fun x => status_of then_store x = Some pending) [0; 1] ->
      status_of w1 (length (promises then_store)) = Some pending) /\
     forall ops, Forall (fun op => op.1 < length (promises then_store)) ops ->
     exists w2,
       settle_each fuel ops w1 = Ret tt w2 /\
       (forall o, outcome_of w2 (length (promises then_store)) = Some o ->
          exists q, q ∈ [0; 1] /\ outcome_of w2 q = Some o) /\
       ((exists q o, q ∈ [0; 1] /\ outcome_of w2 q = Some o) ->
        exists o, outcome_of w2 (length (promises then_store)) = Some o) /\
       (forall q o,
          q ∈ [0; 1] -> outcome_of w2 q = Some o ->
          (forall q', q' ∈ [0; 1] -> q' <> q -> outcome_of w2 q' = None) ->
          outcome_of w2 (length (promises then_store)) = Some o) /\
       (forall ops', Forall (fun op => op.1 < length (promises then_store)) ops' ->
        exists w3,
          settle_each fuel ops' w2 = Ret tt w3 /\
          (outcome_of w2 (length (promises then_store)) <> None ->
           outcome_of w3 (length (promises then_store)) =
           outcome_of w2 (length (promises then_store)))))).
Proof.
  split; [apply wf_then_store|].
  split; [apply then_store_valid|].
  apply (make_any_first_to_fire_wins then_store [0; 1]); [apply wf_then_store | apply then_store_valid].
Defined.

Lemma make_all_collects_by_position_witness :
  (wf no_promise no_index then_store) /\
  (Forall (fun q => q < length (promises then_store)) [0; 1]) /\
  ((forall fuel, exists w1,
     make_all_promise (S fuel) (VInt 0) [] then_store = Ret (length (promises then_store)) w1 /\
     outcome_of w1 (length (promises then_store)) = Some (Resolved (VVec []))) /\
  ([0; 1] <> [] ->
   exists fuel0, forall fuel, fuel0 <= fuel ->
   exists w1,
     make_all_promise fuel (VInt 0) [0; 1] then_store = Ret (length (promises then_store)) w1 /\
     (forall pre q post e,
        [0; 1] = pre ++ q :: post ->
        Forall (fun x => forall e', outcome_of then_store x <> Some (Rejected e')) pre ->
        outcome_of then_store q = Some (Rejected e) ->
        outcome_of w1 (length (promises then_store)) = Some (Rejected e)) /\
     forall ops, Forall (fun op => op.1 < length (promises then_store)) ops ->
     exists w2,
       settle_each fuel ops w1 = Ret tt w2 /\
       (forall vs,
          Forall2 (fun q v => outcome_of w2 q = Some (Resolved v)) [0; 1] vs ->
          outcome_of w2 (length (promises then_store)) = Some (Resolved (VVec vs))) /\
       ((exists q e, q ∈ [0; 1] /\ outcome_of w2 q = Some (Rejected e)) ->
        exists q e, q ∈ [0; 1] /\ outcome_of w2 q = Some (Rejected e) /\
                    outcome_of w2 (length (promises then_store)) = Some (Rejected e)) /\
       (forall p o,
          p < length (promises then_store) ->
          status_of w2 (length (promises then_store)) = Some pending ->
          exists b w3,
            settle fuel p o w2 = Ret b w3 /\
            ((exists q e, q ∈ [0; 1] /\ outcome_of w3 q = Some (Rejected e)) ->
             exists q e,
               q ∈ [0; 1] /\ outcome_of w2 q = None /\
               outcome_of w3 q = Some (Rejected e) /\
               outcome_of w3 (length (promises then_store)) = Some (Rejected e))) /\
       (forall ops', Forall (fun op => op.1 < length (promises then_store)) ops' ->
        exists w3,
          settle_each fuel ops' w2 = Ret tt w3 /\
          (outcome_of w2 (length (promises then_store)) <> None ->
           outcome_of w3 (length (promises then_store)) =
           outcome_of w2 (length (promises then_store)))))).
Proof.
  split; [apply wf_then_store|].
  split; [apply then_store_valid|].
  apply (make_all_collects_by_position then_store [0; 1] (VInt 0)); [apply wf_then_store | apply then_store_valid].
Defined.

Lemma make_all_result_reflects_inputs_witness :
  (wf no_promise no_index then_store) /\
  (Forall (fun q => q < length (promises then_store)) [0; 1]) /\
  ([0; 1] <> []) /\
  (exists fuel0, forall fuel, fuel0 <= fuel ->
  exists w1,
    make_all_promise fuel (VInt 0) [0; 1] then_store = Ret (length (promises then_store)) w1 /\
    forall ops, Forall (fun op => op.1 < length (promises then_store)) ops ->
    exists w2,
      settle_each fuel ops w1 = Ret tt w2 /\
      (forall x, outcome_of w2 (length (promises then_store)) = Some (Resolved x) ->
         exists vs, x = VVec vs /\
           Forall2 (fun q v => outcome_of w2 q = Some (Resolved v)) [0; 1] vs) /\
      (forall e, outcome_of w2 (length (promises then_store)) = Some (Rejected e) ->
         exists q, q ∈ [0; 1] /\ outcome_of w2 q = Some (Rejected e)) /\
      ((exists q, q ∈ [0; 1] /\ outcome_of w2 q = None) ->
       (forall q e, q ∈ [0; 1] -> outcome_of w2 q <> Some (Rejected e)) ->
       outcome_of w2 (length (promises then_store)) = None)).
Proof.
  split; [apply wf_then_store|].
  split; [apply then_store_valid|].
  split; [discriminate|].
  apply (make_all_result_reflects_inputs then_store [0; 1] (VInt 0)); [apply wf_then_store | apply then_store_valid | discriminate].
Defined.
